(** * Adapter injection, IA3 / LoRA forward passes and quantization
      configuration of the LLMs notebooks

    The notebooks are Python over PyTorch.  The functions they define are
    embedded below as Rocq functions; the PyTorch objects they work on
    ([nn.Module] trees, parameters, tensors) are modelled by the data types
    of the first sections, with the part of the PyTorch behaviour each
    function relies on written out next to it. *)

From Stdlib Require Import List String Ascii Bool Arith ZArith QArith Lia.
From Stdlib Require Import Ring Ring_theory ZArithRing.
Import ListNotations.
Close Scope Q_scope.
Local Open Scope string_scope.
Local Open Scope list_scope.

(* ------------------------------------------------------------------ *)
(** ** Python strings *)
(* ------------------------------------------------------------------ *)

Module PyStr.

(** [key in s] on Python strings: [key] occurs in [s] as a substring. *)
Fixpoint contains (key s : string) : bool :=
  if prefix key s then true
  else match s with
       | EmptyString => false
       | String _ s' => contains key s'
       end.

(** [s.split('.')]: never the empty list, [''.split('.') = ['']]. *)
Fixpoint split_dot (s : string) : list string :=
  match s with
  | EmptyString => [EmptyString]
  | String c s' =>
      if Ascii.eqb c "."%char then EmptyString :: split_dot s'
      else match split_dot s' with
           | [] => [String c EmptyString]
           | h :: t => String c h :: t
           end
  end.

(** [prefix + ('.' if prefix else '') + name], the way PyTorch builds the
    dotted name of a child. *)
Definition join_dot (prefix name : string) : string :=
  match prefix with
  | EmptyString => name
  | _ => prefix ++ "." ++ name
  end.

(** ['.'.join(atoms)]. *)
Fixpoint join_atoms (atoms : list string) : string :=
  match atoms with
  | [] => EmptyString
  | [a] => a
  | a :: rest => a ++ "." ++ join_atoms rest
  end.

(** No ['.'] in the string. *)
Fixpoint dot_free (s : string) : bool :=
  match s with
  | EmptyString => true
  | String c s' => negb (Ascii.eqb c "."%char) && dot_free s'
  end.

End PyStr.
Import PyStr.

(* ------------------------------------------------------------------ *)
(** ** Exceptions and fallible results *)
(* ------------------------------------------------------------------ *)

(** The Python exceptions the modelled code can meet. *)
Inductive Exn : Type :=
| AttributeError (msg : string)
| TypeError (msg : string)
| ValueError (msg : string)
| RuntimeError (msg : string).

(** A call either returns a value or raises. *)
Inductive result (A : Type) : Type :=
| Ok (a : A)
| Raise (e : Exn).
Arguments Ok {A} a.
Arguments Raise {A} e.

Definition bind {A B : Type} (r : result A) (k : A -> result B) : result B :=
  match r with
  | Ok a => k a
  | Raise e => Raise e
  end.

Notation "x <- c ;; k" := (bind c (fun x => k))
  (at level 61, c at next level, right associativity).

(* ------------------------------------------------------------------ *)
(** ** The nn.Module object tree *)
(* ------------------------------------------------------------------ *)

(** A [torch.nn.Parameter] object: [pid] is the identity of the Python
    object (two attributes holding the same object, as with tied weights,
    carry the same [pid]); [requires_grad] is its mutable flag. *)
Record TorchParameter : Type := mkTorchParameter {
  pid : nat;
  requires_grad : bool
}.

(** The two quantization configurations of the Quantization notebook:
    [embedding_qconfig = float_qparams_weight_only_qconfig] and
    [default_qconfig = get_default_qat_qconfig('fbgemm')]. *)
Inductive QConfig : Type :=
| embedding_qconfig
| default_qconfig.

(** An [nn.Module] object.  [_parameters], [_buffers] and [_modules] are the
    three ordered dictionaries PyTorch registers attributes in; [mid] is the
    identity of the object; [isinstance_Embedding] is what
    [isinstance(module, torch.nn.Embedding)] answers; [qconfig] is the plain
    attribute of that name ([None] while it was never assigned), kept
    apart from the three registries: a parameter, buffer or submodule
    registered under the name [qconfig] is not modelled.  A module object
    that is registered at several places of the tree carries the same [mid]
    at each of them.  The functions of this section and of the next ones
    read a model as a tree of objects that each sit at one place
    ([unshared] below); the section on module objects has the same
    functions for shared objects. *)
#[local] Unset Elimination Schemes.
Inductive Module : Type := mkModule {
  mid : nat;
  isinstance_Embedding : bool;
  qconfig : option QConfig;
  _parameters : list (string * TorchParameter);
  _buffers : list (string * nat);
  _modules : list (string * Module)
}.
#[local] Set Elimination Schemes.

(** Induction on module trees: a property holds of a module as soon as it
    holds of every registered child. *)
Section ModuleInduction.
Variable P : Module -> Prop.
Hypothesis step :
  forall i e q ps bs ms,
    Forall (fun nc => P (snd nc)) ms -> P (mkModule i e q ps bs ms).

Fixpoint Module_tree_ind (m : Module) : P m :=
  match m with
  | mkModule i e q ps bs ms =>
      step i e q ps bs ms
           ((fix children (l : list (string * Module))
               : Forall (fun nc => P (snd nc)) l :=
               match l with
               | [] => Forall_nil _
               | nc :: rest =>
                   Forall_cons nc (Module_tree_ind (snd nc)) (children rest)
               end) ms)
  end.
End ModuleInduction.

(** What [getattr] may hand back. *)
Inductive PyObj : Type :=
| ObjParameter (p : TorchParameter)
| ObjBuffer (b : nat)
| ObjModule (m : Module).

Section Dict.
Variable V : Type.

  (** [d[name]] on an ordered dictionary kept as an association list. *)
Fixpoint dict_get (name : string) (d : list (string * V)) : option V :=
    match d with
    | [] => None
    | (k, v) :: rest => if String.eqb name k then Some v else dict_get name rest
    end.

  (** [d[name] = v]: an existing key keeps its position, a new key goes
      last. *)
Fixpoint dict_set (name : string) (v : V) (d : list (string * V))
    : list (string * V) :=
    match d with
    | [] => [(name, v)]
    | (k, w) :: rest =>
        if String.eqb name k then (k, v) :: rest
        else (k, w) :: dict_set name v rest
    end.

  (** [del d[name]] when present. *)
Definition dict_remove (name : string) (d : list (string * V))
    : list (string * V) :=
    filter (fun kv => negb (String.eqb name (fst kv))) d.
End Dict.
Arguments dict_get {V} name d.
Arguments dict_set {V} name v d.
Arguments dict_remove {V} name d.

(** [nn.Module.__getattr__]: parameters, then buffers, then submodules;
    [AttributeError] when the name is in none of them.  This is what
    [getattr(m, name)] gives for a name that is not an attribute of the
    class of [m]; [py_getattr] below asks the class first. *)
Definition getattr (m : Module) (name : string) : result PyObj :=
  match dict_get name (_parameters m) with
  | Some p => Ok (ObjParameter p)
  | None =>
      match dict_get name (_buffers m) with
      | Some b => Ok (ObjBuffer b)
      | None =>
          match dict_get name (_modules m) with
          | Some c => Ok (ObjModule c)
          | None => Raise (AttributeError name)
          end
      end
  end.

(** [nn.Module.__setattr__] with a module as value: a name that is a
    parameter can only be given a parameter, [TypeError] otherwise; any
    other name is dropped from the buffers and registered in [_modules]. *)
Definition setattr (m : Module) (name : string) (value : Module)
  : result Module :=
  match dict_get name (_parameters m) with
  | Some _ => Raise (TypeError name)
  | None =>
      Ok (mkModule (mid m) (isinstance_Embedding m) (qconfig m)
                   (_parameters m)
                   (dict_remove name (_buffers m))
                   (dict_set name value (_modules m)))
  end.

(** The object reached through attribute [name] was mutated in place into
    [child']: seen from the parent, the entry of [_modules] now shows the
    mutated child. *)
Definition with_child (m : Module) (name : string) (child' : Module) : Module :=
  mkModule (mid m) (isinstance_Embedding m) (qconfig m)
           (_parameters m) (_buffers m)
           (dict_set name child' (_modules m)).

(** [nn.Module.named_modules(prefix)] on a model without shared module
    objects: the module itself under [prefix], then every child, depth
    first, in registration order.  Every place of the tree is listed;
    [py_named_modules] below has the memo that lists a shared object
    once. *)
Fixpoint named_modules (prefix : string) (m : Module) : list (string * Module) :=
  (prefix, m) ::
  flat_map (fun nc => named_modules (join_dot prefix (fst nc)) (snd nc))
           (_modules m).

(** [nn.Module.get_submodule(target)] after the split of [target]: every
    atom must name an attribute that is a module. *)
Fixpoint get_submodule_atoms (mod_ : Module) (atoms : list string)
  : result Module :=
  match atoms with
  | [] => Ok mod_
  | item :: rest =>
      match getattr mod_ item with
      | Ok (ObjModule c) => get_submodule_atoms c rest
      | Ok _ => Raise (AttributeError item)
      | Raise e => Raise e
      end
  end.

(** [nn.Module.get_submodule]: the empty target is the module itself. *)
Definition Module_get_submodule (m : Module) (target : string) : result Module :=
  if String.eqb target "" then Ok m
  else get_submodule_atoms m (split_dot target).

(* ------------------------------------------------------------------ *)
(** ** The injection helpers of the fine-tuning notebooks *)
(* ------------------------------------------------------------------ *)

(** [match_submodules(model, key)]: the names of [model.named_modules()]
    that contain [key], in enumeration order. *)
Definition match_submodules (model : Module) (key : string) : list string :=
  map fst (filter (fun nm => contains key (fst nm)) (named_modules "" model)).

(** [get_submodule(model, module_name)]. *)
Definition get_submodule (model : Module) (module_name : string)
  : result Module :=
  Module_get_submodule model module_name.

(** The loop and the final [setattr] of [replace_submodule], on the split
    path: [getattr] along all atoms but the last, [setattr] of the last.
    The walk mutates the object it ends on; the returned module is the
    root as it looks afterwards, in a model without shared module objects:
    what changes is the one place the path leads to
    ([py_replace_submodule] below has the change at every place that holds
    the mutated object).  An attribute that is a tensor has no attributes
    of its own in this model. *)
Fixpoint replace_atoms (parent_module : Module) (modules : list string)
         (new_module : Module) : result Module :=
  match modules with
  | [] => Ok parent_module
  | [last_] => setattr parent_module last_ new_module
  | sub :: rest =>
      match getattr parent_module sub with
      | Ok (ObjModule c) =>
          c' <- replace_atoms c rest new_module ;;
          Ok (with_child parent_module sub c')
      | Ok _ => Raise (AttributeError sub)
      | Raise e => Raise e
      end
  end.

(** [replace_submodule(model, module_path, new_module)]. *)
Definition replace_submodule (model : Module) (module_path : string)
           (new_module : Module) : result Module :=
  replace_atoms model (split_dot module_path) new_module.

(** [module.to(device)]: the same object comes back; where its tensors live
    is not part of the model. *)
Definition Module_to (m : Module) : Module := m.

(** The state [inject_adapter] works on: the model object, which it mutates,
    and its local set [processed_modules]. *)
Record InjectState : Type := mkInjectState {
  st_model : Module;
  st_processed : list string
}.

(** The inner loop of [inject_adapter] (IA3 notebook) over
    [matching_layers].  The outcome is the state the loop leaves, also when
    it stops on an exception, and what it returned or raised. *)
Fixpoint inject_layers (adapter_fn : Module -> result Module)
         (matching_layers : list string) (st : InjectState)
  : InjectState * result unit :=
  match matching_layers with
  | [] => (st, Ok tt)
  | module_path :: rest =>
      if existsb (String.eqb module_path) (st_processed st)
      then inject_layers adapter_fn rest st
      else
        match get_submodule (st_model st) module_path with
        | Raise e => (st, Raise e)
        | Ok current_module =>
            match adapter_fn current_module with
            | Raise e => (st, Raise e)
            | Ok new_module =>
                let new_module := Module_to new_module in
                match replace_submodule (st_model st) module_path new_module with
                | Raise e => (st, Raise e)
                | Ok model' =>
                    inject_layers adapter_fn rest
                      (mkInjectState model' (module_path :: st_processed st))
                end
            end
        end
  end.

(** The outer loop of [inject_adapter] (IA3 notebook): the named modules
    are enumerated anew, on the model as it is by then, for every key. *)
Fixpoint inject_keys (adapter_fn : Module -> result Module)
         (match_on : list string) (st : InjectState)
  : InjectState * result unit :=
  match match_on with
  | [] => (st, Ok tt)
  | key :: keys =>
      let matching_layers := match_submodules (st_model st) key in
      match inject_layers adapter_fn matching_layers st with
      | (st', Ok _) => inject_keys adapter_fn keys st'
      | (st', Raise e) => (st', Raise e)
      end
  end.

(** [inject_adapter(model, match_on, adapter_fn)] of the IA3 notebook: the
    model as the call leaves it, and the outcome of the call. *)
Definition inject_adapter (model : Module) (match_on : list string)
           (adapter_fn : Module -> result Module) : Module * result unit :=
  let '(st, r) := inject_keys adapter_fn match_on (mkInjectState model []) in
  (st_model st, r).

(** [current_module.weight.device] of the LoRA notebook: the attribute
    [weight] must exist and be a tensor. *)
Definition weight_device (current_module : Module) : result unit :=
  match getattr current_module "weight" with
  | Ok (ObjParameter _) => Ok tt
  | Ok (ObjBuffer _) => Ok tt
  | Ok (ObjModule _) => Raise (AttributeError "device")
  | Raise e => Raise e
  end.

(** The inner loop of [inject_adapter] as the LoRA notebook has it: no set
    of processed paths, and the device is read off the replaced module. *)
Fixpoint lora_inject_layers (adapter_fn : Module -> result Module)
         (matching_layers : list string) (model : Module)
  : Module * result unit :=
  match matching_layers with
  | [] => (model, Ok tt)
  | module_path :: rest =>
      match get_submodule model module_path with
      | Raise e => (model, Raise e)
      | Ok current_module =>
          match adapter_fn current_module with
          | Raise e => (model, Raise e)
          | Ok new_module =>
              match weight_device current_module with
              | Raise e => (model, Raise e)
              | Ok _ =>
                  let new_module := Module_to new_module in
                  match replace_submodule model module_path new_module with
                  | Raise e => (model, Raise e)
                  | Ok model' => lora_inject_layers adapter_fn rest model'
                  end
              end
          end
      end
  end.

(** [inject_adapter(model, match_on, adapter_fn)] of the LoRA notebook. *)
Fixpoint lora_inject_adapter (model : Module) (match_on : list string)
         (adapter_fn : Module -> result Module) : Module * result unit :=
  match match_on with
  | [] => (model, Ok tt)
  | key :: keys =>
      let matching_layers := match_submodules model key in
      match lora_inject_layers adapter_fn matching_layers model with
      | (model', Ok _) => lora_inject_adapter model' keys adapter_fn
      | (model', Raise e) => (model', Raise e)
      end
  end.


(* ------------------------------------------------------------------ *)
(** ** Notions used to state the properties *)
(* ------------------------------------------------------------------ *)

(** [xs] is a prefix of [ys], as lists of atoms. *)
Definition is_prefix (xs ys : list string) : Prop :=
  exists rest, ys = xs ++ rest.

(** The same Python object, with the same tensors of its own: only what is
    registered below it in [_modules] may differ. *)
Definition same_object (d d' : Module) : Prop :=
  mid d' = mid d /\
  isinstance_Embedding d' = isinstance_Embedding d /\
  qconfig d' = qconfig d /\
  _parameters d' = _parameters d /\
  _buffers d' = _buffers d.

(** The module [d] first seen at path [p] is still the object found there
    in [model]. *)
Definition kept (p : string) (d : Module) (model : Module) : Prop :=
  exists d', get_submodule model p = Ok d' /\ same_object d d'.

(** The proper prefixes of a list of atoms, the empty one first. *)
Fixpoint proper_prefixes (atoms : list string) : list (list string) :=
  match atoms with
  | [] => []
  | a :: rest => [] :: map (cons a) (proper_prefixes rest)
  end.

(* ------------------------------------------------------------------ *)
(** ** Small models to run the definitions on *)
(* ------------------------------------------------------------------ *)

(** An [nn.Linear]-like leaf: a [weight] parameter, no submodule. *)
Definition toy_linear (i : nat) : Module :=
  mkModule i false None [("weight", mkTorchParameter i false)] [] [].

(** A block holding two projections, itself a child of [toy_model]. *)
Definition toy_block : Module :=
  mkModule 1 false None [] []
           [("q_proj", toy_linear 2); ("k_proj", toy_linear 3)].

Definition toy_model : Module :=
  mkModule 0 false None [] [] [("layers", toy_block); ("head", toy_linear 4)].

(** An adapter in the manner of [IA3Adapter1]: a new module whose only
    child is [existing_layer], with one new parameter. *)
Definition toy_adapter (m : Module) : result Module :=
  Ok (mkModule (100 + mid m) false None
               [("ia3_lw", mkTorchParameter (100 + mid m) true)] []
               [("existing_layer", m)]).

(* ------------------------------------------------------------------ *)
(** ** Well-formed module trees *)
(* ------------------------------------------------------------------ *)

(** A name [add_module] accepts: not empty and without a dot. *)
Definition valid_name (n : string) : bool :=
  negb (String.eqb n "") && dot_free n.

(** [name in d] on a dictionary. *)
Definition has_key {V : Type} (name : string) (d : list (string * V)) : bool :=
  existsb (fun kv => String.eqb name (fst kv)) d.

Fixpoint nodupb (l : list string) : bool :=
  match l with
  | [] => true
  | x :: rest => negb (existsb (String.eqb x) rest) && nodupb rest
  end.

(** What PyTorch keeps true of every module it registers children in: the
    keys of [_modules] are pairwise different valid names, none of them is
    also a parameter or a buffer, and the children are well formed too. *)
Fixpoint wf_module (m : Module) : bool :=
  nodupb (map fst (_modules m)) &&
  forallb (fun nc =>
             valid_name (fst nc) &&
             negb (has_key (fst nc) (_parameters m)) &&
             negb (has_key (fst nc) (_buffers m)) &&
             wf_module (snd nc))
          (_modules m).

(** The modules of the tree with the atoms that lead to them, in the order
    of [named_modules]. *)
Fixpoint named_atoms (m : Module) : list (list string * Module) :=
  ([], m) ::
  flat_map (fun nc => map (fun am => (fst nc :: fst am, snd am))
                          (named_atoms (snd nc)))
           (_modules m).

(** The dotted name [named_modules] gives to the module reached from
    [prefix] through [atoms]. *)
Definition path_of (prefix : string) (atoms : list string) : string :=
  fold_left join_dot atoms prefix.





(** The loop both notebooks run over the matching layers, without the
    bookkeeping that sets them apart: read the module at the path, build
    its replacement, put it in place. *)
Fixpoint replace_sites (adapter_fn : Module -> result Module)
         (matching_layers : list string) (model : Module)
  : Module * result unit :=
  match matching_layers with
  | [] => (model, Ok tt)
  | module_path :: rest =>
      match get_submodule model module_path with
      | Raise e => (model, Raise e)
      | Ok current_module =>
          match adapter_fn current_module with
          | Raise e => (model, Raise e)
          | Ok new_module =>
              match replace_submodule model module_path new_module with
              | Raise e => (model, Raise e)
              | Ok model' => replace_sites adapter_fn rest model'
              end
          end
      end
  end.

(** The adapter function of the LoRA loop together with the device lookup
    that follows it. *)
Definition with_weight_device (adapter_fn : Module -> result Module)
           (current_module : Module) : result Module :=
  new_module <- adapter_fn current_module ;;
  _ <- weight_device current_module ;;
  Ok new_module.

(** Neither list of atoms is a prefix of the other. *)
Definition incomparable (xs ys : list string) : Prop :=
  ~ is_prefix xs ys /\ ~ is_prefix ys xs.

(** A place where a replacement goes through: the path is not the empty one
    and leads to a module without submodules, on which the adapter function
    returns a well-formed module. *)
Definition site (adapter_fn : Module -> result Module) (model : Module)
           (r : string) : Prop :=
  r <> "" /\
  exists x y, get_submodule model r = Ok x /\ _modules x = [] /\
              adapter_fn x = Ok y /\ wf_module y = true.



(** The keys of [match_on] select layers that can be wrapped one by one:
    every module of the model whose name contains a key has no submodule,
    the adapter function returns a well-formed module on it, and no other
    key of the list occurs in the name of that module or in the names of
    what the adapter function puts under it. *)
Definition selects_leaves (model : Module) (match_on : list string)
           (adapter_fn : Module -> result Module) : Prop :=
  forall p x key,
    In (p, x) (named_modules "" model) -> In key match_on ->
    contains key p = true ->
    _modules x = [] /\
    exists y, adapter_fn x = Ok y /\ wf_module y = true /\
              forall key' q z,
                In key' match_on -> key' <> key ->
                In (q, z) (named_modules p y) -> contains key' q = false.

(** [selects_leaves], computed. *)
Definition selects_leavesb (model : Module) (match_on : list string)
           (adapter_fn : Module -> result Module) : bool :=
  forallb
    (fun px =>
       forallb
         (fun key =>
            if contains key (fst px) then
              match _modules (snd px), adapter_fn (snd px) with
              | [], Ok y =>
                  wf_module y &&
                  forallb
                    (fun key' =>
                       String.eqb key' key ||
                       forallb (fun qz => negb (contains key' (fst qz)))
                               (named_modules (fst px) y))
                    match_on
              | _, _ => false
              end
            else true)
         match_on)
    (named_modules "" model).

(** Where the injection stands after the keys [done]: [cur] is the model as
    it is by then, [replaced] the paths replaced so far, all of them paths
    of the model [orig] the call started from. *)
Record injected (orig : Module) (adapter_fn : Module -> result Module)
       (cur : Module) (done replaced : list string) : Prop := mkInjected {
  inj_wf : wf_module cur = true;
  inj_replaced :
    forall r, In r replaced ->
              exists x y key,
                In (r, x) (named_modules "" orig) /\ In key done /\
                contains key r = true /\ adapter_fn x = Ok y /\
                get_submodule cur r = Ok y;
  inj_complete :
    forall p x key,
      In (p, x) (named_modules "" orig) -> In key done ->
      contains key p = true -> In p replaced;
  inj_frame :
    forall ds,
      (forall r, In r replaced -> incomparable (split_dot r) ds) ->
      get_submodule_atoms cur ds = get_submodule_atoms orig ds;
  inj_converse :
    forall ds z,
      get_submodule_atoms cur ds = Ok z ->
      (exists r, In r replaced /\ is_prefix (split_dot r) ds) \/
      exists z0, get_submodule_atoms orig ds = Ok z0
}.
Arguments inj_wf {orig adapter_fn cur done replaced} _.
Arguments inj_replaced {orig adapter_fn cur done replaced} _ r _.
Arguments inj_complete {orig adapter_fn cur done replaced} _ p x key _ _ _.
Arguments inj_frame {orig adapter_fn cur done replaced} _ ds _.
Arguments inj_converse {orig adapter_fn cur done replaced} _ ds z _.



(** A call of [inject_adapter] that left [out] did what it is meant to: the
    call returned; every module of the model whose name contains a key is
    replaced by what the adapter function made of it; every other module
    of the model is the object it was. *)
Definition replaces_matches (model : Module) (match_on : list string)
           (adapter_fn : Module -> result Module)
           (out : Module * result unit) : Prop :=
  snd out = Ok tt /\
  (forall p x,
      In (p, x) (named_modules "" model) ->
      (exists key, In key match_on /\ contains key p = true) ->
      exists y, adapter_fn x = Ok y /\ get_submodule (fst out) p = Ok y) /\
  (forall p x,
      In (p, x) (named_modules "" model) ->
      (forall key, In key match_on -> contains key p = false) ->
      exists x', get_submodule (fst out) p = Ok x' /\ same_object x x').



(* ------------------------------------------------------------------ *)
(** ** Loops that mutate every module object *)
(* ------------------------------------------------------------------ *)

(** [for ... in model.named_modules(): <mutate the module>], for a mutation
    [f] of the module's own attributes: every object of the tree is visited
    once and mutated in place, so that afterwards the tree has the same
    shape with every node mutated. *)
Fixpoint for_each_module (f : Module -> Module) (m : Module) : Module :=
  mkModule (mid (f m)) (isinstance_Embedding (f m)) (qconfig (f m))
           (_parameters (f m)) (_buffers (f m))
           (map (fun nc => (fst nc, for_each_module f (snd nc))) (_modules m)).

(** [module.qconfig = value]. *)
Definition set_qconfig (value : QConfig) (module : Module) : Module :=
  mkModule (mid module) (isinstance_Embedding module) (Some value)
           (_parameters module) (_buffers module) (_modules module).

(** The body of the loop of [set_qconfig_for_model]. *)
Definition assign_qconfig (module : Module) : Module :=
  if isinstance_Embedding module
  then set_qconfig embedding_qconfig module
  else set_qconfig default_qconfig module.

(** [set_qconfig_for_model(model)] of the Quantization notebook. *)
Definition set_qconfig_for_model (model : Module) : Module :=
  for_each_module assign_qconfig model.

(* ------------------------------------------------------------------ *)
(** ** Parameters and [mark_only_lora_as_trainable] *)
(* ------------------------------------------------------------------ *)

(** The members [named_parameters] walks through, before it drops the
    objects it has already seen: for every module of [named_modules], its
    [_parameters] under their dotted names. *)
Definition named_members (model : Module) : list (string * TorchParameter) :=
  flat_map (fun pm => map (fun kv => (join_dot (fst pm) (fst kv), snd kv))
                          (_parameters (snd pm)))
           (named_modules "" model).

(** The [memo] set of [_named_members]: an object that was seen is
    skipped, under whatever name it comes again. *)
Fixpoint drop_seen (memo : list nat) (members : list (string * TorchParameter))
  : list (string * TorchParameter) :=
  match members with
  | [] => []
  | (name, v) :: rest =>
      if existsb (Nat.eqb (pid v)) memo then drop_seen memo rest
      else (name, v) :: drop_seen (pid v :: memo) rest
  end.

(** [model.named_parameters()]. *)
Definition named_parameters (model : Module) : list (string * TorchParameter) :=
  drop_seen [] (named_members model).

(** [model.parameters()]. *)
Definition parameters (model : Module) : list TorchParameter :=
  map snd (named_parameters model).

(** [param.requires_grad = b] seen from one attribute: it shows the new
    flag when it holds the object [i]. *)
Definition set_flag (i : nat) (b : bool) (v : TorchParameter) : TorchParameter :=
  if Nat.eqb (pid v) i then mkTorchParameter (pid v) b else v.

(** [param.requires_grad = b] for the parameter object [i]: every attribute
    of the model that holds this object shows the new flag. *)
Definition set_requires_grad (i : nat) (b : bool) (model : Module) : Module :=
  for_each_module
    (fun m => mkModule (mid m) (isinstance_Embedding m) (qconfig m)
                       (map (fun kv => (fst kv, set_flag i b (snd kv)))
                            (_parameters m))
                       (_buffers m) (_modules m))
    model.

(** The test of the second loop of [mark_only_lora_as_trainable]. *)
Definition is_lora_name (name : string) : bool :=
  contains "lora_A" name || contains "lora_B" name.

(** [mark_only_lora_as_trainable(model)] of the LoRA notebook. *)
Definition mark_only_lora_as_trainable (model : Module) : Module :=
  let model :=
    fold_left (fun mdl param => set_requires_grad (pid param) false mdl)
              (parameters model) model in
  fold_left (fun mdl np =>
               if is_lora_name (fst np)
               then set_requires_grad (pid (snd np)) true mdl
               else mdl)
            (named_parameters model) model.

(** A model with a tied weight: the embedding and the head hold the same
    parameter object, and one projection is wrapped by a LoRA adapter. *)
Definition toy_lora_model : Module :=
  mkModule 0 false None [] []
    [("embed", mkModule 1 true None [("weight", mkTorchParameter 10 true)] [] []);
     ("q_proj",
      mkModule 2 false None
               [("lora_A", mkTorchParameter 11 false);
                ("lora_B", mkTorchParameter 12 false)] []
               [("existing_layer",
                 mkModule 3 false None [("weight", mkTorchParameter 13 true)] [] [])]);
     ("lm_head", mkModule 4 false None [("weight", mkTorchParameter 10 true)] [] [])].

(** A mutation [g] of parameter objects, seen on a named member. *)
Definition on_member (g : TorchParameter -> TorchParameter)
           (np : string * TorchParameter) : string * TorchParameter :=
  (fst np, g (snd np)).

(** The flag [b] on the objects whose identity is in [ids]. *)
Definition flag_where (ids : list nat) (b : bool) (v : TorchParameter)
  : TorchParameter :=
  if existsb (Nat.eqb (pid v)) ids then mkTorchParameter (pid v) b else v.

(* ------------------------------------------------------------------ *)
(** ** Tensors *)
(* ------------------------------------------------------------------ *)

(** The numbers a tensor holds, with the two operations the forward passes
    use.  The notebooks run on floating-point numbers; the properties below
    are about exact arithmetic, rounding is not modelled.  The tensors of
    this section are entries and shapes: the operations are those of
    PyTorch on tensors of one dtype that live on one device.  Dtype and
    device come with [TypedTensor] below. *)
Class Scalar (R : Type) : Type := mkScalar {
  zero : R;
  one : R;
  add : R -> R -> R;
  mul : R -> R -> R
}.

(** The integers as scalars, to run the definitions. *)
#[export] Instance Z_Scalar : Scalar Z := mkScalar Z 0%Z 1%Z Z.add Z.mul.

(** A tensor: its [shape] and its entries in row-major order, cut into the
    rows of the last dimension.  A tensor of shape [(d1, ..., dk, n)] has
    [d1 * ... * dk] rows of length [n]; a 1-D tensor has one row; a 0-D
    tensor has the empty shape and one row with its only entry. *)
Record Tensor (R : Type) : Type := mkTensor {
  shape : list nat;
  rows : list (list R)
}.
Arguments mkTensor {R} shape rows.
Arguments shape {R} t.
Arguments rows {R} t.

(** The size of the last dimension; a 0-D tensor counts as one entry. *)
Definition last_dim (s : list nat) : nat := last s 1.

(** Every row has the length the shape announces. *)
Definition well_shaped {R : Type} (t : Tensor R) : Prop :=
  Forall (fun row => List.length row = last_dim (shape t)) (rows t).

(** Broadcasting of two shapes, both given last dimension first. *)
Fixpoint broadcast_rev (a b : list nat) : option (list nat) :=
  match a, b with
  | [], _ => Some b
  | _, [] => Some a
  | x :: a', y :: b' =>
      match broadcast_rev a' b' with
      | None => None
      | Some s =>
          if Nat.eqb x y then Some (x :: s)
          else if Nat.eqb x 1 then Some (y :: s)
          else if Nat.eqb y 1 then Some (x :: s)
          else None
      end
  end.

(** [torch.broadcast_shapes(a, b)]. *)
Definition broadcast_shapes (a b : list nat) : option (list nat) :=
  option_map (@rev nat) (broadcast_rev (rev a) (rev b)).

Section TensorOps.
Context {R : Type} {S : Scalar R}.

Fixpoint zip_with (f : R -> R -> R) (u v : list R) : list R :=
  match u, v with
  | x :: u', y :: v' => f x y :: zip_with f u' v'
  | _, _ => []
  end.

(** The sum of the entrywise products. *)
Definition dot (u v : list R) : R :=
  fold_right add zero (zip_with mul u v).

(** Row-major data cut into rows of length [k]. *)
Fixpoint chunk (fuel k : nat) (data : list R) : list (list R) :=
  match fuel with
  | 0 => []
  | Datatypes.S fuel' =>
      match data with
      | [] => []
      | _ => firstn k data :: chunk fuel' k (skipn k data)
      end
  end.

(** The rows of a tensor of shape [s] with the given entries. *)
Definition rows_of (s : list nat) (data : list R) : list (list R) :=
  match s with
  | [] => [data]
  | [_] => [data]
  | _ => chunk (List.length data) (last_dim s) data
  end.

(** [t.view(-1)] as the list of its entries. *)
Definition view_flat (t : Tensor R) : list R := List.concat (rows t).

(** [t.view(-1, k)]. *)
Definition view_rows (t : Tensor R) (k : nat) : result (Tensor R) :=
  let data := view_flat t in
  if Nat.eqb k 0 then Raise (RuntimeError "view")
  else if Nat.eqb (List.length data mod k) 0
       then Ok (mkTensor [List.length data / k; k]
                         (rows_of [List.length data / k; k] data))
       else Raise (RuntimeError "view").

(** [t.squeeze()]: the dimensions of size one are dropped. *)
Definition squeeze (t : Tensor R) : Tensor R :=
  let s := filter (fun d => negb (Nat.eqb d 1)) (shape t) in
  mkTensor s (rows_of s (view_flat t)).

(** One row of [torch.mul] under broadcasting of the last dimension: [na]
    and [nb] are the sizes of the last dimension of the two operands. *)
Definition mul_rows (na nb : nat) (ra rb : list R) : list R :=
  if Nat.eqb na nb then zip_with mul ra rb
  else if Nat.eqb na 1 then map (mul (hd zero ra)) rb
  else map (fun v => mul v (hd zero rb)) ra.

(** [torch.mul(a, b)] for a second operand that is one row (all its
    dimensions but the last are 1, as for the IA3 scaling vector): the
    shapes are broadcast, every row of [a] is multiplied by the row of
    [b].  A second operand of another kind does not occur in the
    notebooks and is not modelled: the function answers it with the error
    of shapes that do not broadcast, and nothing below is about such a
    product. *)
Definition torch_mul (a b : Tensor R) : result (Tensor R) :=
  if forallb (Nat.eqb 1) (removelast (shape b)) then
    match broadcast_shapes (shape a) (shape b) with
    | Some s =>
        Ok (mkTensor s
              (map (fun ra => mul_rows (last_dim (shape a)) (last_dim (shape b))
                                       ra (hd [] (rows b)))
                   (rows a)))
    | None => Raise (RuntimeError "broadcast")
    end
  else Raise (RuntimeError "broadcast").

(** [torch.ones((1, n))]. *)
Definition ones_row (n : nat) : Tensor R := mkTensor [1; n] [repeat one n].

(** [torch.diag(v)] of a 1-D tensor given by its entries. *)
Definition torch_diag (v : list R) : Tensor R :=
  let n := List.length v in
  mkTensor [n; n]
           (map (fun i => map (fun k => if Nat.eqb i k then nth i v zero else zero)
                              (seq 0 n))
                (seq 0 n)).

(** Column [j] of a 2-D tensor. *)
Definition column (j : nat) (b : Tensor R) : list R :=
  map (fun rb => nth j rb zero) (rows b).

(** [a @ b] and [torch.matmul(a, b)] of two 2-D tensors, the only case in
    the notebooks. *)
Definition matmul (a b : Tensor R) : result (Tensor R) :=
  match shape a, shape b with
  | [m; k], [k'; n] =>
      if Nat.eqb k k'
      then Ok (mkTensor [m; n]
                 (map (fun ra => map (fun j => dot ra (column j b)) (seq 0 n))
                      (rows a)))
      else Raise (RuntimeError "matmul")
  | _, _ => Raise (RuntimeError "matmul")
  end.

(** [t.T] of a 2-D tensor. *)
Definition transpose (t : Tensor R) : result (Tensor R) :=
  match shape t with
  | [m; n] => Ok (mkTensor [n; m] (map (fun j => column j t) (seq 0 n)))
  | _ => Raise (RuntimeError "T")
  end.

(** [t * c] for a Python number [c]. *)
Definition scale (t : Tensor R) (c : R) : Tensor R :=
  mkTensor (shape t) (map (map (fun v => mul v c)) (rows t)).

(** [a + b] of two tensors of one shape, which is what the adapters add;
    the broadcasting of unequal shapes is not modelled and gives an error
    here. *)
Definition torch_add (a b : Tensor R) : result (Tensor R) :=
  if list_eq_dec Nat.eq_dec (shape a) (shape b)
  then Ok (mkTensor (shape a)
             (map (fun rr => zip_with add (fst rr) (snd rr))
                  (combine (rows a) (rows b))))
  else Raise (RuntimeError "add").

(** One row of [F.linear]: the products with the rows of the weight, plus
    the bias. *)
Definition linear_row (W : list (list R)) (b : option (list R)) (x : list R)
  : list R :=
  match b with
  | None => map (fun w => dot x w) W
  | Some bv => zip_with add (map (fun w => dot x w) W) bv
  end.

(** [F.linear(input, weight, bias)]: [weight] of shape [(out, in)], [input]
    of shape [(..., in)], [bias] absent or of shape [(out)]. *)
Definition F_linear (input weight : Tensor R) (bias : option (Tensor R))
  : result (Tensor R) :=
  match shape weight with
  | [out_features; in_features] =>
      if match shape input with
         | [] => false
         | _ => Nat.eqb (last_dim (shape input)) in_features
         end
      then
        match bias with
        | None =>
            Ok (mkTensor (removelast (shape input) ++ [out_features])
                         (map (linear_row (rows weight) None) (rows input)))
        | Some b =>
            if list_eq_dec Nat.eq_dec (shape b) [out_features]
            then Ok (mkTensor (removelast (shape input) ++ [out_features])
                       (map (linear_row (rows weight) (Some (hd [] (rows b))))
                            (rows input)))
            else Raise (RuntimeError "linear")
        end
      else Raise (RuntimeError "linear")
  | _ => Raise (RuntimeError "linear")
  end.

(** An [nn.Linear] layer: its weight and its optional bias. *)
Record Linear : Type := mkLinear {
  weight : Tensor R;
  bias : option (Tensor R)
}.

(** [nn.Linear.forward]. *)
Definition Linear_forward (layer : Linear) (x : Tensor R) : result (Tensor R) :=
  F_linear x (weight layer) (bias layer).

End TensorOps.
Arguments Linear R : clear implicits.

(* ------------------------------------------------------------------ *)
(** ** The IA3 adapters *)
(* ------------------------------------------------------------------ *)

Module IA3Adapter1.
Section Def.
Context {R : Type} {S : Scalar R}.

(** An [IA3Adapter1] object.  [existing_layer] is the wrapped module, seen
    through its forward pass. *)
Record t : Type := mk {
  existing_layer : Tensor R -> result (Tensor R);
  is_feedforward : bool;
  in_features : nat;
  out_features : nat;
  ia3_lw : Tensor R;
  ia3_lr : R
}.

(** [IA3Adapter1.__init__]: the scaling vector starts as all ones, of
    shape [(1, out_features)], or [(1, in_features)] for a feed-forward
    layer. *)
Definition __init__ (existing_layer : Tensor R -> result (Tensor R))
           (in_features out_features : nat) (ia3_lr : R)
           (is_feedforward : bool) : t :=
  mk existing_layer is_feedforward in_features out_features
     (if negb is_feedforward then ones_row out_features
      else ones_row in_features)
     ia3_lr.

(** [IA3Adapter1.forward]. *)
Definition forward (self : t) (x : Tensor R) : result (Tensor R) :=
  if negb (is_feedforward self) then
    result_ <- existing_layer self x ;;
    torch_mul result_ (ia3_lw self)
  else
    result_ <- torch_mul x (ia3_lw self) ;;
    existing_layer self result_.
End Def.
Arguments t R : clear implicits.
End IA3Adapter1.

Module IA3Adapter2.
Section Def.
Context {R : Type} {S : Scalar R}.

(** An [IA3Adapter2] object; the wrapped layer is a linear layer. *)
Record t : Type := mk {
  existing_layer : Linear R;
  is_feedforward : bool;
  in_features : nat;
  out_features : nat;
  ia3_lw : Tensor R;
  ia3_lr : R
}.

(** Modelled from the spec: [get_weight], which [IA3Adapter2] calls and the
    notebook does not define (it belongs to the CLAM abstraction the class
    is part of), returns the weight [W] of the wrapped linear layer. *)
Definition get_weight (self : t) : Tensor R := weight (existing_layer self).

(** Modelled from the spec: [get_bias], absent from the notebook like
    [get_weight], returns the bias [b] of the wrapped linear layer, or
    [None]. *)
Definition get_bias (self : t) : option (Tensor R) := bias (existing_layer self).

(** [IA3Adapter2.get_equivalent_weight]. *)
Definition get_equivalent_weight (self : t) : result (Tensor R) :=
  let mat := get_weight self in
  if negb (is_feedforward self)
  then matmul (torch_diag (view_flat (ia3_lw self))) mat
  else matmul mat (torch_diag (view_flat (ia3_lw self))).

(** [IA3Adapter2.get_equivalent_bias]. *)
Definition get_equivalent_bias (self : t) : result (option (Tensor R)) :=
  match get_bias self with
  | None => Ok None
  | Some mat =>
      if negb (is_feedforward self) then
        ret_bias <- torch_mul mat (squeeze (ia3_lw self)) ;;
        Ok (Some ret_bias)
      else Ok (Some mat)
  end.

(** [IA3Adapter2.forward]. *)
Definition forward (self : t) (x : Tensor R) : result (Tensor R) :=
  w <- get_equivalent_weight self ;;
  b <- get_equivalent_bias self ;;
  F_linear x w b.
End Def.
Arguments t R : clear implicits.
End IA3Adapter2.

(* ------------------------------------------------------------------ *)
(** ** The LoRA adapter *)
(* ------------------------------------------------------------------ *)

Module LoRAAdapter.
Section Def.
Context {R : Type} {S : Scalar R}.

(** A [LoRAAdapter] object.  [scaling] is [lora_alpha / r] as [__init__]
    stores it; [lora_dropout] is the identity when the dropout rate is 0
    and an [nn.Dropout] otherwise.  With [r = 0] the attributes [lora_A],
    [lora_B] and [scaling] do not exist and are never read. *)
Record t : Type := mk {
  existing_layer : Tensor R -> result (Tensor R);
  r : nat;
  lora_alpha : nat;
  scaling : R;
  lora_A : Tensor R;
  lora_B : Tensor R;
  lora_dropout : Tensor R -> Tensor R
}.

(** [x.to(torch.bfloat16)] on the entries: the same entries, rounding left
    out.  (The dtype itself, and the error of a matrix product between
    dtypes, are in [Typed.LoRAAdapter].) *)
Definition to_bfloat16 (x : Tensor R) : Tensor R := x.

(** [LoRAAdapter.forward]. *)
Definition forward (self : t) (x : Tensor R) : result (Tensor R) :=
  if Nat.ltb 0 (r self) then
    match shape x with
    | [batch_size; seq_len; in_features] =>
        x <- view_rows x in_features ;;
        let x := to_bfloat16 x in
        xT <- transpose x ;;
        lora_out <- matmul (lora_A self) xT ;;
        lora_out <- matmul (lora_B self) lora_out ;;
        lora_outT <- transpose lora_out ;;
        let lora_out := scale lora_outT (scaling self) in
        let lora_out := lora_dropout self lora_out in
        base <- existing_layer self x ;;
        torch_add base lora_out
    | _ => Raise (ValueError "unpack")
    end
  else existing_layer self x.
End Def.
Arguments t R : clear implicits.
End LoRAAdapter.

(* ------------------------------------------------------------------ *)
(** ** Small tensors to run the forward passes on *)
(* ------------------------------------------------------------------ *)

(** A linear layer with one input and one output feature, weight 1, no
    bias. *)
Definition toy_layer : Linear Z :=
  mkLinear (mkTensor [1; 1] [[1%Z]]) None.

(** A 1-D input with its only entry 5. *)
Definition toy_vector : Tensor Z := mkTensor [1] [[5%Z]].

(** A linear layer with 2 input and 3 output features, with a bias. *)
Definition toy_layer23 : Linear Z :=
  mkLinear (mkTensor [3; 2] [[1; 2]; [3; 4]; [5; 6]]%Z)
           (Some (mkTensor [3] [[1; 1; 2]]%Z)).

(** A batch of shape [(2, 1, 2)]. *)
Definition toy_batch : Tensor Z := mkTensor [2; 1; 2] [[1; 2]; [3; 4]]%Z.

(** A tensor with at least two dimensions whose last dimension is [n]:
    the kind of input a layer of a transformer receives. *)
Definition batched {R : Type} (t : Tensor R) (n : nat) : Prop :=
  well_shaped t /\ 2 <= List.length (shape t) /\ last_dim (shape t) = n.

(** A linear layer with [in_features] inputs and [out_features] outputs:
    the weight has shape [(out_features, in_features)] and the bias, when
    there is one, shape [(out_features)]. *)
Definition linear_layer {R : Type} (layer : Linear R)
           (in_features out_features : nat) : Prop :=
  shape (weight layer) = [out_features; in_features] /\
  List.length (rows (weight layer)) = out_features /\
  well_shaped (weight layer) /\
  match bias layer with
  | None => True
  | Some b =>
      shape b = [out_features] /\
      exists bv, rows b = [bv] /\ List.length bv = out_features
  end.

(** The IA3 scaling vector with entries [l], of shape [(1, len(l))]. *)
Definition scaling_vector {R : Type} (l : list R) : Tensor R :=
  mkTensor [1; List.length l] [l].



(** A LoRA adapter around [toy_layer23], of rank 1 and scaling 1, with the
    identity as dropout. *)
Definition toy_lora : LoRAAdapter.t Z :=
  LoRAAdapter.mk (Linear_forward toy_layer23) 1 1 1%Z
                 (mkTensor [1; 2] [[1; 1]]%Z)
                 (mkTensor [3; 1] [[1]; [2]; [3]]%Z)
                 (fun x => x).

(** The same adapter with rank 0. *)
Definition toy_lora_rank0 : LoRAAdapter.t Z :=
  LoRAAdapter.mk (Linear_forward toy_layer23) 0 1 0%Z
                 (mkTensor [0; 2] []) (mkTensor [3; 0] [[]; []; []])
                 (fun x => x).

(** An input of shape [(batch = 2, sequence = 2, features = 2)]. *)
Definition toy_sequence : Tensor Z :=
  mkTensor [2; 2; 2] [[1; 2]; [3; 4]; [5; 6]; [7; 8]]%Z.

(* ------------------------------------------------------------------ *)
(** ** The memory computations *)
(* ------------------------------------------------------------------ *)

(** The element types of the first cell of the Quantization notebook. *)
Inductive DType : Type := float32 | float16 | int8.

(** [tensor.element_size()], in bytes. *)
Definition element_size (d : DType) : Z :=
  match d with
  | float32 => 4
  | float16 => 2
  | int8 => 1
  end%Z.

(** [tensor.nelement()] and [tensor.numel()] of a tensor of the given
    shape. *)
Definition nelement (s : list nat) : Z :=
  fold_right Z.mul 1%Z (map Z.of_nat s).

(** One run of the notebooks: the machine it runs on, the dataset it
    loads, and the tensor [torch.randn(100, 100)] draws in it. *)
Record Run : Type := mkRun {
  hardware : string;
  dataset : string;
  randn_100_100 : Tensor Q
}.

(** [tensor.to(dtype=...)], [torch.quantize_per_tensor(...)] and
    [.int_repr()] give a tensor of the same shape; the entries do not
    enter the byte counts and are left as they are. *)
Definition converted (tensor : Tensor Q) : Tensor Q := tensor.

(** The first cell of the Quantization notebook: the three byte counts it
    prints, for float32, float16 and int8. *)
Definition tensor_memory_cell (run : Run) : Z * Z * Z :=
  let tensor := randn_100_100 run in
  let tensor_fp16 := converted tensor in
  let tensor_int8 := converted tensor in
  ((element_size float32 * nelement (shape tensor))%Z,
   (element_size float16 * nelement (shape tensor_fp16))%Z,
   (element_size int8 * nelement (shape tensor_int8))%Z).

(** The byte count [total_memory_bytes] inside
    [calculate_memory_kv_down_proj]; [hidden_dim_kv] is the global the
    function reads. *)
Definition total_memory_bytes (hidden_dim_kv : Z)
           (batch_size seq_len hidden_dim intermediate_dim : Z) : Z :=
  (let bytes_per_float := 2 in
   let kv_proj_memory_bytes :=
     batch_size * seq_len * hidden_dim_kv * bytes_per_float * 2 in
   let down_proj_memory_bytes :=
     (batch_size * seq_len * intermediate_dim + batch_size * seq_len * hidden_dim)
     * bytes_per_float in
   kv_proj_memory_bytes + down_proj_memory_bytes)%Z.

(** [calculate_memory_kv_down_proj]: the byte count divided by [1024 ** 3],
    as the exact quotient. *)
Definition calculate_memory_kv_down_proj (hidden_dim_kv : Z)
           (batch_size seq_len hidden_dim intermediate_dim : Z) : Q :=
  Qdiv (inject_Z (total_memory_bytes hidden_dim_kv batch_size seq_len
                                     hidden_dim intermediate_dim))
       (inject_Z (1024 ^ 3)).

(** The value the notebook gives the global before the call. *)
Definition hidden_dim_kv : Z := 256%Z.

(** The call of [calculate_memory_kv_down_proj] in a run of the notebook. *)
Definition run_calculate_memory (run : Run)
           (batch_size seq_len hidden_dim intermediate_dim : Z) : Z * Q :=
  (total_memory_bytes hidden_dim_kv batch_size seq_len hidden_dim
                      intermediate_dim,
   calculate_memory_kv_down_proj hidden_dim_kv batch_size seq_len hidden_dim
                                 intermediate_dim).

(** What C8 says: two runs over the same tensor shape and the same
    arguments whose byte counts differ. *)
Definition byte_counts_differ : Prop :=
  exists (run1 run2 : Run) (batch_size seq_len hidden_dim intermediate_dim : Z),
    shape (randn_100_100 run1) = shape (randn_100_100 run2) /\
    (tensor_memory_cell run1 <> tensor_memory_cell run2 \/
     run_calculate_memory run1 batch_size seq_len hidden_dim intermediate_dim
     <> run_calculate_memory run2 batch_size seq_len hidden_dim intermediate_dim).

(* ------------------------------------------------------------------ *)
(** ** The functions of the notebooks as sequences of fallible operations *)
(* ------------------------------------------------------------------ *)

(** For the handling of exceptions what matters of a function is which
    operations it performs in which order, and what it does when one of
    them raises.  Here every function the notebooks define is written as
    that sequence.  Python values are opaque; every operation on them
    (the evaluation of a global name, an attribute access, a call, an
    operator, a step of an iteration, a truth test) is a callee that
    changes the world and returns or raises.  A run records the exceptions
    its callees raised. *)
Module Skeleton.

(** The Python runtime and the libraries, as far as a notebook function can
    see them. *)
Class PyRuntime : Type := mkPyRuntime {
  World : Type;
  Value : Type;
  (** a named operation or function applied to arguments *)
  python : string -> list Value -> World -> World * result Value;
  (** [next(it)], [None] when the iterator is exhausted *)
  py_next : Value -> World -> World * result (option Value);
  (** the truth value of an object, as [if] and [not] take it *)
  py_truth : Value -> World -> World * result bool;
  (** literals *)
  str : string -> Value;
  num : Q -> Value;
  none : Value;
  (** a keyword argument *)
  kw : string -> Value -> Value;
  (** what leaving [with torch.no_grad()] does: the gradient mode is set
      back; it returns [None], so that an exception of the body goes on *)
  no_grad_exit : World -> World;
  (** a bound on the number of turns of every loop *)
  fuel : nat
}.

Section Def.
Context {rt : PyRuntime}.

(** A run: the world it leaves, the exceptions its callees raised, in
    order, and how it ended. *)
Definition M (A : Type) : Type := World -> World * list Exn * result A.

Definition ret {A : Type} (a : A) : M A := fun w => (w, [], Ok a).

Definition bind {A B : Type} (m : M A) (k : A -> M B) : M B :=
  fun w =>
    match m w with
    | (w', log, Ok a) =>
        match k a w' with
        | (w'', log', r) => (w'', log ++ log', r)
        end
    | (w', log, Raise e) => (w', log, Raise e)
    end.

(** A callee is run and what it raises is recorded. *)
Definition observe {A : Type} (c : World -> World * result A) : M A :=
  fun w =>
    match c w with
    | (w', Ok v) => (w', [], Ok v)
    | (w', Raise e) => (w', [e], Raise e)
    end.

End Def.

Notation "x <~ c ;; k" := (bind c (fun x => k))
  (at level 61, c at next level, right associativity).

Section Functions.
Context {rt : PyRuntime}.

Definition call (name : string) (args : list Value) : M Value :=
  observe (python name args).
Definition next (it : Value) : M (option Value) := observe (py_next it).
Definition truth (v : Value) : M bool := observe (py_truth v).

(** The evaluation of a global or dotted name, [torch.mul] say. *)
Definition name (n : string) : M Value := call "name" [str n].
Definition getattr (o : Value) (n : string) : M Value :=
  call "getattr" [o; str n].
Definition setattr (o : Value) (n : string) (v : Value) : M Value :=
  call "setattr" [o; str n; v].
Definition getitem (o k : Value) : M Value := call "getitem" [o; k].
(** [f(args)]. *)
Definition invoke (f : Value) (args : list Value) : M Value :=
  call "call" (f :: args).
(** [o.n(args)]. *)
Definition method (o : Value) (n : string) (args : list Value) : M Value :=
  f <~ getattr o n ;; invoke f args.
(** [n(args)] for a global or dotted name [n]. *)
Definition apply (n : string) (args : list Value) : M Value :=
  f <~ name n ;; invoke f args.
(** [a op b]. *)
Definition binop (op : string) (a b : Value) : M Value := call op [a; b].
(** [a, b = v]. *)
Definition unpack2 (v : Value) : M (Value * Value) :=
  t <~ call "unpack" [v; num 2] ;;
  a <~ getitem t (num 0) ;;
  b <~ getitem t (num 1) ;;
  ret (a, b).

(** The turns of a [for] loop over the iterator [it]: [body] gets the local
    variables and the item and returns the local variables and whether it
    left the loop by [break]. *)
Fixpoint iterate {L : Type} (n : nat) (it : Value)
         (body : L -> Value -> M (L * bool)) (locals : L) : M L :=
  match n with
  | 0 => ret locals
  | Datatypes.S n' =>
      x <~ next it ;;
      match x with
      | None => ret locals
      | Some v =>
          r <~ body locals v ;;
          if snd r then ret (fst r) else iterate n' it body (fst r)
      end
  end.

(** [for item in iterable: body]. *)
Definition for_in {L : Type} (iterable : Value)
           (body : L -> Value -> M (L * bool)) (locals : L) : M L :=
  it <~ call "iter" [iterable] ;;
  iterate fuel it body locals.

(** [with torch.no_grad(): body]. *)
Definition with_no_grad {A : Type} (body : M A) : M A :=
  cm <~ apply "torch.no_grad" [] ;;
  _ <~ method cm "__enter__" [] ;;
  fun w =>
    match body w with
    | (w', log, r) => (no_grad_exit w', log, r)
    end.

(** *** The IA3 notebook *)

Definition IA3Adapter1__init__
           (self existing_layer in_features out_features ia3_lr is_feedforward
            : Value) : M Value :=
  _ <~ apply "nn.Module.__init__" [self] ;;
  moved <~ method existing_layer "to" [str "cuda"] ;;
  _ <~ setattr self "existing_layer" moved ;;
  _ <~ setattr self "is_feedforward" is_feedforward ;;
  _ <~ setattr self "in_features" in_features ;;
  _ <~ setattr self "out_features" out_features ;;
  ff <~ truth is_feedforward ;;
  size <~ call "tuple" [num 1; if negb ff then out_features else in_features] ;;
  ones <~ apply "torch.ones" [size; kw "device" (str "cuda")] ;;
  lw <~ apply "nn.Parameter" [ones] ;;
  _ <~ setattr self "ia3_lw" lw ;;
  lw <~ getattr self "ia3_lw" ;;
  _ <~ apply "nn.init.ones_" [lw] ;;
  _ <~ setattr self "ia3_lr" ia3_lr ;;
  ret none.

Definition IA3Adapter1_forward (self x : Value) : M Value :=
  ff <~ getattr self "is_feedforward" ;;
  ff <~ truth ff ;;
  if negb ff then
    layer <~ getattr self "existing_layer" ;;
    result_ <~ invoke layer [x] ;;
    lw <~ getattr self "ia3_lw" ;;
    apply "torch.mul" [result_; lw]
  else
    lw <~ getattr self "ia3_lw" ;;
    result_ <~ apply "torch.mul" [x; lw] ;;
    layer <~ getattr self "existing_layer" ;;
    invoke layer [result_].

Definition ia3_params (model : Value) : M Value :=
  params <~ method model "parameters" [] ;;
  total_params <~ for_in params
    (fun total_params param =>
       n <~ method param "numel" [] ;;
       total_params <~ binop "+=" total_params n ;;
       ret (total_params, false))
    (num 0) ;;
  named <~ method model "named_parameters" [] ;;
  trainable_params <~ for_in named
    (fun trainable_params item =>
       np <~ unpack2 item ;;
       c <~ binop "in" (str "ia3_lw") (fst np) ;;
       c <~ truth c ;;
       if c then
         n <~ method (snd np) "numel" [] ;;
         trainable_params <~ binop "+=" trainable_params n ;;
         ret (trainable_params, false)
       else ret (trainable_params, false))
    (num 0) ;;
  call "tuple" [total_params; trainable_params].

Definition match_submodules (model key : Value) : M Value :=
  matching_layers <~ call "list" [] ;;
  named <~ method model "named_modules" [] ;;
  _ <~ for_in named
    (fun (_ : unit) item =>
       nm <~ unpack2 item ;;
       c <~ binop "in" key (fst nm) ;;
       c <~ truth c ;;
       if c then
         _ <~ method matching_layers "append" [fst nm] ;;
         ret (tt, false)
       else ret (tt, false))
    tt ;;
  ret matching_layers.

Definition get_submodule (model module_name : Value) : M Value :=
  method model "get_submodule" [module_name].

Definition replace_submodule (model module_path new_module : Value) : M Value :=
  modules <~ method module_path "split" [str "."] ;;
  sl <~ call "slice" [none; num (-1)] ;;
  init <~ getitem modules sl ;;
  parent_module <~ for_in init
    (fun parent_module sub =>
       parent_module <~ apply "getattr" [parent_module; sub] ;;
       ret (parent_module, false))
    model ;;
  last_ <~ getitem modules (num (-1)) ;;
  _ <~ apply "setattr" [parent_module; last_; new_module] ;;
  ret none.

Definition inject_adapter (model match_on adapter_fn : Value) : M Value :=
  processed_modules <~ apply "set" [] ;;
  _ <~ for_in match_on
    (fun (_ : unit) key =>
       matching_layers <~ match_submodules model key ;;
       _ <~ for_in matching_layers
         (fun (_ : unit) module_path =>
            c <~ binop "in" module_path processed_modules ;;
            c <~ truth c ;;
            if c then ret (tt, false)
            else
              current_module <~ get_submodule model module_path ;;
              new_module <~ invoke adapter_fn [current_module] ;;
              device <~ name "device" ;;
              new_module <~ method new_module "to" [device] ;;
              _ <~ replace_submodule model module_path new_module ;;
              _ <~ method processed_modules "add" [module_path] ;;
              ret (tt, false))
         tt ;;
       ret (tt, false))
    tt ;;
  ret none.

Definition IA3Adapter2__init__
           (self existing_layer in_features out_features ia3_lr is_feedforward
            : Value) : M Value :=
  _ <~ apply "nn.Module.__init__" [self] ;;
  _ <~ setattr self "existing_layer" existing_layer ;;
  _ <~ setattr self "is_feedforward" is_feedforward ;;
  _ <~ setattr self "in_features" in_features ;;
  _ <~ setattr self "out_features" out_features ;;
  ff <~ truth is_feedforward ;;
  size <~ call "tuple" [num 1; if negb ff then out_features else in_features] ;;
  ones <~ apply "torch.ones" [size; kw "device" (str "cuda")] ;;
  lw <~ apply "nn.Parameter" [ones] ;;
  _ <~ setattr self "ia3_lw" lw ;;
  lw <~ getattr self "ia3_lw" ;;
  _ <~ apply "nn.init.ones_" [lw] ;;
  _ <~ setattr self "ia3_lr" ia3_lr ;;
  ret none.

Definition IA3Adapter2_get_equivalent_weight (self : Value) : M Value :=
  mat <~ method self "get_weight" [] ;;
  ff <~ getattr self "is_feedforward" ;;
  ff <~ truth ff ;;
  lw <~ getattr self "ia3_lw" ;;
  flat <~ method lw "view" [num (-1)] ;;
  d <~ apply "torch.diag" [flat] ;;
  if negb ff then binop "@" d mat else binop "@" mat d.

Definition IA3Adapter2_get_equivalent_bias (self : Value) : M Value :=
  mat <~ method self "get_bias" [] ;;
  c <~ binop "is" mat none ;;
  c <~ truth c ;;
  if c then ret none
  else
    ff <~ getattr self "is_feedforward" ;;
    ff <~ truth ff ;;
    if negb ff then
      lw <~ getattr self "ia3_lw" ;;
      sq <~ method lw "squeeze" [] ;;
      apply "torch.mul" [mat; sq]
    else ret mat.

Definition IA3Adapter2_forward (self x : Value) : M Value :=
  w <~ IA3Adapter2_get_equivalent_weight self ;;
  b <~ IA3Adapter2_get_equivalent_bias self ;;
  apply "F.linear" [x; w; b].

Definition calculate_memory_kv_down_proj
           (batch_size seq_len hidden_dim intermediate_dim : Value) : M Value :=
  let bytes_per_float := num 2 in
  a <~ binop "*" batch_size seq_len ;;
  kv <~ name "hidden_dim_kv" ;;
  a <~ binop "*" a kv ;;
  a <~ binop "*" a bytes_per_float ;;
  kv_proj_memory_bytes <~ binop "*" a (num 2) ;;
  b <~ binop "*" batch_size seq_len ;;
  b <~ binop "*" b intermediate_dim ;;
  c <~ binop "*" batch_size seq_len ;;
  c <~ binop "*" c hidden_dim ;;
  s <~ binop "+" b c ;;
  down_proj_memory_bytes <~ binop "*" s bytes_per_float ;;
  total_memory_bytes <~ binop "+" kv_proj_memory_bytes down_proj_memory_bytes ;;
  gb <~ binop "**" (num 1024) (num 3) ;;
  binop "/" total_memory_bytes gb.

(** *** The LoRA notebook *)

Definition LoRALayer__init__ (self r lora_alpha lora_dropout : Value) : M Value :=
  _ <~ setattr self "r" r ;;
  _ <~ setattr self "lora_alpha" lora_alpha ;;
  c <~ binop ">" lora_dropout (num 0) ;;
  c <~ truth c ;;
  if c then
    d <~ apply "nn.Dropout" [kw "p" lora_dropout] ;;
    _ <~ setattr self "lora_dropout" d ;;
    ret none
  else
    f <~ call "lambda" [str "x: x"] ;;
    _ <~ setattr self "lora_dropout" f ;;
    ret none.

Definition LoRAAdapter_reset_parameters (self : Value) : M Value :=
  r <~ getattr self "r" ;;
  c <~ binop ">" r (num 0) ;;
  c <~ truth c ;;
  if c then
    a <~ getattr self "lora_A" ;;
    _ <~ apply "nn.init.normal_" [a; kw "mean" (num 0); kw "std" (num 1)] ;;
    b <~ getattr self "lora_B" ;;
    _ <~ apply "nn.init.zeros_" [b] ;;
    ret none
  else ret none.

Definition LoRAAdapter__init__
           (self existing_layer in_features out_features r lora_alpha
            lora_dropout : Value) : M Value :=
  _ <~ apply "nn.Module.__init__" [self] ;;
  _ <~ LoRALayer__init__ self r lora_alpha lora_dropout ;;
  _ <~ setattr self "existing_layer" existing_layer ;;
  _ <~ setattr self "r" r ;;
  c <~ binop ">" r (num 0) ;;
  c <~ truth c ;;
  _ <~ (if c then
          a <~ apply "torch.randn" [r; in_features] ;;
          a <~ apply "nn.Parameter" [a] ;;
          _ <~ setattr self "lora_A" a ;;
          b <~ apply "torch.zeros" [out_features; r] ;;
          b <~ apply "nn.Parameter" [b] ;;
          _ <~ setattr self "lora_B" b ;;
          alpha <~ getattr self "lora_alpha" ;;
          r' <~ getattr self "r" ;;
          s <~ binop "/" alpha r' ;;
          setattr self "scaling" s
        else ret none) ;;
  LoRAAdapter_reset_parameters self.

Definition LoRAAdapter_train (self mode : Value) : M Value :=
  layer <~ getattr self "existing_layer" ;;
  _ <~ method layer "train" [mode] ;;
  ret none.

Definition LoRAAdapter_forward (self x : Value) : M Value :=
  r <~ getattr self "r" ;;
  c <~ binop ">" r (num 0) ;;
  c <~ truth c ;;
  if c then
    s <~ getattr x "shape" ;;
    dims <~ call "unpack" [s; num 3] ;;
    in_features <~ getitem dims (num 2) ;;
    x <~ method x "view" [num (-1); in_features] ;;
    bf16 <~ name "torch.bfloat16" ;;
    x <~ method x "to" [bf16] ;;
    a <~ getattr self "lora_A" ;;
    xT <~ getattr x "T" ;;
    lora_out <~ apply "torch.matmul" [a; xT] ;;
    b <~ getattr self "lora_B" ;;
    lora_out <~ apply "torch.matmul" [b; lora_out] ;;
    lora_outT <~ getattr lora_out "T" ;;
    scaling <~ getattr self "scaling" ;;
    lora_out <~ binop "*" lora_outT scaling ;;
    dropout <~ getattr self "lora_dropout" ;;
    lora_out <~ invoke dropout [lora_out] ;;
    layer <~ getattr self "existing_layer" ;;
    base <~ invoke layer [x] ;;
    binop "+" base lora_out
  else
    layer <~ getattr self "existing_layer" ;;
    invoke layer [x].

Definition mark_only_lora_as_trainable (model : Value) : M Value :=
  params <~ method model "parameters" [] ;;
  _ <~ for_in params
    (fun (_ : unit) param =>
       f <~ name "False" ;;
       _ <~ setattr param "requires_grad" f ;;
       ret (tt, false))
    tt ;;
  named <~ method model "named_parameters" [] ;;
  _ <~ for_in named
    (fun (_ : unit) item =>
       np <~ unpack2 item ;;
       c <~ binop "in" (str "lora_A") (fst np) ;;
       c <~ truth c ;;
       c <~ (if c then ret true
             else c' <~ binop "in" (str "lora_B") (fst np) ;; truth c') ;;
       if c then
         t <~ name "True" ;;
         _ <~ setattr (snd np) "requires_grad" t ;;
         ret (tt, false)
       else ret (tt, false))
    tt ;;
  ret none.

Definition lora_inject_adapter (model match_on adapter_fn : Value) : M Value :=
  _ <~ for_in match_on
    (fun (_ : unit) key =>
       matching_layers <~ match_submodules model key ;;
       _ <~ for_in matching_layers
         (fun (_ : unit) module_path =>
            current_module <~ get_submodule model module_path ;;
            new_module <~ invoke adapter_fn [current_module] ;;
            weight_ <~ getattr current_module "weight" ;;
            device <~ getattr weight_ "device" ;;
            new_module <~ method new_module "to" [device] ;;
            _ <~ replace_submodule model module_path new_module ;;
            ret (tt, false))
         tt ;;
       ret (tt, false))
    tt ;;
  ret none.

Definition tokenize_function (examples : Value) : M Value :=
  tok <~ name "causal_tokenizer" ;;
  text <~ getitem examples (str "text") ;;
  result_ <~ invoke tok [text; kw "padding" (str "max_length");
                         kw "truncation" (num 1); kw "max_length" (num 256)] ;;
  ids <~ getitem result_ (str "input_ids") ;;
  copy <~ method ids "copy" [] ;;
  _ <~ call "setitem" [result_; str "labels"; copy] ;;
  ret result_.

Definition finetune_causal_model
           (model train_dataset epochs learning_rate : Value) : M Value :=
  tokenize_fn <~ call "def" [str "tokenize_function"] ;;
  train_dataset <~ apply "Dataset.from_dict" [train_dataset] ;;
  tokenized_dataset <~
    method train_dataset "map" [tokenize_fn; kw "batched" (num 1)] ;;
  tok <~ name "causal_tokenizer" ;;
  data_collator <~
    apply "DataCollatorForLanguageModeling" [tok; kw "mlm" (num 0)] ;;
  training_args <~
    apply "TrainingArguments"
      [kw "output_dir" (str "./model_output");
       kw "per_device_train_batch_size" (num 8);
       kw "learning_rate" learning_rate;
       kw "weight_decay" (num (1 # 100));
       kw "num_train_epochs" epochs] ;;
  trainer <~
    apply "Trainer"
      [kw "model" model; kw "args" training_args;
       kw "train_dataset" tokenized_dataset;
       kw "eval_dataset" tokenized_dataset;
       kw "data_collator" data_collator] ;;
  _ <~ method trainer "train" [] ;;
  ret none.

Definition split_into_chunks (text chunk_size : Value) : M Value :=
  n <~ apply "len" [text] ;;
  rng <~ apply "range" [num 0; n; chunk_size] ;;
  chunks <~ call "list" [] ;;
  _ <~ for_in rng
    (fun (_ : unit) i =>
       j <~ binop "+" i chunk_size ;;
       sl <~ call "slice" [i; j] ;;
       piece <~ getitem text sl ;;
       _ <~ method chunks "append" [piece] ;;
       ret (tt, false))
    tt ;;
  ret chunks.

Definition calc_perplexity (model encodings stride : Value) : M Value :=
  let max_length := num 1024 in
  ids <~ getattr encodings "input_ids" ;;
  seq_len <~ method ids "size" [num 1] ;;
  nlls <~ call "list" [] ;;
  rng <~ apply "range" [num 0; seq_len; stride] ;;
  bar <~ apply "tqdm" [rng] ;;
  _ <~ for_in bar
    (fun prev_end_loc begin_loc =>
       e <~ binop "+" begin_loc max_length ;;
       end_loc <~ apply "min" [e; seq_len] ;;
       trg_len <~ binop "-" end_loc prev_end_loc ;;
       ids <~ getattr encodings "input_ids" ;;
       all_ <~ call "slice" [none; none] ;;
       sl <~ call "slice" [begin_loc; end_loc] ;;
       idx <~ call "tuple" [all_; sl] ;;
       piece <~ getitem ids idx ;;
       input_ids <~ method piece "to" [str "cuda"] ;;
       target_ids <~ method input_ids "clone" [] ;;
       neg <~ call "neg" [trg_len] ;;
       all_ <~ call "slice" [none; none] ;;
       sl <~ call "slice" [none; neg] ;;
       idx <~ call "tuple" [all_; sl] ;;
       _ <~ call "setitem" [target_ids; idx; num (-100)] ;;
       neg_log_likelihood <~
         with_no_grad
           (outputs <~ invoke model [input_ids; kw "labels" target_ids] ;;
            getattr outputs "loss") ;;
       _ <~ method nlls "append" [neg_log_likelihood] ;;
       let prev_end_loc := end_loc in
       c <~ binop "==" end_loc seq_len ;;
       c <~ truth c ;;
       ret (prev_end_loc, c))
    (num 0) ;;
  stacked <~ apply "torch.stack" [nlls] ;;
  mean <~ method stacked "mean" [] ;;
  apply "torch.exp" [mean].

(** *** The Quantization notebook *)

Definition apply_dynamic_quantization (model : Value) : M Value :=
  _ <~ method model "eval" [] ;;
  linear <~ name "torch.nn.Linear" ;;
  classes <~ call "set" [linear] ;;
  qint8 <~ name "torch.qint8" ;;
  model <~ apply "torch.quantization.quantize_dynamic"
                 [model; classes; kw "dtype" qint8] ;;
  method model "to" [str "cpu"].

(** [batch[c]] for each of the columns, from left to right. *)
Fixpoint batch_columns (batch : Value) (columns : list string) : M (list Value) :=
  match columns with
  | [] => ret []
  | c :: columns' =>
      v <~ getitem batch (str c) ;;
      vs <~ batch_columns batch columns' ;;
      ret (v :: vs)
  end.

(** The turn of the evaluation loops, for the batch columns [columns] that
    go to the tokenizer. *)
Definition evaluate_batch (model all_predictions all_labels : Value)
           (columns : list string) (batch : Value) : M (unit * bool) :=
  tok <~ name "tokenizer" ;;
  texts <~ batch_columns batch columns ;;
  inputs <~ invoke tok (texts ++ [kw "return_tensors" (str "pt");
                                  kw "padding" (num 1);
                                  kw "truncation" (num 1)]) ;;
  labels <~ getitem batch (str "label") ;;
  outputs <~ invoke model [kw "**" inputs] ;;
  logits <~ getattr outputs "logits" ;;
  logits' <~ getattr outputs "logits" ;;
  predictions <~ apply "torch.argmax" [logits'; kw "dim" (num 1)] ;;
  p <~ method predictions "cpu" [] ;;
  p <~ method p "numpy" [] ;;
  _ <~ method all_predictions "extend" [p] ;;
  l <~ method labels "cpu" [] ;;
  l <~ method l "numpy" [] ;;
  _ <~ method all_labels "extend" [l] ;;
  ret (tt, false).

(** [evaluate_model] of the post-training quantization part. *)
Definition evaluate_model (model data_loader : Value) : M Value :=
  _ <~ method model "eval" [] ;;
  all_predictions <~ call "list" [] ;;
  all_labels <~ call "list" [] ;;
  _ <~ with_no_grad
         (for_in data_loader
                 (fun (_ : unit) batch =>
                    evaluate_batch model all_predictions all_labels
                                   ["text"] batch)
                 tt) ;;
  accuracy <~ apply "accuracy_score" [all_labels; all_predictions] ;;
  f1 <~ apply "f1_score"
              [all_labels; all_predictions; kw "average" (str "weighted")] ;;
  report <~ apply "classification_report" [all_labels; all_predictions] ;;
  call "tuple" [accuracy; f1; report].

Definition train_model (model train_dataloader num_epochs : Value) : M Value :=
  _ <~ method model "train" [] ;;
  rng <~ apply "range" [num_epochs] ;;
  _ <~ for_in rng
    (fun (_ : unit) epoch =>
       total_loss <~ for_in train_dataloader
         (fun total_loss batch =>
            tok <~ name "tokenizer" ;;
            s1 <~ getitem batch (str "sentence1") ;;
            s2 <~ getitem batch (str "sentence2") ;;
            inputs <~ invoke tok [s1; s2; kw "return_tensors" (str "pt");
                                  kw "padding" (num 1);
                                  kw "truncation" (num 1)] ;;
            labels <~ getitem batch (str "label") ;;
            outputs <~ invoke model [kw "**" inputs; kw "labels" labels] ;;
            loss <~ getattr outputs "loss" ;;
            _ <~ method loss "backward" [] ;;
            item <~ method loss "item" [] ;;
            total_loss <~ binop "+=" total_loss item ;;
            ret (total_loss, false))
         (num 0) ;;
       n <~ apply "len" [train_dataloader] ;;
       avg_loss <~ binop "/" total_loss n ;;
       e <~ binop "+" epoch (num 1) ;;
       msg <~ call "format" [str "Epoch {}/{}, Loss: {:.4f}";
                             e; num_epochs; avg_loss] ;;
       _ <~ apply "print" [msg] ;;
       ret (tt, false))
    tt ;;
  ret none.

(** [evaluate_model] of the quantization-aware training part, which
    redefines the first one. *)
Definition evaluate_model_qat (model eval_dataloader : Value) : M Value :=
  _ <~ method model "eval" [] ;;
  all_predictions <~ call "list" [] ;;
  all_labels <~ call "list" [] ;;
  _ <~ with_no_grad
         (for_in eval_dataloader
                 (fun (_ : unit) batch =>
                    evaluate_batch model all_predictions all_labels
                                   ["sentence1"; "sentence2"] batch)
                 tt) ;;
  accuracy <~ apply "accuracy_score" [all_labels; all_predictions] ;;
  msg <~ call "format" [str "Accuracy: {}"; accuracy] ;;
  _ <~ apply "print" [msg] ;;
  ret none.

Definition set_qconfig_for_model (model : Value) : M Value :=
  named <~ method model "named_modules" [] ;;
  _ <~ for_in named
    (fun (_ : unit) item =>
       nm <~ unpack2 item ;;
       cls <~ name "torch.nn.Embedding" ;;
       c <~ apply "isinstance" [snd nm; cls] ;;
       c <~ truth c ;;
       if c then
         q <~ name "embedding_qconfig" ;;
         _ <~ setattr (snd nm) "qconfig" q ;;
         ret (tt, false)
       else
         q <~ name "default_qconfig" ;;
         _ <~ setattr (snd nm) "qconfig" q ;;
         ret (tt, false))
    tt ;;
  ret none.

(** *** Every function the notebooks define *)

(** A call of a function of the notebooks, with its arguments. *)
Inductive NotebookCall : Type :=
| call_IA3Adapter1__init__ (self existing_layer in_features out_features
                            ia3_lr is_feedforward : Value)
| call_IA3Adapter1_forward (self x : Value)
| call_ia3_params (model : Value)
| call_match_submodules (model key : Value)
| call_get_submodule (model module_name : Value)
| call_replace_submodule (model module_path new_module : Value)
| call_inject_adapter (model match_on adapter_fn : Value)
| call_IA3Adapter2__init__ (self existing_layer in_features out_features
                            ia3_lr is_feedforward : Value)
| call_IA3Adapter2_forward (self x : Value)
| call_IA3Adapter2_get_equivalent_weight (self : Value)
| call_IA3Adapter2_get_equivalent_bias (self : Value)
| call_calculate_memory_kv_down_proj (batch_size seq_len hidden_dim
                                      intermediate_dim : Value)
| call_LoRALayer__init__ (self r lora_alpha lora_dropout : Value)
| call_LoRAAdapter__init__ (self existing_layer in_features out_features r
                            lora_alpha lora_dropout : Value)
| call_LoRAAdapter_reset_parameters (self : Value)
| call_LoRAAdapter_train (self mode : Value)
| call_LoRAAdapter_forward (self x : Value)
| call_mark_only_lora_as_trainable (model : Value)
| call_lora_inject_adapter (model match_on adapter_fn : Value)
| call_tokenize_function (examples : Value)
| call_finetune_causal_model (model train_dataset epochs learning_rate : Value)
| call_split_into_chunks (text chunk_size : Value)
| call_calc_perplexity (model encodings stride : Value)
| call_apply_dynamic_quantization (model : Value)
| call_evaluate_model (model data_loader : Value)
| call_train_model (model train_dataloader num_epochs : Value)
| call_evaluate_model_qat (model eval_dataloader : Value)
| call_set_qconfig_for_model (model : Value).

(** The run of a call. *)
Definition run (c : NotebookCall) : M Value :=
  match c with
  | call_IA3Adapter1__init__ self l i o lr ff =>
      IA3Adapter1__init__ self l i o lr ff
  | call_IA3Adapter1_forward self x => IA3Adapter1_forward self x
  | call_ia3_params model => ia3_params model
  | call_match_submodules model key => match_submodules model key
  | call_get_submodule model n => get_submodule model n
  | call_replace_submodule model p m => replace_submodule model p m
  | call_inject_adapter model keys f => inject_adapter model keys f
  | call_IA3Adapter2__init__ self l i o lr ff =>
      IA3Adapter2__init__ self l i o lr ff
  | call_IA3Adapter2_forward self x => IA3Adapter2_forward self x
  | call_IA3Adapter2_get_equivalent_weight self =>
      IA3Adapter2_get_equivalent_weight self
  | call_IA3Adapter2_get_equivalent_bias self =>
      IA3Adapter2_get_equivalent_bias self
  | call_calculate_memory_kv_down_proj b s h i =>
      calculate_memory_kv_down_proj b s h i
  | call_LoRALayer__init__ self r a d => LoRALayer__init__ self r a d
  | call_LoRAAdapter__init__ self l i o r a d =>
      LoRAAdapter__init__ self l i o r a d
  | call_LoRAAdapter_reset_parameters self => LoRAAdapter_reset_parameters self
  | call_LoRAAdapter_train self mode => LoRAAdapter_train self mode
  | call_LoRAAdapter_forward self x => LoRAAdapter_forward self x
  | call_mark_only_lora_as_trainable model => mark_only_lora_as_trainable model
  | call_lora_inject_adapter model keys f => lora_inject_adapter model keys f
  | call_tokenize_function examples => tokenize_function examples
  | call_finetune_causal_model model d e lr => finetune_causal_model model d e lr
  | call_split_into_chunks text n => split_into_chunks text n
  | call_calc_perplexity model enc stride => calc_perplexity model enc stride
  | call_apply_dynamic_quantization model => apply_dynamic_quantization model
  | call_evaluate_model model dl => evaluate_model model dl
  | call_train_model model dl n => train_model model dl n
  | call_evaluate_model_qat model dl => evaluate_model_qat model dl
  | call_set_qconfig_for_model model => set_qconfig_for_model model
  end.

(** *** What it means to let exceptions through *)

(** A callee raised [e] during the run of [m] from the world [w]. *)
Definition raised_by_callee {A : Type} (m : M A) (w : World) (e : Exn) : Prop :=
  In e (snd (fst (m w))).

(** How the run of [m] from the world [w] ends for the caller. *)
Definition outcome {A : Type} (m : M A) (w : World) : result A := snd (m w).

(** The exceptions the caller gets are exactly the exceptions the callees
    raise: whatever a callee raises comes out unchanged, and nothing else
    does. *)
Definition propagates {A : Type} (m : M A) : Prop :=
  forall w e, raised_by_callee m w e <-> outcome m w = Raise e.

(** The record of a run that lets exceptions through: empty when it
    returns, the exception itself when it raises. *)
Definition exact_log {A : Type} (m : M A) : Prop :=
  forall w,
    match m w with
    | (_, log, Ok _) => log = []
    | (_, log, Raise e) => log = [e]
    end.

(** What [try: ... except: pass] would be, which the notebooks do not
    have; it serves to see that [propagates] can fail. *)
Definition swallow (m : M Value) : M Value :=
  fun w =>
    match m w with
    | (w', log, Raise _) => (w', log, Ok none)
    | other => other
    end.

End Functions.
End Skeleton.

(* ------------------------------------------------------------------ *)
(** ** Python ranges and slices, and the chunks of the training text *)
(* ------------------------------------------------------------------ *)

(** [range(start, stop, step)] as the list of the numbers it runs through;
    a zero step is a [ValueError]. *)
Definition py_range (start stop step : Z) : result (list Z) :=
  if (step =? 0)%Z then Raise (ValueError "range() arg 3 must not be zero")
  else
    let n :=
      if (0 <? step)%Z
      then if (start <? stop)%Z then ((stop - start - 1) / step + 1)%Z else 0%Z
      else if (stop <? start)%Z then ((start - stop - 1) / (- step) + 1)%Z
           else 0%Z in
    Ok (map (fun k => (start + Z.of_nat k * step)%Z) (seq 0 (Z.to_nat n))).

(** What a slice makes of one of its bounds on a sequence of length [len]:
    a negative bound counts from the end, and both are clipped. *)
Definition slice_bound (i len : Z) : Z :=
  if (i <? 0)%Z then Z.max (i + len) 0 else Z.min i len.

(** [l[i:j]]. *)
Definition py_slice {A : Type} (l : list A) (i j : Z) : list A :=
  let len := Z.of_nat (List.length l) in
  let i' := slice_bound i len in
  let j' := slice_bound j len in
  firstn (Z.to_nat (j' - i')) (skipn (Z.to_nat i') l).

(** [split_into_chunks(text, chunk_size)] of the LoRA notebook; [text] is
    any sequence, a string in the notebook. *)
Definition split_into_chunks {A : Type} (text : list A) (chunk_size : Z)
  : result (list (list A)) :=
  starts <- py_range 0 (Z.of_nat (List.length text)) chunk_size ;;
  Ok (map (fun i => py_slice text i (i + chunk_size)) starts).

(** The number of chunks of a text of length [len] for a chunk size [c]:
    [len] over [c], rounded up. *)
Definition chunk_count (len c : nat) : nat := (len + c - 1) / c.

(** The value the notebook gives [chunk_size]. *)
Definition chunk_size : Z := 256%Z.

(** The loop of the notebook over the examples of the dataset:
    [chunks.extend(split_into_chunks(text, chunk_size))] for the text of
    every example. *)
Fixpoint extend_chunks {A : Type} (dataset : list (list A))
         (chunks : list (list A)) : result (list (list A)) :=
  match dataset with
  | [] => Ok chunks
  | text :: rest =>
      text_chunks <- split_into_chunks text chunk_size ;;
      extend_chunks rest (chunks ++ text_chunks)
  end.

(** [processed_train_dataset['text']]: [chunks[:len(chunks)//10]]. *)
Definition processed_train_dataset {A : Type} (dataset : list (list A))
  : result (list (list A)) :=
  chunks <- extend_chunks dataset [] ;;
  Ok (py_slice chunks 0 (Z.of_nat (List.length chunks) / 10)).

(* ------------------------------------------------------------------ *)
(** ** The windows of [calc_perplexity] *)
(* ------------------------------------------------------------------ *)

(** [encodings.input_ids]: the 2-D tensor of token ids the tokenizer
    returns, of shape [(batch, seq_len)], given by its rows. *)
Record TokenIds : Type := mkTokenIds {
  ids_seq_len : nat;
  ids_rows : list (list Z)
}.

(** Every row has [seq_len] entries. *)
Definition rectangular (encodings : TokenIds) : Prop :=
  Forall (fun row => List.length row = ids_seq_len encodings)
         (ids_rows encodings).

(** The label the loss skips. *)
Definition ignore_index : Z := (-100)%Z.

(** [target_ids[:, :-trg_len] = -100] on one row. *)
Definition mask_row (trg_len : Z) (row : list Z) : list Z :=
  let k := Z.to_nat (slice_bound (- trg_len) (Z.of_nat (List.length row))) in
  repeat ignore_index k ++ skipn k row.

Definition max_length : Z := 1024%Z.

Section Perplexity.
Context {L P : Type}.
(** [model(input_ids, labels=target_ids).loss], on the rows of the two
    tensors. *)
Variable model : list (list Z) -> list (list Z) -> L.
(** [torch.exp(torch.stack(nlls).mean())] on a list that is not empty. *)
Variable exp_mean : list L -> P.

(** The loop of [calc_perplexity] over the begin locations, with its local
    variables [prev_end_loc] and [nlls]; it stops at the first window that
    reaches the end of the sequence. *)
Fixpoint perplexity_loop (begins : list Z) (input_ids : list (list Z))
         (seq_len prev_end_loc : Z) (nlls : list L) : list L :=
  match begins with
  | [] => nlls
  | begin_loc :: rest =>
      let end_loc := Z.min (begin_loc + max_length) seq_len in
      let trg_len := (end_loc - prev_end_loc)%Z in
      let window := map (fun row => py_slice row begin_loc end_loc) input_ids in
      let target_ids := map (mask_row trg_len) window in
      let nlls := nlls ++ [model window target_ids] in
      if (end_loc =? seq_len)%Z then nlls
      else perplexity_loop rest input_ids seq_len end_loc nlls
  end.

(** [calc_perplexity(model, encodings, stride)]; [torch.stack] refuses an
    empty list. *)
Definition calc_perplexity (encodings : TokenIds) (stride : Z) : result P :=
  let seq_len := Z.of_nat (ids_seq_len encodings) in
  begins <- py_range 0 seq_len stride ;;
  match perplexity_loop begins (ids_rows encodings) seq_len 0 [] with
  | [] => Raise (RuntimeError "stack expects a non-empty TensorList")
  | nlls => Ok (exp_mean nlls)
  end.
End Perplexity.

(** The labels of a row that the loss does not skip. *)
Definition scored (labels : list Z) : list Z :=
  filter (fun t => negb (t =? ignore_index)%Z) labels.

(** The windows the loop goes through, as (begin, end, previous end). *)
Fixpoint windows (begins : list Z) (seq_len prev_end_loc : Z)
  : list (Z * Z * Z) :=
  match begins with
  | [] => []
  | begin_loc :: rest =>
      let end_loc := Z.min (begin_loc + max_length) seq_len in
      (begin_loc, end_loc, prev_end_loc) ::
      if (end_loc =? seq_len)%Z then [] else windows rest seq_len end_loc
  end.

(** What the model is called on for a window: the columns of the window,
    and the same with the labels before the previous end masked. *)
Definition window_call {L : Type} (model : list (list Z) -> list (list Z) -> L)
           (input_ids : list (list Z)) (w : Z * Z * Z) : L :=
  let '(begin_loc, end_loc, prev_end_loc) := w in
  let window := map (fun row => py_slice row begin_loc end_loc) input_ids in
  model window (map (mask_row (end_loc - prev_end_loc)) window).

(** The begin locations from [b] on, [m] of them. *)
Definition begins_from (b stride : Z) (m : nat) : list Z :=
  map (fun k => (b + Z.of_nat k * stride)%Z) (seq 0 m).

(** The entries of a row from position [p] up to position [e]. *)
Definition segment (row : list Z) (p e : Z) : list Z :=
  firstn (Z.to_nat (e - p)) (skipn (Z.to_nat p) row).

(* ------------------------------------------------------------------ *)
(** ** Counting parameters *)
(* ------------------------------------------------------------------ *)

Section Counting.
(** [param.numel()], for the parameter object of a given identity. *)
Variable numel : nat -> nat.

(** [ia3_params(model)] of the IA3 notebook: the pair
    [(total_params, trainable_params)]. *)
Definition ia3_params (model : Module) : nat * nat :=
  let total_params :=
    fold_left (fun total param => total + numel (pid param))
              (parameters model) 0 in
  let trainable_params :=
    fold_left (fun trainable np =>
                 if contains "ia3_lw" (fst np)
                 then trainable + numel (pid (snd np))
                 else trainable)
              (named_parameters model) 0 in
  (total_params, trainable_params).

(** The cell of the LoRA notebook after the injection:
    [sum(p.numel() for p in model.parameters())] and
    [sum(p.numel() for p in model.parameters() if p.requires_grad)]. *)
Definition count_parameters (model : Module) : nat * nat :=
  (fold_left Nat.add (map (fun p => numel (pid p)) (parameters model)) 0,
   fold_left Nat.add
             (map (fun p => numel (pid p))
                  (filter requires_grad (parameters model))) 0).
End Counting.

(* ------------------------------------------------------------------ *)
(** ** The construction of a LoRA adapter *)
(* ------------------------------------------------------------------ *)

Section LoRAInit.
Context {R : Type} {S : Scalar R}.

(** [torch.zeros(m, n)]. *)
Definition torch_zeros (m n : nat) : Tensor R :=
  mkTensor [m; n] (repeat (repeat zero n) m).

(** [nn.Dropout(p)] on a tensor: every entry is multiplied by a factor, 0
    or [1/(1-p)] in training mode and 1 in evaluation mode; [factor i j]
    is the factor that the call at hand draws for entry [j] of row [i]. *)
Definition nn_Dropout (factor : nat -> nat -> R) (t : Tensor R) : Tensor R :=
  mkTensor (shape t)
    (map (fun ir =>
            map (fun jv => mul (snd jv) (factor (fst ir) (fst jv)))
                (combine (seq 0 (List.length (snd ir))) (snd ir)))
         (combine (seq 0 (List.length (rows t))) (rows t))).

(** [LoRALayer.__init__], its choice of [self.lora_dropout]: an
    [nn.Dropout] for a positive rate ([Some] of the factors it draws), the
    identity otherwise. *)
Definition LoRALayer_lora_dropout (dropout : option (nat -> nat -> R))
  : Tensor R -> Tensor R :=
  match dropout with
  | Some factor => nn_Dropout factor
  | None => fun x => x
  end.

(** [LoRAAdapter.__init__] followed by the [reset_parameters] it ends
    with: [lora_A] holds the draw [normal] of [nn.init.normal_], [lora_B]
    is all zeros, and [scaling] is [lora_alpha / r], given here as
    [alpha_over_r].  (With [r = 0] these three attributes are not created;
    [forward] does not read them then.) *)
Definition LoRAAdapter__init__
           (existing_layer : Tensor R -> result (Tensor R))
           (in_features out_features r lora_alpha : nat)
           (dropout : option (nat -> nat -> R))
           (normal : list (list R)) (alpha_over_r : R) : LoRAAdapter.t R :=
  LoRAAdapter.mk existing_layer r lora_alpha alpha_over_r
                 (mkTensor [r; in_features] normal)
                 (torch_zeros out_features r)
                 (LoRALayer_lora_dropout dropout).
End LoRAInit.

(* ------------------------------------------------------------------ *)
(** ** Training mode *)
(* ------------------------------------------------------------------ *)

(** The modules of a model as far as the training mode goes: the flag
    [training] of every module object.  A [LoRAAdapter] has its wrapped
    layer as a child and, when it was built with a positive dropout rate,
    the [nn.Dropout] that [LoRALayer.__init__] registers as
    [lora_dropout], given by its flag; any other module has the children
    it has. *)
#[local] Unset Elimination Schemes.
Inductive TrainModule : Type :=
| OtherModule (training : bool) (children : list TrainModule)
| LoRAAdapterModule (training : bool) (existing_layer : TrainModule)
                    (lora_dropout : option bool).
#[local] Set Elimination Schemes.

(** [module.train(mode)].  [nn.Module.train] sets the flag of the module
    and calls [train(mode)] on every child; [LoRAAdapter] overrides it
    with [self.existing_layer.train(mode)] and nothing else. *)
Fixpoint train (mode : bool) (module : TrainModule) : TrainModule :=
  match module with
  | OtherModule _ children => OtherModule mode (map (train mode) children)
  | LoRAAdapterModule training existing_layer lora_dropout =>
      LoRAAdapterModule training (train mode existing_layer) lora_dropout
  end.

(** The flags of the adapters of a model, with the flags of their
    dropouts, in the order of the tree. *)
Fixpoint adapter_modes (module : TrainModule) : list (bool * option bool) :=
  match module with
  | OtherModule _ children => flat_map adapter_modes children
  | LoRAAdapterModule training existing_layer lora_dropout =>
      (training, lora_dropout) :: adapter_modes existing_layer
  end.

(** The flags of the other modules. *)
Fixpoint other_modes (module : TrainModule) : list bool :=
  match module with
  | OtherModule training children => training :: flat_map other_modes children
  | LoRAAdapterModule _ existing_layer _ => other_modes existing_layer
  end.

(** Induction on the tree of modules. *)
Section TrainModuleInduction.
Variable P : TrainModule -> Prop.
Hypothesis other_case :
  forall training children,
    Forall P children -> P (OtherModule training children).
Hypothesis adapter_case :
  forall training existing_layer lora_dropout,
    P existing_layer ->
    P (LoRAAdapterModule training existing_layer lora_dropout).

Fixpoint TrainModule_tree_ind (module : TrainModule) : P module :=
  match module with
  | OtherModule training children =>
      other_case training children
        ((fix all (l : list TrainModule) : Forall P l :=
            match l with
            | [] => Forall_nil _
            | c :: rest => Forall_cons c (TrainModule_tree_ind c) (all rest)
            end) children)
  | LoRAAdapterModule training existing_layer lora_dropout =>
      adapter_case training existing_layer lora_dropout
                   (TrainModule_tree_ind existing_layer)
  end.
End TrainModuleInduction.

(* ------------------------------------------------------------------ *)
(** ** The training loop of the Quantization notebook *)
(* ------------------------------------------------------------------ *)

(** How a call of [train_model] ends: it returns [None] after the lines it
    printed (the average losses), or the division by
    [len(train_dataloader)] raises [ZeroDivisionError]. *)
Inductive TrainOutcome : Type :=
| Returned (printed : list Q)
| ZeroDivisionError (printed : list Q).

Section TrainModel.
(** The model with all that belongs to it (weights, gradients, buffers,
    mode), and a batch of the data loader. *)
Context {Model Batch : Type}.
(** [model.train()]. *)
Variable model_train : Model -> Model.
(** The body of the inner loop up to [loss.item()]: the tokenizer, the
    forward pass of the model on the inputs and labels, [loss.backward()],
    as what they do to the model and the number [loss.item()] returns. *)
Variable forward_backward : Model -> Batch -> Model * Q.
(** The batches the data loader yields in its [k]-th pass (it shuffles),
    and [len(train_dataloader)]. *)
Variable batches : nat -> list Batch.
Variable len_train_dataloader : nat.

(** The inner loop, [for batch in train_dataloader], with [total_loss]. *)
Fixpoint train_batches (pass : list Batch) (model : Model) (total_loss : Q)
  : Model * Q :=
  match pass with
  | [] => (model, total_loss)
  | batch :: rest =>
      let '(model, loss) := forward_backward model batch in
      train_batches rest model (total_loss + loss)%Q
  end.

(** The outer loop, [for epoch in range(num_epochs)], from epoch [epoch]
    on, [remaining] epochs to go. *)
Fixpoint train_epochs (remaining epoch : nat) (model : Model)
         (printed : list Q) : Model * TrainOutcome :=
  match remaining with
  | 0 => (model, Returned printed)
  | Datatypes.S remaining' =>
      let '(model, total_loss) := train_batches (batches epoch) model 0%Q in
      match len_train_dataloader with
      | 0 => (model, ZeroDivisionError printed)
      | _ =>
          let avg_loss :=
            (total_loss / inject_Z (Z.of_nat len_train_dataloader))%Q in
          train_epochs remaining' (Datatypes.S epoch) model
                       (printed ++ [avg_loss])
      end
  end.

(** [train_model(model, train_dataloader, num_epochs)]: the model as the
    call leaves it, and how the call ends. *)
Definition train_model (model : Model) (num_epochs : Z)
  : Model * TrainOutcome :=
  train_epochs (Z.to_nat num_epochs) 0 (model_train model) [].
End TrainModel.

(* ------------------------------------------------------------------ *)
(** ** The adapters the IA3 notebook injects *)
(* ------------------------------------------------------------------ *)

(** The truth value of a Python list, as [not] and [if] take it: only the
    empty list is false. *)
Definition list_truth {A : Type} (l : list A) : bool :=
  match l with
  | [] => false
  | _ => true
  end.

(** The adapter function of the call of [inject_adapter] in the IA3
    notebook, [lambda x: IA3Adapter1(x, in_features=x.in_features,
    out_features=x.out_features, ia3_lr=1e-3, is_feedforward=flags)],
    where [flags] is a list; [IA3Adapter1] only ever takes the truth value
    of the attribute [is_feedforward]. *)
Definition ia3_adapter_fn {R : Type} {S : Scalar R} (flags : list string)
           (ia3_lr : R) (layer : Linear R) (in_features out_features : nat)
  : IA3Adapter1.t R :=
  IA3Adapter1.__init__ (Linear_forward layer) in_features out_features ia3_lr
                       (list_truth flags).

(** The list the notebook passes. *)
Definition notebook_flags : list string := ["False"; "False"; "True"].

(* ------------------------------------------------------------------ *)
(** ** Tensors with their dtype and device *)
(* ------------------------------------------------------------------ *)

(** The floating-point dtypes.  Tensors of integers and of booleans are
    left out: no layer of the notebooks holds them. *)
Inductive torch_dtype : Type :=
| torch_float32
| torch_float64
| torch_float16
| torch_bfloat16.

(** Where a tensor lives. *)
Inductive torch_device : Type :=
| cpu
| cuda.

Definition dtype_eqb (a b : torch_dtype) : bool :=
  match a, b with
  | torch_float32, torch_float32 => true
  | torch_float64, torch_float64 => true
  | torch_float16, torch_float16 => true
  | torch_bfloat16, torch_bfloat16 => true
  | _, _ => false
  end.

Definition device_eqb (a b : torch_device) : bool :=
  match a, b with
  | cpu, cpu => true
  | cuda, cuda => true
  | _, _ => false
  end.

(** [torch.promote_types(a, b)] on the floating-point dtypes: the wider of
    the two, and [float32] for [float16] with [bfloat16]. *)
Definition promote_types (a b : torch_dtype) : torch_dtype :=
  match a, b with
  | torch_float64, _ => torch_float64
  | _, torch_float64 => torch_float64
  | torch_float32, _ => torch_float32
  | _, torch_float32 => torch_float32
  | torch_float16, torch_float16 => torch_float16
  | torch_bfloat16, torch_bfloat16 => torch_bfloat16
  | _, _ => torch_float32
  end.

Section TypedOps.
Context {R : Type} {S : Scalar R}.

(** A tensor as PyTorch has it: [values] are its shape and entries, next to
    its [dtype] and its [device].  The entries are the numbers of
    [Scalar]: a conversion to another dtype keeps them, rounding is not
    modelled. *)
Record TypedTensor : Type := mkTyped {
  dtype : torch_dtype;
  device : torch_device;
  values : Tensor R
}.

(** A tensor without dimensions. *)
Definition zero_dim (t : TypedTensor) : bool :=
  match shape (values t) with
  | [] => true
  | _ => false
  end.

(** The dtype of the result of an elementwise operation on two tensors
    ([torch.result_type]): the two dtypes are promoted, except that a
    tensor without dimensions gives way to one with dimensions. *)
Definition result_type (a b : TypedTensor) : torch_dtype :=
  if Bool.eqb (zero_dim a) (zero_dim b) then promote_types (dtype a) (dtype b)
  else if zero_dim a then dtype b
  else dtype a.

(** The device of the result of an elementwise operation: the operands
    must live on one device, except that a CPU tensor without dimensions
    goes with any tensor. *)
Definition result_device (a b : TypedTensor) : option torch_device :=
  if device_eqb (device a) (device b) then Some (device a)
  else if zero_dim a && device_eqb (device a) cpu then Some (device b)
  else if zero_dim b && device_eqb (device b) cpu then Some (device a)
  else None.

(** [t.to(dtype)]. *)
Definition Tensor_to_dtype (d : torch_dtype) (t : TypedTensor) : TypedTensor :=
  mkTyped d (device t) (values t).


(** [torch.mul(a, b)]: the dtypes are promoted; a [RuntimeError] when the
    devices differ or the shapes do not broadcast.  (Which of its messages
    PyTorch shows is not modelled: an operation has one [RuntimeError]
    here.) *)
Definition typed_mul (a b : TypedTensor) : result TypedTensor :=
  match result_device a b, torch_mul (values a) (values b) with
  | Some dev, Ok v => Ok (mkTyped (result_type a b) dev v)
  | _, _ => Raise (RuntimeError "mul")
  end.

(** [a + b] of two tensors. *)
Definition typed_add (a b : TypedTensor) : result TypedTensor :=
  match result_device a b, torch_add (values a) (values b) with
  | Some dev, Ok v => Ok (mkTyped (result_type a b) dev v)
  | _, _ => Raise (RuntimeError "add")
  end.

(** [torch.matmul(a, b)] and [a @ b] of two 2-D tensors: no promotion
    here, the two operands must have the same dtype and live on the same
    device, [RuntimeError] otherwise. *)
Definition typed_matmul (a b : TypedTensor) : result TypedTensor :=
  if dtype_eqb (dtype a) (dtype b) && device_eqb (device a) (device b) then
    match matmul (values a) (values b) with
    | Ok v => Ok (mkTyped (dtype a) (device a) v)
    | Raise _ => Raise (RuntimeError "matmul")
    end
  else Raise (RuntimeError "matmul").

(** [t.T]. *)
Definition typed_transpose (t : TypedTensor) : result TypedTensor :=
  v <- transpose (values t) ;;
  Ok (mkTyped (dtype t) (device t) v).

(** [t.view(-1, k)]. *)
Definition typed_view_rows (t : TypedTensor) (k : nat) : result TypedTensor :=
  v <- view_rows (values t) k ;;
  Ok (mkTyped (dtype t) (device t) v).

(** [t.squeeze()]. *)
Definition typed_squeeze (t : TypedTensor) : TypedTensor :=
  mkTyped (dtype t) (device t) (squeeze (values t)).

(** [torch.diag(t.view(-1))]. *)
Definition typed_diag_flat (t : TypedTensor) : TypedTensor :=
  mkTyped (dtype t) (device t) (torch_diag (view_flat (values t))).

(** [t * c] for a Python number [c]: a floating-point tensor keeps its
    dtype. *)
Definition typed_scale (t : TypedTensor) (c : R) : TypedTensor :=
  mkTyped (dtype t) (device t) (scale (values t) c).

(** An elementwise map that keeps dtype and device, such as a dropout. *)
Definition typed_map (f : Tensor R -> Tensor R) (t : TypedTensor)
  : TypedTensor :=
  mkTyped (dtype t) (device t) (f (values t)).

(** [F.linear(input, weight, bias)]: input, weight and bias must have one
    dtype and live on one device, [RuntimeError] otherwise. *)
Definition typed_F_linear (input weight : TypedTensor)
           (bias : option TypedTensor) : result TypedTensor :=
  if dtype_eqb (dtype input) (dtype weight) &&
     device_eqb (device input) (device weight) &&
     match bias with
     | None => true
     | Some b => dtype_eqb (dtype b) (dtype weight) &&
                 device_eqb (device b) (device weight)
     end
  then
    match F_linear (values input) (values weight) (option_map values bias) with
    | Ok v => Ok (mkTyped (dtype weight) (device weight) v)
    | Raise _ => Raise (RuntimeError "linear")
    end
  else Raise (RuntimeError "linear").

(** An [nn.Linear] layer with the dtype and the device of its tensors. *)
Record TypedLinear : Type := mkTypedLinear {
  typed_weight : TypedTensor;
  typed_bias : option TypedTensor
}.

(** [nn.Linear.forward]. *)
Definition TypedLinear_forward (layer : TypedLinear) (x : TypedTensor)
  : result TypedTensor :=
  typed_F_linear x (typed_weight layer) (typed_bias layer).

(** [layer.to(dtype)]: weight and bias are converted. *)
Definition TypedLinear_to_dtype (d : torch_dtype) (layer : TypedLinear)
  : TypedLinear :=
  mkTypedLinear (Tensor_to_dtype d (typed_weight layer))
                (option_map (Tensor_to_dtype d) (typed_bias layer)).


(** The linear layer with the given weight and bias, all of dtype [d] and
    on device [dev]. *)
Definition nn_Linear (d : torch_dtype) (dev : torch_device) (layer : Linear R)
  : TypedLinear :=
  mkTypedLinear (mkTyped d dev (weight layer))
                (option_map (mkTyped d dev) (bias layer)).

End TypedOps.
Arguments TypedTensor R : clear implicits.
Arguments TypedLinear R : clear implicits.

(** The adapters as they run on PyTorch tensors: the classes of the
    notebooks once more, over tensors that carry dtype and device. *)
Module Typed.

Module IA3Adapter1.
Section Def.
Context {R : Type} {S : Scalar R}.

(** An [IA3Adapter1] object.  [existing_layer] is the wrapped module as
    [__init__] leaves it, moved to ["cuda"], seen through its forward
    pass. *)
Record t : Type := mk {
  existing_layer : TypedTensor R -> result (TypedTensor R);
  is_feedforward : bool;
  in_features : nat;
  out_features : nat;
  ia3_lw : TypedTensor R;
  ia3_lr : R
}.

(** [IA3Adapter1.__init__]: [torch.ones((1, n), device="cuda")] has the
    default dtype, [float32]. *)
Definition __init__ (existing_layer : TypedTensor R -> result (TypedTensor R))
           (in_features out_features : nat) (ia3_lr : R)
           (is_feedforward : bool) : t :=
  mk existing_layer is_feedforward in_features out_features
     (mkTyped torch_float32 cuda
        (if negb is_feedforward then ones_row out_features
         else ones_row in_features))
     ia3_lr.

(** [IA3Adapter1.forward]. *)
Definition forward (self : t) (x : TypedTensor R) : result (TypedTensor R) :=
  if negb (is_feedforward self) then
    result_ <- existing_layer self x ;;
    typed_mul result_ (ia3_lw self)
  else
    result_ <- typed_mul x (ia3_lw self) ;;
    existing_layer self result_.
End Def.
Arguments t R : clear implicits.
End IA3Adapter1.

Module IA3Adapter2.
Section Def.
Context {R : Type} {S : Scalar R}.

(** An [IA3Adapter2] object; the wrapped layer is a linear layer. *)
Record t : Type := mk {
  existing_layer : TypedLinear R;
  is_feedforward : bool;
  in_features : nat;
  out_features : nat;
  ia3_lw : TypedTensor R;
  ia3_lr : R
}.

(** Modelled from the spec: [get_weight], which the notebook calls and does
    not define, returns the weight [W] of the wrapped linear layer. *)
Definition get_weight (self : t) : TypedTensor R :=
  typed_weight (existing_layer self).

(** Modelled from the spec: [get_bias] returns the bias [b] of the wrapped
    linear layer, or [None]. *)
Definition get_bias (self : t) : option (TypedTensor R) :=
  typed_bias (existing_layer self).

(** [IA3Adapter2.get_equivalent_weight]. *)
Definition get_equivalent_weight (self : t) : result (TypedTensor R) :=
  let mat := get_weight self in
  if negb (is_feedforward self)
  then typed_matmul (typed_diag_flat (ia3_lw self)) mat
  else typed_matmul mat (typed_diag_flat (ia3_lw self)).

(** [IA3Adapter2.get_equivalent_bias]. *)
Definition get_equivalent_bias (self : t) : result (option (TypedTensor R)) :=
  match get_bias self with
  | None => Ok None
  | Some mat =>
      if negb (is_feedforward self) then
        ret_bias <- typed_mul mat (typed_squeeze (ia3_lw self)) ;;
        Ok (Some ret_bias)
      else Ok (Some mat)
  end.

(** [IA3Adapter2.forward]. *)
Definition forward (self : t) (x : TypedTensor R) : result (TypedTensor R) :=
  w <- get_equivalent_weight self ;;
  b <- get_equivalent_bias self ;;
  typed_F_linear x w b.
End Def.
Arguments t R : clear implicits.
End IA3Adapter2.

Module LoRAAdapter.
Section Def.
Context {R : Type} {S : Scalar R}.

(** A [LoRAAdapter] object around a linear layer, the kind of module the
    notebook wraps. *)
Record t : Type := mk {
  existing_layer : TypedLinear R;
  r : nat;
  lora_alpha : nat;
  scaling : R;
  lora_A : TypedTensor R;
  lora_B : TypedTensor R;
  lora_dropout : Tensor R -> Tensor R
}.

(** [LoRAAdapter.__init__] with [reset_parameters]: [torch.randn] and
    [torch.zeros] give [float32] tensors on the CPU, whatever the wrapped
    layer is. *)
Definition __init__ (existing_layer : TypedLinear R)
           (in_features out_features r lora_alpha : nat)
           (dropout : option (nat -> nat -> R))
           (normal : list (list R)) (alpha_over_r : R) : t :=
  mk existing_layer r lora_alpha alpha_over_r
     (mkTyped torch_float32 cpu (mkTensor [r; in_features] normal))
     (mkTyped torch_float32 cpu (torch_zeros out_features r))
     (LoRALayer_lora_dropout dropout).

(** [adapter.to(dtype)]: the parameters of the adapter and of the wrapped
    layer are converted. *)
Definition to_dtype (d : torch_dtype) (self : t) : t :=
  mk (TypedLinear_to_dtype d (existing_layer self)) (r self) (lora_alpha self)
     (scaling self)
     (Tensor_to_dtype d (lora_A self)) (Tensor_to_dtype d (lora_B self))
     (lora_dropout self).


(** [LoRAAdapter.forward]. *)
Definition forward (self : t) (x : TypedTensor R) : result (TypedTensor R) :=
  if Nat.ltb 0 (r self) then
    match shape (values x) with
    | [batch_size; seq_len; in_features] =>
        x <- typed_view_rows x in_features ;;
        let x := Tensor_to_dtype torch_bfloat16 x in
        xT <- typed_transpose x ;;
        lora_out <- typed_matmul (lora_A self) xT ;;
        lora_out <- typed_matmul (lora_B self) lora_out ;;
        lora_outT <- typed_transpose lora_out ;;
        let lora_out := typed_scale lora_outT (scaling self) in
        let lora_out := typed_map (lora_dropout self) lora_out in
        base <- TypedLinear_forward (existing_layer self) x ;;
        typed_add base lora_out
    | _ => Raise (ValueError "unpack")
    end
  else TypedLinear_forward (existing_layer self) x.
End Def.
Arguments t R : clear implicits.
End LoRAAdapter.

End Typed.

(** [toy_layer23] in [bfloat16] on the CPU. *)
Definition toy_layer23_bf16 : TypedLinear Z :=
  nn_Linear torch_bfloat16 cpu toy_layer23.

(** [LoRAAdapter(nn.Linear(2, 3), 2, 3, r=1, lora_alpha=1)] around the
    [bfloat16] layer, with [lora_A = [[1, 1]]] and [lora_B = [[1], [2], [3]]]
    in [float32], the dtype [__init__] gives them. *)
Definition toy_typed_lora : Typed.LoRAAdapter.t Z :=
  Typed.LoRAAdapter.mk toy_layer23_bf16 1 1 1%Z
    (mkTyped torch_float32 cpu (mkTensor [1; 2] [[1; 1]]%Z))
    (mkTyped torch_float32 cpu (mkTensor [3; 1] [[1]; [2]; [3]]%Z))
    (fun x => x).

(** The adapter of rank 0 around the same layer. *)
Definition toy_typed_lora_rank0 : Typed.LoRAAdapter.t Z :=
  Typed.LoRAAdapter.mk toy_layer23_bf16 0 1 0%Z
    (mkTyped torch_float32 cpu (mkTensor [0; 2] []))
    (mkTyped torch_float32 cpu (mkTensor [3; 0] [[]; []; []]))
    (fun x => x).

(** [toy_sequence] in [bfloat16] on the CPU. *)
Definition toy_typed_sequence : TypedTensor Z :=
  mkTyped torch_bfloat16 cpu toy_sequence.

(* ------------------------------------------------------------------ *)
(** ** Module objects: class attributes, shared objects, mutation in place *)
(* ------------------------------------------------------------------ *)

(** The functions of the sections above read a model as a tree in which
    every module object sits at one place and in which no registered name
    is hidden by an attribute of a class.  This section models the same
    functions without these two assumptions: a module object registered
    at several places of the tree carries the same [mid] at each of them,
    a mutation of an object shows at every place that holds it,
    [named_modules] skips an object it has seen, and [getattr] asks the
    class before it asks [__getattr__]. *)

(** The identities of the module objects of a tree, place by place in the
    order of [named_modules]. *)
Fixpoint mids (m : Module) : list nat :=
  mid m :: flat_map (fun nc => mids (snd nc)) (_modules m).

(** No module object is registered at two places of the model. *)
Definition unshared (m : Module) : Prop := NoDup (mids m).

Fixpoint nodup_natb (l : list nat) : bool :=
  match l with
  | [] => true
  | x :: rest => negb (existsb (Nat.eqb x) rest) && nodup_natb rest
  end.

(** [unshared], computed. *)
Definition unsharedb (m : Module) : bool := nodup_natb (mids m).

(** What Python's [getattr(module, name)] finds. *)
Inductive PyAttr : Type :=
| AttrOfClass
| AttrRegistered (o : PyObj).

(** The mutation [nn.Module.__setattr__] makes of a module object when it
    registers [value] under [name]: the name is dropped from the buffers
    and set in [_modules]. *)
Definition register_module (name : string) (value : Module) (m : Module)
  : Module :=
  mkModule (mid m) (isinstance_Embedding m) (qconfig m) (_parameters m)
           (dict_remove name (_buffers m))
           (dict_set name value (_modules m)).

(** The module object [i] is mutated by [upd]: every place of the tree
    that holds this object shows the mutation. *)
Fixpoint update_object (i : nat) (upd : Module -> Module) (m : Module)
  : Module :=
  let m' :=
    mkModule (mid m) (isinstance_Embedding m) (qconfig m) (_parameters m)
             (_buffers m)
             (map (fun nc => (fst nc, update_object i upd (snd nc)))
                  (_modules m)) in
  if Nat.eqb (mid m) i then upd m' else m'.

(** [nn.Module.named_modules(memo, prefix)]: a module object that is in
    [memo] is skipped with all that is below it; otherwise it is added to
    [memo] and listed, and its children follow, each with the [memo] the
    children before it have left.  The result is what was listed and the
    [memo] at the end. *)
Fixpoint py_named_modules_memo (memo : list nat) (prefix : string) (m : Module)
  : list (string * Module) * list nat :=
  if existsb (Nat.eqb (mid m)) memo then ([], memo)
  else
    fold_left
      (fun (listed : list (string * Module) * list nat) nc =>
         let '(below, memo') :=
           py_named_modules_memo (snd listed) (join_dot prefix (fst nc))
                                 (snd nc) in
         (fst listed ++ below, memo'))
      (_modules m) ([(prefix, m)], mid m :: memo).

(** [model.named_modules()]. *)
Definition py_named_modules (prefix : string) (m : Module)
  : list (string * Module) :=
  fst (py_named_modules_memo [] prefix m).

(** [match_submodules(model, key)]. *)
Definition py_match_submodules (model : Module) (key : string) : list string :=
  map fst (filter (fun nm => contains key (fst nm)) (py_named_modules "" model)).

Section Objects.

(** [class_attribute i name]: the class of the module object [i] has an
    attribute [name], a method such as [forward] or [train], say.  Plain
    attributes of the instance are not modelled ([__setattr__] deletes a
    plain attribute of the name it registers). *)
Variable class_attribute : nat -> string -> bool.

(** [getattr(m, name)]: what the class has under the name is found first;
    [nn.Module.__getattr__] is asked only for a name the class does not
    have. *)
Definition py_getattr (m : Module) (name : string) : result PyAttr :=
  if class_attribute (mid m) name then Ok AttrOfClass
  else match getattr m name with
       | Ok o => Ok (AttrRegistered o)
       | Raise e => Raise e
       end.

(** [nn.Module.get_submodule(target)] after the split of [target], and the
    loop of [replace_submodule] over all atoms but the last: [getattr]
    atom by atom.  What [getattr] finds must be a module; anything else
    ends the walk with an [AttributeError] (in [replace_submodule], the one
    of the next [getattr] or of the final [setattr] on an object that has
    no attributes of its own in this model). *)
Fixpoint py_get_submodule_atoms (mod_ : Module) (atoms : list string)
  : result Module :=
  match atoms with
  | [] => Ok mod_
  | item :: rest =>
      match py_getattr mod_ item with
      | Ok (AttrRegistered (ObjModule c)) => py_get_submodule_atoms c rest
      | Ok _ => Raise (AttributeError item)
      | Raise e => Raise e
      end
  end.

(** [get_submodule(model, module_name)]. *)
Definition py_get_submodule (model : Module) (module_name : string)
  : result Module :=
  if String.eqb module_name "" then Ok model
  else py_get_submodule_atoms model (split_dot module_name).

(** [replace_submodule(model, module_path, new_module)]: the walk to the
    parent, then [setattr] on the parent object, which raises [TypeError]
    for the name of a parameter and otherwise mutates the object; the
    returned module is the model as it looks afterwards. *)
Definition py_replace_submodule (model : Module) (module_path : string)
           (new_module : Module) : result Module :=
  let modules := split_dot module_path in
  match py_get_submodule_atoms model (removelast modules) with
  | Raise e => Raise e
  | Ok parent_module =>
      match dict_get (last modules "") (_parameters parent_module) with
      | Some _ => Raise (TypeError (last modules ""))
      | None =>
          Ok (update_object (mid parent_module)
                            (register_module (last modules "") new_module)
                            model)
      end
  end.

(** The inner loop of [inject_adapter] (IA3 notebook).  [adapter_fn] is a
    function of the module it is given; the identity of the module object
    it returns is the [mid] the function gives it. *)
Fixpoint py_inject_layers (adapter_fn : Module -> result Module)
         (matching_layers : list string) (st : InjectState)
  : InjectState * result unit :=
  match matching_layers with
  | [] => (st, Ok tt)
  | module_path :: rest =>
      if existsb (String.eqb module_path) (st_processed st)
      then py_inject_layers adapter_fn rest st
      else
        match py_get_submodule (st_model st) module_path with
        | Raise e => (st, Raise e)
        | Ok current_module =>
            match adapter_fn current_module with
            | Raise e => (st, Raise e)
            | Ok new_module =>
                let new_module := Module_to new_module in
                match py_replace_submodule (st_model st) module_path new_module
                with
                | Raise e => (st, Raise e)
                | Ok model' =>
                    py_inject_layers adapter_fn rest
                      (mkInjectState model' (module_path :: st_processed st))
                end
            end
        end
  end.

(** The outer loop of [inject_adapter] (IA3 notebook). *)
Fixpoint py_inject_keys (adapter_fn : Module -> result Module)
         (match_on : list string) (st : InjectState)
  : InjectState * result unit :=
  match match_on with
  | [] => (st, Ok tt)
  | key :: keys =>
      let matching_layers := py_match_submodules (st_model st) key in
      match py_inject_layers adapter_fn matching_layers st with
      | (st', Ok _) => py_inject_keys adapter_fn keys st'
      | (st', Raise e) => (st', Raise e)
      end
  end.

(** [inject_adapter(model, match_on, adapter_fn)] of the IA3 notebook: the
    model as the call leaves it, and the outcome of the call. *)
Definition py_inject_adapter (model : Module) (match_on : list string)
           (adapter_fn : Module -> result Module) : Module * result unit :=
  let '(st, r) := py_inject_keys adapter_fn match_on (mkInjectState model []) in
  (st_model st, r).

(** [current_module.weight.device] of the LoRA notebook. *)
Definition py_weight_device (current_module : Module) : result unit :=
  match py_getattr current_module "weight" with
  | Ok (AttrRegistered (ObjParameter _)) => Ok tt
  | Ok (AttrRegistered (ObjBuffer _)) => Ok tt
  | Ok _ => Raise (AttributeError "device")
  | Raise e => Raise e
  end.

(** The inner loop of [inject_adapter] as the LoRA notebook has it. *)
Fixpoint py_lora_inject_layers (adapter_fn : Module -> result Module)
         (matching_layers : list string) (model : Module)
  : Module * result unit :=
  match matching_layers with
  | [] => (model, Ok tt)
  | module_path :: rest =>
      match py_get_submodule model module_path with
      | Raise e => (model, Raise e)
      | Ok current_module =>
          match adapter_fn current_module with
          | Raise e => (model, Raise e)
          | Ok new_module =>
              match py_weight_device current_module with
              | Raise e => (model, Raise e)
              | Ok _ =>
                  let new_module := Module_to new_module in
                  match py_replace_submodule model module_path new_module with
                  | Raise e => (model, Raise e)
                  | Ok model' => py_lora_inject_layers adapter_fn rest model'
                  end
              end
          end
      end
  end.

(** [inject_adapter(model, match_on, adapter_fn)] of the LoRA notebook. *)
Fixpoint py_lora_inject_adapter (model : Module) (match_on : list string)
         (adapter_fn : Module -> result Module) : Module * result unit :=
  match match_on with
  | [] => (model, Ok tt)
  | key :: keys =>
      let matching_layers := py_match_submodules model key in
      match py_lora_inject_layers adapter_fn matching_layers model with
      | (model', Ok _) => py_lora_inject_adapter model' keys adapter_fn
      | (model', Raise e) => (model', Raise e)
      end
  end.

(** No name registered in [_modules], anywhere in the tree, is an
    attribute of the class of the module it is registered in. *)
Fixpoint unshadowed (m : Module) : bool :=
  forallb (fun nc => negb (class_attribute (mid m) (fst nc)) &&
                     unshadowed (snd nc))
          (_modules m).

(** Every proper prefix of the dotted path leads to a submodule. *)
Definition py_prefixes_resolve (model : Module) (module_path : string) : Prop :=
  Forall (fun pre => exists c, py_get_submodule_atoms model pre = Ok c)
         (proper_prefixes (split_dot module_path)).

(** The last component of the path is the name of a parameter of the
    module that the components before it lead to. *)
Definition py_names_parameter (model : Module) (module_path : string) : Prop :=
  exists parent p,
    py_get_submodule_atoms model (removelast (split_dot module_path))
      = Ok parent /\
    dict_get (last (split_dot module_path) "") (_parameters parent) = Some p.


(** [replace_submodule(model, module_path, m)] returns, and
    [get_submodule(model, module_path)] then returns [m]. *)
Definition py_round_trip (model : Module) (module_path : string) (m : Module)
  : Prop :=
  exists model',
    py_replace_submodule model module_path m = Ok model' /\
    py_get_submodule model' module_path = Ok m.


(** A call of [inject_adapter] that left [out] did what it is meant to: the
    call returned; every module that [named_modules] lists under a name with a
    key in it is replaced by what the adapter function made of it; every
    other module it lists is the object it was. *)
Definition py_replaces_matches (model : Module) (match_on : list string)
           (adapter_fn : Module -> result Module)
           (out : Module * result unit) : Prop :=
  snd out = Ok tt /\
  (forall p x,
      In (p, x) (py_named_modules "" model) ->
      (exists key, In key match_on /\ contains key p = true) ->
      exists y, adapter_fn x = Ok y /\ py_get_submodule (fst out) p = Ok y) /\
  (forall p x,
      In (p, x) (py_named_modules "" model) ->
      (forall key, In key match_on -> contains key p = false) ->
      exists x', py_get_submodule (fst out) p = Ok x' /\ same_object x x').

(** The adapter function makes new objects of the selected modules: the
    module it returns for a module whose name contains a key holds no
    object twice, none of its registered names is an attribute of a class,
    and every object in it other than the selected module itself is
    neither an object of the model nor an object of the module returned
    for another selected module. *)
Definition new_objects (model : Module) (match_on : list string)
           (adapter_fn : Module -> result Module) : Prop :=
  forall p x key,
    In (p, x) (named_modules "" model) -> In key match_on ->
    contains key p = true ->
    exists y,
      adapter_fn x = Ok y /\ unshared y /\ unshadowed y = true /\
      (forall i, In i (mids y) -> In i (mids x) \/ ~ In i (mids model)) /\
      (forall p' x' key' y',
          In (p', x') (named_modules "" model) -> In key' match_on ->
          contains key' p' = true -> adapter_fn x' = Ok y' -> p' <> p ->
          forall i, In i (mids y) -> ~ In i (mids y')).

(** [new_objects], computed. *)
Definition new_objectsb (model : Module) (match_on : list string)
           (adapter_fn : Module -> result Module) : bool :=
  forallb
    (fun px =>
       forallb
         (fun key =>
            if contains key (fst px) then
              match adapter_fn (snd px) with
              | Ok y =>
                  unsharedb y && unshadowed y &&
                  forallb (fun i => existsb (Nat.eqb i) (mids (snd px)) ||
                                    negb (existsb (Nat.eqb i) (mids model)))
                          (mids y) &&
                  forallb
                    (fun px' =>
                       forallb
                         (fun key' =>
                            if contains key' (fst px') then
                              match adapter_fn (snd px') with
                              | Ok y' =>
                                  String.eqb (fst px') (fst px) ||
                                  forallb
                                    (fun i => negb (existsb (Nat.eqb i) (mids y')))
                                    (mids y)
                              | Raise _ => true
                              end
                            else true)
                         match_on)
                    (named_modules "" model)
              | Raise _ => false
              end
            else true)
         match_on)
    (named_modules "" model).

(** The selected modules have no attribute [weight] of their class in the
    way of the parameter. *)
Definition weight_unshadowed (model : Module) (match_on : list string)
  : Prop :=
  forall p x key,
    In (p, x) (named_modules "" model) -> In key match_on ->
    contains key p = true -> class_attribute (mid x) "weight" = false.

End Objects.

(** Where the objects of [cur] come from, after the paths [replaced] of the
    model [orig] were given their adapters: each is an object of [orig] or
    an object of the module the adapter function returns for a replaced
    path. *)
Definition objects_from (orig : Module) (match_on : list string)
           (adapter_fn : Module -> result Module) (replaced : list string)
           (cur : Module) : Prop :=
  forall i,
    In i (mids cur) ->
    In i (mids orig) \/
    exists r x key y,
      In r replaced /\ In (r, x) (named_modules "" orig) /\
      In key match_on /\ contains key r = true /\
      adapter_fn x = Ok y /\ In i (mids y).

(** A class in the manner of [nn.Module]: some of the methods every module
    has. *)
Definition toy_class_attribute (i : nat) (name : string) : bool :=
  existsb (String.eqb name)
          ["forward"; "train"; "eval"; "to"; "parameters"; "named_modules"].



(* ================================================================== *)
(** * Properties *)
(* ================================================================== *)

(* ------------------------------------------------------------------ *)
(** ** Facts on Python strings *)
(* ------------------------------------------------------------------ *)

Module PyStrFacts.
Local Open Scope string_scope.

Lemma prefix_empty (s : string) : prefix "" s = true.
Proof. destruct s; reflexivity. Qed.

Lemma prefix_app (k s t : string) :
  prefix k s = true -> prefix k (s ++ t) = true.
Proof.
  revert k; induction s as [|b s IH]; intros k H.
  - destruct k; simpl in H; [apply prefix_empty | discriminate].
  - destruct k as [|a k]; [reflexivity|]. simpl in *.
    destruct (ascii_dec a b); [now apply IH | discriminate].
Qed.

Lemma contains_empty (s : string) : contains "" s = true.
Proof. destruct s; reflexivity. Qed.

Lemma contains_in_empty (k : string) : contains k "" = true -> k = "".
Proof. destruct k; simpl; [reflexivity | discriminate]. Qed.

Lemma contains_app_r (k s t : string) :
  contains k s = true -> contains k (s ++ t) = true.
Proof.
  induction s as [|c s IH]; intros H.
  - apply contains_in_empty in H; subst k. apply contains_empty.
  - change (String c s ++ t)%string with (String c (s ++ t)).
    cbn [contains] in *.
    destruct (prefix k (String c s)) eqn:E.
    + apply (prefix_app _ _ t) in E.
      change (String c s ++ t)%string with (String c (s ++ t)) in E.
      now rewrite E.
    + destruct (prefix k (String c (s ++ t))); [reflexivity | now apply IH].
Qed.

Lemma contains_app_l (k s t : string) :
  contains k t = true -> contains k (s ++ t) = true.
Proof.
  intros H; induction s as [|c s IH]; [exact H|].
  change (String c s ++ t)%string with (String c (s ++ t)). cbn [contains].
  now destruct (prefix k (String c (s ++ t))).
Qed.

Lemma split_dot_not_nil (s : string) : split_dot s <> [].
Proof.
  destruct s as [|c s]; simpl; [discriminate|].
  destruct (Ascii.eqb c "."); [discriminate|].
  destruct (split_dot s); discriminate.
Qed.

Lemma join_split (s : string) : join_atoms (split_dot s) = s.
Proof.
  induction s as [|c s IH]; [reflexivity|].
  simpl. destruct (Ascii.eqb_spec c ".") as [->|Hc].
  - pose proof (split_dot_not_nil s) as Hn.
    destruct (split_dot s) as [|h t] eqn:E; [congruence|].
    change (join_atoms ("" :: h :: t)) with ("" ++ "." ++ join_atoms (h :: t))%string.
    now rewrite IH.
  - pose proof (split_dot_not_nil s) as Hn.
    destruct (split_dot s) as [|h t] eqn:E; [congruence|].
    destruct t as [|h' t]; simpl in *; now rewrite <- IH.
Qed.

Lemma split_dot_inj (s t : string) : split_dot s = split_dot t -> s = t.
Proof.
  intros H. rewrite <- (join_split s), <- (join_split t). now rewrite H.
Qed.

Lemma join_atoms_cons (a : string) (rest : list string) :
  rest <> [] -> join_atoms (a :: rest) = a ++ "." ++ join_atoms rest.
Proof. destruct rest; [congruence | reflexivity]. Qed.

Lemma append_assoc (a b c : string) : (a ++ b) ++ c = a ++ (b ++ c).
Proof. induction a as [|x a IH]; simpl; [reflexivity | now rewrite IH]. Qed.

Lemma append_empty_r (a : string) : a ++ "" = a.
Proof. induction a as [|x a IH]; simpl; [reflexivity | now rewrite IH]. Qed.

(** The dotted name of a list of atoms is a prefix of the dotted name of
    every extension of the list. *)
Lemma join_atoms_app (xs ys : list string) :
  xs <> [] ->
  exists suffix, join_atoms (xs ++ ys)%list = join_atoms xs ++ suffix.
Proof.
  induction xs as [|a xs IH]; intros Hne; [congruence|].
  destruct xs as [|b xs].
  - destruct ys as [|y ys].
    + exists "". simpl. now rewrite append_empty_r.
    + exists ("." ++ join_atoms (y :: ys)). reflexivity.
  - destruct IH as [suffix IH]; [discriminate|].
    exists suffix.
    change ((a :: b :: xs) ++ ys)%list with (a :: ((b :: xs) ++ ys)%list).
    rewrite join_atoms_cons by (simpl; discriminate).
    rewrite IH, (join_atoms_cons a (b :: xs)) by discriminate.
    now rewrite !append_assoc.
Qed.

(** A key that occurs in a path occurs in every path that extends it by
    further atoms. *)
Lemma contains_split_extension (key r p : string) (rest : list string) :
  split_dot p = (split_dot r ++ rest)%list ->
  contains key r = true -> contains key p = true.
Proof.
  intros Hsplit Hk.
  destruct (join_atoms_app (split_dot r) rest (split_dot_not_nil r))
    as [suffix Hs].
  rewrite <- (join_split p), Hsplit, Hs, join_split.
  now apply contains_app_r.
Qed.

Lemma split_dot_free (a : string) : dot_free a = true -> split_dot a = [a].
Proof.
  induction a as [|c a IH]; [reflexivity|]. simpl.
  destruct (Ascii.eqb c "."); simpl; [discriminate|].
  intros H. now rewrite (IH H).
Qed.

Lemma split_dot_app (a s : string) :
  dot_free a = true -> split_dot (a ++ String "." s) = a :: split_dot s.
Proof.
  induction a as [|c a IH]; [reflexivity|]. simpl.
  destruct (Ascii.eqb c "."); simpl; [discriminate|].
  intros H. now rewrite (IH H).
Qed.

Lemma split_join_atoms (atoms : list string) :
  atoms <> [] -> forallb dot_free atoms = true ->
  split_dot (join_atoms atoms) = atoms.
Proof.
  induction atoms as [|a rest IH]; intros Hne Hall; [congruence|].
  simpl in Hall. apply andb_prop in Hall as [Ha Hrest].
  destruct rest as [|b rest].
  - now apply split_dot_free.
  - rewrite join_atoms_cons by discriminate.
    change (a ++ "." ++ join_atoms (b :: rest))
      with (a ++ String "." (join_atoms (b :: rest))).
    rewrite split_dot_app by assumption.
    now rewrite IH.
Qed.

End PyStrFacts.
Import PyStrFacts.

(* ------------------------------------------------------------------ *)
(** ** Facts on dictionaries and attribute access *)
(* ------------------------------------------------------------------ *)

Section DictFacts.
Context {V : Type}.
Implicit Types (d : list (string * V)) (n k : string) (v : V).

Lemma dict_get_set_same n v d : dict_get n (dict_set n v d) = Some v.
  Proof.
    induction d as [|[k w] d IH]; simpl.
    - now rewrite String.eqb_refl.
    - destruct (String.eqb n k) eqn:E; simpl; rewrite E; [reflexivity | exact IH].
  Qed.

Lemma dict_get_set_other n k v d :
    n <> k -> dict_get k (dict_set n v d) = dict_get k d.
  Proof.
    intros Hnk. induction d as [|[k' w] d IH]; simpl.
    - destruct (String.eqb_spec k n); [congruence | reflexivity].
    - destruct (String.eqb_spec n k') as [->|Hn]; simpl.
      + destruct (String.eqb_spec k k'); [congruence | reflexivity].
      + now rewrite IH.
  Qed.

Lemma dict_get_remove_other n k d :
    n <> k -> dict_get k (dict_remove n d) = dict_get k d.
  Proof.
    intros Hnk. induction d as [|[k' w] d IH]; simpl; [reflexivity|].
    destruct (String.eqb_spec n k') as [->|Hn]; simpl.
    - destruct (String.eqb_spec k k'); [congruence | exact IH].
    - now rewrite IH.
  Qed.

Lemma dict_get_remove_same n d : dict_get n (dict_remove n d) = None.
  Proof.
    induction d as [|[k' w] d IH]; simpl; [reflexivity|].
    destruct (String.eqb n k') eqn:E; simpl; [exact IH | now rewrite E].
  Qed.

Lemma dict_remove_absent n d : dict_get n d = None -> dict_remove n d = d.
  Proof.
    induction d as [|[k' w] d IH]; simpl; [reflexivity|].
    destruct (String.eqb n k'); simpl; [discriminate|].
    intros H. now rewrite (IH H).
  Qed.

Lemma dict_get_In n v d : dict_get n d = Some v -> In (n, v) d.
  Proof.
    induction d as [|[k' w] d IH]; simpl; [discriminate|].
    destruct (String.eqb_spec n k') as [->|Hn].
    - intros [= ->]. now left.
    - intros H. right. now apply IH.
  Qed.
End DictFacts.

Lemma getattr_module_inv (m : Module) (n : string) (c : Module) :
  getattr m n = Ok (ObjModule c) ->
  dict_get n (_parameters m) = None /\
  dict_get n (_buffers m) = None /\
  dict_get n (_modules m) = Some c.
Proof.
  unfold getattr.
  destruct (dict_get n (_parameters m)); [discriminate|].
  destruct (dict_get n (_buffers m)); [discriminate|].
  destruct (dict_get n (_modules m)); [|discriminate].
  now intros [= ->].
Qed.

Lemma setattr_ok (m : Module) (n : string) (v : Module) :
  dict_get n (_parameters m) = None ->
  exists m', setattr m n v = Ok m'.
Proof. intros H. unfold setattr. rewrite H. now eexists. Qed.

Lemma setattr_inv (m m' : Module) (n : string) (v : Module) :
  setattr m n v = Ok m' ->
  dict_get n (_parameters m) = None /\
  m' = mkModule (mid m) (isinstance_Embedding m) (qconfig m) (_parameters m)
                (dict_remove n (_buffers m)) (dict_set n v (_modules m)).
Proof.
  unfold setattr. destruct (dict_get n (_parameters m)); [discriminate|].
  now intros [= <-].
Qed.

Lemma getattr_setattr_same (m m' : Module) (n : string) (v : Module) :
  setattr m n v = Ok m' -> getattr m' n = Ok (ObjModule v).
Proof.
  intros H. apply setattr_inv in H as [Hp ->]. unfold getattr; simpl.
  now rewrite Hp, dict_get_remove_same, dict_get_set_same.
Qed.

Lemma getattr_setattr_other (m m' : Module) (n k : string) (v : Module) :
  setattr m n v = Ok m' -> n <> k -> getattr m' k = getattr m k.
Proof.
  intros H Hnk. apply setattr_inv in H as [_ ->]. unfold getattr; simpl.
  now rewrite dict_get_remove_other, dict_get_set_other by exact Hnk.
Qed.

Lemma getattr_with_child_same (m : Module) (n : string) (c c' : Module) :
  getattr m n = Ok (ObjModule c) ->
  getattr (with_child m n c') n = Ok (ObjModule c').
Proof.
  intros H. apply getattr_module_inv in H as (Hp & Hb & _).
  unfold getattr, with_child; simpl.
  now rewrite Hp, Hb, dict_get_set_same.
Qed.

Lemma getattr_with_child_other (m : Module) (n k : string) (c' : Module) :
  n <> k -> getattr (with_child m n c') k = getattr m k.
Proof.
  intros H. unfold getattr, with_child; simpl.
  now rewrite dict_get_set_other by exact H.
Qed.

(* ------------------------------------------------------------------ *)
(** ** Replacing and reading back along a path of atoms *)
(* ------------------------------------------------------------------ *)

(** The two unfoldings of [replace_atoms] on a non-empty path. *)
Lemma replace_atoms_last (m : Module) (a : string) (new_module : Module) :
  replace_atoms m [a] new_module = setattr m a new_module.
Proof. reflexivity. Qed.

Lemma replace_atoms_step (m : Module) (a b : string) (rest : list string)
      (new_module : Module) :
  replace_atoms m (a :: b :: rest) new_module =
  match getattr m a with
  | Ok (ObjModule c) =>
      c' <- replace_atoms c (b :: rest) new_module ;;
      Ok (with_child m a c')
  | Ok _ => Raise (AttributeError a)
  | Raise e => Raise e
  end.
Proof. reflexivity. Qed.

Lemma get_submodule_atoms_step (m : Module) (a : string) (rest : list string) :
  get_submodule_atoms m (a :: rest) =
  match getattr m a with
  | Ok (ObjModule c) => get_submodule_atoms c rest
  | Ok _ => Raise (AttributeError a)
  | Raise e => Raise e
  end.
Proof. reflexivity. Qed.

(** A successful step of either walk went through a submodule. *)
Lemma replace_atoms_step_inv (m m' : Module) (a b : string)
      (rest : list string) (new_module : Module) :
  replace_atoms m (a :: b :: rest) new_module = Ok m' ->
  exists c c', getattr m a = Ok (ObjModule c) /\
               replace_atoms c (b :: rest) new_module = Ok c' /\
               m' = with_child m a c'.
Proof.
  rewrite replace_atoms_step.
  destruct (getattr m a) as [[p|bf|c]|e]; try discriminate.
  destruct (replace_atoms c (b :: rest) new_module) as [c'|e] eqn:E;
    simpl; [|discriminate].
  intros [= <-]. now exists c, c'.
Qed.

Lemma get_submodule_atoms_step_inv (m x : Module) (a : string)
      (rest : list string) :
  get_submodule_atoms m (a :: rest) = Ok x ->
  exists c, getattr m a = Ok (ObjModule c) /\ get_submodule_atoms c rest = Ok x.
Proof.
  rewrite get_submodule_atoms_step.
  destruct (getattr m a) as [[p|bf|c]|e]; try discriminate.
  intros H. now exists c.
Qed.

(** Reading back the path that was just replaced gives the new module. *)
Lemma replace_atoms_get (atoms : list string) :
  atoms <> [] ->
  forall (m m' new_module : Module),
    replace_atoms m atoms new_module = Ok m' ->
    get_submodule_atoms m' atoms = Ok new_module.
Proof.
  induction atoms as [|a atoms IH]; intros Hne m m' new_module H; [congruence|].
  destruct atoms as [|b rest].
  - rewrite replace_atoms_last in H.
    rewrite get_submodule_atoms_step, (getattr_setattr_same _ _ _ _ H).
    reflexivity.
  - apply replace_atoms_step_inv in H as (c & c' & Hg & Hr & ->).
    rewrite get_submodule_atoms_step, (getattr_with_child_same _ _ _ c' Hg).
    apply (IH ltac:(discriminate) c c' new_module Hr).
Qed.

(** The replacement succeeds as soon as all atoms but the last lead
    through submodules. *)
Lemma replace_atoms_ok (atoms : list string) (a : string) :
  forall (m x new_module : Module),
    get_submodule_atoms m atoms = Ok x ->
    dict_get a (_parameters x) = None ->
    exists m', replace_atoms m (atoms ++ [a]) new_module = Ok m'.
Proof.
  induction atoms as [|b atoms IH]; intros m x new_module H Hpar.
  - injection H as <-. cbn [app]. rewrite replace_atoms_last.
    now apply setattr_ok.
  - apply get_submodule_atoms_step_inv in H as (c & Hg & Hc).
    destruct (IH c x new_module Hc Hpar) as [c' Hc'].
    exists (with_child m b c').
    destruct (atoms ++ [a]) as [|y ys] eqn:E; [now destruct atoms|].
    change ((b :: atoms) ++ [a]) with (b :: (atoms ++ [a])). rewrite E.
    rewrite replace_atoms_step, Hg, Hc'. reflexivity.
Qed.

Lemma is_prefix_nil (ys : list string) : is_prefix [] ys.
Proof. now exists ys. Qed.

Lemma is_prefix_cons (a : string) (xs ys : list string) :
  is_prefix xs ys -> is_prefix (a :: xs) (a :: ys).
Proof. intros [rest ->]. now exists rest. Qed.

Lemma same_object_refl (d : Module) : same_object d d.
Proof. now repeat split. Qed.

Lemma same_object_trans (a b c : Module) :
  same_object a b -> same_object b c -> same_object a c.
Proof.
  intros (H1 & H2 & H3 & H4 & H5) (K1 & K2 & K3 & K4 & K5).
  repeat split; congruence.
Qed.

Lemma same_object_with_child (m : Module) (n : string) (c' : Module) :
  same_object m (with_child m n c').
Proof. now repeat split. Qed.

Lemma same_object_setattr (m m' : Module) (n : string) (c v : Module) :
  setattr m n v = Ok m' ->
  getattr m n = Ok (ObjModule c) -> same_object m m'.
Proof.
  intros Hs H. apply getattr_module_inv in H as (Hp & Hb & _).
  apply setattr_inv in Hs as [_ ->].
  repeat split; simpl; now apply dict_remove_absent.
Qed.

(** A replacement does not touch what lies on a path that neither leads to
    the replaced place nor goes through it. *)
Lemma replace_atoms_other (atoms : list string) :
  forall (m m' new_module : Module) (ds : list string),
    replace_atoms m atoms new_module = Ok m' ->
    ~ is_prefix atoms ds -> ~ is_prefix ds atoms ->
    get_submodule_atoms m' ds = get_submodule_atoms m ds.
Proof.
  induction atoms as [|a atoms IH]; intros m m' new_module ds H Hn1 Hn2.
  - exfalso. apply Hn1, is_prefix_nil.
  - destruct ds as [|x ds]; [exfalso; apply Hn2, is_prefix_nil|].
    rewrite !get_submodule_atoms_step.
    destruct (String.eqb_spec a x) as [->|Hax].
    + destruct atoms as [|b rest].
      * exfalso. apply Hn1. apply is_prefix_cons, is_prefix_nil.
      * apply replace_atoms_step_inv in H as (c & c' & Hg & Hr & ->).
        rewrite (getattr_with_child_same _ _ _ c' Hg), Hg.
        apply (IH c c' new_module ds Hr).
        -- intros Hp. apply Hn1. now apply is_prefix_cons.
        -- intros Hp. apply Hn2. now apply is_prefix_cons.
    + destruct atoms as [|b rest].
      * rewrite replace_atoms_last in H.
        now rewrite (getattr_setattr_other _ _ _ _ _ H).
      * apply replace_atoms_step_inv in H as (c & c' & Hg & Hr & ->).
        now rewrite getattr_with_child_other.
Qed.

(** A replacement at a place that holds a module leaves every module that
    is not at or below that place the same object: what can change is only
    the subtree of an ancestor. *)
Lemma replace_atoms_frame (atoms : list string) :
  forall (m m' new_module cur d : Module) (ds : list string),
    replace_atoms m atoms new_module = Ok m' ->
    get_submodule_atoms m atoms = Ok cur ->
    atoms <> [] ->
    ~ is_prefix atoms ds ->
    get_submodule_atoms m ds = Ok d ->
    exists d', get_submodule_atoms m' ds = Ok d' /\ same_object d d'.
Proof.
  induction atoms as [|a atoms IH];
    intros m m' new_module cur d ds H Hcur Hne Hn Hd; [congruence|].
  apply get_submodule_atoms_step_inv in Hcur as (c & Hg & Hc).
  destruct ds as [|x ds].
  - injection Hd as <-. exists m'. split; [reflexivity|].
    destruct atoms as [|b rest].
    + rewrite replace_atoms_last in H.
      now apply (same_object_setattr m m' a c new_module).
    + apply replace_atoms_step_inv in H as (c0 & c' & _ & _ & ->).
      apply same_object_with_child.
  - destruct (String.eqb_spec a x) as [->|Hax].
    + destruct atoms as [|b rest].
      * exfalso. apply Hn. apply is_prefix_cons, is_prefix_nil.
      * apply replace_atoms_step_inv in H as (c0 & c' & Hg0 & Hr & ->).
        rewrite Hg in Hg0. injection Hg0 as <-.
        rewrite get_submodule_atoms_step in Hd |- *.
        rewrite Hg in Hd. rewrite (getattr_with_child_same _ _ _ c' Hg).
        apply (IH c c' new_module cur d ds Hr Hc ltac:(discriminate)); [|exact Hd].
        intros Hp. apply Hn. now apply is_prefix_cons.
    + exists d. split; [|apply same_object_refl].
      rewrite <- Hd. rewrite !get_submodule_atoms_step.
      destruct atoms as [|b rest].
      * rewrite replace_atoms_last in H.
        now rewrite (getattr_setattr_other _ _ _ _ _ H).
      * apply replace_atoms_step_inv in H as (c0 & c' & _ & _ & ->).
        now rewrite getattr_with_child_other.
Qed.

(** The frame of one [replace_submodule], on dotted paths: a path in which
    some key of the replaced path does not occur is left alone. *)
Lemma replace_submodule_frame (model model' new_module cur d : Module)
      (r p key : string) :
  replace_submodule model r new_module = Ok model' ->
  get_submodule model r = Ok cur ->
  contains key r = true -> contains key p = false ->
  get_submodule model p = Ok d ->
  exists d', get_submodule model' p = Ok d' /\ same_object d d'.
Proof.
  unfold replace_submodule, get_submodule, Module_get_submodule.
  intros Hrep Hcur Hkr Hkp Hd.
  destruct (String.eqb_spec r "") as [->|Hr].
  - apply contains_in_empty in Hkr. subst key.
    now rewrite contains_empty in Hkp.
  - assert (Hnp : forall ds, (ds = [] \/ ds = split_dot p) ->
                             ~ is_prefix (split_dot r) ds).
    { intros ds [-> | ->] [rest Hrest].
      - symmetry in Hrest. apply app_eq_nil in Hrest as [Hnil _].
        now apply split_dot_not_nil in Hnil.
      - rewrite (contains_split_extension key r p rest Hrest Hkr) in Hkp.
        discriminate. }
    destruct (String.eqb p "").
    + apply (replace_atoms_frame (split_dot r) model model' new_module cur d []
               Hrep Hcur (split_dot_not_nil r)); auto.
    + apply (replace_atoms_frame (split_dot r) model model' new_module cur d
               (split_dot p) Hrep Hcur (split_dot_not_nil r)); auto.
Qed.

(* ------------------------------------------------------------------ *)
(** ** The frame of adapter injection *)
(* ------------------------------------------------------------------ *)

Lemma match_submodules_contains (model : Module) (key : string) :
  Forall (fun r => contains key r = true) (match_submodules model key).
Proof.
  unfold match_submodules. apply Forall_forall. intros r Hr.
  apply in_map_iff in Hr as ([r' x] & <- & Hin).
  now apply filter_In in Hin as [_ Hc].
Qed.

Section InjectFrame.
Variable adapter_fn : Module -> result Module.
Variable p : string.
Variable d : Module.

Lemma kept_replace (model model' new_module cur : Module) (r key : string) :
    contains key r = true -> contains key p = false ->
    get_submodule model r = Ok cur ->
    replace_submodule model r new_module = Ok model' ->
    kept p d model -> kept p d model'.
  Proof.
    intros Hkr Hkp Hcur Hrep (d0 & Hd0 & Hs0).
    destruct (replace_submodule_frame model model' new_module cur d0 r p key
                Hrep Hcur Hkr Hkp Hd0) as (d' & Hd' & Hs').
    exists d'. split; [exact Hd' | now apply same_object_trans with d0].
  Qed.

Lemma inject_layers_frame (key : string) (layers : list string) :
    contains key p = false ->
    Forall (fun r => contains key r = true) layers ->
    forall st, kept p d (st_model st) ->
               kept p d (st_model (fst (inject_layers adapter_fn layers st))).
  Proof.
    intros Hkp. induction layers as [|r layers IH]; intros HF st Hk;
      [exact Hk|].
    inversion HF as [|? ? Hr HF']; subst. cbn [inject_layers].
    destruct (existsb (String.eqb r) (st_processed st)); [now apply IH|].
    destruct (get_submodule (st_model st) r) as [cur|e] eqn:Hcur; [|exact Hk].
    destruct (adapter_fn cur) as [new_module|e]; [|exact Hk].
    destruct (replace_submodule (st_model st) r (Module_to new_module))
      as [model'|e] eqn:Hrep; [|exact Hk].
    apply IH; [exact HF'|]. simpl.
    exact (kept_replace _ _ _ _ r key Hr Hkp Hcur Hrep Hk).
  Qed.

Lemma inject_keys_frame (match_on : list string) :
    (forall key, In key match_on -> contains key p = false) ->
    forall st, kept p d (st_model st) ->
               kept p d (st_model (fst (inject_keys adapter_fn match_on st))).
  Proof.
    induction match_on as [|key keys IH]; intros Hkeys st Hk; [exact Hk|].
    cbn [inject_keys].
    pose proof (inject_layers_frame key (match_submodules (st_model st) key)
                  (Hkeys key (or_introl eq_refl))
                  (match_submodules_contains _ _) st Hk) as Hstep.
    destruct (inject_layers adapter_fn (match_submodules (st_model st) key) st)
      as [st' [u|e]]; simpl in Hstep.
    - apply IH; [|exact Hstep]. intros k Hin. apply Hkeys. now right.
    - exact Hstep.
  Qed.

Lemma lora_inject_layers_frame (key : string) (layers : list string) :
    contains key p = false ->
    Forall (fun r => contains key r = true) layers ->
    forall model, kept p d model ->
                  kept p d (fst (lora_inject_layers adapter_fn layers model)).
  Proof.
    intros Hkp. induction layers as [|r layers IH]; intros HF model Hk;
      [exact Hk|].
    inversion HF as [|? ? Hr HF']; subst. cbn [lora_inject_layers].
    destruct (get_submodule model r) as [cur|e] eqn:Hcur; [|exact Hk].
    destruct (adapter_fn cur) as [new_module|e]; [|exact Hk].
    destruct (weight_device cur); [|exact Hk].
    destruct (replace_submodule model r (Module_to new_module))
      as [model'|e] eqn:Hrep; [|exact Hk].
    apply IH; [exact HF'|].
    exact (kept_replace _ _ _ _ r key Hr Hkp Hcur Hrep Hk).
  Qed.

Lemma lora_inject_adapter_frame (match_on : list string) :
    (forall key, In key match_on -> contains key p = false) ->
    forall model, kept p d model ->
                  kept p d (fst (lora_inject_adapter model match_on adapter_fn)).
  Proof.
    induction match_on as [|key keys IH]; intros Hkeys model Hk; [exact Hk|].
    cbn [lora_inject_adapter].
    pose proof (lora_inject_layers_frame key (match_submodules model key)
                  (Hkeys key (or_introl eq_refl))
                  (match_submodules_contains _ _) model Hk) as Hstep.
    destruct (lora_inject_layers adapter_fn (match_submodules model key) model)
      as [model' [u|e]]; simpl in Hstep.
    - apply IH; [|exact Hstep]. intros k Hin. apply Hkeys. now right.
    - exact Hstep.
  Qed.
End InjectFrame.


(* ------------------------------------------------------------------ *)
(** ** [replace_submodule] then [get_submodule] *)
(* ------------------------------------------------------------------ *)


(* ------------------------------------------------------------------ *)
(** ** The enumeration of a module tree *)
(* ------------------------------------------------------------------ *)

Lemma named_modules_atoms (m : Module) :
  forall prefix,
    named_modules prefix m =
    map (fun am => (path_of prefix (fst am), snd am)) (named_atoms m).
Proof.
  induction m as [i e q ps bs ms IH] using Module_tree_ind. intros prefix.
  cbn [named_modules named_atoms map fst snd _modules]. f_equal.
  induction ms as [|[n c] ms IHms]; [reflexivity|].
  inversion IH as [|? ? Hc Hms]; subst.
  cbn [flat_map]. rewrite map_app, (IHms Hms). f_equal.
  cbn [fst snd] in *. rewrite Hc, map_map. reflexivity.
Qed.

Lemma named_atoms_unfold (m : Module) :
  named_atoms m =
  ([], m) ::
  flat_map (fun nc => map (fun am => (fst nc :: fst am, snd am))
                          (named_atoms (snd nc)))
           (_modules m).
Proof. destruct m; reflexivity. Qed.

Lemma wf_module_unfold (m : Module) :
  wf_module m =
  nodupb (map fst (_modules m)) &&
  forallb (fun nc =>
             valid_name (fst nc) &&
             negb (has_key (fst nc) (_parameters m)) &&
             negb (has_key (fst nc) (_buffers m)) &&
             wf_module (snd nc))
          (_modules m).
Proof. destruct m; reflexivity. Qed.

Lemma In_named_atoms_child (m c : Module) (n : string) (atoms : list string)
      (x : Module) :
  In (n, c) (_modules m) -> In (atoms, x) (named_atoms c) ->
  In (n :: atoms, x) (named_atoms m).
Proof.
  intros Hc Hx. rewrite named_atoms_unfold. right.
  apply in_flat_map. exists (n, c). split; [exact Hc|].
  apply in_map_iff. now exists (atoms, x).
Qed.

Lemma In_named_atoms_inv (m : Module) (atoms : list string) (x : Module) :
  In (atoms, x) (named_atoms m) ->
  (atoms = [] /\ x = m) \/
  exists n c rest, atoms = n :: rest /\ In (n, c) (_modules m) /\
                   In (rest, x) (named_atoms c).
Proof.
  rewrite named_atoms_unfold. intros [H|H].
  - left. now injection H as <- <-.
  - right. apply in_flat_map in H as ([n c] & Hc & H).
    apply in_map_iff in H as ([rest y] & Heq & Hy).
    injection Heq as <- <-. now exists n, c, rest.
Qed.

Section DictNoDup.
Context {V : Type}.

Lemma has_key_false (n : string) (d : list (string * V)) :
  has_key n d = false -> dict_get n d = None.
Proof.
  induction d as [|[k v] d IH]; simpl; [reflexivity|].
  destruct (String.eqb n k); simpl; [discriminate | exact IH].
Qed.

Lemma existsb_eqb_false (n : string) (l : list string) :
  existsb (String.eqb n) l = false -> ~ In n l.
Proof.
  intros H Hin.
  assert (existsb (String.eqb n) l = true)
    by (apply existsb_exists; exists n; split;
        [exact Hin | apply String.eqb_refl]).
  congruence.
Qed.

Lemma nodupb_NoDup (l : list string) : nodupb l = true -> NoDup l.
Proof.
  induction l as [|x l IH]; simpl; intros H; [constructor|].
  apply andb_prop in H as [Hx Hl]. apply negb_true_iff in Hx.
  constructor; [now apply existsb_eqb_false | now apply IH].
Qed.

Lemma dict_get_nodup (n : string) (v : V) (d : list (string * V)) :
  NoDup (map fst d) -> In (n, v) d -> dict_get n d = Some v.
Proof.
  induction d as [|[k w] d IH]; simpl; intros Hnd Hin; [contradiction|].
  inversion Hnd as [|? ? Hk Hd]; subst.
  destruct Hin as [Heq|Hin].
  - injection Heq as -> ->. now rewrite String.eqb_refl.
  - destruct (String.eqb_spec n k) as [->|Hn]; [|now apply IH].
    exfalso. apply Hk. apply in_map_iff. now exists (k, v).
Qed.
End DictNoDup.

(** In a well-formed module every registered child is what [getattr] finds
    under its name, and is well formed. *)
Lemma wf_child (m c : Module) (n : string) :
  wf_module m = true -> In (n, c) (_modules m) ->
  valid_name n = true /\ getattr m n = Ok (ObjModule c) /\
  wf_module c = true.
Proof.
  rewrite wf_module_unfold. intros Hwf Hin.
  apply andb_prop in Hwf as [Hnd Hall].
  rewrite forallb_forall in Hall. specialize (Hall (n, c) Hin).
  cbn [fst snd] in Hall.
  apply andb_prop in Hall as [Hall Hc].
  apply andb_prop in Hall as [Hall Hb].
  apply andb_prop in Hall as [Hv Hp].
  apply negb_true_iff in Hp, Hb.
  repeat split; try assumption.
  unfold getattr.
  rewrite (has_key_false _ _ Hp), (has_key_false _ _ Hb).
  now rewrite (dict_get_nodup n c (_modules m) (nodupb_NoDup _ Hnd) Hin).
Qed.

(** What the enumeration lists is what the walk along the atoms finds. *)
Lemma named_atoms_get (m : Module) :
  wf_module m = true ->
  forall atoms x,
    In (atoms, x) (named_atoms m) ->
    get_submodule_atoms m atoms = Ok x /\
    forallb valid_name atoms = true /\ wf_module x = true.
Proof.
  induction m as [i e q ps bs ms IH] using Module_tree_ind.
  intros Hwf atoms x Hin.
  apply In_named_atoms_inv in Hin
    as [[-> ->]|(n & c & rest & -> & Hc & Hrest)].
  - now repeat split.
  - destruct (wf_child _ c n Hwf Hc) as (Hv & Hg & Hwc).
    rewrite Forall_forall in IH.
    destruct (IH (n, c) Hc Hwc rest x Hrest) as (Hget & Hval & Hwx).
    rewrite get_submodule_atoms_step, Hg. cbn [forallb].
    rewrite Hv, Hval. now repeat split.
Qed.

(** What a walk finds is listed by the enumeration. *)
Lemma get_named_atoms (atoms : list string) :
  forall m x, get_submodule_atoms m atoms = Ok x ->
              In (atoms, x) (named_atoms m).
Proof.
  induction atoms as [|a atoms IH]; intros m x H.
  - injection H as <-. rewrite named_atoms_unfold. now left.
  - apply get_submodule_atoms_step_inv in H as (c & Hg & Hc).
    apply getattr_module_inv in Hg as (_ & _ & Hg).
    apply dict_get_In in Hg.
    exact (In_named_atoms_child m c a atoms x Hg (IH c x Hc)).
Qed.

(** The dotted name of a non-empty list of valid atoms. *)
Lemma join_atoms_head (x a : string) (rest : list string) :
  join_atoms ((x ++ "." ++ a)%string :: rest) =
  (x ++ "." ++ join_atoms (a :: rest))%string.
Proof.
  destruct rest as [|b rest]; [reflexivity|].
  rewrite !join_atoms_cons by discriminate.
  now rewrite !append_assoc.
Qed.

Lemma join_dot_nonempty_prefix (prefix a : string) :
  prefix <> "" ->
  join_dot prefix a = (prefix ++ "." ++ a)%string /\ join_dot prefix a <> "".
Proof.
  destruct prefix as [|c prefix]; [congruence|]. intros _.
  split; [reflexivity | discriminate].
Qed.

Lemma path_of_nonempty_prefix (atoms : list string) :
  forall prefix, prefix <> "" ->
                 path_of prefix atoms = join_atoms (prefix :: atoms).
Proof.
  unfold path_of.
  induction atoms as [|a atoms IH]; intros prefix Hne; [reflexivity|].
  cbn [fold_left].
  destruct (join_dot_nonempty_prefix prefix a Hne) as [Heq Hne'].
  rewrite (IH _ Hne'), Heq, join_atoms_head.
  now rewrite (join_atoms_cons prefix (a :: atoms)) by discriminate.
Qed.

Lemma valid_name_nonempty (n : string) : valid_name n = true -> n <> "".
Proof.
  unfold valid_name. intros H. apply andb_prop in H as [H _].
  apply negb_true_iff in H. now apply String.eqb_neq in H.
Qed.

Lemma valid_name_dot_free (n : string) : valid_name n = true -> dot_free n = true.
Proof. unfold valid_name. intros H. now apply andb_prop in H as [_ H]. Qed.

Lemma path_of_root (atoms : list string) :
  forallb valid_name atoms = true -> path_of "" atoms = join_atoms atoms.
Proof.
  destruct atoms as [|a atoms]; [reflexivity|]. cbn [forallb].
  intros H. apply andb_prop in H as [Ha _].
  unfold path_of. cbn [fold_left join_dot].
  now apply path_of_nonempty_prefix, valid_name_nonempty.
Qed.

Lemma join_atoms_nonempty (a : string) (rest : list string) :
  a <> "" -> join_atoms (a :: rest) <> "".
Proof.
  intros Ha. destruct rest as [|b rest]; [exact Ha|].
  rewrite join_atoms_cons by discriminate.
  destruct a; [congruence | discriminate].
Qed.

Lemma forallb_valid_dot_free (atoms : list string) :
  forallb valid_name atoms = true -> forallb dot_free atoms = true.
Proof.
  induction atoms as [|a atoms IH]; [reflexivity|]. cbn [forallb].
  intros H. apply andb_prop in H as [Ha H].
  now rewrite (valid_name_dot_free _ Ha), IH.
Qed.

(** The dotted name of valid atoms splits back into the atoms, and is empty
    only for the root. *)
Lemma split_path_of_root (a : string) (rest : list string) :
  forallb valid_name (a :: rest) = true ->
  path_of "" (a :: rest) <> "" /\
  split_dot (path_of "" (a :: rest)) = a :: rest.
Proof.
  intros H. rewrite (path_of_root _ H). split.
  - apply join_atoms_nonempty. cbn [forallb] in H.
    apply andb_prop in H as [Ha _]. now apply valid_name_nonempty.
  - apply split_join_atoms; [discriminate|].
    now apply forallb_valid_dot_free.
Qed.

(** [get_submodule] on the dotted name of valid atoms is the walk along the
    atoms. *)
Lemma get_submodule_path_of (m : Module) (atoms : list string) :
  forallb valid_name atoms = true ->
  get_submodule m (path_of "" atoms) = get_submodule_atoms m atoms.
Proof.
  intros H. unfold get_submodule, Module_get_submodule.
  destruct atoms as [|a rest]; [reflexivity|].
  destruct (split_path_of_root a rest H) as [Hne Hs].
  apply String.eqb_neq in Hne. now rewrite Hne, Hs.
Qed.

Lemma In_named_modules_atoms (m : Module) (p : string) (x : Module) :
  In (p, x) (named_modules "" m) <->
  exists atoms, p = path_of "" atoms /\ In (atoms, x) (named_atoms m).
Proof.
  rewrite named_modules_atoms, in_map_iff. split.
  - intros ([atoms y] & Heq & Hin). injection Heq as <- <-. now exists atoms.
  - intros (atoms & -> & Hin). now exists (atoms, x).
Qed.

(** In a well-formed model, [get_submodule] on a name [named_modules]
    lists returns the module listed with it. *)
Lemma named_modules_get (m : Module) (p : string) (x : Module) :
  wf_module m = true ->
  In (p, x) (named_modules "" m) -> get_submodule m p = Ok x.
Proof.
  intros Hwf Hin. apply In_named_modules_atoms in Hin as (atoms & -> & Hin).
  destruct (named_atoms_get m Hwf atoms x Hin) as (Hg & Hv & _).
  now rewrite get_submodule_path_of.
Qed.

(** The enumeration of a well-formed tree lists every place once. *)
Lemma named_atoms_NoDup (m : Module) :
  wf_module m = true -> NoDup (map fst (named_atoms m)).
Proof.
  induction m as [i e q ps bs ms IH] using Module_tree_ind. intros Hwf.
  rewrite named_atoms_unfold. cbn [map fst _modules].
  rewrite wf_module_unfold in Hwf. cbn [_modules] in Hwf.
  apply andb_prop in Hwf as [Hnd Hall]. apply nodupb_NoDup in Hnd.
  constructor.
  - intros Hin. apply in_map_iff in Hin as ([atoms x] & Heq & Hin).
    apply in_flat_map in Hin as (nc & _ & Hin).
    apply in_map_iff in Hin as (am & Hpair & _).
    injection Hpair as <- _. discriminate Heq.
  - assert (Hch : Forall (fun nc => NoDup (map fst (named_atoms (snd nc)))) ms).
    { rewrite Forall_forall in IH |- *. intros nc Hnc. apply IH; [exact Hnc|].
      rewrite forallb_forall in Hall. specialize (Hall nc Hnc).
      now apply andb_prop in Hall as [_ Hall]. }
    clear IH Hall. induction ms as [|[n c] ms IHms]; [constructor|].
    inversion Hnd as [|? ? Hn Hnd']; subst.
    inversion Hch as [|? ? Hc Hch']; subst.
    cbn [flat_map fst snd] in *. rewrite map_app. apply NoDup_app.
    + rewrite map_map. cbn [fst].
      rewrite <- (map_map fst (cons n)).
      apply NoDup_map_NoDup_ForallPairs; [|exact Hc].
      intros x y _ _ Heq. now injection Heq.
    + now apply IHms.
    + intros atoms H1 H2.
      apply in_map_iff in H1 as ([a1 x1] & <- & H1).
      apply in_map_iff in H1 as (am & Hpair & _). injection Hpair as <- _.
      apply in_map_iff in H2 as ([a2 x2] & Heq & H2).
      apply in_flat_map in H2 as ([n' c'] & Hin' & H2).
      apply in_map_iff in H2 as (am' & Hpair & _).
      injection Hpair as <- _. cbn [fst] in Heq. injection Heq as -> _.
      apply Hn. apply in_map_iff. now exists (n, c').
Qed.

(** Different places of a well-formed model have different dotted names. *)
Lemma named_modules_NoDup (m : Module) :
  wf_module m = true -> NoDup (map fst (named_modules "" m)).
Proof.
  intros Hwf. rewrite named_modules_atoms, map_map. cbn [fst].
  rewrite <- (map_map fst (path_of "")).
  apply NoDup_map_NoDup_ForallPairs; [|now apply named_atoms_NoDup].
  intros a1 a2 H1 H2 Heq.
  apply in_map_iff in H1 as ([a1' x1] & <- & H1).
  apply in_map_iff in H2 as ([a2' x2] & <- & H2).
  cbn [fst] in *.
  destruct (named_atoms_get m Hwf _ _ H1) as (_ & Hv1 & _).
  destruct (named_atoms_get m Hwf _ _ H2) as (_ & Hv2 & _).
  destruct a1' as [|b1 r1], a2' as [|b2 r2]; [reflexivity| | |].
  - destruct (split_path_of_root b2 r2 Hv2) as [Hne _].
    exfalso. apply Hne. now rewrite <- Heq.
  - destruct (split_path_of_root b1 r1 Hv1) as [Hne _].
    exfalso. apply Hne. now rewrite Heq.
  - destruct (split_path_of_root b1 r1 Hv1) as [_ Hs1].
    destruct (split_path_of_root b2 r2 Hv2) as [_ Hs2].
    rewrite <- Hs1, <- Hs2. now rewrite Heq.
Qed.

(* ------------------------------------------------------------------ *)
(** ** One replacement, seen from every path *)
(* ------------------------------------------------------------------ *)

Lemma get_submodule_atoms_app (xs ys : list string) :
  forall m, get_submodule_atoms m (xs ++ ys) =
            (c <- get_submodule_atoms m xs ;; get_submodule_atoms c ys).
Proof.
  induction xs as [|a xs IH]; intros m; [reflexivity|].
  change ((a :: xs) ++ ys) with (a :: (xs ++ ys)).
  rewrite !get_submodule_atoms_step.
  destruct (getattr m a) as [[p|b|c]|e]; try reflexivity. apply IH.
Qed.

(** Nothing is reachable below a module without submodules. *)
Lemma leaf_no_extension (m x z : Module) (xs ys : list string) :
  get_submodule_atoms m xs = Ok x -> _modules x = [] ->
  get_submodule_atoms m (xs ++ ys) = Ok z -> ys = [].
Proof.
  intros Hx Hleaf. rewrite get_submodule_atoms_app, Hx. simpl.
  destruct ys as [|b ys]; [reflexivity|].
  rewrite get_submodule_atoms_step. unfold getattr. rewrite Hleaf. simpl.
  destruct (dict_get b (_parameters x)); [discriminate|].
  destruct (dict_get b (_buffers x)); discriminate.
Qed.

(** Two different places that both hold a module without submodules are
    not on one branch. *)
Lemma leaves_incomparable (m x z : Module) (xs ys : list string) :
  get_submodule_atoms m xs = Ok x -> _modules x = [] ->
  get_submodule_atoms m ys = Ok z -> _modules z = [] ->
  xs <> ys -> incomparable xs ys.
Proof.
  intros Hx Hlx Hz Hlz Hne. split; intros [rest Hrest]; subst.
  - pose proof (leaf_no_extension m x z xs rest Hx Hlx Hz) as ->.
    now rewrite app_nil_r in Hne.
  - pose proof (leaf_no_extension m z x ys rest Hz Hlz Hx) as ->.
    now rewrite app_nil_r in Hne.
Qed.

(** What is reachable after a replacement was reachable before, unless it
    lies at or below the replaced place. *)
Lemma replace_atoms_converse (atoms : list string) :
  forall (m m' new_module z : Module) (ds : list string),
    replace_atoms m atoms new_module = Ok m' ->
    atoms <> [] ->
    get_submodule_atoms m' ds = Ok z ->
    is_prefix atoms ds \/ exists z0, get_submodule_atoms m ds = Ok z0.
Proof.
  induction atoms as [|a atoms IH];
    intros m m' new_module z ds H Hne Hz; [congruence|].
  destruct ds as [|x ds]; [right; now exists m|].
  destruct (String.eqb_spec a x) as [->|Hax].
  - destruct atoms as [|b rest].
    + left. apply is_prefix_cons, is_prefix_nil.
    + apply replace_atoms_step_inv in H as (c & c' & Hg & Hr & ->).
      rewrite get_submodule_atoms_step in Hz |- *.
      rewrite (getattr_with_child_same _ _ _ c' Hg) in Hz. rewrite Hg.
      destruct (IH c c' new_module z ds Hr ltac:(discriminate) Hz)
        as [Hp|Hz0]; [left; now apply is_prefix_cons | now right].
  - right. exists z. rewrite <- Hz. rewrite !get_submodule_atoms_step.
    destruct atoms as [|b rest].
    + rewrite replace_atoms_last in H.
      now rewrite (getattr_setattr_other _ _ _ _ _ H).
    + apply replace_atoms_step_inv in H as (c & c' & _ & _ & ->).
      now rewrite getattr_with_child_other.
Qed.

(** Overwriting an existing key of a dictionary keeps its keys. *)
Lemma dict_set_keys {V : Type} (n : string) (v w : V) (d : list (string * V)) :
  dict_get n d = Some w -> map fst (dict_set n v d) = map fst d.
Proof.
  induction d as [|[k u] d IH]; simpl; [discriminate|].
  destruct (String.eqb_spec n k) as [->|Hn]; [reflexivity|].
  intros H. simpl. now rewrite (IH H).
Qed.

Lemma dict_set_In {V : Type} (n : string) (v : V) (d : list (string * V))
      (k : string) (u : V) :
  In (k, u) (dict_set n v d) -> In (k, u) d \/ (k = n /\ u = v).
Proof.
  induction d as [|[k' u'] d IH]; simpl.
  - intros [H|[]]. injection H as <- <-. now right.
  - destruct (String.eqb_spec n k') as [->|Hn]; simpl.
    + intros [H|H]; [injection H as <- <-; now right | left; now right].
    + intros [H|H]; [left; now left|].
      destruct (IH H) as [H'|H']; [left; now right | now right].
Qed.

(** Putting a well-formed module where a module already is keeps the
    parent well formed. *)
Lemma wf_dict_set (m : Module) (n : string) (c v : Module)
      (ps : list (string * TorchParameter)) (bs : list (string * nat)) :
  wf_module m = true -> getattr m n = Ok (ObjModule c) ->
  wf_module v = true ->
  ps = _parameters m -> bs = _buffers m ->
  wf_module (mkModule (mid m) (isinstance_Embedding m) (qconfig m) ps bs
                      (dict_set n v (_modules m))) = true.
Proof.
  intros Hwf Hg Hv -> ->. apply getattr_module_inv in Hg as (Hp & Hb & Hm).
  rewrite wf_module_unfold in Hwf |- *. cbn [_modules _parameters _buffers].
  apply andb_prop in Hwf as [Hnd Hall].
  rewrite (dict_set_keys n v c _ Hm), Hnd. cbn [andb].
  rewrite forallb_forall in Hall |- *. intros [k u] Hin.
  destruct (dict_set_In n v _ k u Hin) as [Hold|[-> ->]].
  - exact (Hall _ Hold).
  - specialize (Hall (n, c) (dict_get_In n c _ Hm)). cbn [fst snd] in *.
    apply andb_prop in Hall as [Hall _]. now rewrite Hall, Hv.
Qed.

Lemma wf_replace_atoms (atoms : list string) :
  forall (m m' new_module cur : Module),
    wf_module m = true -> wf_module new_module = true ->
    atoms <> [] ->
    get_submodule_atoms m atoms = Ok cur ->
    replace_atoms m atoms new_module = Ok m' ->
    wf_module m' = true.
Proof.
  induction atoms as [|a atoms IH];
    intros m m' new_module cur Hwf Hnew Hne Hcur H; [congruence|].
  apply get_submodule_atoms_step_inv in Hcur as (c & Hg & Hc).
  destruct atoms as [|b rest].
  - rewrite replace_atoms_last in H. apply setattr_inv in H as [_ ->].
    injection Hc as ->.
    pose proof (getattr_module_inv _ _ _ Hg) as (Hp & Hb & _).
    apply (wf_dict_set m a cur new_module); try assumption;
      [reflexivity | now apply dict_remove_absent].
  - apply replace_atoms_step_inv in H as (c0 & c' & Hg0 & Hr & ->).
    rewrite Hg in Hg0. injection Hg0 as <-.
    pose proof (getattr_module_inv _ _ _ Hg) as (_ & _ & Hm).
    destruct (wf_child m c a Hwf (dict_get_In _ _ _ Hm)) as (_ & _ & Hwc).
    unfold with_child.
    apply (wf_dict_set m a c c'); try assumption; try reflexivity.
    exact (IH c c' new_module cur Hwc Hnew ltac:(discriminate) Hc Hr).
Qed.

(* ------------------------------------------------------------------ *)
(** ** The replacement loop over a list of sites *)
(* ------------------------------------------------------------------ *)

Lemma get_submodule_nonempty (m : Module) (r : string) :
  r <> "" -> get_submodule m r = get_submodule_atoms m (split_dot r).
Proof.
  intros H. unfold get_submodule, Module_get_submodule.
  apply String.eqb_neq in H. now rewrite H.
Qed.

Lemma incomparable_sym (xs ys : list string) :
  incomparable xs ys -> incomparable ys xs.
Proof. intros [H1 H2]. now split. Qed.

(** Two different sites of one model are not on one branch. *)
Lemma sites_incomparable (adapter_fn : Module -> result Module)
      (model : Module) (r r' : string) :
  site adapter_fn model r -> site adapter_fn model r' -> r <> r' ->
  incomparable (split_dot r) (split_dot r').
Proof.
  intros (Hr & x & y & Hx & Hlx & _) (Hr' & x' & y' & Hx' & Hlx' & _) Hne.
  rewrite get_submodule_nonempty in Hx, Hx' by assumption.
  apply (leaves_incomparable model x x'); try assumption.
  intros Heq. apply Hne. now apply split_dot_inj.
Qed.

(** One turn of the loop at a site. *)
Lemma replace_site_step (adapter_fn : Module -> result Module)
      (model : Module) (r : string) :
  wf_module model = true -> site adapter_fn model r ->
  exists x y model1,
    get_submodule model r = Ok x /\ adapter_fn x = Ok y /\
    replace_submodule model r y = Ok model1 /\
    replace_atoms model (split_dot r) y = Ok model1 /\
    get_submodule_atoms model (split_dot r) = Ok x /\
    wf_module model1 = true /\
    get_submodule model1 r = Ok y.
Proof.
  intros Hwf (Hr & x & y & Hx & Hlx & Hy & Hwy).
  pose proof Hx as Hxa. rewrite get_submodule_nonempty in Hxa by assumption.
  destruct (exists_last (split_dot_not_nil r)) as (init & a & Hs).
  pose proof Hxa as Hinit. rewrite Hs, get_submodule_atoms_app in Hinit.
  destruct (get_submodule_atoms model init) as [c|e] eqn:Hc; [|discriminate].
  cbn [bind] in Hinit.
  apply get_submodule_atoms_step_inv in Hinit as (x0 & Hg0 & _).
  apply getattr_module_inv in Hg0 as (Hpar & _).
  destruct (replace_atoms_ok init a model c y Hc Hpar) as [model1 Hrep].
  rewrite <- Hs in Hrep.
  exists x, y, model1. repeat split; try assumption.
  - exact (wf_replace_atoms (split_dot r) model model1 y x Hwf Hwy
             (split_dot_not_nil r) Hxa Hrep).
  - rewrite get_submodule_nonempty by assumption.
    exact (replace_atoms_get (split_dot r) (split_dot_not_nil r)
             model model1 y Hrep).
Qed.

Lemma replace_sites_ok (adapter_fn : Module -> result Module)
      (layers : list string) :
  forall model,
    wf_module model = true -> NoDup layers ->
    (forall r, In r layers -> site adapter_fn model r) ->
    exists model',
      replace_sites adapter_fn layers model = (model', Ok tt) /\
      wf_module model' = true /\
      (forall r, In r layers ->
                 exists x y, get_submodule model r = Ok x /\
                             adapter_fn x = Ok y /\
                             get_submodule model' r = Ok y) /\
      (forall ds, (forall r, In r layers -> incomparable (split_dot r) ds) ->
                  get_submodule_atoms model' ds = get_submodule_atoms model ds) /\
      (forall ds z, get_submodule_atoms model' ds = Ok z ->
                    (exists r, In r layers /\ is_prefix (split_dot r) ds) \/
                    exists z0, get_submodule_atoms model ds = Ok z0).
Proof.
  induction layers as [|r layers IH]; intros model Hwf Hnd Hsites.
  - exists model. repeat split; try assumption; try reflexivity.
    + intros r [].
    + intros ds z Hz. right. now exists z.
  - inversion Hnd as [|? ? Hnotin Hnd']; subst.
    pose proof (Hsites r (or_introl eq_refl)) as Hsite.
    destruct (replace_site_step adapter_fn model r Hwf Hsite)
      as (x & y & model1 & Hx & Hy & Hrep & Hrepa & Hxa & Hwf1 & Hget1).
    assert (Hinc : forall r', In r' layers ->
                              incomparable (split_dot r) (split_dot r')).
    { intros r' Hin.
      apply (sites_incomparable adapter_fn model);
        [exact Hsite | apply Hsites; now right | intros ->; contradiction]. }
    assert (Hsame : forall r', In r' layers ->
                               get_submodule model1 r' = get_submodule model r').
    { intros r' Hin. destruct (Hsites r' (or_intror Hin)) as (Hne & _).
      rewrite !get_submodule_nonempty by assumption.
      destruct (Hinc r' Hin) as [H1 H2].
      exact (replace_atoms_other (split_dot r) model model1 y (split_dot r')
               Hrepa H1 H2). }
    assert (Hsites1 : forall r', In r' layers -> site adapter_fn model1 r').
    { intros r' Hin.
      destruct (Hsites r' (or_intror Hin)) as (Hne & x' & y' & Hx' & Hrest).
      split; [exact Hne|]. exists x', y'. now rewrite (Hsame r' Hin). }
    destruct (IH model1 Hwf1 Hnd' Hsites1)
      as (model' & Hrun & Hwf' & Hdone & Hframe & Hconv).
    exists model'. split; [|split; [exact Hwf'|split; [|split]]].
    + cbn [replace_sites]. now rewrite Hx, Hy, Hrep.
    + intros r' [<-|Hin].
      * exists x, y. repeat split; try assumption.
        destruct Hsite as (Hne & _).
        rewrite get_submodule_nonempty in Hget1 |- * by assumption.
        rewrite <- Hget1. apply Hframe.
        intros r' Hin. apply incomparable_sym. now apply Hinc.
      * destruct (Hdone r' Hin) as (x' & y' & Hx' & Hy' & Hg').
        exists x', y'. now rewrite <- (Hsame r' Hin).
    + intros ds Hds. rewrite Hframe by (intros r' Hin; apply Hds; now right).
      destruct (Hds r (or_introl eq_refl)) as [H1 H2].
      exact (replace_atoms_other (split_dot r) model model1 y ds Hrepa H1 H2).
    + intros ds z Hz.
      destruct (Hconv ds z Hz) as [(r' & Hin & Hp)|(z1 & Hz1)].
      * left. exists r'. split; [now right | exact Hp].
      * destruct (replace_atoms_converse (split_dot r) model model1 y z1 ds
                    Hrepa (split_dot_not_nil r) Hz1) as [Hp|Hz0].
        -- left. exists r. split; [now left | exact Hp].
        -- now right.
Qed.

(* ------------------------------------------------------------------ *)
(** ** Injection over keys that select leaves *)
(* ------------------------------------------------------------------ *)

Lemma selects_leavesb_sound (model : Module) (match_on : list string)
      (adapter_fn : Module -> result Module) :
  selects_leavesb model match_on adapter_fn = true ->
  selects_leaves model match_on adapter_fn.
Proof.
  unfold selects_leavesb, selects_leaves. intros H p x key Hin Hkey Hc.
  rewrite forallb_forall in H. specialize (H (p, x) Hin).
  rewrite forallb_forall in H. specialize (H key Hkey). cbn [fst snd] in H.
  rewrite Hc in H.
  destruct (_modules x); [|discriminate]. split; [reflexivity|].
  destruct (adapter_fn x) as [y|e]; [|discriminate].
  apply andb_prop in H as [Hwf H]. exists y. repeat split; try assumption.
  intros key' q z Hkey' Hne Hq.
  rewrite forallb_forall in H. specialize (H key' Hkey').
  apply orb_prop in H as [H|H].
  - now apply String.eqb_eq in H.
  - rewrite forallb_forall in H. specialize (H (q, z) Hq).
    now apply negb_true_iff in H.
Qed.

Lemma NoDup_map_filter {A B : Type} (f : A -> B) (P : A -> bool) (l : list A) :
  NoDup (map f l) -> NoDup (map f (filter P l)).
Proof.
  induction l as [|a l IH]; simpl; intros H; [constructor|].
  inversion H as [|? ? Hn Hl]; subst.
  destruct (P a); simpl; [|now apply IH].
  constructor; [|now apply IH].
  intros Hin. apply Hn. apply in_map_iff in Hin as (b & Hb & Hin).
  apply filter_In in Hin as [Hin _]. apply in_map_iff. now exists b.
Qed.

Lemma match_submodules_NoDup (model : Module) (key : string) :
  wf_module model = true -> NoDup (match_submodules model key).
Proof.
  intros Hwf. unfold match_submodules.
  now apply NoDup_map_filter, named_modules_NoDup.
Qed.

Lemma In_match_submodules (model : Module) (key r : string) :
  In r (match_submodules model key) <->
  contains key r = true /\ exists z, In (r, z) (named_modules "" model).
Proof.
  unfold match_submodules. rewrite in_map_iff. split.
  - intros ([r' z] & <- & Hin). apply filter_In in Hin as [Hin Hc].
    split; [exact Hc | now exists z].
  - intros (Hc & z & Hin). exists (r, z). split; [reflexivity|].
    apply filter_In. now split.
Qed.

Lemma path_of_app (prefix : string) (xs ys : list string) :
  path_of prefix (xs ++ ys) = path_of (path_of prefix xs) ys.
Proof. unfold path_of. apply fold_left_app. Qed.

(** What a name listed by [named_modules] of a well-formed model is: the
    dotted name of valid atoms that lead to the module. *)
Lemma named_modules_atoms_of (m : Module) (p : string) (x : Module) :
  wf_module m = true -> In (p, x) (named_modules "" m) ->
  exists atoms,
    p = path_of "" atoms /\ forallb valid_name atoms = true /\
    get_submodule_atoms m atoms = Ok x /\
    (p <> "" -> split_dot p = atoms).
Proof.
  intros Hwf Hin. apply In_named_modules_atoms in Hin as (atoms & -> & Hin).
  destruct (named_atoms_get m Hwf atoms x Hin) as (Hg & Hv & _).
  exists atoms. repeat split; try assumption.
  destruct atoms as [|a rest]; [intros H; now elim H|].
  intros _. now apply split_path_of_root.
Qed.

Lemma get_named_modules (m : Module) (atoms : list string) (x : Module) :
  get_submodule_atoms m atoms = Ok x ->
  In (path_of "" atoms, x) (named_modules "" m).
Proof.
  intros H. apply In_named_modules_atoms. exists atoms.
  split; [reflexivity | now apply get_named_atoms].
Qed.

Lemma contains_nonempty (key r : string) :
  key <> "" -> contains key r = true -> r <> "".
Proof. intros Hk Hc ->. now apply contains_in_empty in Hc. Qed.

Lemma In_named_modules_head (prefix : string) (m : Module) :
  In (prefix, m) (named_modules prefix m).
Proof. destruct m. now left. Qed.

Section InjectKeys.
Variable orig : Module.
Variable match_on : list string.
Variable adapter_fn : Module -> result Module.
Hypothesis orig_wf : wf_module orig = true.
Hypothesis keys_nonempty : forall key, In key match_on -> key <> "".
Hypothesis selected : selects_leaves orig match_on adapter_fn.

(** A selected layer of the model the call started from. *)
Lemma orig_site (p : string) (x : Module) (key : string) :
  In (p, x) (named_modules "" orig) -> In key match_on ->
  contains key p = true ->
  p <> "" /\ path_of "" (split_dot p) = p /\
  get_submodule_atoms orig (split_dot p) = Ok x /\ _modules x = [].
Proof.
  intros Hin Hkey Hc.
  pose proof (contains_nonempty key p (keys_nonempty key Hkey) Hc) as Hne.
  destruct (named_modules_atoms_of orig p x orig_wf Hin)
    as (atoms & Hp & Hv & Hg & Hs).
  rewrite (Hs Hne). destruct (selected p x key Hin Hkey Hc) as [Hleaf _].
  now repeat split.
Qed.

Lemma orig_sites_incomparable (p p' : string) (x x' : Module)
      (key key' : string) :
  In (p, x) (named_modules "" orig) -> In key match_on ->
  contains key p = true ->
  In (p', x') (named_modules "" orig) -> In key' match_on ->
  contains key' p' = true ->
  p <> p' -> incomparable (split_dot p) (split_dot p').
Proof.
  intros Hin Hkey Hc Hin' Hkey' Hc' Hne.
  destruct (orig_site p x key Hin Hkey Hc) as (_ & _ & Hg & Hl).
  destruct (orig_site p' x' key' Hin' Hkey' Hc') as (_ & _ & Hg' & Hl').
  apply (leaves_incomparable orig x x'); try assumption.
  intros Heq. apply Hne. now apply split_dot_inj.
Qed.

Section Step.
Variables (cur : Module) (done replaced : list string) (key : string).
Hypothesis inv : injected orig adapter_fn cur done replaced.
Hypothesis done_keys : forall k, In k done -> In k match_on.
Hypothesis key_in : In key match_on.
Hypothesis key_fresh : ~ In key done.

(** The key at hand occurs in no name at or below a replaced path. *)
Lemma below_replaced_not_matched (r0 : string) (bs : list string) (z : Module) :
  In r0 replaced ->
  get_submodule_atoms cur (split_dot r0 ++ bs) = Ok z ->
  contains key (path_of "" (split_dot r0 ++ bs)) = false.
Proof.
  intros Hr0 Hz.
  destruct (inj_replaced inv r0 Hr0) as (x0 & y0 & k0 & Hin0 & Hk0 & Hc0 & Hy0 & Hg0).
  pose proof (done_keys k0 Hk0) as Hk0'.
  destruct (orig_site r0 x0 k0 Hin0 Hk0' Hc0) as (Hne & Hpath & _ & _).
  destruct (selected r0 x0 k0 Hin0 Hk0' Hc0) as (_ & y & Hy & _ & Hfresh).
  rewrite Hy0 in Hy. injection Hy as <-.
  rewrite get_submodule_nonempty in Hg0 by assumption.
  rewrite get_submodule_atoms_app, Hg0 in Hz. simpl in Hz.
  rewrite path_of_app, Hpath.
  apply (Hfresh key (path_of r0 bs) z key_in).
  - intros ->. contradiction.
  - rewrite named_modules_atoms. apply in_map_iff.
    exists (bs, z). split; [reflexivity | now apply get_named_atoms].
Qed.

Lemma replaced_not_matched (r0 : string) :
  In r0 replaced -> contains key r0 = false.
Proof.
  intros Hr0.
  destruct (inj_replaced inv r0 Hr0) as (x0 & y0 & k0 & Hin0 & Hk0 & Hc0 & Hy0 & Hg0).
  pose proof (done_keys k0 Hk0) as Hk0'.
  destruct (orig_site r0 x0 k0 Hin0 Hk0' Hc0) as (Hne & Hpath & _ & _).
  rewrite get_submodule_nonempty in Hg0 by assumption.
  pose proof (below_replaced_not_matched r0 [] y0 Hr0) as H.
  rewrite app_nil_r, Hpath in H. now apply H.
Qed.

(** A path of the original model that the key at hand selects still holds
    the module it held. *)
Lemma selected_untouched (p : string) (x : Module) :
  In (p, x) (named_modules "" orig) -> contains key p = true ->
  ~ In p replaced /\ get_submodule cur p = Ok x.
Proof.
  intros Hin Hc.
  assert (Hnot : ~ In p replaced).
  { intros Hr. rewrite (replaced_not_matched p Hr) in Hc. discriminate. }
  split; [exact Hnot|].
  destruct (orig_site p x key Hin key_in Hc) as (Hne & _ & Hg & _).
  rewrite get_submodule_nonempty by assumption. rewrite <- Hg.
  apply (inj_frame inv). intros r0 Hr0.
  destruct (inj_replaced inv r0 Hr0) as (x0 & y0 & k0 & Hin0 & Hk0 & Hc0 & _).
  apply (orig_sites_incomparable r0 p x0 x k0 key); try assumption.
  - now apply done_keys.
  - intros ->. contradiction.
Qed.

(** What [match_submodules] finds for the key at hand in the current model
    are the layers the key selects in the original one, all still in
    place. *)
Lemma matching_layers_are_sites :
  NoDup (match_submodules cur key) /\
  (forall r, In r (match_submodules cur key) ->
             site adapter_fn cur r /\ ~ In r replaced /\
             exists x, In (r, x) (named_modules "" orig) /\
                       get_submodule cur r = Ok x) /\
  (forall p x, In (p, x) (named_modules "" orig) -> contains key p = true ->
               In p (match_submodules cur key)).
Proof.
  pose proof (inj_wf inv) as Hwf.
  split; [now apply match_submodules_NoDup|]. split.
  - intros r Hr. apply In_match_submodules in Hr as (Hc & z & Hin).
    pose proof (contains_nonempty key r (keys_nonempty key key_in) Hc) as Hne.
    destruct (named_modules_atoms_of cur r z Hwf Hin)
      as (atoms & Hp & Hv & Hg & Hs).
    specialize (Hs Hne).
    assert (Horig : exists z0, In (r, z0) (named_modules "" orig)).
    { destruct (inj_converse inv atoms z Hg) as [(r0 & Hr0 & [bs Hbs])|(z0 & Hz0)].
      - exfalso. rewrite Hbs in Hg, Hp. rewrite Hp in Hc.
        rewrite (below_replaced_not_matched r0 bs z Hr0 Hg) in Hc.
        discriminate.
      - exists z0. rewrite Hp. now apply get_named_modules. }
    destruct Horig as (z0 & Hin0).
    destruct (selected_untouched r z0 Hin0 Hc) as (Hnot & Hcur).
    destruct (selected r z0 key Hin0 key_in Hc) as (Hleaf & y & Hy & Hwy & _).
    repeat split; try assumption.
    + exists z0, y. now repeat split.
    + now exists z0.
  - intros p x Hin Hc. apply In_match_submodules. split; [exact Hc|].
    destruct (selected_untouched p x Hin Hc) as (_ & Hcur).
    destruct (orig_site p x key Hin key_in Hc) as (Hne & Hpath & _ & _).
    rewrite get_submodule_nonempty in Hcur by assumption.
    exists x. rewrite <- Hpath. now apply get_named_modules.
Qed.

(** The replacement loop for the key at hand succeeds and leaves the
    injection one key further. *)
Lemma inject_step :
  exists cur',
    replace_sites adapter_fn (match_submodules cur key) cur = (cur', Ok tt) /\
    injected orig adapter_fn cur' (key :: done)
             (match_submodules cur key ++ replaced).
Proof.
  destruct matching_layers_are_sites as (Hnd & Hsites & Hall).
  destruct (replace_sites_ok adapter_fn (match_submodules cur key) cur
              (inj_wf inv) Hnd (fun r Hr => proj1 (Hsites r Hr)))
    as (cur' & Hrun & Hwf' & Hdone & Hframe & Hconv).
  exists cur'. split; [exact Hrun|].
  assert (Hinc : forall r r0, In r (match_submodules cur key) ->
                              In r0 replaced ->
                              incomparable (split_dot r) (split_dot r0)).
  { intros r r0 Hr Hr0.
    destruct (Hsites r Hr) as (_ & Hnot & x & Hin & _).
    apply In_match_submodules in Hr as (Hc & _).
    destruct (inj_replaced inv r0 Hr0) as (x0 & y0 & k0 & Hin0 & Hk0 & Hc0 & _).
    apply (orig_sites_incomparable r r0 x x0 key k0); try assumption.
    - now apply done_keys.
    - intros ->. contradiction. }
  constructor.
  - exact Hwf'.
  - intros r Hr. apply in_app_or in Hr as [Hr|Hr].
    + destruct (Hsites r Hr) as (_ & _ & x & Hin & Hcur).
      destruct (Hdone r Hr) as (x' & y & Hx' & Hy & Hg').
      rewrite Hcur in Hx'. injection Hx' as <-.
      apply In_match_submodules in Hr as (Hc & _).
      exists x, y, key. repeat split; try assumption. now left.
    + destruct (inj_replaced inv r Hr) as (x & y & k & Hin & Hk & Hc & Hy & Hg).
      exists x, y, k. repeat split; try assumption; [now right|].
      destruct (orig_site r x k Hin (done_keys k Hk) Hc) as (Hne & _).
      rewrite get_submodule_nonempty in Hg |- * by assumption.
      rewrite <- Hg. apply Hframe. intros r' Hr'. now apply Hinc.
  - intros p x k Hin [<-|Hk] Hc.
    + apply in_or_app. left. now apply (Hall p x).
    + apply in_or_app. right. now apply (inj_complete inv p x k).
  - intros ds Hds.
    rewrite Hframe by (intros r Hr; apply Hds, in_or_app; now left).
    apply (inj_frame inv). intros r Hr. apply Hds, in_or_app. now right.
  - intros ds z Hz.
    destruct (Hconv ds z Hz) as [(r & Hr & Hp)|(z1 & Hz1)].
    + left. exists r. split; [apply in_or_app; now left | exact Hp].
    + destruct (inj_converse inv ds z1 Hz1) as [(r & Hr & Hp)|Hz0].
      * left. exists r. split; [apply in_or_app; now right | exact Hp].
      * now right.
Qed.
End Step.
End InjectKeys.

(** The LoRA loop is the replacement loop, run with the adapter function
    followed by the device lookup. *)
Lemma lora_inject_layers_replace_sites (adapter_fn : Module -> result Module)
      (layers : list string) :
  forall model,
    lora_inject_layers adapter_fn layers model =
    replace_sites (with_weight_device adapter_fn) layers model.
Proof.
  induction layers as [|r layers IH]; intros model; [reflexivity|].
  cbn [lora_inject_layers replace_sites]. unfold with_weight_device.
  destruct (get_submodule model r) as [cur|e]; [|reflexivity].
  destruct (adapter_fn cur) as [new_module|e]; simpl; [|reflexivity].
  destruct (weight_device cur) as [u|e]; simpl; [|reflexivity].
  unfold Module_to.
  destruct (replace_submodule model r new_module) as [model'|e];
    [apply IH | reflexivity].
Qed.

(** The IA3 loop is the replacement loop as long as it meets no path that
    was processed before. *)
Lemma inject_layers_replace_sites (adapter_fn : Module -> result Module)
      (layers : list string) :
  forall st,
    NoDup layers ->
    (forall r, In r layers -> ~ In r (st_processed st)) ->
    exists processed',
      inject_layers adapter_fn layers st =
      (mkInjectState (fst (replace_sites adapter_fn layers (st_model st)))
                     processed',
       snd (replace_sites adapter_fn layers (st_model st))) /\
      (forall r, In r processed' -> In r layers \/ In r (st_processed st)).
Proof.
  induction layers as [|r layers IH]; intros [model processed] Hnd Hnew.
  - exists processed. split; [reflexivity | now right].
  - inversion Hnd as [|? ? Hr Hnd']; subst.
    cbn [inject_layers replace_sites st_model st_processed] in *.
    assert (Hex : existsb (String.eqb r) processed = false).
    { destruct (existsb (String.eqb r) processed) eqn:E; [|reflexivity].
      apply existsb_exists in E as (r' & Hin & Heq).
      apply String.eqb_eq in Heq. subst r'.
      now elim (Hnew r (or_introl eq_refl)). }
    rewrite Hex.
    destruct (get_submodule model r) as [cur|e];
      [|exists processed; split; [reflexivity | now right]].
    destruct (adapter_fn cur) as [new_module|e];
      [|exists processed; split; [reflexivity | now right]].
    unfold Module_to.
    destruct (replace_submodule model r new_module) as [model'|e];
      [|exists processed; split; [reflexivity | now right]].
    destruct (IH (mkInjectState model' (r :: processed)) Hnd')
      as (processed' & Hrun & Hsub).
    + cbn [st_processed]. intros r' Hin [<-|Hp]; [contradiction|].
      now apply (Hnew r' (or_intror Hin)).
    + exists processed'. split; [exact Hrun|].
      intros r' Hin. destruct (Hsub r' Hin) as [H|[<-|H]].
      * left. now right.
      * left. now left.
      * now right.
Qed.

Lemma replace_sites_ext (f g : Module -> result Module) :
  (forall x, f x = g x) ->
  forall layers model, replace_sites f layers model = replace_sites g layers model.
Proof.
  intros Hfg. induction layers as [|r layers IH]; intros model; [reflexivity|].
  cbn [replace_sites]. destruct (get_submodule model r) as [cur|e]; [|reflexivity].
  rewrite Hfg. destruct (g cur) as [new_module|e]; [|reflexivity].
  destruct (replace_submodule model r new_module); [apply IH | reflexivity].
Qed.

Lemma injected_start (orig : Module) (adapter_fn : Module -> result Module) :
  wf_module orig = true -> injected orig adapter_fn orig [] [].
Proof.
  intros Hwf. constructor; try easy.
  intros ds z Hz. right. now exists z.
Qed.

Section InjectKeysLoops.
Variable orig : Module.
Variable match_on : list string.
Variable adapter_fn : Module -> result Module.
Hypothesis orig_wf : wf_module orig = true.
Hypothesis keys_nonempty : forall key, In key match_on -> key <> "".
Hypothesis selected : selects_leaves orig match_on adapter_fn.

Lemma inject_keys_leaves (keys : list string) :
  forall cur done replaced processed,
    injected orig adapter_fn cur done replaced ->
    (forall k, In k done -> In k match_on) ->
    (forall k, In k keys -> In k match_on) ->
    NoDup keys -> (forall k, In k keys -> ~ In k done) ->
    (forall r, In r processed -> In r replaced) ->
    exists st' replaced',
      inject_keys adapter_fn keys (mkInjectState cur processed) = (st', Ok tt) /\
      injected orig adapter_fn (st_model st') (rev keys ++ done) replaced'.
Proof.
  induction keys as [|key keys IH];
    intros cur done replaced processed Hinv Hdone Hkeys Hnd Hfresh Hproc.
  - exists (mkInjectState cur processed), replaced. now split.
  - inversion Hnd as [|? ? Hkey Hnd']; subst.
    pose proof (Hkeys key (or_introl eq_refl)) as Hin.
    pose proof (Hfresh key (or_introl eq_refl)) as Hnew.
    destruct (matching_layers_are_sites orig match_on adapter_fn orig_wf
                keys_nonempty selected cur done replaced key Hinv Hdone Hin Hnew)
      as (HndL & Hsites & _).
    destruct (inject_step orig match_on adapter_fn orig_wf keys_nonempty
                selected cur done replaced key Hinv Hdone Hin Hnew)
      as (cur' & Hrun & Hinv').
    destruct (inject_layers_replace_sites adapter_fn
                (match_submodules cur key) (mkInjectState cur processed) HndL)
      as (processed' & Hloop & Hsub).
    { intros r Hr Hp. destruct (Hsites r Hr) as (_ & Hnot & _).
      apply Hnot, Hproc, Hp. }
    cbn [st_model st_processed] in Hloop, Hsub. rewrite Hrun in Hloop.
    cbn [fst snd] in Hloop.
    destruct (IH cur' (key :: done) (match_submodules cur key ++ replaced)
                processed' Hinv') as (st' & replaced' & Hrest & Hfin).
    + intros k [<-|Hk]; [exact Hin | now apply Hdone].
    + intros k Hk. apply Hkeys. now right.
    + exact Hnd'.
    + intros k Hk [<-|Hd]; [contradiction|].
      now apply (Hfresh k (or_intror Hk)).
    + intros r Hr. apply in_or_app.
      destruct (Hsub r Hr) as [H|H]; [now left | right; now apply Hproc].
    + exists st', replaced'. split.
      * cbn [inject_keys st_model]. now rewrite Hloop.
      * cbn [rev]. now rewrite <- app_assoc.
Qed.

Lemma lora_inject_adapter_leaves (g : Module -> result Module)
      (keys : list string) :
  (forall x, with_weight_device g x = adapter_fn x) ->
  forall cur done replaced,
    injected orig adapter_fn cur done replaced ->
    (forall k, In k done -> In k match_on) ->
    (forall k, In k keys -> In k match_on) ->
    NoDup keys -> (forall k, In k keys -> ~ In k done) ->
    exists cur' replaced',
      lora_inject_adapter cur keys g = (cur', Ok tt) /\
      injected orig adapter_fn cur' (rev keys ++ done) replaced'.
Proof.
  intros Hg.
  induction keys as [|key keys IH];
    intros cur done replaced Hinv Hdone Hkeys Hnd Hfresh.
  - exists cur, replaced. now split.
  - inversion Hnd as [|? ? Hkey Hnd']; subst.
    pose proof (Hkeys key (or_introl eq_refl)) as Hin.
    pose proof (Hfresh key (or_introl eq_refl)) as Hnew.
    destruct (inject_step orig match_on adapter_fn orig_wf keys_nonempty
                selected cur done replaced key Hinv Hdone Hin Hnew)
      as (cur' & Hrun & Hinv').
    destruct (IH cur' (key :: done) (match_submodules cur key ++ replaced)
                Hinv') as (cur'' & replaced' & Hrest & Hfin).
    + intros k [<-|Hk]; [exact Hin | now apply Hdone].
    + intros k Hk. apply Hkeys. now right.
    + exact Hnd'.
    + intros k Hk [<-|Hd]; [contradiction|].
      now apply (Hfresh k (or_intror Hk)).
    + exists cur'', replaced'. split.
      * cbn [lora_inject_adapter].
        rewrite lora_inject_layers_replace_sites.
        rewrite (replace_sites_ext _ _ Hg), Hrun. exact Hrest.
      * cbn [rev]. now rewrite <- app_assoc.
Qed.

(** Once every key is done, every selected layer holds its replacement. *)
Lemma injected_all_replaced (cur : Module) (done replaced : list string) :
  injected orig adapter_fn cur done replaced ->
  (forall k, In k match_on -> In k done) ->
  forall p x,
    In (p, x) (named_modules "" orig) ->
    (exists key, In key match_on /\ contains key p = true) ->
    exists y, adapter_fn x = Ok y /\ get_submodule cur p = Ok y.
Proof.
  intros Hinv Hall p x Hin (key & Hkey & Hc).
  pose proof (inj_complete Hinv p x key Hin (Hall key Hkey) Hc) as Hp.
  destruct (inj_replaced Hinv p Hp) as (x' & y & k & Hin' & _ & _ & Hy & Hg).
  pose proof (named_modules_get orig p x orig_wf Hin) as H1.
  pose proof (named_modules_get orig p x' orig_wf Hin') as H2.
  rewrite H1 in H2. injection H2 as <-. now exists y.
Qed.
End InjectKeysLoops.

(** In a model read as a tree: let the model be well formed and the keys be
    pairwise different, non-empty, and select leaves.  Then [inject_adapter]
    (IA3 notebook) returns; each module of the model whose name contains a
    key is replaced, at its path, by the adapter function applied to it;
    and every other module of the model is the object it was.  The same
    holds for [inject_adapter] of the LoRA notebook when, in addition, the
    selected modules carry a [weight] tensor. *)
Lemma inject_leaves_tree
        (model : Module) (match_on : list string)
        (adapter_fn : Module -> result Module) :
  wf_module model = true ->
  NoDup match_on ->
  (forall key, In key match_on -> key <> "") ->
  selects_leaves model match_on adapter_fn ->
  replaces_matches model match_on adapter_fn
                   (inject_adapter model match_on adapter_fn) /\
  (selects_leaves model match_on (with_weight_device adapter_fn) ->
   replaces_matches model match_on adapter_fn
                    (lora_inject_adapter model match_on adapter_fn)).
Proof.
  intros Hwf Hnd Hne Hsel.
  assert (Hrev : forall k, In k match_on -> In k (rev match_on ++ [])).
  { intros k Hk. rewrite app_nil_r. now apply in_rev in Hk. }
  split.
  - destruct (inject_keys_leaves model match_on adapter_fn Hwf Hne Hsel
                match_on model [] [] [] (injected_start model adapter_fn Hwf))
      as (st' & replaced' & Hrun & Hinv); try easy.
    unfold replaces_matches, inject_adapter.
    rewrite Hrun. cbn [fst snd]. repeat split.
    + exact (injected_all_replaced model match_on adapter_fn Hwf (st_model st')
               _ replaced' Hinv Hrev).
    + intros p x Hin Hkeys.
      assert (H0 : kept p x model)
        by (exists x; split;
            [now apply named_modules_get | apply same_object_refl]).
      pose proof (inject_keys_frame adapter_fn p x match_on Hkeys
                    (mkInjectState model []) H0) as Hk.
      rewrite Hrun in Hk. exact Hk.
  - intros Hsel'.
    destruct (lora_inject_adapter_leaves model match_on
                (with_weight_device adapter_fn) Hwf Hne Hsel' adapter_fn
                match_on (fun x => eq_refl) model [] []
                (injected_start model _ Hwf))
      as (cur' & replaced' & Hrun & Hinv); try easy.
    unfold replaces_matches. rewrite Hrun. cbn [fst snd]. repeat split.
    + intros p x Hin Hex.
      destruct (injected_all_replaced model match_on _ Hwf cur' _ replaced'
                  Hinv Hrev p x Hin Hex) as (y & Hy & Hg).
      exists y. split; [|exact Hg].
      unfold with_weight_device in Hy.
      destruct (adapter_fn x) as [y'|e]; simpl in Hy; [|discriminate].
      destruct (weight_device x); simpl in Hy; [now injection Hy as -> | discriminate].
    + intros p x Hin Hkeys.
      assert (H0 : kept p x model)
        by (exists x; split;
            [now apply named_modules_get | apply same_object_refl]).
      pose proof (lora_inject_adapter_frame adapter_fn p x match_on Hkeys
                    model H0) as Hk.
      rewrite Hrun in Hk. exact Hk.
Qed.

(* ------------------------------------------------------------------ *)
(** ** Quantization configuration by module type *)
(* ------------------------------------------------------------------ *)

Lemma for_each_module_unfold (f : Module -> Module) (m : Module) :
  for_each_module f m =
  mkModule (mid (f m)) (isinstance_Embedding (f m)) (qconfig (f m))
           (_parameters (f m)) (_buffers (f m))
           (map (fun nc => (fst nc, for_each_module f (snd nc))) (_modules m)).
Proof. destruct m; reflexivity. Qed.

Lemma named_modules_unfold (prefix : string) (m : Module) :
  named_modules prefix m =
  (prefix, m) ::
  flat_map (fun nc => named_modules (join_dot prefix (fst nc)) (snd nc))
           (_modules m).
Proof. destruct m; reflexivity. Qed.

(** A loop over all modules keeps the enumeration, module by module. *)
Lemma named_modules_for_each (f : Module -> Module) (m : Module) :
  forall prefix,
    named_modules prefix (for_each_module f m) =
    map (fun pm => (fst pm, for_each_module f (snd pm)))
        (named_modules prefix m).
Proof.
  induction m as [i e q ps bs ms IH] using Module_tree_ind. intros prefix.
  rewrite (named_modules_unfold prefix (for_each_module f _)).
  rewrite (named_modules_unfold prefix (mkModule i e q ps bs ms)).
  cbn [map fst snd]. f_equal.
  rewrite for_each_module_unfold. cbn [_modules].
  induction ms as [|[n c] ms IHms]; [reflexivity|].
  inversion IH as [|? ? Hc Hms]; subst.
  cbn [map flat_map fst snd] in *.
  now rewrite map_app, Hc, (IHms Hms).
Qed.

(** C6.  After [set_qconfig_for_model(model)] every submodule of the model
    (same name, same object) carries a [qconfig]; it is the weight-only
    embedding configuration exactly when the submodule is an instance of
    [torch.nn.Embedding], and the default ['fbgemm'] configuration in every
    other case. *)
Theorem set_qconfig_for_model_by_type (model : Module) (p : string) (m : Module) :
  In (p, m) (named_modules "" model) ->
  exists m',
    In (p, m') (named_modules "" (set_qconfig_for_model model)) /\
    mid m' = mid m /\
    isinstance_Embedding m' = isinstance_Embedding m /\
    (exists c, qconfig m' = Some c) /\
    (qconfig m' = Some embedding_qconfig <-> isinstance_Embedding m = true) /\
    (isinstance_Embedding m = false -> qconfig m' = Some default_qconfig).
Proof.
  intros Hin. exists (for_each_module assign_qconfig m). split.
  - unfold set_qconfig_for_model. rewrite named_modules_for_each.
    apply in_map_iff. now exists (p, m).
  - rewrite for_each_module_unfold. unfold assign_qconfig. cbn [mid qconfig
      isinstance_Embedding].
    destruct (isinstance_Embedding m) eqn:E; cbn; rewrite ?E.
    + split; [reflexivity|]. split; [reflexivity|].
      split; [now exists embedding_qconfig|]. split; [easy | discriminate].
    + split; [reflexivity|]. split; [reflexivity|].
      split; [now exists default_qconfig|]. split; [|reflexivity].
      split; discriminate.
Qed.

Lemma set_qconfig_for_model_by_type_witness :
  exists m',
    In ("embed", m') (named_modules "" (set_qconfig_for_model toy_lora_model)) /\
    mid m' = 1 /\ isinstance_Embedding m' = true /\
    (exists c, qconfig m' = Some c) /\
    (qconfig m' = Some embedding_qconfig <-> true = true) /\
    (true = false -> qconfig m' = Some default_qconfig).
Proof.
  apply (set_qconfig_for_model_by_type toy_lora_model "embed"
           (mkModule 1 true None [("weight", mkTorchParameter 10 true)] [] [])).
  simpl. right. now left.
Defined.

(* ------------------------------------------------------------------ *)
(** ** Only the LoRA parameters stay trainable *)
(* ------------------------------------------------------------------ *)

Lemma drop_seen_map (g : TorchParameter -> TorchParameter) :
  (forall v, pid (g v) = pid v) ->
  forall memo l,
    drop_seen memo (map (on_member g) l) = map (on_member g) (drop_seen memo l).
Proof.
  intros Hg memo l. revert memo.
  induction l as [|[n v] l IH]; intros memo; [reflexivity|].
  cbn [map on_member drop_seen fst snd]. rewrite Hg.
  destruct (existsb (Nat.eqb (pid v)) memo); [apply IH|].
  cbn [map on_member fst snd]. now rewrite IH.
Qed.

Lemma set_flag_pid (i : nat) (b : bool) (v : TorchParameter) :
  pid (set_flag i b v) = pid v.
Proof. unfold set_flag. now destruct (Nat.eqb (pid v) i). Qed.

Lemma flag_where_pid (ids : list nat) (b : bool) (v : TorchParameter) :
  pid (flag_where ids b v) = pid v.
Proof. unfold flag_where. now destruct (existsb _ ids). Qed.

(** Setting the flag of one parameter object keeps the names and the
    objects that [named_parameters] lists, and shows the flag on that
    object. *)
Lemma named_parameters_set_requires_grad (i : nat) (b : bool) (model : Module) :
  named_parameters (set_requires_grad i b model) =
  map (on_member (set_flag i b)) (named_parameters model).
Proof.
  unfold named_parameters.
  rewrite <- (drop_seen_map (set_flag i b) (set_flag_pid i b)). f_equal.
  unfold named_members, set_requires_grad. rewrite named_modules_for_each.
  induction (named_modules "" model) as [|[p m] l IH]; [reflexivity|].
  cbn [map flat_map fst snd]. rewrite map_app, IH. f_equal.
  rewrite for_each_module_unfold. cbn [_parameters].
  rewrite !map_map. reflexivity.
Qed.

Lemma flag_where_cons (i : nat) (ids : list nat) (b : bool) (v : TorchParameter) :
  flag_where ids b (set_flag i b v) = flag_where (i :: ids) b v.
Proof.
  unfold flag_where, set_flag. cbn [existsb].
  destruct (Nat.eqb (pid v) i); cbn [pid orb]; [|reflexivity].
  now destruct (existsb (Nat.eqb (pid v)) ids).
Qed.

(** The first loop, on what [named_parameters] lists. *)
Lemma named_parameters_freeze (ps : list TorchParameter) :
  forall model,
    named_parameters
      (fold_left (fun mdl param => set_requires_grad (pid param) false mdl)
                 ps model) =
    map (on_member (flag_where (map pid ps) false)) (named_parameters model).
Proof.
  induction ps as [|a ps IH]; intros model.
  - cbn [fold_left map]. rewrite <- (map_id (named_parameters model)) at 1.
    apply map_ext. now intros [n v].
  - cbn [fold_left map]. rewrite IH, named_parameters_set_requires_grad, map_map.
    apply map_ext. intros [n v]. unfold on_member. cbn [fst snd].
    now rewrite flag_where_cons.
Qed.

(** The second loop, on what [named_parameters] lists. *)
Lemma named_parameters_thaw (l : list (string * TorchParameter)) :
  forall model,
    named_parameters
      (fold_left (fun mdl np =>
                    if is_lora_name (fst np)
                    then set_requires_grad (pid (snd np)) true mdl
                    else mdl) l model) =
    map (on_member
           (flag_where
              (map (fun np => pid (snd np))
                   (filter (fun np => is_lora_name (fst np)) l)) true))
        (named_parameters model).
Proof.
  induction l as [|[n0 v0] l IH]; intros model.
  - cbn [fold_left filter map]. rewrite <- (map_id (named_parameters model)) at 1.
    apply map_ext. now intros [n v].
  - cbn [fold_left filter fst snd]. rewrite IH.
    destruct (is_lora_name n0); [|reflexivity].
    rewrite named_parameters_set_requires_grad, map_map.
    apply map_ext. intros [n v]. unfold on_member. cbn [fst snd map].
    now rewrite flag_where_cons.
Qed.

Lemma existsb_eqb_In (i : nat) (ids : list nat) :
  existsb (Nat.eqb i) ids = true <-> In i ids.
Proof.
  rewrite existsb_exists. split.
  - intros (j & Hin & Heq). apply Nat.eqb_eq in Heq. now subst.
  - intros Hin. exists i. split; [exact Hin | apply Nat.eqb_refl].
Qed.

(** [named_parameters] lists every parameter object once. *)
Lemma drop_seen_NoDup (l : list (string * TorchParameter)) :
  forall memo,
    NoDup (map (fun np => pid (snd np)) (drop_seen memo l)) /\
    (forall np, In np (drop_seen memo l) -> ~ In (pid (snd np)) memo).
Proof.
  induction l as [|[n v] l IH]; intros memo.
  - split; [constructor | intros np []].
  - cbn [drop_seen].
    destruct (existsb (Nat.eqb (pid v)) memo) eqn:E; [apply IH|].
    destruct (IH (pid v :: memo)) as [Hnd Hnot]. split.
    + cbn [map snd]. constructor; [|exact Hnd].
      intros Hin. apply in_map_iff in Hin as (np & Heq & Hin).
      apply (Hnot np Hin). left. now symmetry.
    + intros np [<-|Hin]; cbn [snd].
      * intros Hin. apply existsb_eqb_In in Hin. congruence.
      * intros Hm. apply (Hnot np Hin). now right.
Qed.

Lemma NoDup_map_eq {A B : Type} (f : A -> B) (l : list A) (a b : A) :
  NoDup (map f l) -> In a l -> In b l -> f a = f b -> a = b.
Proof.
  induction l as [|x l IH]; simpl; intros Hnd Ha Hb Heq; [contradiction|].
  inversion Hnd as [|? ? Hx Hl]; subst.
  destruct Ha as [->|Ha], Hb as [->|Hb]; try reflexivity.
  - exfalso. apply Hx. rewrite Heq. now apply in_map.
  - exfalso. apply Hx. rewrite <- Heq. now apply in_map.
  - now apply IH.
Qed.



(* ------------------------------------------------------------------ *)
(** ** Facts on tensors *)
(* ------------------------------------------------------------------ *)

Lemma broadcast_rev_nil_r (a : list nat) : broadcast_rev a [] = Some a.
Proof. now destruct a. Qed.

(** A tensor with at least two dimensions keeps its shape when it is
    multiplied by a row of the size of its last dimension. *)
Lemma broadcast_shapes_row (s : list nat) (n : nat) :
  2 <= List.length s -> last_dim s = n -> broadcast_shapes s [1; n] = Some s.
Proof.
  intros Hlen Hlast.
  destruct (exists_last (l := s)) as (s' & n' & ->);
    [intros ->; simpl in Hlen; lia|].
  unfold last_dim in Hlast. rewrite last_last in Hlast. subst n'.
  destruct (exists_last (l := s')) as (lead & x & ->).
  { intros ->. simpl in Hlen. lia. }
  unfold broadcast_shapes. rewrite !rev_app_distr. cbn [rev app].
  cbn [broadcast_rev]. rewrite broadcast_rev_nil_r, Nat.eqb_refl.
  destruct (Nat.eqb x 1) eqn:Ex; rewrite ?Nat.eqb_refl; cbn [option_map rev];
    now rewrite rev_involutive, <- !app_assoc.
Qed.

Section TensorFacts.
Context {R : Type} {S : Scalar R}.

Lemma tensor_eta (t : Tensor R) : mkTensor (shape t) (rows t) = t.
Proof. now destruct t. Qed.

(** [torch.mul] of a batched tensor by a row of shape [(1, n)]. *)
Lemma torch_mul_row (a : Tensor R) (l : list R) (n : nat) :
  2 <= List.length (shape a) -> last_dim (shape a) = n ->
  torch_mul a (mkTensor [1; n] [l]) =
  Ok (mkTensor (shape a) (map (fun ra => zip_with mul ra l) (rows a))).
Proof.
  intros Hlen Hlast. unfold torch_mul. cbn [shape rows removelast forallb hd].
  cbn [Nat.eqb andb].
  rewrite (broadcast_shapes_row _ n Hlen Hlast).
  unfold mul_rows. rewrite Hlast. change (last_dim [1; n]) with n.
  now rewrite Nat.eqb_refl.
Qed.

Section MulOne.
Hypothesis mul_one_r : forall v : R, mul v one = v.

Lemma zip_with_mul_ones (ra : list R) (n : nat) :
  List.length ra = n -> zip_with mul ra (repeat one n) = ra.
Proof.
  revert n. induction ra as [|v ra IH]; intros n Hn; [now destruct n|].
  destruct n as [|n]; [discriminate|]. injection Hn as Hn.
  cbn [repeat zip_with]. now rewrite mul_one_r, IH.
Qed.

(** Multiplying a batched tensor by the all-ones row gives it back. *)
Lemma torch_mul_ones (a : Tensor R) (n : nat) :
  batched a n -> torch_mul a (ones_row n) = Ok a.
Proof.
  intros (Hwf & Hlen & Hlast). unfold ones_row.
  rewrite (torch_mul_row a _ n Hlen Hlast). f_equal.
  unfold well_shaped in Hwf. rewrite Forall_forall in Hwf.
  destruct a as [s rs]. cbn [shape rows] in *. f_equal.
  transitivity (map (fun ra : list R => ra) rs); [|apply map_id].
  apply map_ext_in. intros ra Hra.
  apply zip_with_mul_ones. rewrite <- Hlast. now apply Hwf.
Qed.
End MulOne.
End TensorFacts.

(* ------------------------------------------------------------------ *)
(** ** Lists read by position *)
(* ------------------------------------------------------------------ *)

Lemma map_seq_nth {A B : Type} (f : A -> B) (d : A) (l : list A) :
  map (fun i => f (nth i l d)) (seq 0 (List.length l)) = map f l.
Proof.
  induction l as [|a l IH]; [reflexivity|].
  cbn [List.length seq map nth]. f_equal.
  rewrite <- seq_shift, map_map. exact IH.
Qed.

Lemma map_seq_combine {A B C : Type} (g : A -> B -> C) (d1 : A) (d2 : B)
      (l : list A) (l' : list B) :
  List.length l = List.length l' ->
  map (fun i => g (nth i l d1) (nth i l' d2)) (seq 0 (List.length l)) =
  map (fun p => g (fst p) (snd p)) (combine l l').
Proof.
  intros Hlen.
  rewrite <- (map_seq_nth (fun p => g (fst p) (snd p)) (d1, d2) (combine l l')).
  rewrite length_combine, <- Hlen, Nat.min_id.
  apply map_ext. intros i. now rewrite combine_nth.
Qed.

Section LinearAlgebra.
Context {R : Type} {S : Scalar R}.
Hypothesis laws : semi_ring_theory zero one add mul (@eq R).
Add Ring scalar_ring : laws.

Lemma dot_cons (x y : R) (u v : list R) :
  dot (x :: u) (y :: v) = add (mul x y) (dot u v).
Proof. reflexivity. Qed.

Lemma dot_scale_r (c : R) (v w : list R) :
  dot v (map (mul c) w) = mul c (dot v w).
Proof.
  revert w. induction v as [|x v IH]; intros [|y w]; cbn [map];
    try (unfold dot; cbn; ring).
  rewrite !dot_cons, IH. ring.
Qed.

Lemma dot_zip_assoc (v l w : list R) :
  dot (zip_with mul v l) w = dot v (zip_with mul l w).
Proof.
  revert l w. induction v as [|x v IH]; intros [|y l] [|z w];
    try reflexivity.
  cbn [zip_with]. rewrite !dot_cons, IH. ring.
Qed.

(** The product with a row that is [c] at position [i] and zero elsewhere
    picks the entry at [i]. *)
Lemma dot_delta (i : nat) (c : R) (u : list R) :
  forall s,
    dot (map (fun k => if Nat.eqb i k then c else zero)
             (seq s (List.length u))) u =
    if Nat.leb s i && Nat.ltb i (s + List.length u)
    then mul c (nth (i - s) u zero) else zero.
Proof.
  induction u as [|x u IH]; intros s.
  - cbn [List.length seq map].
    destruct (Nat.leb_spec s i), (Nat.ltb_spec i (s + 0)); cbn [andb];
      try reflexivity; lia.
  - cbn [List.length seq map]. rewrite dot_cons, IH.
    destruct (Nat.eqb_spec i s) as [->|Hne].
    + rewrite Nat.sub_diag. cbn [nth].
      destruct (Nat.leb_spec (Datatypes.S s) s); [lia|].
      destruct (Nat.leb_spec s s); [|lia].
      destruct (Nat.ltb_spec s (s + Datatypes.S (List.length u))); [|lia].
      cbn [andb]. ring.
    + destruct (Nat.leb_spec (Datatypes.S s) i), (Nat.leb_spec s i);
        try lia; cbn [andb].
      * replace (i - s) with (Datatypes.S (i - Datatypes.S s)) by lia.
        cbn [nth].
        destruct (Nat.ltb_spec i (Datatypes.S s + List.length u)),
                 (Nat.ltb_spec i (s + Datatypes.S (List.length u)));
          try lia; ring.
      * ring.
Qed.

Lemma dot_delta_in (i : nat) (c : R) (u : list R) :
  i < List.length u ->
  dot (map (fun k => if Nat.eqb i k then c else zero)
           (seq 0 (List.length u))) u = mul c (nth i u zero).
Proof.
  intros Hi. rewrite dot_delta, Nat.sub_0_r.
  destruct (Nat.ltb_spec i (0 + List.length u)); [reflexivity | lia].
Qed.

Lemma dot_comm (u v : list R) : dot u v = dot v u.
Proof.
  revert v. induction u as [|x u IH]; intros [|y v]; try reflexivity.
  rewrite !dot_cons, IH. ring.
Qed.

Lemma nth_column (i j : nat) (b : Tensor R) :
  nth i (column j b) zero = nth j (nth i (rows b) []) zero.
Proof.
  unfold column.
  rewrite <- (map_nth (fun rb => nth j rb zero) (rows b) [] i).
  now destruct j.
Qed.

Lemma length_column (j : nat) (b : Tensor R) :
  List.length (column j b) = List.length (rows b).
Proof. unfold column. apply length_map. Qed.

(** [diag(l) @ W] scales row [i] of [W] by [l_i]. *)
Lemma matmul_diag_l (l : list R) (W : Tensor R) (k : nat) :
  shape W = [List.length l; k] ->
  List.length (rows W) = List.length l ->
  well_shaped W ->
  matmul (torch_diag l) W =
  Ok (mkTensor [List.length l; k]
               (map (fun lw => map (mul (fst lw)) (snd lw))
                    (combine l (rows W)))).
Proof.
  intros Hshape Hlen Hwf. unfold matmul, torch_diag. cbn [shape rows].
  rewrite Hshape, Nat.eqb_refl. f_equal. f_equal.
  rewrite map_map.
  rewrite <- (map_seq_combine (fun li w => map (mul li) w) zero []
                l (rows W) (eq_sym Hlen)).
  apply map_ext_in. intros i Hi. apply in_seq in Hi.
  assert (Hrow : List.length (nth i (rows W) []) = k).
  { unfold well_shaped in Hwf. rewrite Forall_forall in Hwf.
    rewrite (Hwf (nth i (rows W) [])) by (apply nth_In; lia).
    now rewrite Hshape. }
  rewrite <- (map_seq_nth (mul (nth i l zero)) zero (nth i (rows W) [])), Hrow.
  apply map_ext. intros j.
  rewrite <- (length_column j W) in Hlen. rewrite <- Hlen.
  rewrite dot_delta_in by lia. now rewrite nth_column.
Qed.

(** [W @ diag(l)] scales column [j] of [W] by [l_j]. *)
Lemma matmul_diag_r (l : list R) (W : Tensor R) (m : nat) :
  shape W = [m; List.length l] ->
  well_shaped W ->
  matmul W (torch_diag l) =
  Ok (mkTensor [m; List.length l] (map (fun w => zip_with mul l w) (rows W))).
Proof.
  intros Hshape Hwf. unfold matmul. rewrite Hshape.
  cbn [torch_diag shape]. rewrite Nat.eqb_refl. f_equal. f_equal.
  apply map_ext_in. intros w Hw.
  assert (Hlen : List.length w = List.length l).
  { unfold well_shaped in Hwf. rewrite Forall_forall in Hwf.
    rewrite (Hwf w Hw). now rewrite Hshape. }
  transitivity (map (fun j => mul (nth j l zero) (nth j w zero))
                    (seq 0 (List.length l))).
  - apply map_ext_in. intros j Hj. apply in_seq in Hj.
    assert (Hcol : column j (torch_diag l) =
                   map (fun k => if Nat.eqb j k then nth j l zero else zero)
                       (seq 0 (List.length w))).
    { unfold column, torch_diag. cbn [rows]. rewrite map_map, Hlen.
      apply map_ext_in. intros i Hi. apply in_seq in Hi.
      rewrite (nth_indep _ zero (if Nat.eqb i (List.length l)
                                 then nth i l zero else zero))
        by (rewrite length_map, length_seq; lia).
      rewrite (map_nth (fun k => if Nat.eqb i k then nth i l zero else zero)).
      rewrite seq_nth by lia. cbn [Nat.add].
      rewrite (Nat.eqb_sym i j).
      destruct (Nat.eqb_spec j i) as [->|]; reflexivity. }
    rewrite Hcol, dot_comm. apply dot_delta_in. lia.
  - rewrite (map_seq_combine (fun a b => mul a b) zero zero l w (eq_sym Hlen)).
    clear. revert w. induction l as [|a l IH]; intros [|b w]; try reflexivity.
    cbn [combine map zip_with fst snd]. now rewrite IH.
Qed.

(** The two row computations of the activation form and of the folded form
    agree. *)
Lemma scaled_output_row (W : list (list R)) (l v : list R) (b : option (list R)) :
  zip_with mul (linear_row W b v) l =
  linear_row (map (fun lw => map (mul (fst lw)) (snd lw)) (combine l W))
             (option_map (fun bv => zip_with mul bv l) b) v.
Proof.
  destruct b as [bv|]; cbn [linear_row option_map].
  - revert l bv. induction W as [|w W IH]; intros [|li l] [|bi bv];
      try reflexivity.
    cbn [combine map zip_with fst snd]. rewrite IH, dot_scale_r. f_equal. ring.
  - revert l. induction W as [|w W IH]; intros [|li l]; try reflexivity.
    cbn [combine map zip_with fst snd]. rewrite IH, dot_scale_r. f_equal. ring.
Qed.

Lemma scaled_input_row (W : list (list R)) (l v : list R) (b : option (list R)) :
  linear_row W b (zip_with mul v l) =
  linear_row (map (fun w => zip_with mul l w) W) b v.
Proof.
  assert (H : map (fun w => dot (zip_with mul v l) w) W =
              map (fun w => dot v w) (map (fun w => zip_with mul l w) W)).
  { rewrite map_map. apply map_ext. intros w. apply dot_zip_assoc. }
  destruct b as [bv|]; cbn [linear_row]; now rewrite H.
Qed.
End LinearAlgebra.

Section ForwardFacts.
Context {R : Type} {S : Scalar R}.

Lemma F_linear_ok (x W : Tensor R) (b : option (Tensor R))
      (in_features out_features : nat) :
  shape W = [out_features; in_features] ->
  shape x <> [] -> last_dim (shape x) = in_features ->
  match b with None => True | Some t => shape t = [out_features] end ->
  F_linear x W b =
  Ok (mkTensor (removelast (shape x) ++ [out_features])
               (map (linear_row (rows W) (option_map (fun t => hd [] (rows t)) b))
                    (rows x))).
Proof.
  intros HW Hx Hlast Hb. unfold F_linear. rewrite HW, Hlast, Nat.eqb_refl.
  destruct (shape x) as [|d s] eqn:Es; [congruence|].
  destruct b as [t|]; [|reflexivity].
  rewrite Hb. now destruct (list_eq_dec Nat.eq_dec [out_features] [out_features]).
Qed.

Lemma batched_output (s : list nat) (out_features : nat) :
  2 <= List.length s ->
  2 <= List.length (removelast s ++ [out_features]) /\
  last_dim (removelast s ++ [out_features]) = out_features.
Proof.
  intros Hlen. split.
  - rewrite length_app. cbn [List.length].
    destruct (exists_last (l := s)) as (s' & a & ->);
      [intros ->; simpl in Hlen; lia|].
    rewrite removelast_last. rewrite length_app in Hlen. simpl in Hlen. lia.
  - unfold last_dim. apply last_last.
Qed.

Lemma view_flat_scaling_vector (l : list R) : view_flat (scaling_vector l) = l.
Proof. unfold view_flat, scaling_vector. cbn. apply app_nil_r. Qed.

(** The folded bias: [torch.mul(b, ia3_lw.squeeze())]. *)
Lemma torch_mul_squeezed (bv l : list R) :
  torch_mul (mkTensor [List.length l] [bv]) (squeeze (scaling_vector l)) =
  Ok (mkTensor [List.length l] [zip_with mul bv l]).
Proof.
  unfold squeeze. rewrite view_flat_scaling_vector.
  unfold scaling_vector. cbn [shape filter Nat.eqb negb].
  destruct (Nat.eqb_spec (List.length l) 1) as [E|E]; cbn [negb].
  - rewrite E. reflexivity.
  - unfold torch_mul. cbn [shape rows rows_of removelast forallb hd map].
    unfold broadcast_shapes. cbn [rev app broadcast_rev].
    rewrite Nat.eqb_refl. cbn [option_map rev app].
    unfold mul_rows, last_dim. cbn [last]. now rewrite Nat.eqb_refl.
Qed.
End ForwardFacts.

(** On the entries, in exact arithmetic (the numbers form a commutative
    semiring): for every linear layer with weight of shape
    [(out_features, in_features)] and optional bias, every value of the
    scaling vector, and every input with at least two dimensions whose last
    dimension is [in_features], both forward passes return, and they return
    the same entries in the same shape: scaling the activations
    (respectively the input) is the linear map with the folded weight
    [diag(ia3_lw) W] (respectively [W diag(ia3_lw)]) and the folded bias. *)
Lemma ia3_entries_agree
        {R : Type} {S : Scalar R} (layer : Linear R)
        (in_features out_features : nat) (l : list R) (lr1 lr2 : R)
        (is_feedforward : bool) (x : Tensor R) :
  semi_ring_theory zero one add mul (@eq R) ->
  linear_layer layer in_features out_features ->
  List.length l = (if is_feedforward then in_features else out_features) ->
  batched x in_features ->
  exists y,
    IA3Adapter1.forward
      (IA3Adapter1.mk (Linear_forward layer) is_feedforward in_features
                      out_features (scaling_vector l) lr1) x = Ok y /\
    IA3Adapter2.forward
      (IA3Adapter2.mk layer is_feedforward in_features out_features
                      (scaling_vector l) lr2) x = Ok y.
Proof.
  intros laws (HW & HlenW & HwfW & Hbias) Hl (Hwfx & Hrank & Hlast).
  destruct layer as [W b]. cbn [weight bias] in *.
  assert (Hx : shape x <> []) by (intros E; rewrite E in Hrank; simpl in Hrank; lia).
  assert (Hb : match b with None => True | Some t => shape t = [out_features] end)
    by (destruct b; [apply Hbias | exact I]).
  unfold IA3Adapter1.forward, IA3Adapter2.forward,
    IA3Adapter2.get_equivalent_weight, IA3Adapter2.get_equivalent_bias,
    IA3Adapter2.get_weight, IA3Adapter2.get_bias, Linear_forward.
  cbn [IA3Adapter1.is_feedforward IA3Adapter1.existing_layer IA3Adapter1.ia3_lw
       IA3Adapter2.is_feedforward IA3Adapter2.existing_layer IA3Adapter2.ia3_lw
       weight bias].
  rewrite view_flat_scaling_vector.
  destruct is_feedforward; cbn [negb].
  - (* the input is scaled *)
    rewrite <- Hl in *. clear Hl. unfold scaling_vector at 1.
    rewrite (torch_mul_row x l (List.length l) Hrank Hlast). cbn [bind].
    rewrite (matmul_diag_r laws l W out_features HW HwfW). cbn [bind].
    assert (Hb' : Ok b = (match b with
                          | Some mat => Ok (Some mat)
                          | None => Ok None
                          end : result (option (Tensor R))))
      by (now destruct b).
    rewrite <- Hb'. cbn [bind].
    rewrite (F_linear_ok _ W b (List.length l) out_features HW); cbn [shape rows];
      try assumption.
    rewrite (F_linear_ok x _ b (List.length l) out_features); cbn [shape rows];
      try assumption; try reflexivity.
    eexists. split; [reflexivity|]. f_equal. f_equal.
    rewrite map_map. apply map_ext. intros v. symmetry.
    apply (scaled_input_row laws).
  - (* the output is scaled *)
    rewrite <- Hl in *. clear Hl.
    rewrite (F_linear_ok x W b in_features (List.length l) HW Hx Hlast Hb).
    cbn [bind]. destruct (batched_output (shape x) (List.length l) Hrank)
      as [Hrank' Hlast'].
    unfold scaling_vector at 1.
    rewrite (torch_mul_row _ l (List.length l)) by (cbn [shape]; assumption).
    cbn [shape rows].
    rewrite (matmul_diag_l laws l W in_features HW HlenW HwfW). cbn [bind].
    destruct b as [t|].
    + destruct Hbias as (Ht & bv & Hrows & Hlenb). destruct t as [ts trs].
      cbn [shape rows] in *. subst ts trs.
      rewrite torch_mul_squeezed. cbn [bind].
      rewrite (F_linear_ok x _ _ in_features (List.length l));
        cbn [shape rows option_map hd]; try assumption; try reflexivity.
      eexists. split; [reflexivity|]. f_equal. f_equal.
      rewrite map_map. apply map_ext. intros v. symmetry.
      apply (scaled_output_row laws (rows W) l v (Some bv)).
    + cbn [bind].
      rewrite (F_linear_ok x _ None in_features (List.length l));
        cbn [shape rows option_map]; try assumption; try reflexivity.
      eexists. split; [reflexivity|]. f_equal. f_equal.
      rewrite map_map. apply map_ext. intros v. symmetry.
      apply (scaled_output_row laws (rows W) l v None).
Qed.

Lemma Z_scalar_laws : semi_ring_theory (@zero Z _) one add mul (@eq Z).
Proof.
  constructor; intros; cbn [zero one add mul Z_Scalar]; lia.
Qed.

(* ------------------------------------------------------------------ *)
(** ** The memory computations are functions of shapes and arguments *)
(* ------------------------------------------------------------------ *)

(** C8, as stated, is false: no two runs over the same tensor shape and the
    same arguments give different byte counts. *)
Lemma byte_counts_never_differ : ~ byte_counts_differ.
Proof.
  intros (run1 & run2 & bs & sl & hd & id & Hshape & [H|H]); apply H.
  - unfold tensor_memory_cell, converted. now rewrite Hshape.
  - reflexivity.
Qed.

(** C8, amended.  The byte counts are determined by the shape, the element
    type and the arguments: two runs over the same tensor shape and the
    same arguments give the same counts, whatever the hardware, the dataset
    and the random entries; for the notebook's [100 x 100] tensor they are
    40000, 20000 and 10000 bytes, and [calculate_memory_kv_down_proj]
    counts [batch_size * seq_len * (1024 + 2 * intermediate_dim +
    2 * hidden_dim)] bytes with the notebook's [hidden_dim_kv = 256]. *)
Theorem byte_counts_deterministic
        (run1 run2 : Run) (batch_size seq_len hidden_dim intermediate_dim : Z) :
  shape (randn_100_100 run1) = shape (randn_100_100 run2) ->
  tensor_memory_cell run1 = tensor_memory_cell run2 /\
  run_calculate_memory run1 batch_size seq_len hidden_dim intermediate_dim =
  run_calculate_memory run2 batch_size seq_len hidden_dim intermediate_dim /\
  (shape (randn_100_100 run1) = [100; 100] ->
   tensor_memory_cell run1 = (40000, 20000, 10000)%Z) /\
  fst (run_calculate_memory run1 batch_size seq_len hidden_dim intermediate_dim)
  = (batch_size * seq_len * (1024 + 2 * intermediate_dim + 2 * hidden_dim))%Z.
Proof.
  intros Hshape. repeat split.
  - unfold tensor_memory_cell, converted. now rewrite Hshape.
  - unfold tensor_memory_cell, converted. intros ->. reflexivity.
  - unfold run_calculate_memory, total_memory_bytes, hidden_dim_kv.
    cbn [fst]. ring.
Qed.

Lemma byte_counts_deterministic_witness :
  tensor_memory_cell (mkRun "cpu" "mrpc" (mkTensor [100; 100] [])) =
  tensor_memory_cell (mkRun "cuda" "wikitext" (mkTensor [100; 100] [[1%Q]])) /\
  run_calculate_memory (mkRun "cpu" "mrpc" (mkTensor [100; 100] []))
                       32%Z 216%Z 2048%Z 16384%Z =
  run_calculate_memory (mkRun "cuda" "wikitext" (mkTensor [100; 100] [[1%Q]]))
                       32%Z 216%Z 2048%Z 16384%Z /\
  (shape (randn_100_100 (mkRun "cpu" "mrpc" (mkTensor [100; 100] [])))
   = [100; 100] ->
   tensor_memory_cell (mkRun "cpu" "mrpc" (mkTensor [100; 100] []))
   = (40000, 20000, 10000)%Z) /\
  fst (run_calculate_memory (mkRun "cpu" "mrpc" (mkTensor [100; 100] []))
                            32%Z 216%Z 2048%Z 16384%Z)
  = (32 * 216 * (1024 + 2 * 16384 + 2 * 2048))%Z.
Proof.
  apply (byte_counts_deterministic
           (mkRun "cpu" "mrpc" (mkTensor [100; 100] []))
           (mkRun "cuda" "wikitext" (mkTensor [100; 100] [[1%Q]]))).
  reflexivity.
Defined.

(* ------------------------------------------------------------------ *)
(** ** No function of the notebooks handles an exception *)
(* ------------------------------------------------------------------ *)

Module SkeletonFacts.
Import Skeleton.

Section Facts.
Context {rt : PyRuntime}.

Lemma exact_log_ret {A : Type} (a : A) : exact_log (ret a).
Proof. intros w. reflexivity. Qed.

Lemma exact_log_observe {A : Type} (c : World -> World * result A) :
  exact_log (observe c).
Proof. intros w. unfold observe. now destruct (c w) as [w' [v|e]]. Qed.

Lemma exact_log_bind {A B : Type} (m : M A) (k : A -> M B) :
  exact_log m -> (forall a, exact_log (k a)) -> exact_log (bind m k).
Proof.
  intros Hm Hk w. unfold bind. specialize (Hm w).
  destruct (m w) as [[w' log] [a|e]]; [|exact Hm].
  subst log. specialize (Hk a w').
  now destruct (k a w') as [[w'' log'] r].
Qed.

Lemma exact_log_iterate {L : Type} (body : L -> Value -> M (L * bool)) :
  (forall locals v, exact_log (body locals v)) ->
  forall n it locals, exact_log (iterate n it body locals).
Proof.
  intros Hbody. induction n as [|n IH]; intros it locals; cbn [iterate].
  - apply exact_log_ret.
  - apply exact_log_bind; [apply exact_log_observe|].
    intros [v|]; [|apply exact_log_ret].
    apply exact_log_bind; [apply Hbody|].
    intros [locals' stop]. cbn [fst snd].
    destruct stop; [apply exact_log_ret | apply IH].
Qed.

Lemma exact_log_for_in {L : Type} (iterable : Value)
      (body : L -> Value -> M (L * bool)) (locals : L) :
  (forall locals v, exact_log (body locals v)) ->
  exact_log (for_in iterable body locals).
Proof.
  intros Hbody. unfold for_in.
  apply exact_log_bind; [apply exact_log_observe|].
  intros it. now apply exact_log_iterate.
Qed.

Lemma exact_log_finally {A : Type} (body : M A) (exit_ : World -> World) :
  exact_log body ->
  exact_log (fun w => match body w with
                      | (w', log, r) => (exit_ w', log, r)
                      end).
Proof.
  intros Hbody w. specialize (Hbody w).
  now destruct (body w) as [[w' log] r].
Qed.

(** A run that lets exceptions through has the exact record, and back. *)
Lemma exact_log_propagates {A : Type} (m : M A) :
  exact_log m -> propagates m.
Proof.
  intros H w e. unfold raised_by_callee, outcome. specialize (H w).
  destruct (m w) as [[w' log] [a|e']]; cbn [fst snd]; subst log.
  - split; [intros [] | discriminate].
  - split.
    + intros [->|[]]. reflexivity.
    + intros [= ->]. now left.
Qed.

End Facts.

(** The steps that take a run apart. *)
Ltac exact_log_step :=
  first
    [ apply exact_log_ret
    | apply exact_log_observe
    | apply exact_log_for_in; intros
    | apply exact_log_finally
    | apply exact_log_bind; [|intros]
    | match goal with
      | |- exact_log (if ?b then _ else _) => destruct b
      | |- exact_log (match ?x with _ => _ end) => destruct x
      end ].

Ltac exact_log_run :=
  unfold call, next, truth, name, getattr, setattr, getitem, invoke, method,
    apply, binop, unpack2, with_no_grad;
  repeat exact_log_step.

Section Functions.
Context {rt : PyRuntime}.

Lemma exact_log_batch_columns (batch : Value) (columns : list string) :
  exact_log (batch_columns batch columns).
Proof.
  induction columns as [|c columns IH]; cbn [batch_columns].
  - apply exact_log_ret.
  - exact_log_run. exact IH.
Qed.

Lemma exact_log_match_submodules (model key : Value) :
  exact_log (match_submodules model key).
Proof. unfold match_submodules. exact_log_run. Qed.

Lemma exact_log_get_submodule (model module_name : Value) :
  exact_log (get_submodule model module_name).
Proof. unfold get_submodule. exact_log_run. Qed.

Lemma exact_log_replace_submodule (model module_path new_module : Value) :
  exact_log (replace_submodule model module_path new_module).
Proof. unfold replace_submodule. exact_log_run. Qed.

Lemma exact_log_evaluate_batch (model all_predictions all_labels : Value)
      (columns : list string) (batch : Value) :
  exact_log (evaluate_batch model all_predictions all_labels columns batch).
Proof.
  unfold evaluate_batch.
  apply exact_log_bind; [exact_log_run|]. intros tok.
  apply exact_log_bind; [apply exact_log_batch_columns|]. intros texts.
  exact_log_run.
Qed.

Lemma exact_log_run_call (c : NotebookCall) : exact_log (run c).
Proof.
  destruct c; cbn [run];
    unfold IA3Adapter1__init__, IA3Adapter1_forward, ia3_params,
      inject_adapter, IA3Adapter2__init__, IA3Adapter2_forward,
      IA3Adapter2_get_equivalent_weight, IA3Adapter2_get_equivalent_bias,
      calculate_memory_kv_down_proj, LoRAAdapter__init__, LoRALayer__init__,
      LoRAAdapter_reset_parameters, LoRAAdapter_train, LoRAAdapter_forward,
      mark_only_lora_as_trainable, lora_inject_adapter, tokenize_function,
      finetune_causal_model, split_into_chunks, calc_perplexity,
      apply_dynamic_quantization, evaluate_model, train_model,
      evaluate_model_qat, set_qconfig_for_model;
    try apply exact_log_match_submodules;
    try apply exact_log_get_submodule;
    try apply exact_log_replace_submodule;
    repeat first
      [ apply exact_log_match_submodules
      | apply exact_log_get_submodule
      | apply exact_log_replace_submodule
      | apply exact_log_evaluate_batch
      | progress exact_log_run ].
Qed.
End Functions.
End SkeletonFacts.

(** A handler would break the property: a run that swallows what its
    callee raises does not let the exception through. *)
Lemma swallow_does_not_propagate :
  exists rt : Skeleton.PyRuntime,
    ~ Skeleton.propagates (Skeleton.swallow (Skeleton.call "f" [])).
Proof.
  exists (Skeleton.mkPyRuntime
            unit unit
            (fun _ _ w => (w, Raise (ValueError "f")))
            (fun _ w => (w, Ok None)) (fun _ w => (w, Ok true))
            (fun _ => tt) (fun _ => tt) tt (fun _ v => v) (fun w => w) 0).
  intros H. specialize (H tt (ValueError "f")).
  destruct H as [H _]. discriminate H. now left.
Qed.

(** C7.  No function the notebooks define catches, transforms or
    suppresses an exception: whatever the runtime and the libraries do, in
    the run of any of these functions an exception is raised by a callee if
    and only if it is the exception the function hands to its caller. *)
Theorem notebook_functions_propagate_exceptions
        (rt : Skeleton.PyRuntime) (c : Skeleton.NotebookCall) :
  Skeleton.propagates (Skeleton.run c).
Proof.
  apply SkeletonFacts.exact_log_propagates, SkeletonFacts.exact_log_run_call.
Qed.

(* ------------------------------------------------------------------ *)
(** ** Chunks of a text *)
(* ------------------------------------------------------------------ *)

Lemma firstn_plus {A : Type} (a b : nat) (l : list A) :
  firstn (a + b) l = firstn a l ++ firstn b (skipn a l).
Proof.
  revert l. induction a as [|a IH]; intros l; [reflexivity|].
  destruct l as [|x l]; cbn [Nat.add firstn skipn app].
  - now rewrite firstn_nil.
  - now rewrite IH.
Qed.

Lemma firstn_min_length {A : Type} (a : nat) (l : list A) :
  firstn (Nat.min a (List.length l)) l = firstn a l.
Proof.
  destruct (Nat.le_ge_cases a (List.length l)) as [H|H].
  - now rewrite Nat.min_l.
  - rewrite Nat.min_r by exact H. now rewrite !firstn_all2 by lia.
Qed.

(** The chunks as cuts of the text at the multiples of [c]. *)
Lemma concat_cuts {A : Type} (c : nat) (l : list A) (m : nat) :
  List.concat (map (fun k => firstn c (skipn (k * c) l)) (seq 0 m))
  = firstn (m * c) l.
Proof.
  induction m as [|m IH]; [reflexivity|].
  rewrite seq_S, map_app, concat_app, IH. cbn [map List.concat Nat.add].
  rewrite app_nil_r.
  replace (Datatypes.S m * c) with (m * c + c) by lia.
  now rewrite firstn_plus.
Qed.

(** A slice between bounds inside the sequence. *)
Lemma py_slice_inside {A : Type} (l : list A) (i j : nat) :
  i <= j -> i <= List.length l ->
  py_slice l (Z.of_nat i) (Z.of_nat j) = firstn (j - i) (skipn i l).
Proof.
  intros Hij Hi. unfold py_slice, slice_bound.
  destruct (Z.ltb_spec (Z.of_nat i) 0) as [H|_]; [lia|].
  destruct (Z.ltb_spec (Z.of_nat j) 0) as [H|_]; [lia|].
  rewrite (Z.min_l (Z.of_nat i)) by lia. rewrite Nat2Z.id.
  rewrite <- (firstn_min_length (j - i)). f_equal.
  rewrite length_skipn. lia.
Qed.

Lemma chunk_count_spec (len c : nat) :
  0 < c ->
  (0 < len -> (chunk_count len c - 1) * c < len) /\
  len <= chunk_count len c * c /\
  (len = 0 -> chunk_count len c = 0).
Proof.
  intros Hc. unfold chunk_count.
  pose proof (Nat.div_mod_eq (len + c - 1) c) as E.
  pose proof (Nat.mod_upper_bound (len + c - 1) c ltac:(lia)) as U.
  set (q := (len + c - 1) / c) in *. set (r := (len + c - 1) mod c) in *.
  repeat split.
  - intros Hl. destruct q as [|q]; [lia|].
    rewrite Nat.mul_succ_r in E. cbn [Nat.sub]. rewrite Nat.sub_0_r.
    rewrite (Nat.mul_comm q c). lia.
  - rewrite (Nat.mul_comm q c). lia.
  - intros ->. destruct q as [|q]; [reflexivity|].
    rewrite Nat.mul_succ_r in E. lia.
Qed.

Lemma py_range_chunks (len c : nat) :
  0 < c ->
  py_range 0 (Z.of_nat len) (Z.of_nat c)
  = Ok (map (fun k => Z.of_nat (k * c)) (seq 0 (chunk_count len c))).
Proof.
  intros Hc. unfold py_range.
  destruct (Z.eqb_spec (Z.of_nat c) 0) as [H|_]; [lia|].
  destruct (Z.ltb_spec 0 (Z.of_nat c)) as [_|H]; [|lia].
  f_equal.
  assert (En : Z.to_nat
                 (if (0 <? Z.of_nat len)%Z
                  then ((Z.of_nat len - 0 - 1) / Z.of_nat c + 1)%Z else 0%Z)
               = chunk_count len c).
  { unfold chunk_count. destruct (Z.ltb_spec 0 (Z.of_nat len)) as [Hl|Hl].
    - replace (len + c - 1) with ((len - 1) + 1 * c) by lia.
      rewrite Nat.div_add by lia.
      replace (Z.of_nat len - 0 - 1)%Z with (Z.of_nat (len - 1)) by lia.
      rewrite <- Nat2Z.inj_div. lia.
    - assert (len = 0) as -> by lia. cbn [Nat.add].
      rewrite Nat.div_small by lia. reflexivity. }
  rewrite En. apply map_ext. intros k. lia.
Qed.

Lemma split_into_chunks_cuts {A : Type} (text : list A) (c : nat) :
  0 < c ->
  split_into_chunks text (Z.of_nat c)
  = Ok (map (fun k => firstn c (skipn (k * c) text))
            (seq 0 (chunk_count (List.length text) c))).
Proof.
  intros Hc. unfold split_into_chunks. rewrite py_range_chunks by exact Hc.
  cbn [bind]. f_equal. rewrite map_map. apply map_ext_in. intros k Hk.
  apply in_seq in Hk.
  destruct (chunk_count_spec (List.length text) c Hc) as (Hlast & _ & Hz).
  assert (Hlen : 0 < List.length text).
  { destruct (List.length text); [rewrite Hz in Hk by reflexivity; lia | lia]. }
  specialize (Hlast Hlen).
  rewrite <- Nat2Z.inj_add. rewrite py_slice_inside by nia.
  f_equal. lia.
Qed.

Lemma length_cut {A : Type} (text : list A) (c k : nat) :
  List.length (firstn c (skipn (k * c) text))
  = Nat.min c (List.length text - k * c).
Proof. now rewrite length_firstn, length_skipn. Qed.

Lemma cuts_sizes {A : Type} (text : list A) (c : nat) :
  0 < c ->
  let chunks := map (fun k => firstn c (skipn (k * c) text))
                    (seq 0 (chunk_count (List.length text) c)) in
  (forall k, Datatypes.S k < List.length chunks ->
             List.length (nth k chunks []) = c) /\
  Forall (fun chunk => 0 < List.length chunk <= c) chunks.
Proof.
  intros Hc chunks.
  destruct (chunk_count_spec (List.length text) c Hc) as (Hlast & _ & Hz).
  assert (Hm : List.length chunks = chunk_count (List.length text) c).
  { unfold chunks. now rewrite length_map, length_seq. }
  assert (Hpos : 0 < chunk_count (List.length text) c -> 0 < List.length text).
  { intros H. destruct (List.length text); [rewrite Hz in H by reflexivity|]; lia. }
  split.
  - intros k Hk. rewrite Hm in Hk. unfold chunks.
    rewrite (nth_indep _ [] (firstn c (skipn (0 * c) text)))
      by (rewrite length_map, length_seq; lia).
    rewrite (map_nth (fun k => firstn c (skipn (k * c) text))).
    rewrite seq_nth by lia. cbn [Nat.add]. rewrite length_cut.
    specialize (Hlast (Hpos ltac:(lia))). nia.
  - apply Forall_forall. intros chunk Hin. unfold chunks in Hin.
    apply in_map_iff in Hin as (k & <- & Hk). apply in_seq in Hk.
    rewrite length_cut. specialize (Hlast (Hpos ltac:(lia))). nia.
Qed.

(** X1.  For a positive [chunk_size], [split_into_chunks] returns chunks
    whose concatenation, in order, is the text: nothing is lost, repeated
    or reordered. *)
Theorem split_into_chunks_concat {A : Type} (text : list A) (chunk_size : Z) :
  (0 < chunk_size)%Z ->
  exists chunks,
    split_into_chunks text chunk_size = Ok chunks /\
    List.concat chunks = text.
Proof.
  intros Hc. rewrite <- (Z2Nat.id chunk_size) by lia.
  assert (Hn : 0 < Z.to_nat chunk_size) by lia.
  rewrite split_into_chunks_cuts by exact Hn.
  eexists. split; [reflexivity|].
  rewrite concat_cuts. apply firstn_all2.
  now destruct (chunk_count_spec (List.length text) _ Hn) as (_ & H & _).
Qed.

Lemma split_into_chunks_concat_witness :
  exists chunks,
    split_into_chunks ["a"; "b"; "c"; "d"; "e"]%char 2 = Ok chunks /\
    List.concat chunks = ["a"; "b"; "c"; "d"; "e"]%char.
Proof. apply split_into_chunks_concat. lia. Defined.

(** X2.  For a positive [chunk_size] the number of chunks is the length of
    the text over [chunk_size], rounded up; every chunk but the last has
    exactly [chunk_size] elements, and no chunk is empty or longer than
    [chunk_size]. *)
Theorem split_into_chunks_sizes {A : Type} (text : list A) (chunk_size : Z)
        (chunks : list (list A)) :
  (0 < chunk_size)%Z ->
  split_into_chunks text chunk_size = Ok chunks ->
  Z.of_nat (List.length chunks)
    = ((Z.of_nat (List.length text) + chunk_size - 1) / chunk_size)%Z /\
  (forall k, Datatypes.S k < List.length chunks ->
             Z.of_nat (List.length (nth k chunks [])) = chunk_size) /\
  Forall (fun chunk => 0 < List.length chunk /\
                       (Z.of_nat (List.length chunk) <= chunk_size)%Z) chunks.
Proof.
  intros Hc. rewrite <- (Z2Nat.id chunk_size) by lia.
  assert (Hn : 0 < Z.to_nat chunk_size) by lia.
  set (c := Z.to_nat chunk_size) in *.
  rewrite split_into_chunks_cuts by exact Hn. intros [= <-].
  destruct (cuts_sizes text c Hn) as [Hfull Hall]. split; [|split].
  - rewrite length_map, length_seq. unfold chunk_count.
    rewrite Nat2Z.inj_div, Nat2Z.inj_sub, Nat2Z.inj_add by lia. reflexivity.
  - intros k Hk. now rewrite Hfull.
  - eapply Forall_impl; [|exact Hall]. cbn beta. intros chunk H. lia.
Qed.

Lemma split_into_chunks_sizes_witness :
  Z.of_nat (List.length [["a"; "b"]; ["c"; "d"]; ["e"]]%char)
    = ((Z.of_nat (List.length ["a"; "b"; "c"; "d"; "e"]%char) + 2 - 1) / 2)%Z /\
  (forall k, Datatypes.S k < List.length [["a"; "b"]; ["c"; "d"]; ["e"]]%char ->
             Z.of_nat (List.length (nth k [["a"; "b"]; ["c"; "d"]; ["e"]]%char []))
             = 2%Z) /\
  Forall (fun chunk => 0 < List.length chunk /\
                       (Z.of_nat (List.length chunk) <= 2)%Z)
         [["a"; "b"]; ["c"; "d"]; ["e"]]%char.
Proof.
  apply (split_into_chunks_sizes ["a"; "b"; "c"; "d"; "e"]%char 2);
    [lia | reflexivity].
Defined.

(** X3.  A [chunk_size] of zero makes [split_into_chunks] raise the
    [ValueError] of [range]; a negative one makes it return no chunk at
    all, whatever the text. *)
Theorem split_into_chunks_degenerate {A : Type} (text : list A)
        (chunk_size : Z) :
  (chunk_size <= 0)%Z ->
  split_into_chunks text chunk_size =
  if (chunk_size =? 0)%Z
  then Raise (ValueError "range() arg 3 must not be zero")
  else Ok [].
Proof.
  intros Hc. unfold split_into_chunks, py_range.
  destruct (Z.eqb_spec chunk_size 0) as [|Hne]; [reflexivity|].
  destruct (Z.ltb_spec 0 chunk_size) as [H|_]; [lia|].
  destruct (Z.ltb_spec (Z.of_nat (List.length text)) 0) as [H|_]; [lia|].
  reflexivity.
Qed.

Lemma split_into_chunks_degenerate_witness :
  split_into_chunks ["a"; "b"; "c"]%char (-2) = Ok [].
Proof.
  apply (split_into_chunks_degenerate ["a"; "b"; "c"]%char (-2)). lia.
Defined.

Lemma extend_chunks_spec {A : Type} (dataset : list (list A)) :
  forall chunks,
    Forall (fun chunk => 0 < List.length chunk <= 256) chunks ->
    exists chunks',
      extend_chunks dataset chunks = Ok chunks' /\
      List.concat chunks' = List.concat chunks ++ List.concat dataset /\
      Forall (fun chunk => 0 < List.length chunk <= 256) chunks'.
Proof.
  induction dataset as [|text rest IH]; intros chunks Hall.
  - exists chunks. cbn [extend_chunks List.concat]. now rewrite app_nil_r.
  - cbn [extend_chunks]. unfold chunk_size.
    change 256%Z with (Z.of_nat 256).
    rewrite split_into_chunks_cuts by lia. cbn [bind].
    destruct (cuts_sizes text 256 ltac:(lia)) as [_ Hnew].
    destruct (IH _ (proj2 (Forall_app _ _ _) (conj Hall Hnew)))
      as (chunks' & Hrun & Hcat & Hall').
    exists chunks'. split; [exact Hrun|]. split; [|exact Hall'].
    rewrite Hcat, concat_app, concat_cuts. cbn [List.concat].
    rewrite <- app_assoc. do 2 f_equal. apply firstn_all2.
    now destruct (chunk_count_spec (List.length text) 256 ltac:(lia))
      as (_ & H & _).
Qed.

(** X4.  The training set the notebook builds: the texts of the dataset are
    cut one after the other into chunks, none empty and none longer than
    256, that together spell the texts in order, and the training set is
    the first tenth of these chunks, rounded down (so it is empty when
    there are fewer than ten chunks). *)
Theorem processed_train_dataset_first_tenth {A : Type}
        (dataset : list (list A)) :
  exists chunks,
    extend_chunks dataset [] = Ok chunks /\
    List.concat chunks = List.concat dataset /\
    Forall (fun chunk => 0 < List.length chunk <= 256) chunks /\
    processed_train_dataset dataset
      = Ok (firstn (List.length chunks / 10) chunks).
Proof.
  destruct (extend_chunks_spec dataset [] (Forall_nil _))
    as (chunks & Hrun & Hcat & Hall).
  exists chunks. repeat split; try assumption.
  unfold processed_train_dataset. rewrite Hrun. cbn [bind]. f_equal.
  change 0%Z with (Z.of_nat 0). change 10%Z with (Z.of_nat 10).
  rewrite <- Nat2Z.inj_div.
  rewrite py_slice_inside by lia. cbn [skipn]. now rewrite Nat.sub_0_r.
Qed.

(* ------------------------------------------------------------------ *)
(** ** The windows of the perplexity cover the sequence once *)
(* ------------------------------------------------------------------ *)

Section PerplexityFacts.
Context {L : Type}.
Variable model : list (list Z) -> list (list Z) -> L.

Lemma perplexity_loop_windows (begins : list Z) (input_ids : list (list Z))
      (seq_len : Z) :
  forall prev_end_loc nlls,
    perplexity_loop model begins input_ids seq_len prev_end_loc nlls
    = nlls ++ map (window_call model input_ids) (windows begins seq_len prev_end_loc).
Proof.
  induction begins as [|b rest IH]; intros p nlls.
  - cbn. now rewrite app_nil_r.
  - cbn [perplexity_loop windows].
    destruct (Z.eqb_spec (Z.min (b + max_length) seq_len) seq_len) as [E|E].
    + reflexivity.
    + rewrite IH. cbn [map window_call]. now rewrite <- app_assoc.
Qed.
End PerplexityFacts.

Lemma begins_from_succ (b stride : Z) (m : nat) :
  begins_from b stride (Datatypes.S m)
  = b :: begins_from (b + stride) stride m.
Proof.
  unfold begins_from. cbn [seq map]. f_equal; [lia|].
  rewrite <- seq_shift, map_map. apply map_ext. intros k. lia.
Qed.

Lemma scored_tokens (l : list Z) :
  Forall (fun t => t <> ignore_index) l -> scored l = l.
Proof.
  induction 1 as [|t l Ht _ IH]; [reflexivity|]. cbn [scored filter].
  destruct (Z.eqb_spec t ignore_index) as [|_]; [contradiction|].
  cbn [negb]. f_equal. exact IH.
Qed.

Lemma scored_repeat (k : nat) (l : list Z) :
  scored (repeat ignore_index k ++ l) = scored l.
Proof. induction k as [|k IH]; [reflexivity | exact IH]. Qed.

Lemma Forall_firstn {A : Type} (Q : A -> Prop) (k : nat) (l : list A) :
  Forall Q l -> Forall Q (firstn k l).
Proof.
  intros H. rewrite <- (firstn_skipn k l) in H.
  now apply Forall_app in H.
Qed.

Lemma Forall_skipn {A : Type} (Q : A -> Prop) (k : nat) (l : list A) :
  Forall Q l -> Forall Q (skipn k l).
Proof.
  intros H. rewrite <- (firstn_skipn k l) in H.
  now apply Forall_app in H.
Qed.

Lemma Forall_segment (Q : Z -> Prop) (row : list Z) (p e : Z) :
  Forall Q row -> Forall Q (segment row p e).
Proof. intros H. now apply Forall_firstn, Forall_skipn. Qed.

(** The labels of one window that are scored: the tokens from the end of
    the previous window to the end of this one. *)
Lemma scored_window (row : list Z) (b p e : Z) :
  Forall (fun t => t <> ignore_index) row ->
  (0 <= b <= p)%Z -> (p < e)%Z -> (e <= Z.of_nat (List.length row))%Z ->
  scored (mask_row (e - p) (py_slice row b e)) = segment row p e.
Proof.
  intros Htok Hb Hp He.
  assert (Hw : py_slice row b e = segment row b e).
  { rewrite <- (Z2Nat.id b), <- (Z2Nat.id e) by lia.
    rewrite py_slice_inside by lia. unfold segment.
    rewrite !Z2Nat.id by lia. f_equal. lia. }
  rewrite Hw. unfold mask_row.
  assert (Hl : List.length (segment row b e) = Z.to_nat (e - b)).
  { unfold segment. rewrite length_firstn, length_skipn. lia. }
  rewrite Hl. unfold slice_bound.
  destruct (Z.ltb_spec (- (e - p)) 0) as [_|H]; [|lia].
  rewrite scored_repeat.
  replace (Z.to_nat (Z.max (- (e - p) + Z.of_nat (Z.to_nat (e - b))) 0))
    with (Z.to_nat (p - b)) by lia.
  rewrite scored_tokens.
  2:{ now apply Forall_skipn, Forall_segment. }
  unfold segment. rewrite skipn_firstn_comm, skipn_skipn. f_equal; [lia|].
  f_equal. lia.
Qed.

Lemma segment_app (row : list Z) (p e n : Z) :
  (0 <= p <= e)%Z -> (e <= n)%Z ->
  segment row p e ++ segment row e n = segment row p n.
Proof.
  intros Hp He. unfold segment.
  replace (Z.to_nat (n - p)) with (Z.to_nat (e - p) + Z.to_nat (n - e)) by lia.
  rewrite firstn_plus, skipn_skipn. do 3 f_equal. lia.
Qed.

(** From a state of the loop in which the window to come starts at or
    before the end of the previous one and reaches beyond it, the scored
    labels of the windows to come are the rest of the row. *)
Lemma windows_cover (row : list Z) (stride : Z) (m : nat) :
  Forall (fun t => t <> ignore_index) row ->
  (0 < stride <= max_length)%Z ->
  forall b p,
    (0 <= b <= p)%Z -> (p < b + max_length)%Z ->
    (p < Z.of_nat (List.length row))%Z ->
    (Z.of_nat (List.length row) <= b + Z.of_nat m * stride)%Z ->
    List.concat
      (map (fun w : Z * Z * Z =>
              let '(begin_loc, end_loc, prev_end_loc) := w in
              scored (mask_row (end_loc - prev_end_loc)
                               (py_slice row begin_loc end_loc)))
           (windows (begins_from b stride m)
                    (Z.of_nat (List.length row)) p))
    = segment row p (Z.of_nat (List.length row)).
Proof.
  intros Htok Hs. set (n := Z.of_nat (List.length row)).
  induction m as [|m IH]; intros b p Hb Hp Hpn Hm; [lia|].
  rewrite begins_from_succ. cbn [windows map List.concat].
  unfold max_length in *.
  rewrite scored_window; [|exact Htok | lia | lia | fold n; lia].
  destruct (Z.eqb_spec (Z.min (b + 1024) n) n) as [E|E].
  - cbn [map List.concat]. rewrite app_nil_r. now rewrite E.
  - assert (Hlt : (b + 1024 < n)%Z) by lia.
    rewrite (Z.min_l (b + 1024) n) by lia.
    fold max_length. rewrite IH by (unfold max_length; lia).
    unfold max_length. apply segment_app; lia.
Qed.

Lemma py_range_begins (n stride : Z) :
  (0 < n)%Z -> (0 < stride)%Z ->
  exists m, py_range 0 n stride = Ok (begins_from 0 stride m) /\
            (n <= Z.of_nat m * stride)%Z.
Proof.
  intros Hn Hs. unfold py_range.
  destruct (Z.eqb_spec stride 0) as [|_]; [lia|].
  destruct (Z.ltb_spec 0 stride) as [_|]; [|lia].
  destruct (Z.ltb_spec 0 n) as [_|]; [|lia].
  eexists. split; [reflexivity|].
  rewrite Z2Nat.id.
  2:{ pose proof (Z.div_pos (n - 0 - 1) stride ltac:(lia) Hs). lia. }
  pose proof (Z.mul_succ_div_gt (n - 0 - 1) stride Hs). lia.
Qed.

Lemma windows_nonempty (b stride : Z) (m : nat) (n p : Z) :
  windows (begins_from b stride (Datatypes.S m)) n p <> [].
Proof. rewrite begins_from_succ. discriminate. Qed.

Lemma nth_map_row {A B : Type} (f : A -> B) (l : list A) (r : nat) (x : A)
      (d : B) :
  nth_error l r = Some x -> nth r (map f l) d = f x.
Proof.
  intros H. apply nth_error_nth. now rewrite nth_error_map, H.
Qed.

(** X5.  With a stride between 1 and [max_length] (1024) and a sequence
    that is not empty, [calc_perplexity] returns, and over the calls of
    the model it makes every token is scored exactly once: in every row,
    the labels that are not masked by -100, taken call after call, are the
    row itself.  The result is [exp(mean)] of the losses of these calls,
    whatever the model. *)
Theorem calc_perplexity_scores_every_token_once
        (encodings : TokenIds) (stride : Z) :
  rectangular encodings ->
  0 < ids_seq_len encodings ->
  (0 < stride <= max_length)%Z ->
  Forall (Forall (fun t => t <> ignore_index)) (ids_rows encodings) ->
  exists calls : list (list (list Z) * list (list Z)),
    calls <> [] /\
    (forall (L P : Type) (model : list (list Z) -> list (list Z) -> L)
            (exp_mean : list L -> P),
        calc_perplexity model exp_mean encodings stride
        = Ok (exp_mean (map (fun call => model (fst call) (snd call)) calls))) /\
    (forall r row,
        nth_error (ids_rows encodings) r = Some row ->
        List.concat (map (fun call => scored (nth r (snd call) [])) calls)
        = row).
Proof.
  intros Hrect Hn Hs Htok.
  destruct (py_range_begins (Z.of_nat (ids_seq_len encodings)) stride
              ltac:(lia) ltac:(lia)) as (m & Hrange & Hm).
  destruct m as [|m]; [lia|].
  set (ws := windows (begins_from 0 stride (Datatypes.S m))
                     (Z.of_nat (ids_seq_len encodings)) 0) in *.
  exists (map (window_call (fun i t => (i, t)) (ids_rows encodings)) ws).
  split; [|split].
  - intros E. apply map_eq_nil in E. revert E. apply windows_nonempty.
  - intros L P model exp_mean. unfold calc_perplexity.
    rewrite Hrange. cbn [bind]. rewrite perplexity_loop_windows.
    cbn [app]. fold ws. rewrite map_map.
    assert (E : map (window_call model (ids_rows encodings)) ws
                = map (fun x => model
                         (fst (window_call (fun i t => (i, t))
                                           (ids_rows encodings) x))
                         (snd (window_call (fun i t => (i, t))
                                           (ids_rows encodings) x))) ws).
    { apply map_ext. now intros [[b e] p]. }
    rewrite <- E.
    destruct (map (window_call model (ids_rows encodings)) ws) eqn:Ews;
      [|reflexivity].
    apply map_eq_nil in Ews. now apply windows_nonempty in Ews.
  - intros r row Hr. rewrite map_map.
    assert (Hlen : List.length row = ids_seq_len encodings).
    { unfold rectangular in Hrect. rewrite Forall_forall in Hrect.
      apply Hrect. eapply nth_error_In, Hr. }
    assert (Hrow : Forall (fun t => t <> ignore_index) row).
    { rewrite Forall_forall in Htok. apply Htok. eapply nth_error_In, Hr. }
    assert (E : map (fun x => scored
                         (nth r (snd (window_call (fun i t => (i, t))
                                        (ids_rows encodings) x)) [])) ws
                = map (fun w : Z * Z * Z =>
                         let '(begin_loc, end_loc, prev_end_loc) := w in
                         scored (mask_row (end_loc - prev_end_loc)
                                          (py_slice row begin_loc end_loc)))
                      ws).
    { apply map_ext. intros [[b e] p]. unfold window_call. cbn [snd].
      rewrite map_map. now rewrite (nth_map_row _ _ _ row [] Hr). }
    rewrite E. unfold ws. rewrite <- Hlen.
    rewrite (windows_cover row stride (Datatypes.S m) Hrow Hs 0 0);
      try (unfold max_length; lia).
    unfold segment. cbn [Z.to_nat skipn]. apply firstn_all2. lia.
Qed.

Lemma calc_perplexity_scores_every_token_once_witness :
  exists calls : list (list (list Z) * list (list Z)),
    calls <> [] /\
    (forall (L P : Type) (model : list (list Z) -> list (list Z) -> L)
            (exp_mean : list L -> P),
        calc_perplexity model exp_mean (mkTokenIds 3 [[7; 8; 9]%Z]) 2
        = Ok (exp_mean (map (fun call => model (fst call) (snd call)) calls))) /\
    (forall r row,
        nth_error (ids_rows (mkTokenIds 3 [[7; 8; 9]%Z])) r = Some row ->
        List.concat (map (fun call => scored (nth r (snd call) [])) calls)
        = row).
Proof.
  apply calc_perplexity_scores_every_token_once.
  - repeat constructor.
  - cbn. lia.
  - unfold max_length. lia.
  - repeat constructor; discriminate.
Defined.

(** X6.  [calc_perplexity] raises on its degenerate inputs: the
    [ValueError] of [range] for a stride of zero, and otherwise, for a
    negative stride or an empty sequence, the [RuntimeError] of
    [torch.stack] on the empty list of losses, the model not being called
    at all. *)
Theorem calc_perplexity_degenerate {L P : Type}
        (model : list (list Z) -> list (list Z) -> L)
        (exp_mean : list L -> P) (encodings : TokenIds) (stride : Z) :
  (stride <= 0)%Z \/ ids_seq_len encodings = 0 ->
  calc_perplexity model exp_mean encodings stride =
  if (stride =? 0)%Z
  then Raise (ValueError "range() arg 3 must not be zero")
  else Raise (RuntimeError "stack expects a non-empty TensorList").
Proof.
  intros H. unfold calc_perplexity, py_range.
  destruct (Z.eqb_spec stride 0) as [|Hne]; [reflexivity|].
  destruct (Z.ltb_spec 0 stride) as [Hpos|Hneg].
  - destruct H as [H|H]; [lia|]. rewrite H. reflexivity.
  - destruct (Z.ltb_spec (Z.of_nat (ids_seq_len encodings)) 0); [lia|].
    reflexivity.
Qed.

Lemma calc_perplexity_degenerate_witness :
  calc_perplexity (fun i t => (i, t)) (fun nlls => nlls)
                  (mkTokenIds 0 [[]]) 256
  = Raise (RuntimeError "stack expects a non-empty TensorList").
Proof.
  apply (calc_perplexity_degenerate (fun i t => (i, t)) (fun nlls => nlls)
           (mkTokenIds 0 [[]]) 256).
  now right.
Defined.

(* ------------------------------------------------------------------ *)
(** ** Counts of parameters *)
(* ------------------------------------------------------------------ *)

Lemma fold_left_add_acc (l : list nat) (a : nat) :
  fold_left Nat.add l a = a + list_sum l.
Proof.
  revert a. induction l as [|x l IH]; intros a; simpl.
  - lia.
  - rewrite IH. lia.
Qed.

Lemma fold_left_count {A : Type} (f : A -> nat) (l : list A) (a : nat) :
  fold_left (fun acc x => acc + f x) l a = a + list_sum (map f l).
Proof.
  revert a. induction l as [|x l IH]; intros a; simpl.
  - lia.
  - rewrite IH. lia.
Qed.

Lemma fold_left_count_if {A : Type} (c : A -> bool) (f : A -> nat)
      (l : list A) (a : nat) :
  fold_left (fun acc x => if c x then acc + f x else acc) l a
  = a + list_sum (map f (filter c l)).
Proof.
  revert a. induction l as [|x l IH]; intros a; cbn [fold_left filter].
  - simpl. lia.
  - rewrite IH. destruct (c x); simpl; lia.
Qed.

Lemma list_sum_filter_split {A : Type} (c : A -> bool) (f : A -> nat)
      (l : list A) :
  list_sum (map f (filter c l)) + list_sum (map f (filter (fun x => negb (c x)) l))
  = list_sum (map f l).
Proof.
  induction l as [|x l IH]; [reflexivity|]. cbn [filter].
  destruct (c x); simpl in *; lia.
Qed.

(** X7.  [ia3_params] never reports more trainable parameters than
    parameters in total: the total is the trainable count plus the sizes of
    the parameters whose name does not contain ["ia3_lw"], every parameter
    object counted once. *)
Theorem ia3_params_partition (numel : nat -> nat) (model : Module) :
  fst (ia3_params numel model)
  = snd (ia3_params numel model)
    + list_sum (map (fun np => numel (pid (snd np)))
                    (filter (fun np => negb (contains "ia3_lw" (fst np)))
                            (named_parameters model))) /\
  snd (ia3_params numel model) <= fst (ia3_params numel model).
Proof.
  unfold ia3_params. cbn [fst snd].
  rewrite fold_left_count, (fold_left_count_if
    (fun np => contains "ia3_lw" (fst np)) (fun np => numel (pid (snd np)))).
  unfold parameters. rewrite map_map. cbn [Nat.add].
  rewrite <- (list_sum_filter_split (fun np => contains "ia3_lw" (fst np))
                (fun np => numel (pid (snd np))) (named_parameters model)).
  lia.
Qed.

(** X8.  What [ia3_params] reports as trainable is decided by the names
    alone: no [requires_grad] flag is read, so freezing or unfreezing any
    parameter leaves both counts as they were. *)
Theorem ia3_params_ignores_requires_grad
        (numel : nat -> nat) (i : nat) (b : bool) (model : Module) :
  ia3_params numel (set_requires_grad i b model) = ia3_params numel model.
Proof.
  unfold ia3_params, parameters.
  rewrite named_parameters_set_requires_grad.
  rewrite !fold_left_count,
    !(fold_left_count_if (fun np => contains "ia3_lw" (fst np))
                         (fun np => numel (pid (snd np)))).
  f_equal; f_equal; f_equal.
  - rewrite !map_map. apply map_ext. intros [n v]. cbn [on_member fst snd].
    now rewrite set_flag_pid.
  - induction (named_parameters model) as [|[n v] l IH]; [reflexivity|].
    cbn [map filter on_member fst snd].
    destruct (contains "ia3_lw" n); cbn [map fst snd].
    + unfold on_member at 1. cbn [snd]. rewrite set_flag_pid. f_equal.
      exact IH.
    + exact IH.
Qed.

(** After [mark_only_lora_as_trainable], [named_parameters] lists the same
    names and the same objects in the same order, each with the flag its
    name asks for. *)
Lemma named_parameters_mark (model : Module) :
  named_parameters (mark_only_lora_as_trainable model)
  = map (fun np => (fst np, mkTorchParameter (pid (snd np))
                                             (is_lora_name (fst np))))
        (named_parameters model).
Proof.
  unfold mark_only_lora_as_trainable.
  set (model1 := fold_left _ (parameters model) model).
  rewrite named_parameters_thaw.
  assert (H1 : named_parameters model1
               = map (fun np => (fst np, mkTorchParameter (pid (snd np)) false))
                     (named_parameters model)).
  { unfold model1. rewrite named_parameters_freeze.
    apply map_ext_in. intros [n v] Hin. unfold on_member, flag_where.
    cbn [fst snd].
    assert (Hex : existsb (Nat.eqb (pid v)) (map pid (parameters model)) = true).
    { apply existsb_eqb_In. unfold parameters. rewrite map_map.
      apply in_map_iff. now exists (n, v). }
    now rewrite Hex. }
  rewrite H1, map_map.
  destruct (drop_seen_NoDup (named_members model) []) as [Hnd _].
  fold (named_parameters model) in Hnd.
  apply map_ext_in. intros [n v] Hin. unfold on_member, flag_where.
  cbn [fst snd pid]. f_equal.
  destruct (existsb _ _) eqn:E.
  - apply existsb_eqb_In in E. apply in_map_iff in E as ([n' v'] & Hpid & Hf).
    apply filter_In in Hf as [Hin' Hl].
    apply in_map_iff in Hin' as ([n0 v0] & Heq & Hin0).
    cbn [fst snd] in *. injection Heq as -> <-. cbn [pid] in Hpid.
    pose proof (NoDup_map_eq (fun np => pid (snd np)) _ (n', v0) (n, v)
                  Hnd Hin0 Hin Hpid) as Hsame.
    injection Hsame as -> _. now rewrite Hl.
  - destruct (is_lora_name n) eqn:Hl; [|reflexivity]. exfalso.
    assert (Hx : In (pid v)
                    (map (fun np => pid (snd np))
                         (filter (fun np => is_lora_name (fst np))
                                 (map (fun np => (fst np,
                                         mkTorchParameter (pid (snd np)) false))
                                      (named_parameters model))))).
    { apply in_map_iff. exists (n, mkTorchParameter (pid v) false).
      split; [reflexivity|]. apply filter_In. split; [|exact Hl].
      apply in_map_iff. now exists (n, v). }
    apply existsb_eqb_In in Hx. congruence.
Qed.

(** X9.  [mark_only_lora_as_trainable] changes flags only: the model has
    the same named parameters afterwards, under the same names, in the
    same order and as the same objects; and a second call changes nothing
    that [named_parameters] shows. *)
Theorem mark_only_lora_as_trainable_keeps_parameters (model : Module) :
  map (fun np => (fst np, pid (snd np)))
      (named_parameters (mark_only_lora_as_trainable model))
  = map (fun np => (fst np, pid (snd np))) (named_parameters model) /\
  named_parameters
    (mark_only_lora_as_trainable (mark_only_lora_as_trainable model))
  = named_parameters (mark_only_lora_as_trainable model).
Proof.
  split.
  - rewrite named_parameters_mark, map_map. apply map_ext. now intros [n v].
  - rewrite (named_parameters_mark (mark_only_lora_as_trainable model)).
    rewrite named_parameters_mark, map_map. apply map_ext. now intros [n v].
Qed.

(** X10.  The counts the LoRA notebook prints after
    [mark_only_lora_as_trainable]: the total is what it was before the
    call, and the trainable count is the size of the parameters listed
    under a name with ["lora_A"] or ["lora_B"]. *)
Theorem count_parameters_after_mark (numel : nat -> nat) (model : Module) :
  count_parameters numel (mark_only_lora_as_trainable model)
  = (fst (count_parameters numel model),
     list_sum (map (fun np => numel (pid (snd np)))
                   (filter (fun np => is_lora_name (fst np))
                           (named_parameters model)))).
Proof.
  unfold count_parameters, parameters. cbn [fst].
  rewrite named_parameters_mark, !fold_left_add_acc. cbn [Nat.add].
  rewrite !map_map. cbn [snd pid]. f_equal. f_equal.
  induction (named_parameters model) as [|[n v] l IH]; [reflexivity|].
  cbn [map filter fst snd requires_grad pid].
  destruct (is_lora_name n); cbn [map]; now rewrite IH.
Qed.

(* ------------------------------------------------------------------ *)
(** ** More on the paths of the injection helpers *)
(* ------------------------------------------------------------------ *)



Lemma contains_join_dot (key r n : string) :
  contains key r = true -> contains key (join_dot r n) = true.
Proof.
  intros H. destruct r as [|c r].
  - apply contains_in_empty in H. subst key. apply contains_empty.
  - cbn [join_dot]. now apply contains_app_r.
Qed.


Lemma dict_set_present {V : Type} (n : string) (v : V) (d : list (string * V)) :
  dict_get n d = Some v -> dict_set n v d = d.
Proof.
  induction d as [|[k u] d IH]; cbn [dict_get dict_set]; [discriminate|].
  destruct (String.eqb_spec n k) as [->|Hne].
  - now intros [= ->].
  - intros H. now rewrite IH.
Qed.

Lemma dict_set_absent {V : Type} (n : string) (v : V) (d : list (string * V)) :
  dict_get n d = None -> dict_set n v d = d ++ [(n, v)].
Proof.
  induction d as [|[k u] d IH]; cbn [dict_get dict_set app]; [reflexivity|].
  destruct (String.eqb n k); [discriminate|].
  intros H. now rewrite IH.
Qed.







Lemma module_eta (m : Module) :
  mkModule (mid m) (isinstance_Embedding m) (qconfig m) (_parameters m)
           (_buffers m) (_modules m) = m.
Proof. now destruct m. Qed.

Lemma replace_atoms_same (atoms : list string) :
  atoms <> [] ->
  forall (m x : Module),
    get_submodule_atoms m atoms = Ok x ->
    replace_atoms m atoms x = Ok m.
Proof.
  induction atoms as [|a [|b rest] IH]; intros Hne m x H; [contradiction| |].
  - apply get_submodule_atoms_step_inv in H as (c & Hg & Hc).
    injection Hc as ->.
    apply getattr_module_inv in Hg as (Hp & Hb & Hm).
    rewrite replace_atoms_last. unfold setattr. rewrite Hp.
    rewrite (dict_remove_absent _ _ Hb), (dict_set_present _ _ _ Hm).
    now rewrite module_eta.
  - apply get_submodule_atoms_step_inv in H as (c & Hg & Hc).
    rewrite replace_atoms_step, Hg.
    rewrite (IH ltac:(discriminate) c x Hc). cbn [bind].
    apply getattr_module_inv in Hg as (_ & _ & Hm).
    unfold with_child. rewrite (dict_set_present _ _ _ Hm).
    now rewrite module_eta.
Qed.

(** X15.  Putting back what is there changes nothing: for a path other
    than the empty one at which [get_submodule] returns [x],
    [replace_submodule(model, path, x)] returns and leaves the model as it
    was. *)
Theorem replace_submodule_same
        (model x : Module) (module_path : string) :
  module_path <> "" ->
  get_submodule model module_path = Ok x ->
  replace_submodule model module_path x = Ok model.
Proof.
  intros Hne H. rewrite get_submodule_nonempty in H by exact Hne.
  apply replace_atoms_same; [apply split_dot_not_nil | exact H].
Qed.

Lemma replace_submodule_same_witness :
  replace_submodule toy_model "layers.k_proj" (toy_linear 3) = Ok toy_model.
Proof.
  apply replace_submodule_same; [discriminate | reflexivity].
Defined.

Lemma getattr_missing_inv (m : Module) (n : string) (e : Exn) :
  getattr m n = Raise e ->
  e = AttributeError n /\ dict_get n (_parameters m) = None /\
  dict_get n (_buffers m) = None /\ dict_get n (_modules m) = None.
Proof.
  unfold getattr.
  destruct (dict_get n (_parameters m)); [discriminate|].
  destruct (dict_get n (_buffers m)); [discriminate|].
  destruct (dict_get n (_modules m)); [discriminate|].
  now intros [= <-].
Qed.

Lemma replace_atoms_missing_component
      (new_module : Module) (init : list string) (a b : string)
      (rest : list string) :
  forall model parent,
    get_submodule_atoms model init = Ok parent ->
    getattr parent a = Raise (AttributeError a) ->
    replace_atoms model (init ++ a :: b :: rest) new_module
    = Raise (AttributeError a).
Proof.
  induction init as [|x init IH]; intros model parent Hinit Hraise.
  - injection Hinit as ->. cbn [app]. now rewrite replace_atoms_step, Hraise.
  - apply get_submodule_atoms_step_inv in Hinit as (c & Hg & Hc).
    change ((x :: init) ++ a :: b :: rest)
      with (x :: (init ++ a :: b :: rest)).
    destruct (init ++ a :: b :: rest) as [|y l] eqn:El;
      [now destruct init|].
    rewrite replace_atoms_step, Hg. rewrite <- El in *.
    now rewrite (IH c parent Hc Hraise).
Qed.

(** X16.  A component of the path, other than the last, that names no
    attribute makes [replace_submodule] raise the [AttributeError] of that
    component, as [get_submodule] does on the same path. *)
Theorem replace_submodule_missing_component
        (model parent new_module : Module) (module_path : string)
        (init : list string) (a b : string) (rest : list string) (e : Exn) :
  split_dot module_path = init ++ a :: b :: rest ->
  get_submodule_atoms model init = Ok parent ->
  getattr parent a = Raise e ->
  replace_submodule model module_path new_module = Raise (AttributeError a) /\
  get_submodule model module_path = Raise (AttributeError a).
Proof.
  intros Hsplit Hinit Hmiss.
  assert (Hraise : getattr parent a = Raise (AttributeError a)).
  { now destruct (getattr_missing_inv _ _ _ Hmiss) as (<- & _). }
  clear Hmiss. split.
  - unfold replace_submodule. rewrite Hsplit.
    now apply replace_atoms_missing_component with parent.
  - rewrite get_submodule_nonempty.
    2:{ intros ->. cbn in Hsplit. now destruct init as [|? [|? ?]]. }
    rewrite Hsplit, get_submodule_atoms_app, Hinit. cbn [bind].
    now rewrite get_submodule_atoms_step, Hraise.
Qed.

Lemma replace_submodule_missing_component_witness :
  replace_submodule toy_model "layers.attn.q_proj" (toy_linear 7)
    = Raise (AttributeError "attn") /\
  get_submodule toy_model "layers.attn.q_proj" = Raise (AttributeError "attn").
Proof.
  apply (replace_submodule_missing_component toy_model toy_block (toy_linear 7)
           "layers.attn.q_proj" ["layers"] "attn" "q_proj" []
           (AttributeError "attn"));
    reflexivity.
Defined.

Lemma replace_atoms_new_child (new_module parent : Module) (a : string)
      (init : list string) :
  dict_get a (_parameters parent) = None ->
  dict_get a (_buffers parent) = None ->
  dict_get a (_modules parent) = None ->
  forall model,
    get_submodule_atoms model init = Ok parent ->
    exists model' parent',
      replace_atoms model (init ++ [a]) new_module = Ok model' /\
      get_submodule_atoms model' init = Ok parent' /\
      _modules parent' = _modules parent ++ [(a, new_module)] /\
      _parameters parent' = _parameters parent /\
      _buffers parent' = _buffers parent.
Proof.
  intros Hp Hb Hm.
  induction init as [|x init IH]; intros model Hinit.
  - injection Hinit as ->. cbn [app]. rewrite replace_atoms_last.
    unfold setattr. rewrite Hp. eexists. eexists.
    split; [reflexivity|]. split; [reflexivity|].
    cbn [_parameters _buffers _modules].
    now rewrite (dict_set_absent _ _ _ Hm), (dict_remove_absent _ _ Hb).
  - apply get_submodule_atoms_step_inv in Hinit as (c & Hg & Hc).
    destruct (IH c Hc) as (c' & parent' & Hrep & Hget & Hrest).
    exists (with_child model x c'), parent'.
    split; [|split; [|exact Hrest]].
    + change ((x :: init) ++ [a]) with (x :: (init ++ [a])).
      destruct (init ++ [a]) as [|y l] eqn:El; [now destruct init|].
      now rewrite replace_atoms_step, Hg, Hrep.
    + now rewrite get_submodule_atoms_step,
        (getattr_with_child_same model x c c' Hg).
Qed.

(** X17.  A last component that names no attribute is no error:
    [replace_submodule] registers the new module under that name as a new
    child, after the children that are there, of the module the components
    before it lead to. *)
Theorem replace_submodule_new_child
        (model parent new_module : Module) (module_path : string)
        (init : list string) (a : string) (e : Exn) :
  split_dot module_path = init ++ [a] ->
  get_submodule_atoms model init = Ok parent ->
  getattr parent a = Raise e ->
  exists model' parent',
    replace_submodule model module_path new_module = Ok model' /\
    get_submodule_atoms model' init = Ok parent' /\
    _modules parent' = _modules parent ++ [(a, new_module)] /\
    _parameters parent' = _parameters parent /\
    _buffers parent' = _buffers parent.
Proof.
  intros Hsplit Hinit Hmiss.
  apply getattr_missing_inv in Hmiss as (_ & Hp & Hb & Hm).
  unfold replace_submodule. rewrite Hsplit.
  now apply replace_atoms_new_child.
Qed.

Lemma replace_submodule_new_child_witness :
  exists model' parent',
    replace_submodule toy_model "layers.v_proj" (toy_linear 7) = Ok model' /\
    get_submodule_atoms model' ["layers"] = Ok parent' /\
    _modules parent' = _modules toy_block ++ [("v_proj", toy_linear 7)] /\
    _parameters parent' = _parameters toy_block /\
    _buffers parent' = _buffers toy_block.
Proof.
  apply (replace_submodule_new_child toy_model toy_block (toy_linear 7)
           "layers.v_proj" ["layers"] "v_proj" (AttributeError "v_proj"));
    reflexivity.
Defined.

Lemma match_submodules_none (model : Module) (key : string) :
  (forall p x, In (p, x) (named_modules "" model) -> contains key p = false) ->
  match_submodules model key = [].
Proof.
  intros H. unfold match_submodules.
  induction (named_modules "" model) as [|[p x] l IH]; [reflexivity|].
  cbn [filter fst]. rewrite (H p x) by now left.
  apply IH. intros q y Hin. apply (H q y). now right.
Qed.

(** X18.  Keys that occur in no module name are no error: both
    [inject_adapter] functions return, the adapter function is not called
    and the model is left as it was; so it is with an empty list of
    keys. *)
Theorem inject_adapter_no_match
        (model : Module) (match_on : list string)
        (adapter_fn : Module -> result Module) :
  (forall key p x, In key match_on -> In (p, x) (named_modules "" model) ->
                   contains key p = false) ->
  inject_adapter model match_on adapter_fn = (model, Ok tt) /\
  lora_inject_adapter model match_on adapter_fn = (model, Ok tt).
Proof.
  intros H. unfold inject_adapter.
  assert (Hk : forall processed,
             inject_keys adapter_fn match_on (mkInjectState model processed)
             = (mkInjectState model processed, Ok tt)).
  { induction match_on as [|key keys IH]; intros processed; [reflexivity|].
    cbn [inject_keys st_model].
    rewrite match_submodules_none; [|intros p x; apply H; now left].
    cbn [inject_layers]. apply IH. intros k p x Hk. apply H. now right. }
  rewrite Hk. split; [reflexivity|].
  induction match_on as [|key keys IH]; [reflexivity|].
  cbn [lora_inject_adapter].
  rewrite match_submodules_none; [|intros p x; apply H; now left].
  cbn [lora_inject_layers]. apply IH.
  - intros k p x Hin. apply H. now right.
  - intros processed. specialize (Hk processed). cbn [inject_keys st_model] in Hk.
    rewrite match_submodules_none in Hk; [|intros p x; apply H; now left].
    exact Hk.
Qed.

Lemma inject_adapter_no_match_witness :
  inject_adapter toy_model ["gate_proj"] (fun _ => Raise (RuntimeError "unused"))
    = (toy_model, Ok tt) /\
  lora_inject_adapter toy_model ["gate_proj"]
                      (fun _ => Raise (RuntimeError "unused"))
    = (toy_model, Ok tt).
Proof.
  apply inject_adapter_no_match.
  intros key p x [<-|[]] Hin. vm_compute in Hin.
  repeat (destruct Hin as [Hin|Hin]; [injection Hin as <- _; reflexivity|]).
  contradiction.
Defined.

(* ------------------------------------------------------------------ *)
(** ** The two copies of [inject_adapter] *)
(* ------------------------------------------------------------------ *)



Section InjectAgree.
Variable orig : Module.
Variable match_on : list string.
Variable adapter_fn : Module -> result Module.
Hypothesis orig_wf : wf_module orig = true.
Hypothesis keys_nonempty : forall key, In key match_on -> key <> "".
Hypothesis selected : selects_leaves orig match_on adapter_fn.
Hypothesis has_weight :
  forall p x key,
    In (p, x) (named_modules "" orig) -> In key match_on ->
    contains key p = true -> weight_device x = Ok tt.

End InjectAgree.



(* ------------------------------------------------------------------ *)
(** ** A fresh LoRA adapter adds nothing *)
(* ------------------------------------------------------------------ *)




Section ChunkFacts.
Context {R : Type} {S : Scalar R}.



End ChunkFacts.

Section LoRAFresh.
Context {R : Type} {S : Scalar R}.
Hypothesis laws : semi_ring_theory zero one add mul (@eq R).







End LoRAFresh.

(* ------------------------------------------------------------------ *)
(** ** The training mode stops at a LoRA adapter *)
(* ------------------------------------------------------------------ *)

Lemma flat_map_map {A B C : Type} (f : A -> B) (g : B -> list C) (l : list A) :
  flat_map g (map f l) = flat_map (fun x => g (f x)) l.
Proof.
  induction l as [|x l IH]; [reflexivity|]. cbn [map flat_map]. now rewrite IH.
Qed.

Lemma flat_map_ext_Forall {A B : Type} (f g : A -> list B) (l : list A) :
  Forall (fun x => f x = g x) l -> flat_map f l = flat_map g l.
Proof.
  induction 1 as [|x l Hx _ IH]; [reflexivity|]. cbn [flat_map].
  now rewrite Hx, IH.
Qed.

(** X21.  [train(mode)], and so [eval()], which is [train(False)], never
    reaches a LoRA adapter itself: after the call every adapter of the model and every
    [lora_dropout] has the flag [training] it had before (an adapter built
    with a dropout keeps dropping out in evaluation mode), while every
    other module, the wrapped layers included, has the flag [mode]. *)
Theorem train_stops_at_adapters (mode : bool) (model : TrainModule) :
  adapter_modes (train mode model) = adapter_modes model /\
  Forall (fun training => training = mode) (other_modes (train mode model)).
Proof.
  induction model as [training children IH | training existing_layer d IH]
    using TrainModule_tree_ind.
  - cbn [train adapter_modes other_modes]. split.
    + rewrite flat_map_map. apply flat_map_ext_Forall.
      eapply Forall_impl; [|exact IH]. now intros c [H _].
    + constructor; [reflexivity|]. rewrite flat_map_map.
      apply Forall_forall. intros b Hb. apply in_flat_map in Hb as (c & Hc & Hb).
      rewrite Forall_forall in IH. destruct (IH c Hc) as [_ Hall].
      rewrite Forall_forall in Hall. now apply Hall.
  - cbn [train adapter_modes other_modes]. destruct IH as [Ha Ho].
    split; [now rewrite Ha | exact Ho].
Qed.

(* ------------------------------------------------------------------ *)
(** ** An input that only the adapter accepts *)
(* ------------------------------------------------------------------ *)

(** A tensor with at least two dimensions, the last of size 1, is
    broadcast along its last dimension by a row. *)
Lemma broadcast_shapes_unit (s : list nat) (n : nat) :
  2 <= List.length s -> last_dim s = 1 ->
  broadcast_shapes s [1; n] = Some (removelast s ++ [n]).
Proof.
  intros Hlen Hlast.
  destruct (exists_last (l := s)) as (s' & n' & ->);
    [intros ->; simpl in Hlen; lia|].
  unfold last_dim in Hlast. rewrite last_last in Hlast. subst n'.
  rewrite removelast_last.
  destruct (exists_last (l := s')) as (lead & x & ->).
  { intros ->. simpl in Hlen. lia. }
  unfold broadcast_shapes. rewrite !rev_app_distr. cbn [rev app].
  cbn [broadcast_rev]. rewrite broadcast_rev_nil_r.
  assert (E : (if Nat.eqb x 1 then Some (x :: rev lead)
               else if Nat.eqb x 1 then Some (1 :: rev lead)
                    else if Nat.eqb 1 1 then Some (x :: rev lead) else None)
              = Some (x :: rev lead)).
  { destruct (Nat.eqb x 1); reflexivity. }
  rewrite E.
  destruct (Nat.eqb_spec 1 n) as [<-|Hn]; cbn [Nat.eqb option_map rev];
    now rewrite rev_involutive, <- !app_assoc.
Qed.

(** X22.  In feed-forward mode [IA3Adapter1] accepts an input that the
    layer it wraps rejects: an input whose last dimension has size 1, where
    the layer has more than one input feature, is broadcast against the
    scaling vector to [in_features] entries and goes through, while the
    wrapped linear layer alone raises on it. *)
Theorem IA3Adapter1_feedforward_unit_input
        {R : Type} {S : Scalar R} (layer : Linear R)
        (in_features out_features : nat) (l : list R) (ia3_lr : R)
        (x : Tensor R) :
  linear_layer layer in_features out_features ->
  in_features <> 1 ->
  2 <= List.length (shape x) -> last_dim (shape x) = 1 ->
  Linear_forward layer x = Raise (RuntimeError "linear") /\
  exists y,
    IA3Adapter1.forward
      (IA3Adapter1.mk (Linear_forward layer) true in_features out_features
                      (mkTensor [1; in_features] [l]) ia3_lr) x = Ok y /\
    shape y = removelast (shape x) ++ [out_features] /\
    rows y = map (fun ra =>
                    linear_row (rows (weight layer))
                               (option_map (fun t => hd [] (rows t)) (bias layer))
                               (map (mul (hd zero ra)) l))
                 (rows x).
Proof.
  intros (HW & _ & _ & Hb) Hin Hrank Hlast.
  assert (Hbias : match bias layer with
                  | None => True
                  | Some t => shape t = [out_features]
                  end).
  { destruct (bias layer); [now destruct Hb | exact I]. }
  split.
  - unfold Linear_forward, F_linear. rewrite HW, Hlast.
    destruct (shape x) as [|d s]; [simpl in Hrank; lia|].
    destruct (Nat.eqb_spec 1 in_features) as [E|_]; [congruence | reflexivity].
  - unfold IA3Adapter1.forward.
    cbn [IA3Adapter1.is_feedforward IA3Adapter1.ia3_lw
         IA3Adapter1.existing_layer negb].
    unfold torch_mul. cbn [shape rows removelast forallb hd].
    cbn [Nat.eqb andb].
    rewrite (broadcast_shapes_unit _ in_features Hrank Hlast).
    unfold mul_rows. rewrite Hlast. change (last_dim [1; in_features]) with in_features.
    destruct (Nat.eqb_spec 1 in_features) as [E|_]; [congruence|].
    cbn [Nat.eqb bind]. unfold Linear_forward.
    rewrite (F_linear_ok _ _ _ in_features out_features HW); cbn [shape rows].
    + eexists. split; [reflexivity|]. cbn [shape rows]. split.
      * now rewrite removelast_last.
      * now rewrite map_map.
    + now destruct (removelast (shape x)).
    + unfold last_dim. now rewrite last_last.
    + exact Hbias.
Qed.

Lemma IA3Adapter1_feedforward_unit_input_witness :
  Linear_forward toy_layer23 (mkTensor [2; 1] [[3]; [4]]%Z)
    = Raise (RuntimeError "linear") /\
  exists y,
    IA3Adapter1.forward
      (IA3Adapter1.mk (Linear_forward toy_layer23) true 2 3
                      (mkTensor [1; 2] [[1; 1]%Z]) 0%Z)
      (mkTensor [2; 1] [[3]; [4]]%Z) = Ok y /\
    shape y = removelast (shape (mkTensor [2; 1] [[3]; [4]]%Z)) ++ [3] /\
    rows y = map (fun ra =>
                    linear_row (rows (weight toy_layer23))
                               (option_map (fun t => hd [] (rows t))
                                           (bias toy_layer23))
                               (map (mul (hd zero ra)) [1; 1]%Z))
                 (rows (mkTensor [2; 1] [[3]; [4]]%Z)).
Proof.
  apply (IA3Adapter1_feedforward_unit_input toy_layer23 2 3 [1; 1]%Z 0%Z
           (mkTensor [2; 1] [[3]; [4]]%Z)).
  - repeat split; try reflexivity.
    + repeat constructor.
    + now exists [1; 1; 2]%Z.
  - discriminate.
  - cbn. lia.
  - reflexivity.
Defined.

(* ------------------------------------------------------------------ *)
(** ** What the training loop does not do *)
(* ------------------------------------------------------------------ *)

Section TrainModelFacts.
Context {Model Batch W : Type}.
Variable model_train : Model -> Model.
Variable forward_backward : Model -> Batch -> Model * Q.
Variable batches : nat -> list Batch.
Variable len_train_dataloader : nat.
(** Something of the model, the weights say, that neither the change of
    mode nor a forward and backward pass touches. *)
Variable weights : Model -> W.
Hypothesis model_train_keeps : forall m, weights (model_train m) = weights m.
Hypothesis forward_backward_keeps :
  forall m b, weights (fst (forward_backward m b)) = weights m.

Lemma train_batches_keeps (pass : list Batch) :
  forall model total_loss,
    weights (fst (train_batches forward_backward pass model total_loss))
    = weights model.
Proof.
  induction pass as [|b rest IH]; intros model total_loss; [reflexivity|].
  cbn [train_batches]. specialize (forward_backward_keeps model b).
  destruct (forward_backward model b) as [model' loss].
  now rewrite IH.
Qed.

Lemma train_epochs_keeps (remaining : nat) :
  forall epoch model printed,
    weights (fst (train_epochs forward_backward batches len_train_dataloader
                               remaining epoch model printed))
    = weights model.
Proof.
  induction remaining as [|n IH]; intros epoch model printed; [reflexivity|].
  cbn [train_epochs].
  pose proof (train_batches_keeps (batches epoch) model 0%Q) as H.
  destruct (train_batches forward_backward (batches epoch) model 0%Q)
    as [model' total_loss].
  destruct len_train_dataloader; [exact H|]. now rewrite IH.
Qed.
End TrainModelFacts.

(** X23.  [train_model] steps no optimizer: what the forward and backward
    passes and the change of mode leave alone, the weights of the model,
    is after the call what it was before, whatever the number of epochs
    and the batches. *)
Theorem train_model_keeps_weights
        {Model Batch W : Type} (model_train : Model -> Model)
        (forward_backward : Model -> Batch -> Model * Q)
        (batches : nat -> list Batch) (len_train_dataloader : nat)
        (weights : Model -> W) (model : Model) (num_epochs : Z) :
  (forall m, weights (model_train m) = weights m) ->
  (forall m b, weights (fst (forward_backward m b)) = weights m) ->
  weights (fst (train_model model_train forward_backward batches
                            len_train_dataloader model num_epochs))
  = weights model.
Proof.
  intros Hmode Hpass. unfold train_model.
  rewrite (train_epochs_keeps forward_backward batches len_train_dataloader
             weights Hpass).
  apply Hmode.
Qed.

Lemma train_model_keeps_weights_witness :
  fst (fst (train_model (fun m : Z * Z => m)
                        (fun (m : Z * Z) (b : Z) =>
                           ((fst m, (snd m + b)%Z), inject_Z (fst m * b)))
                        (fun _ => [1; 2; 3]%Z) 3 (5%Z, 0%Z) 2))
  = fst (5%Z, 0%Z).
Proof.
  apply (train_model_keeps_weights (fun m : Z * Z => m)
           (fun (m : Z * Z) (b : Z) =>
              ((fst m, (snd m + b)%Z), inject_Z (fst m * b)))
           (fun _ => [1; 2; 3]%Z) 3 (@fst Z Z) (5%Z, 0%Z) 2);
    reflexivity.
Defined.

(** X24.  The degenerate calls of [train_model].  With no epoch to run
    ([num_epochs] zero or negative) it only switches the model to training
    mode and returns.  With a data loader of length 0 and at least one
    epoch, the first average is a division by zero: the call raises
    [ZeroDivisionError] before anything is printed. *)
Theorem train_model_degenerate
        {Model Batch : Type} (model_train : Model -> Model)
        (forward_backward : Model -> Batch -> Model * Q)
        (batches : nat -> list Batch) (len_train_dataloader : nat)
        (model : Model) (num_epochs : Z) :
  ((num_epochs <= 0)%Z ->
   train_model model_train forward_backward batches len_train_dataloader
               model num_epochs
   = (model_train model, Returned [])) /\
  ((0 < num_epochs)%Z -> len_train_dataloader = 0 ->
   train_model model_train forward_backward batches len_train_dataloader
               model num_epochs
   = (fst (train_batches forward_backward (batches 0) (model_train model) 0%Q),
      ZeroDivisionError [])).
Proof.
  unfold train_model. split.
  - intros H. replace (Z.to_nat num_epochs) with 0 by lia. reflexivity.
  - intros H ->. destruct (Z.to_nat num_epochs) as [|n] eqn:E; [lia|].
    cbn [train_epochs].
    now destruct (train_batches forward_backward (batches 0)
                                (model_train model) 0%Q).
Qed.

Lemma train_model_degenerate_witness :
  train_model (fun m : Z => m) (fun (m : Z) (b : Z) => (m, inject_Z b))
              (fun _ => []) 0 7%Z 2
  = (7%Z, ZeroDivisionError []).
Proof.
  apply (proj2 (train_model_degenerate (fun m : Z => m)
                  (fun (m : Z) (b : Z) => (m, inject_Z b))
                  (fun _ => []) 0 7%Z 2)); [lia | reflexivity].
Defined.

(* ------------------------------------------------------------------ *)
(** ** A list of flags is one true flag *)
(* ------------------------------------------------------------------ *)

(** X25.  A list passed as [is_feedforward] that is not empty counts as
    true for every layer: each adapter the notebook's call builds has a
    scaling vector of [in_features] entries and multiplies the input of
    the layer it wraps, whatever the strings in the list.  For the
    projections of the notebook's model (k_proj and v_proj from 2048 to
    256 features, down_proj from 16384 to 2048, in 18 blocks) this gives
    the 368640 trainable parameters the notebook prints. *)
Theorem ia3_adapter_fn_feedforward
        {R : Type} {S : Scalar R} (flags : list string) (ia3_lr : R)
        (layer : Linear R) (in_features out_features : nat) :
  flags <> [] ->
  IA3Adapter1.ia3_lw (ia3_adapter_fn flags ia3_lr layer in_features out_features)
    = ones_row in_features /\
  (forall x,
      IA3Adapter1.forward
        (ia3_adapter_fn flags ia3_lr layer in_features out_features) x
      = (scaled <- torch_mul x (ones_row in_features) ;;
         Linear_forward layer scaled)) /\
  (18 * (nelement (shape (IA3Adapter1.ia3_lw
                            (ia3_adapter_fn flags ia3_lr layer (2 ^ 11) 256)))
         + nelement (shape (IA3Adapter1.ia3_lw
                              (ia3_adapter_fn flags ia3_lr layer (2 ^ 11) 256)))
         + nelement (shape (IA3Adapter1.ia3_lw
                              (ia3_adapter_fn flags ia3_lr layer (2 ^ 14) (2 ^ 11)))))
   = 368640)%Z.
Proof.
  intros Hne. destruct flags as [|f flags]; [contradiction|].
  repeat split.
Qed.

Lemma ia3_adapter_fn_feedforward_witness :
  IA3Adapter1.ia3_lw (ia3_adapter_fn notebook_flags 0%Z toy_layer23 2 3)
    = ones_row 2 /\
  (forall x,
      IA3Adapter1.forward (ia3_adapter_fn notebook_flags 0%Z toy_layer23 2 3) x
      = (scaled <- torch_mul x (ones_row 2) ;;
         Linear_forward toy_layer23 scaled)) /\
  (18 * (nelement (shape (IA3Adapter1.ia3_lw
                            (ia3_adapter_fn notebook_flags 0%Z toy_layer23
                                            (2 ^ 11) 256)))
         + nelement (shape (IA3Adapter1.ia3_lw
                              (ia3_adapter_fn notebook_flags 0%Z toy_layer23
                                              (2 ^ 11) 256)))
         + nelement (shape (IA3Adapter1.ia3_lw
                              (ia3_adapter_fn notebook_flags 0%Z toy_layer23
                                              (2 ^ 14) (2 ^ 11)))))
   = 368640)%Z.
Proof.
  apply (ia3_adapter_fn_feedforward notebook_flags 0%Z toy_layer23 2 3).
  discriminate.
Defined.

(* ------------------------------------------------------------------ *)
(** ** A selected module with children *)
(* ------------------------------------------------------------------ *)

(** In the enumeration, a module with children is followed at once by its
    first child. *)
Lemma named_modules_first_child (atoms : list string) :
  forall (m x c : Module) (n : string) (cs : list (string * Module))
         (prefix : string),
    get_submodule_atoms m atoms = Ok x ->
    _modules x = (n, c) :: cs ->
    exists pre post,
      named_modules prefix m =
      pre ++ (path_of prefix atoms, x)
          :: (join_dot (path_of prefix atoms) n, c) :: post.
Proof.
  induction atoms as [|a atoms IH]; intros m x c n cs prefix Hget Hch.
  - injection Hget as <-. exists [].
    destruct m as [i e q ps bs ms]. cbn [_modules] in Hch. subst ms.
    cbn [named_modules _modules flat_map fst snd path_of fold_left app].
    destruct c as [i' e' q' ps' bs' ms'].
    cbn [named_modules app]. eexists. reflexivity.
  - apply get_submodule_atoms_step_inv in Hget as (c0 & Hg & Hc0).
    apply getattr_module_inv in Hg as (_ & _ & Hm).
    apply dict_get_In, in_split in Hm as (l1 & l2 & Hms).
    destruct (IH c0 x c n cs (join_dot prefix a) Hc0 Hch)
      as (pre & post & Hnm).
    destruct m as [i e q ps bs ms]. cbn [_modules] in Hms. subst ms.
    cbn [named_modules _modules]. rewrite flat_map_app.
    cbn [flat_map fst snd]. rewrite Hnm.
    change (path_of prefix (a :: atoms))
      with (path_of (join_dot prefix a) atoms).
    exists ((prefix, mkModule i e q ps bs (l1 ++ (a, c0) :: l2))
              :: flat_map (fun nc => named_modules (join_dot prefix (fst nc))
                                                   (snd nc)) l1 ++ pre).
    eexists. cbn [app]. f_equal. rewrite <- !app_assoc. f_equal.
    cbn [app]. reflexivity.
Qed.

Lemma get_submodule_no_child (y : Module) (n : string) :
  dict_get n (_modules y) = None ->
  get_submodule_atoms y [n] = Raise (AttributeError n).
Proof.
  intros H. rewrite get_submodule_atoms_step. unfold getattr. rewrite H.
  destruct (dict_get n (_parameters y)); [reflexivity|].
  now destruct (dict_get n (_buffers y)).
Qed.

(** X26.  What happens when a key selects a module that has children: let
    the first path that [match_submodules] lists lead to a module with a
    first child named [n], and let the adapter built for that module have
    no submodule of that name (an adapter has one, [existing_layer]).
    Then [inject_adapter] (IA3 notebook) replaces that module, then
    raises the [AttributeError] of [get_submodule] on the path of the
    child, and the replacement it has made stays in the model. *)
Theorem inject_adapter_selected_parent
        (model x c y : Module) (key r n : string) (rest keys : list string)
        (cs : list (string * Module))
        (adapter_fn : Module -> result Module) :
  wf_module model = true ->
  key <> "" ->
  match_submodules model key = r :: rest ->
  get_submodule model r = Ok x ->
  _modules x = (n, c) :: cs ->
  adapter_fn x = Ok y ->
  dict_get n (_modules y) = None ->
  exists model1,
    replace_submodule model r y = Ok model1 /\
    get_submodule model1 r = Ok y /\
    inject_adapter model (key :: keys) adapter_fn
    = (model1, Raise (AttributeError n)).
Proof.
  intros Hwf Hkey Hmatch Hget Hch Hy Hno.
  assert (Hin : In r (match_submodules model key))
    by (rewrite Hmatch; now left).
  apply In_match_submodules in Hin as [Hc [z Hz]].
  pose proof (contains_nonempty key r Hkey Hc) as Hr.
  destruct (named_modules_atoms_of model r z Hwf Hz)
    as (atoms & Hpath & Hvalid & Hatoms & Hsplit).
  specialize (Hsplit Hr).
  rewrite (named_modules_get model r z Hwf Hz) in Hget. injection Hget as ->.
  assert (Hx : wf_module x = true).
  { apply get_named_atoms in Hatoms.
    now apply (named_atoms_get model Hwf) in Hatoms. }
  destruct (wf_child x c n Hx) as (Hn & Hattr & _);
    [rewrite Hch; now left|].
  (* the replacement goes through *)
  assert (Hne : atoms <> []) by (rewrite <- Hsplit; apply split_dot_not_nil).
  destruct (exists_last Hne) as (init & a & Hinit).
  assert (Hrep : exists model1, replace_atoms model atoms y = Ok model1).
  { rewrite Hinit in Hatoms |- *.
    rewrite get_submodule_atoms_app in Hatoms.
    destruct (get_submodule_atoms model init) as [parent|e] eqn:Hp;
      [|discriminate].
    cbn [bind] in Hatoms.
    apply get_submodule_atoms_step_inv in Hatoms as (x0 & Hg0 & _).
    apply getattr_module_inv in Hg0 as (Hpar & _).
    exact (replace_atoms_ok init a model parent y Hp Hpar). }
  destruct Hrep as [model1 Hrep].
  pose proof (replace_atoms_get atoms Hne model model1 y Hrep) as Hget1.
  exists model1.
  assert (Hrep' : replace_submodule model r y = Ok model1)
    by (unfold replace_submodule; now rewrite Hsplit).
  split; [exact Hrep'|]. split.
  { rewrite get_submodule_nonempty by exact Hr. now rewrite Hsplit. }
  (* the list of matches goes on with the path of the child *)
  destruct (named_modules_first_child atoms model x c n cs "" Hatoms Hch)
    as (pre & post & Hnm).
  rewrite <- Hpath in Hnm.
  assert (Hc' : contains key (join_dot r n) = true)
    by now apply contains_join_dot.
  assert (Hrest : exists rest', rest = join_dot r n :: rest').
  { unfold match_submodules in Hmatch. rewrite Hnm in Hmatch.
    rewrite filter_app in Hmatch. cbn [filter fst] in Hmatch.
    rewrite Hc, Hc' in Hmatch. rewrite map_app in Hmatch.
    cbn [map fst] in Hmatch.
    destruct (map fst (filter (fun nm => contains key (fst nm)) pre))
      as [|q l] eqn:Epre.
    - cbn [app] in Hmatch. injection Hmatch as <-. now eexists.
    - exfalso. cbn [app] in Hmatch. injection Hmatch as -> _.
      pose proof (named_modules_NoDup model Hwf) as Hnd.
      rewrite Hnm, map_app in Hnd. cbn [map fst] in Hnd.
      apply NoDup_remove_2 in Hnd. apply Hnd. apply in_or_app. left.
      assert (Hq : In r (map fst (filter (fun nm => contains key (fst nm)) pre)))
        by (rewrite Epre; now left).
      apply in_map_iff in Hq as (nm & Hfst & Hf). apply filter_In in Hf as [Hf _].
      apply in_map_iff. now exists nm. }
  destruct Hrest as [rest' ->].
  (* the path of the child leads nowhere in the new model *)
  assert (Hvalid' : forallb valid_name (atoms ++ [n]) = true).
  { rewrite forallb_app, Hvalid. cbn. now rewrite Hn. }
  assert (Hchild_path : join_dot r n = path_of "" (atoms ++ [n])).
  { rewrite path_of_app, <- Hpath. reflexivity. }
  assert (Hraise : get_submodule model1 (join_dot r n)
                   = Raise (AttributeError n)).
  { rewrite Hchild_path.
    destruct atoms as [|a0 atoms0]; [contradiction|].
    rewrite get_submodule_path_of by exact Hvalid'.
    rewrite get_submodule_atoms_app, Hget1. cbn [bind].
    now apply get_submodule_no_child. }
  assert (Hdiff : String.eqb (join_dot r n) r = false).
  { apply String.eqb_neq. intros E.
    pose proof (named_modules_NoDup model Hwf) as Hnd.
    rewrite Hnm, map_app in Hnd. cbn [map fst] in Hnd.
    apply NoDup_remove_2 in Hnd. apply Hnd. apply in_or_app. right.
    now left. }
  unfold inject_adapter. cbn [inject_keys st_model]. rewrite Hmatch.
  cbn [inject_layers st_model st_processed existsb].
  rewrite (named_modules_get model r x Hwf Hz), Hy.
  unfold Module_to. rewrite Hrep'.
  cbn [inject_layers st_model st_processed existsb]. rewrite Hdiff.
  cbn [orb]. now rewrite Hraise.
Qed.

Lemma inject_adapter_selected_parent_witness :
  exists model1,
    replace_submodule toy_model "layers"
      (mkModule 101 false None [("ia3_lw", mkTorchParameter 101 true)] []
                [("existing_layer", toy_block)]) = Ok model1 /\
    get_submodule model1 "layers"
      = Ok (mkModule 101 false None [("ia3_lw", mkTorchParameter 101 true)] []
                     [("existing_layer", toy_block)]) /\
    inject_adapter toy_model ("layers" :: []) toy_adapter
    = (model1, Raise (AttributeError "q_proj")).
Proof.
  apply (inject_adapter_selected_parent toy_model toy_block (toy_linear 2)
           _ "layers" "layers" "q_proj"
           ["layers.q_proj"; "layers.k_proj"] []
           [("k_proj", toy_linear 3)] toy_adapter); try reflexivity.
  discriminate.
Defined.

(* ------------------------------------------------------------------ *)
(** ** The size of the windows of the perplexity *)
(* ------------------------------------------------------------------ *)

Lemma length_py_slice {A : Type} (l : list A) (i j : Z) :
  (0 <= i)%Z -> (0 <= j)%Z ->
  (Z.of_nat (List.length (py_slice l i j)) <= Z.max (j - i) 0)%Z.
Proof.
  intros Hi Hj. unfold py_slice, slice_bound. cbv zeta.
  rewrite length_firstn, length_skipn.
  destruct (Z.ltb_spec i 0) as [H|_]; [lia|].
  destruct (Z.ltb_spec j 0); lia.
Qed.

Lemma length_mask_row (trg_len : Z) (row : list Z) :
  List.length (mask_row trg_len row) = List.length row.
Proof.
  unfold mask_row, slice_bound. cbv zeta.
  rewrite length_app, repeat_length, length_skipn.
  destruct (Z.ltb_spec (- trg_len) 0); lia.
Qed.

Lemma windows_bounds (begins : list Z) (n : Z) :
  (0 <= n)%Z ->
  Forall (fun b => 0 <= b)%Z begins ->
  forall p,
    Forall (fun w : Z * Z * Z =>
              let '(b, e, _) := w in
              (0 <= b)%Z /\ (0 <= e)%Z /\ (e - b <= max_length)%Z)
           (windows begins n p).
Proof.
  intros Hn.
  induction 1 as [|b rest Hb _ IH]; intros p; [constructor|].
  cbn [windows].
  constructor; [split; [exact Hb | unfold max_length; lia]|].
  destruct (Z.eqb (Z.min (b + max_length) n) n); [constructor | apply IH].
Qed.

Lemma py_range_nonneg (n stride : Z) (begins : list Z) :
  (0 <= n)%Z ->
  py_range 0 n stride = Ok begins -> Forall (fun b => 0 <= b)%Z begins.
Proof.
  intros Hn. unfold py_range. destruct (Z.eqb stride 0); [discriminate|].
  destruct (Z.ltb_spec 0 stride) as [Hs|Hs].
  - intros [= <-]. apply Forall_forall. intros b Hb.
    apply in_map_iff in Hb as (k & <- & _). nia.
  - destruct (Z.ltb_spec n 0) as [Hneg|_]; [lia|].
    intros [= <-]. constructor.
Qed.

(** X27.  Whatever the stride and the sequence, no call of the model that
    [calc_perplexity] makes gets more than [max_length] (1024) tokens per
    row, and the labels it passes have the shape of the inputs. *)
Theorem calc_perplexity_window_size
        (encodings : TokenIds) (stride : Z)
        (calls : list (list (list Z) * list (list Z))) :
  calc_perplexity (fun input_ids target_ids => (input_ids, target_ids))
                  (fun nlls => nlls) encodings stride = Ok calls ->
  Forall (fun call =>
            Forall (fun row => (Z.of_nat (List.length row) <= max_length)%Z)
                   (fst call) /\
            map (@List.length Z) (snd call) = map (@List.length Z) (fst call))
         calls.
Proof.
  unfold calc_perplexity.
  destruct (py_range 0 (Z.of_nat (ids_seq_len encodings)) stride)
    as [begins|e] eqn:Hrange; [|discriminate].
  cbn [bind]. rewrite perplexity_loop_windows. cbn [app].
  pose proof (windows_bounds begins (Z.of_nat (ids_seq_len encodings))
                (Nat2Z.is_nonneg _)
                (py_range_nonneg _ _ _ (Nat2Z.is_nonneg _) Hrange) 0) as Hw.
  destruct (map _ _) as [|c l] eqn:E; [discriminate|].
  intros [= <-]. rewrite <- E.
  apply Forall_forall. intros call Hin.
  apply in_map_iff in Hin as ([[b e0] p] & <- & Hin).
  rewrite Forall_forall in Hw. specialize (Hw _ Hin). cbn beta iota in Hw.
  destruct Hw as (Hb & He0 & He). cbn [window_call fst snd]. split.
  - apply Forall_forall. intros row Hrow.
    apply in_map_iff in Hrow as (row0 & <- & _).
    pose proof (length_py_slice row0 b e0 Hb He0).
    unfold max_length in *. lia.
  - rewrite !map_map. apply map_ext. intros row. apply length_mask_row.
Qed.

Lemma calc_perplexity_window_size_witness :
  Forall (fun call : list (list Z) * list (list Z) =>
            Forall (fun row => (Z.of_nat (List.length row) <= max_length)%Z)
                   (fst call) /\
            map (@List.length Z) (snd call) = map (@List.length Z) (fst call))
         [([[7; 8; 9]%Z], [[7; 8; 9]%Z])].
Proof.
  apply (calc_perplexity_window_size (mkTokenIds 3 [[7; 8; 9]%Z]) 2).
  reflexivity.
Defined.

(* ------------------------------------------------------------------ *)
(** ** Setting the quantization configuration again *)
(* ------------------------------------------------------------------ *)

Lemma for_each_module_assign_twice (m : Module) :
  for_each_module assign_qconfig (for_each_module assign_qconfig m)
  = for_each_module assign_qconfig m.
Proof.
  induction m as [i e q ps bs ms IH] using Module_tree_ind.
  rewrite (for_each_module_unfold assign_qconfig (mkModule i e q ps bs ms)).
  rewrite for_each_module_unfold.
  cbn [_modules mid isinstance_Embedding qconfig _parameters _buffers].
  unfold assign_qconfig at 1 2 3 4 5.
  cbn [_modules mid isinstance_Embedding qconfig _parameters _buffers].
  assert (E : forall (b : bool) (A : Type) (f : Module -> A) (x y : Module),
             f (if b then x else y) = if b then f x else f y)
    by (now intros []).
  rewrite !E. unfold set_qconfig.
  cbn [_modules mid isinstance_Embedding qconfig _parameters _buffers].
  assert (Hch : map (fun nc => (fst nc, for_each_module assign_qconfig (snd nc)))
                    (map (fun nc => (fst nc,
                                     for_each_module assign_qconfig (snd nc))) ms)
                = map (fun nc => (fst nc, for_each_module assign_qconfig (snd nc)))
                      ms).
  { rewrite map_map. cbn [fst snd].
    induction IH as [|[n c] l Hc _ IHl]; [reflexivity|].
    cbn [map fst snd] in *. now rewrite Hc, IHl. }
  destruct e; cbn; now rewrite Hch.
Qed.

(** X28.  [set_qconfig_for_model] can be called again without harm: a
    second call leaves the model as the first one made it; and the call
    touches no parameter: [named_parameters] lists afterwards what it
    listed before. *)
Theorem set_qconfig_for_model_again (model : Module) :
  set_qconfig_for_model (set_qconfig_for_model model)
  = set_qconfig_for_model model /\
  named_parameters (set_qconfig_for_model model) = named_parameters model.
Proof.
  split; [apply for_each_module_assign_twice|].
  unfold named_parameters, named_members, set_qconfig_for_model. f_equal.
  rewrite named_modules_for_each.
  induction (named_modules "" model) as [|[p m] l IH]; [reflexivity|].
  cbn [map flat_map fst snd]. rewrite IH. f_equal.
  rewrite for_each_module_unfold. cbn [_parameters].
  unfold assign_qconfig. now destruct (isinstance_Embedding m).
Qed.

(* ------------------------------------------------------------------ *)
(** ** A selected module without a weight *)
(* ------------------------------------------------------------------ *)

(** X29.  Where the two copies of [inject_adapter] part: when the first
    module a key selects has no attribute [weight] (a block of layers,
    say), the function of the LoRA notebook raises the [AttributeError] of
    [current_module.weight] after the adapter was built and before
    anything is replaced, so that the model is left as it was. *)
Theorem lora_inject_adapter_without_weight
        (model x y : Module) (key r : string) (rest keys : list string)
        (adapter_fn : Module -> result Module) (e : Exn) :
  match_submodules model key = r :: rest ->
  get_submodule model r = Ok x ->
  adapter_fn x = Ok y ->
  getattr x "weight" = Raise e ->
  lora_inject_adapter model (key :: keys) adapter_fn
  = (model, Raise (AttributeError "weight")).
Proof.
  intros Hmatch Hget Hy Hw.
  destruct (getattr_missing_inv _ _ _ Hw) as (-> & _).
  cbn [lora_inject_adapter]. rewrite Hmatch. cbn [lora_inject_layers].
  rewrite Hget, Hy. unfold weight_device. now rewrite Hw.
Qed.

Lemma lora_inject_adapter_without_weight_witness :
  lora_inject_adapter toy_model ("layers" :: []) toy_adapter
  = (toy_model, Raise (AttributeError "weight")).
Proof.
  apply (lora_inject_adapter_without_weight toy_model toy_block
           (mkModule 101 false None [("ia3_lw", mkTorchParameter 101 true)] []
                     [("existing_layer", toy_block)])
           "layers" "layers" ["layers.q_proj"; "layers.k_proj"] []
           toy_adapter (AttributeError "weight")); reflexivity.
Defined.

(* ------------------------------------------------------------------ *)
(** ** Injecting into a model that holds adapters already *)
(* ------------------------------------------------------------------ *)

(** X30.  A second injection wraps twice, as the IA3 notebook shows when
    it injects [IA3Adapter2] into the model that holds [IA3Adapter1]
    already.  Let a key select an adapter at path [r] and, under it, the
    layer it wraps at [r.existing_layer], and let the adapter function put
    what it is given under the name [existing_layer].  Then
    [inject_adapter] returns; it first replaces the old adapter by a new
    one, and then, at [r.existing_layer], where the old adapter now is,
    replaces it by a new one again: the old adapter ends up under two new
    ones, at [r.existing_layer.existing_layer]. *)
Theorem inject_adapter_wraps_twice
        (model a1 y1 : Module) (key r : string)
        (adapter_fn : Module -> result Module) :
  wf_module model = true ->
  key <> "" ->
  match_submodules model key = [r; join_dot r "existing_layer"] ->
  get_submodule model r = Ok a1 ->
  adapter_fn a1 = Ok y1 ->
  getattr y1 "existing_layer" = Ok (ObjModule a1) ->
  exists model1 model2,
    replace_submodule model r y1 = Ok model1 /\
    replace_submodule model1 (join_dot r "existing_layer") y1 = Ok model2 /\
    inject_adapter model [key] adapter_fn = (model2, Ok tt) /\
    get_submodule model2 (join_dot r "existing_layer") = Ok y1 /\
    get_submodule model2
      (join_dot (join_dot r "existing_layer") "existing_layer") = Ok a1.
Proof.
  intros Hwf Hkey Hmatch Hget Hy He.
  assert (Hin : In r (match_submodules model key))
    by (rewrite Hmatch; now left).
  apply In_match_submodules in Hin as [Hc [z Hz]].
  pose proof (contains_nonempty key r Hkey Hc) as Hr.
  destruct (named_modules_atoms_of model r z Hwf Hz)
    as (atoms & Hpath & Hvalid & Hatoms & Hsplit).
  specialize (Hsplit Hr).
  rewrite (named_modules_get model r z Hwf Hz) in Hget. injection Hget as ->.
  assert (Hne : atoms <> []) by (rewrite <- Hsplit; apply split_dot_not_nil).
  (* the first replacement *)
  destruct (exists_last Hne) as (init & a & Hinit).
  assert (Hrep : exists model1, replace_atoms model atoms y1 = Ok model1).
  { rewrite Hinit in Hatoms |- *.
    rewrite get_submodule_atoms_app in Hatoms.
    destruct (get_submodule_atoms model init) as [parent|e] eqn:Hp;
      [|discriminate].
    cbn [bind] in Hatoms.
    apply get_submodule_atoms_step_inv in Hatoms as (x0 & Hg0 & _).
    apply getattr_module_inv in Hg0 as (Hpar & _).
    exact (replace_atoms_ok init a model parent y1 Hp Hpar). }
  destruct Hrep as [model1 Hrep].
  pose proof (replace_atoms_get atoms Hne model model1 y1 Hrep) as Hget1.
  assert (Hrep' : replace_submodule model r y1 = Ok model1)
    by (unfold replace_submodule; now rewrite Hsplit).
  (* the path of the wrapped layer *)
  assert (Hvalid' : forallb valid_name (atoms ++ ["existing_layer"]) = true)
    by (rewrite forallb_app, Hvalid; reflexivity).
  assert (Hpath' : join_dot r "existing_layer"
                   = path_of "" (atoms ++ ["existing_layer"]))
    by (rewrite path_of_app, <- Hpath; reflexivity).
  assert (Hsplit' : join_dot r "existing_layer" <> "" /\
                    split_dot (join_dot r "existing_layer")
                    = atoms ++ ["existing_layer"]).
  { rewrite Hpath'. destruct atoms as [|a0 atoms0]; [contradiction|].
    now apply split_path_of_root. }
  destruct Hsplit' as [Hne' Hsplit'].
  assert (Hget1' : get_submodule model1 (join_dot r "existing_layer") = Ok a1).
  { rewrite get_submodule_nonempty by exact Hne'.
    rewrite Hsplit', get_submodule_atoms_app, Hget1. cbn [bind].
    now rewrite get_submodule_atoms_step, He. }
  (* the second replacement *)
  destruct (getattr_module_inv _ _ _ He) as (Hpar1 & _).
  destruct (replace_atoms_ok atoms "existing_layer" model1 y1 y1 Hget1 Hpar1)
    as [model2 Hrep2].
  assert (Hrep2' : replace_submodule model1 (join_dot r "existing_layer") y1
                   = Ok model2)
    by (unfold replace_submodule; now rewrite Hsplit').
  assert (Hget2 : get_submodule_atoms model2 (atoms ++ ["existing_layer"])
                  = Ok y1).
  { apply (replace_atoms_get (atoms ++ ["existing_layer"])) with model1;
      [now destruct atoms | exact Hrep2]. }
  exists model1, model2. split; [exact Hrep'|]. split; [exact Hrep2'|].
  split; [|split].
  - assert (Hdiff : String.eqb (join_dot r "existing_layer") r = false).
    { apply String.eqb_neq. intros E.
      pose proof (match_submodules_NoDup model key Hwf) as Hnd.
      rewrite Hmatch, E in Hnd. inversion Hnd as [|? ? Hnot _].
      apply Hnot. now left. }
    unfold inject_adapter. cbn [inject_keys st_model]. rewrite Hmatch.
    cbn [inject_layers st_model st_processed existsb].
    rewrite (named_modules_get model r a1 Hwf Hz), Hy.
    unfold Module_to. rewrite Hrep'.
    cbn [inject_layers st_model st_processed existsb]. rewrite Hdiff.
    cbn [orb]. rewrite Hget1', Hy, Hrep2'. reflexivity.
  - rewrite get_submodule_nonempty by exact Hne'. now rewrite Hsplit'.
  - assert (Hvalid2 : forallb valid_name
                        (atoms ++ ["existing_layer"; "existing_layer"]) = true)
      by (rewrite forallb_app, Hvalid; reflexivity).
    assert (Hpath2 : join_dot (join_dot r "existing_layer") "existing_layer"
                     = path_of "" (atoms ++ ["existing_layer"; "existing_layer"])).
    { rewrite path_of_app, <- Hpath. reflexivity. }
    rewrite Hpath2, get_submodule_path_of by exact Hvalid2.
    change (atoms ++ ["existing_layer"; "existing_layer"])
      with (atoms ++ ["existing_layer"] ++ ["existing_layer"]).
    rewrite app_assoc, get_submodule_atoms_app, Hget2. cbn [bind].
    now rewrite get_submodule_atoms_step, He.
Qed.

Lemma inject_adapter_wraps_twice_witness :
  exists model1 model2,
    replace_submodule
      (mkModule 0 false None [] []
         [("k_proj", mkModule 102 false None
                       [("ia3_lw", mkTorchParameter 102 true)] []
                       [("existing_layer", toy_linear 2)])])
      "k_proj"
      (mkModule 202 false None [("ia3_lw", mkTorchParameter 202 true)] []
         [("existing_layer",
           mkModule 102 false None [("ia3_lw", mkTorchParameter 102 true)] []
                    [("existing_layer", toy_linear 2)])]) = Ok model1 /\
    replace_submodule model1 (join_dot "k_proj" "existing_layer")
      (mkModule 202 false None [("ia3_lw", mkTorchParameter 202 true)] []
         [("existing_layer",
           mkModule 102 false None [("ia3_lw", mkTorchParameter 102 true)] []
                    [("existing_layer", toy_linear 2)])]) = Ok model2 /\
    inject_adapter
      (mkModule 0 false None [] []
         [("k_proj", mkModule 102 false None
                       [("ia3_lw", mkTorchParameter 102 true)] []
                       [("existing_layer", toy_linear 2)])])
      ["k_proj"] toy_adapter = (model2, Ok tt) /\
    get_submodule model2 (join_dot "k_proj" "existing_layer")
    = Ok (mkModule 202 false None [("ia3_lw", mkTorchParameter 202 true)] []
            [("existing_layer",
              mkModule 102 false None [("ia3_lw", mkTorchParameter 102 true)] []
                       [("existing_layer", toy_linear 2)])]) /\
    get_submodule model2
      (join_dot (join_dot "k_proj" "existing_layer") "existing_layer")
    = Ok (mkModule 102 false None [("ia3_lw", mkTorchParameter 102 true)] []
                   [("existing_layer", toy_linear 2)]).
Proof.
  apply (inject_adapter_wraps_twice _ _ _ "k_proj" "k_proj" toy_adapter);
    try reflexivity.
  discriminate.
Defined.

(* ------------------------------------------------------------------ *)
(** ** Dtypes and devices in the forward passes *)
(* ------------------------------------------------------------------ *)

Lemma dtype_eqb_refl (d : torch_dtype) : dtype_eqb d d = true.
Proof. now destruct d. Qed.

Lemma device_eqb_refl (dev : torch_device) : device_eqb dev dev = true.
Proof. now destruct dev. Qed.

Lemma promote_types_same (d : torch_dtype) : promote_types d d = d.
Proof. now destruct d. Qed.

Section TypedFacts.
Context {R : Type} {S : Scalar R}.

(** Two tensors of one dtype give a result of that dtype. *)
Lemma result_type_same (d : torch_dtype) (dev dev' : torch_device)
      (a b : Tensor R) :
  result_type (mkTyped d dev a) (mkTyped d dev' b) = d.
Proof.
  unfold result_type. cbn [dtype].
  destruct (Bool.eqb _ _); [apply promote_types_same|].
  now destruct (zero_dim _).
Qed.

Lemma result_device_same (d d' : torch_dtype) (dev : torch_device)
      (a b : Tensor R) :
  result_device (mkTyped d dev a) (mkTyped d' dev b) = Some dev.
Proof. unfold result_device. cbn [device]. now rewrite device_eqb_refl. Qed.

(** On tensors of one dtype and one device the typed operations are the
    operations on the entries. *)
Lemma typed_mul_same (d : torch_dtype) (dev : torch_device) (a b v : Tensor R) :
  torch_mul a b = Ok v ->
  typed_mul (mkTyped d dev a) (mkTyped d dev b) = Ok (mkTyped d dev v).
Proof.
  intros H. unfold typed_mul. rewrite result_device_same. cbn [values].
  now rewrite H, result_type_same.
Qed.


Lemma typed_matmul_same (d : torch_dtype) (dev : torch_device)
      (a b v : Tensor R) :
  matmul a b = Ok v ->
  typed_matmul (mkTyped d dev a) (mkTyped d dev b) = Ok (mkTyped d dev v).
Proof.
  intros H. unfold typed_matmul. cbn [dtype device values].
  now rewrite dtype_eqb_refl, device_eqb_refl, H.
Qed.

Lemma typed_matmul_dtypes (a b : TypedTensor R) :
  dtype_eqb (dtype a) (dtype b) = false ->
  typed_matmul a b = Raise (RuntimeError "matmul").
Proof. intros H. unfold typed_matmul. now rewrite H. Qed.

Lemma typed_linear_same (d : torch_dtype) (dev : torch_device)
      (layer : Linear R) (x v : Tensor R) :
  Linear_forward layer x = Ok v ->
  TypedLinear_forward (nn_Linear d dev layer) (mkTyped d dev x)
  = Ok (mkTyped d dev v).
Proof.
  intros H. unfold TypedLinear_forward, typed_F_linear, nn_Linear.
  cbn [typed_weight typed_bias dtype device values].
  rewrite dtype_eqb_refl, device_eqb_refl.
  unfold Linear_forward in H.
  destruct (bias layer) as [b|]; cbn [option_map dtype device values andb].
  - rewrite dtype_eqb_refl, device_eqb_refl. cbn [andb]. now rewrite H.
  - now rewrite H.
Qed.

Lemma typed_F_linear_same (d : torch_dtype) (dev : torch_device)
      (x w v : Tensor R) (b : option (Tensor R)) :
  F_linear x w b = Ok v ->
  typed_F_linear (mkTyped d dev x) (mkTyped d dev w)
                 (option_map (mkTyped d dev) b)
  = Ok (mkTyped d dev v).
Proof.
  intros H. unfold typed_F_linear. cbn [dtype device values].
  rewrite dtype_eqb_refl, device_eqb_refl.
  destruct b as [b|]; cbn [option_map dtype device values andb].
  - rewrite dtype_eqb_refl, device_eqb_refl. cbn [andb]. now rewrite H.
  - now rewrite H.
Qed.

(** A layer asked for a tensor of another dtype raises. *)
Lemma typed_linear_dtypes (layer : TypedLinear R) (x : TypedTensor R) :
  dtype_eqb (dtype x) (dtype (typed_weight layer)) = false ->
  TypedLinear_forward layer x = Raise (RuntimeError "linear").
Proof.
  intros H. unfold TypedLinear_forward, typed_F_linear. now rewrite H.
Qed.

(** Multiplying a batched [float32] or [float64] tensor on the GPU by the
    all-ones [float32] row gives it back. *)
Lemma typed_mul_ones (a : TypedTensor R) (n : nat) :
  (forall v : R, mul v one = v) ->
  batched (values a) n ->
  promote_types (dtype a) torch_float32 = dtype a -> device a = cuda ->
  typed_mul a (mkTyped torch_float32 cuda (ones_row n)) = Ok a.
Proof.
  intros Hone Hb Hd Hdev. destruct a as [d dev v]. cbn [dtype device values] in *.
  subst dev. unfold typed_mul. rewrite result_device_same. cbn [values].
  rewrite (torch_mul_ones Hone v n Hb). f_equal. f_equal.
  unfold result_type, zero_dim. cbn [dtype values].
  destruct Hb as (_ & Hlen & _).
  destruct (shape v) as [|? ?]; [simpl in Hlen; lia|].
  unfold ones_row. cbn [shape Bool.eqb]. exact Hd.
Qed.
End TypedFacts.

(* ------------------------------------------------------------------ *)
(** ** A fresh IA3 adapter *)
(* ------------------------------------------------------------------ *)

(** C9, as stated, fails in three ways, shown here on a linear layer with
    one input and one output feature.  On a 1-D input the scaling vector,
    of shape [(1, n)], turns the shape [(n)] into [(1, n)], in both
    modes.  On a [bfloat16] input in the feed-forward mode the product with
    the [float32] scaling vector is [float32], so that a [float32] layer
    returns on it while it raises on the input itself.  Around a
    [bfloat16] layer, in the other mode, the output comes back as
    [float32]. *)
Lemma IA3Adapter1_fresh_reshapes_vector :
  (forall is_feedforward,
     Typed.IA3Adapter1.forward
       (Typed.IA3Adapter1.__init__
          (TypedLinear_forward (nn_Linear torch_float32 cuda toy_layer))
          1 1 0%Z is_feedforward)
       (mkTyped torch_float32 cuda toy_vector)
     <> TypedLinear_forward (nn_Linear torch_float32 cuda toy_layer)
                            (mkTyped torch_float32 cuda toy_vector)) /\
  (Typed.IA3Adapter1.forward
     (Typed.IA3Adapter1.__init__
        (TypedLinear_forward (nn_Linear torch_float32 cuda toy_layer))
        1 1 0%Z true)
     (mkTyped torch_bfloat16 cuda (mkTensor [1; 1] [[5%Z]]))
   = Ok (mkTyped torch_float32 cuda (mkTensor [1; 1] [[5%Z]])) /\
   TypedLinear_forward (nn_Linear torch_float32 cuda toy_layer)
                       (mkTyped torch_bfloat16 cuda (mkTensor [1; 1] [[5%Z]]))
   = Raise (RuntimeError "linear")) /\
  (Typed.IA3Adapter1.forward
     (Typed.IA3Adapter1.__init__
        (TypedLinear_forward (nn_Linear torch_bfloat16 cuda toy_layer))
        1 1 0%Z false)
     (mkTyped torch_bfloat16 cuda (mkTensor [1; 1] [[5%Z]]))
   = Ok (mkTyped torch_float32 cuda (mkTensor [1; 1] [[5%Z]])) /\
   TypedLinear_forward (nn_Linear torch_bfloat16 cuda toy_layer)
                       (mkTyped torch_bfloat16 cuda (mkTensor [1; 1] [[5%Z]]))
   = Ok (mkTyped torch_bfloat16 cuda (mkTensor [1; 1] [[5%Z]]))).
Proof.
  split; [|repeat split]; try reflexivity.
  intros [|]; vm_compute; discriminate.
Qed.

(** C9, amended.  Right after [__init__] ([ia3_lw] all ones, [float32], on
    the GPU), [forward(x)] equals [existing_layer(x)] (same value, or same
    exception) in the feed-forward mode for every input that lives on the
    GPU, has dtype [float32] or [float64] (the dtypes that the promotion
    with [float32] leaves as they are), and has at least two dimensions,
    the last of size [in_features]; and in the other mode whenever the
    wrapped layer raises or returns such a tensor with last dimension
    [out_features].  All that is used of the numbers is that a product
    with one gives the number back. *)
Theorem IA3Adapter1_fresh_identity
        {R : Type} {S : Scalar R}
        (existing_layer : TypedTensor R -> result (TypedTensor R))
        (in_features out_features : nat) (ia3_lr : R)
        (is_feedforward : bool) (x : TypedTensor R) :
  (forall v : R, mul v one = v) ->
  (if is_feedforward
   then batched (values x) in_features /\
        promote_types (dtype x) torch_float32 = dtype x /\ device x = cuda
   else forall y, existing_layer x = Ok y ->
                  batched (values y) out_features /\
                  promote_types (dtype y) torch_float32 = dtype y /\
                  device y = cuda) ->
  Typed.IA3Adapter1.forward
    (Typed.IA3Adapter1.__init__ existing_layer in_features out_features ia3_lr
                                is_feedforward) x
  = existing_layer x.
Proof.
  intros Hone Hshape.
  unfold Typed.IA3Adapter1.forward, Typed.IA3Adapter1.__init__.
  cbn [Typed.IA3Adapter1.is_feedforward Typed.IA3Adapter1.existing_layer
       Typed.IA3Adapter1.ia3_lw].
  destruct is_feedforward; cbn [negb].
  - destruct Hshape as (Hb & Hd & Hdev).
    now rewrite (typed_mul_ones x in_features Hone Hb Hd Hdev).
  - destruct (existing_layer x) as [y|e] eqn:E; [|reflexivity].
    cbn [bind]. destruct (Hshape y eq_refl) as (Hb & Hd & Hdev).
    exact (typed_mul_ones y out_features Hone Hb Hd Hdev).
Qed.

Lemma IA3Adapter1_fresh_identity_witness :
  Typed.IA3Adapter1.forward
    (Typed.IA3Adapter1.__init__
       (TypedLinear_forward (nn_Linear torch_float32 cuda toy_layer23))
       2 3 0%Z false)
    (mkTyped torch_float32 cuda toy_batch)
  = TypedLinear_forward (nn_Linear torch_float32 cuda toy_layer23)
                        (mkTyped torch_float32 cuda toy_batch).
Proof.
  apply (IA3Adapter1_fresh_identity
           (TypedLinear_forward (nn_Linear torch_float32 cuda toy_layer23))
           2 3 0%Z false).
  - intros v. apply Z.mul_1_r.
  - intros y Hy. vm_compute in Hy. injection Hy as <-.
    unfold batched, well_shaped. simpl. repeat split; try lia.
    repeat constructor.
Defined.

(* ------------------------------------------------------------------ *)
(** ** The two IA3 adapters *)
(* ------------------------------------------------------------------ *)

(** C1, as stated, fails on a 1-D input: [IA3Adapter1] multiplies by a
    scaling vector of shape [(1, n)] and returns a tensor of shape
    [(1, n)], [IA3Adapter2] applies one linear map and returns a tensor of
    shape [(n)].  It also fails around a [float64] layer: [torch.mul]
    promotes the [float32] scaling vector, the matrix product of
    [get_equivalent_weight] raises on the two dtypes. *)
Lemma IA3_adapters_differ_on_vector :
  Typed.IA3Adapter1.forward
    (Typed.IA3Adapter1.mk
       (TypedLinear_forward (nn_Linear torch_float32 cuda toy_layer)) false 1 1
       (mkTyped torch_float32 cuda (scaling_vector [1%Z])) 0%Z)
    (mkTyped torch_float32 cuda toy_vector)
  = Ok (mkTyped torch_float32 cuda (mkTensor [1; 1] [[5%Z]])) /\
  Typed.IA3Adapter2.forward
    (Typed.IA3Adapter2.mk (nn_Linear torch_float32 cuda toy_layer) false 1 1
       (mkTyped torch_float32 cuda (scaling_vector [1%Z])) 0%Z)
    (mkTyped torch_float32 cuda toy_vector)
  = Ok (mkTyped torch_float32 cuda (mkTensor [1] [[5%Z]])) /\
  Typed.IA3Adapter1.forward
    (Typed.IA3Adapter1.mk
       (TypedLinear_forward (nn_Linear torch_float64 cuda toy_layer)) false 1 1
       (mkTyped torch_float32 cuda (scaling_vector [1%Z])) 0%Z)
    (mkTyped torch_float64 cuda (mkTensor [1; 1] [[5%Z]]))
  = Ok (mkTyped torch_float64 cuda (mkTensor [1; 1] [[5%Z]])) /\
  Typed.IA3Adapter2.forward
    (Typed.IA3Adapter2.mk (nn_Linear torch_float64 cuda toy_layer) false 1 1
       (mkTyped torch_float32 cuda (scaling_vector [1%Z])) 0%Z)
    (mkTyped torch_float64 cuda (mkTensor [1; 1] [[5%Z]]))
  = Raise (RuntimeError "matmul").
Proof. repeat split; reflexivity. Qed.

(** C1, amended.  In exact arithmetic (the numbers form a commutative
    semiring, rounding left aside), for every [float32] linear layer on the
    GPU with weight of shape [(out_features, in_features)] and optional
    bias, every value of the [float32] scaling vector on the GPU, and every
    [float32] input on the GPU with at least two dimensions whose last
    dimension is [in_features], both forward passes return, and they return
    the same tensor: scaling the activations (respectively the input) is
    the linear map with the folded weight [diag(ia3_lw) W] (respectively
    [W diag(ia3_lw)]) and the folded bias. *)
Theorem IA3_adapters_agree
        {R : Type} {S : Scalar R} (layer : Linear R)
        (in_features out_features : nat) (l : list R) (lr1 lr2 : R)
        (is_feedforward : bool) (x : TypedTensor R) :
  semi_ring_theory zero one add mul (@eq R) ->
  linear_layer layer in_features out_features ->
  List.length l = (if is_feedforward then in_features else out_features) ->
  batched (values x) in_features ->
  dtype x = torch_float32 -> device x = cuda ->
  exists y,
    Typed.IA3Adapter1.forward
      (Typed.IA3Adapter1.mk
         (TypedLinear_forward (nn_Linear torch_float32 cuda layer))
         is_feedforward in_features out_features
         (mkTyped torch_float32 cuda (scaling_vector l)) lr1) x = Ok y /\
    Typed.IA3Adapter2.forward
      (Typed.IA3Adapter2.mk (nn_Linear torch_float32 cuda layer)
         is_feedforward in_features out_features
         (mkTyped torch_float32 cuda (scaling_vector l)) lr2) x = Ok y.
Proof.
  intros laws Hlayer Hl Hx Hd Hdev.
  destruct x as [d dev xv]. cbn [dtype device values] in *. subst d dev.
  destruct (ia3_entries_agree layer in_features out_features l lr1 lr2
              is_feedforward xv laws Hlayer Hl Hx) as (y & H1 & H2).
  exists (mkTyped torch_float32 cuda y).
  unfold IA3Adapter1.forward in H1. unfold IA3Adapter2.forward in H2.
  unfold IA3Adapter2.get_equivalent_weight, IA3Adapter2.get_equivalent_bias,
    IA3Adapter2.get_weight, IA3Adapter2.get_bias in H2.
  cbn [IA3Adapter1.is_feedforward IA3Adapter1.existing_layer IA3Adapter1.ia3_lw
       IA3Adapter2.is_feedforward IA3Adapter2.existing_layer IA3Adapter2.ia3_lw]
    in H1, H2.
  unfold Typed.IA3Adapter1.forward, Typed.IA3Adapter2.forward,
    Typed.IA3Adapter2.get_equivalent_weight,
    Typed.IA3Adapter2.get_equivalent_bias,
    Typed.IA3Adapter2.get_weight, Typed.IA3Adapter2.get_bias.
  cbn [Typed.IA3Adapter1.is_feedforward Typed.IA3Adapter1.existing_layer
       Typed.IA3Adapter1.ia3_lw Typed.IA3Adapter2.is_feedforward
       Typed.IA3Adapter2.existing_layer Typed.IA3Adapter2.ia3_lw].
  unfold typed_diag_flat, typed_squeeze. cbn [dtype device values].
  split.
  - destruct is_feedforward; cbn [negb] in *.
    + destruct (torch_mul xv (scaling_vector l)) as [r1|e] eqn:E1;
        [|discriminate]. cbn [bind] in H1.
      rewrite (typed_mul_same _ _ _ _ _ E1). cbn [bind].
      now apply typed_linear_same.
    + destruct (Linear_forward layer xv) as [r1|e] eqn:E1; [|discriminate].
      cbn [bind] in H1.
      rewrite (typed_linear_same _ _ _ _ _ E1). cbn [bind].
      now apply typed_mul_same.
  - unfold nn_Linear. cbn [typed_weight typed_bias].
    destruct is_feedforward; cbn [negb] in *.
    + destruct (matmul (weight layer) _) as [w|e] eqn:Ew; [|discriminate].
      cbn [bind] in H2. rewrite (typed_matmul_same _ _ _ _ _ Ew). cbn [bind].
      destruct (bias layer) as [b|]; cbn [option_map bind] in *.
      * exact (typed_F_linear_same _ _ xv w y (Some b) H2).
      * exact (typed_F_linear_same _ _ xv w y None H2).
    + destruct (matmul _ (weight layer)) as [w|e] eqn:Ew; [|discriminate].
      cbn [bind] in H2. rewrite (typed_matmul_same _ _ _ _ _ Ew). cbn [bind].
      destruct (bias layer) as [b|]; cbn [option_map bind] in *.
      * destruct (torch_mul b _) as [b'|e] eqn:Eb; [|discriminate].
        cbn [bind] in H2. rewrite (typed_mul_same _ _ _ _ _ Eb). cbn [bind].
        exact (typed_F_linear_same _ _ xv w y (Some b') H2).
      * exact (typed_F_linear_same _ _ xv w y None H2).
Qed.

Lemma IA3_adapters_agree_witness :
  exists y,
    Typed.IA3Adapter1.forward
      (Typed.IA3Adapter1.mk
         (TypedLinear_forward (nn_Linear torch_float32 cuda toy_layer23))
         false 2 3 (mkTyped torch_float32 cuda (scaling_vector [2; 3; 4]%Z))
         0%Z)
      (mkTyped torch_float32 cuda toy_batch) = Ok y /\
    Typed.IA3Adapter2.forward
      (Typed.IA3Adapter2.mk (nn_Linear torch_float32 cuda toy_layer23)
         false 2 3 (mkTyped torch_float32 cuda (scaling_vector [2; 3; 4]%Z))
         0%Z)
      (mkTyped torch_float32 cuda toy_batch) = Ok y.
Proof.
  apply (IA3_adapters_agree toy_layer23 2 3 [2; 3; 4]%Z 0%Z 0%Z false
           (mkTyped torch_float32 cuda toy_batch)).
  - exact Z_scalar_laws.
  - unfold linear_layer, well_shaped. simpl. repeat split.
    + repeat constructor.
    + now exists [1; 1; 2]%Z.
  - reflexivity.
  - unfold batched, well_shaped. simpl. repeat split; try lia.
    repeat constructor.
  - reflexivity.
  - reflexivity.
Defined.

(* ------------------------------------------------------------------ *)
(** ** The LoRA forward pass *)
(* ------------------------------------------------------------------ *)

(** C4 at a concrete input.  The adapter of rank 1 whose matrices have
    the dtype [__init__] gives them, [float32], raises on the input, which
    [forward] casts to [bfloat16].  Converted with [.to(torch.bfloat16)], as the notebook
    converts its model, it returns on a [bfloat16] input of shape
    [(2, 2, 2)] the rows the claim describes (wrapped output plus
    [scaling * B A x], row by row), but as a tensor of shape [(4, 3)],
    while the wrapped layer, and the adapter of rank 0, return a tensor of
    shape [(2, 2, 3)]: the input is flattened to
    [(batch * sequence, features)] and the result is not given its leading
    shape back. *)
Lemma LoRAAdapter_forward_flattens :
  TypedLinear_forward toy_layer23_bf16 toy_typed_sequence =
    Ok (mkTyped torch_bfloat16 cpu
          (mkTensor [2; 2; 3]
             [[6; 12; 19]; [12; 26; 41]; [18; 40; 63]; [24; 54; 85]]%Z)) /\
  Typed.LoRAAdapter.forward toy_typed_lora_rank0 toy_typed_sequence =
    TypedLinear_forward toy_layer23_bf16 toy_typed_sequence /\
  Typed.LoRAAdapter.forward
    (Typed.LoRAAdapter.to_dtype torch_bfloat16 toy_typed_lora)
    toy_typed_sequence =
    Ok (mkTyped torch_bfloat16 cpu
          (mkTensor [4; 3]
             [[6 + 3; 12 + 6; 19 + 9]; [12 + 7; 26 + 14; 41 + 21];
              [18 + 11; 40 + 22; 63 + 33]; [24 + 15; 54 + 30; 85 + 45]]%Z)) /\
  Typed.LoRAAdapter.forward toy_typed_lora toy_typed_sequence =
    Raise (RuntimeError "matmul").
Proof. repeat split; vm_compute; reflexivity. Qed.

(** With [r > 0], whatever the input, a result of [LoRAAdapter.forward]
    has two dimensions. *)
Lemma LoRAAdapter_forward_rank2 {R : Type} {S : Scalar R}
      (self : Typed.LoRAAdapter.t R) (x y : TypedTensor R) :
  0 < Typed.LoRAAdapter.r self ->
  Typed.LoRAAdapter.forward self x = Ok y ->
  List.length (shape (values y)) = 2.
Proof.
  intros Hr. unfold Typed.LoRAAdapter.forward.
  apply Nat.ltb_lt in Hr. rewrite Hr.
  destruct (shape (values x)) as [|b [|s [|i [|? ?]]]]; try discriminate.
  unfold typed_view_rows, view_rows.
  destruct (Nat.eqb i 0); [discriminate|].
  destruct (Nat.eqb _ 0); [|discriminate]. cbn [bind].
  destruct (typed_transpose _) as [xT|e]; [|discriminate]. cbn [bind].
  destruct (typed_matmul (Typed.LoRAAdapter.lora_A self) xT) as [l1|e];
    [|discriminate]. cbn [bind].
  destruct (typed_matmul (Typed.LoRAAdapter.lora_B self) l1) as [l2|e];
    [|discriminate]. cbn [bind].
  destruct (typed_transpose l2) as [l2T|e]; [|discriminate]. cbn [bind].
  unfold TypedLinear_forward, typed_F_linear.
  destruct (_ && _ && _); [|discriminate].
  unfold F_linear. cbn [Tensor_to_dtype values shape].
  destruct (shape (values (typed_weight (Typed.LoRAAdapter.existing_layer self))))
    as [|o [|i' [|? ?]]]; try discriminate.
  destruct (Nat.eqb _ i'); [|discriminate].
  unfold typed_add, torch_add.
  destruct (option_map values _) as [bt|].
  - destruct (list_eq_dec Nat.eq_dec (shape bt) [o]); [|discriminate].
    cbn [bind values shape].
    destruct (result_device _ _); [|discriminate].
    destruct (list_eq_dec Nat.eq_dec _ _); [|discriminate].
    now intros [= <-].
  - cbn [bind values shape].
    destruct (result_device _ _); [|discriminate].
    destruct (list_eq_dec Nat.eq_dec _ _); [|discriminate].
    now intros [= <-].
Qed.

(* ------------------------------------------------------------------ *)
(** ** A fresh LoRA adapter *)
(* ------------------------------------------------------------------ *)

Section TypedLoRA.
Context {R : Type} {S : Scalar R}.


End TypedLoRA.



(* ------------------------------------------------------------------ *)
(** ** Module objects: identities *)
(* ------------------------------------------------------------------ *)

Lemma NoDup_app_inv {A : Type} (l1 l2 : list A) :
  NoDup (l1 ++ l2) ->
  NoDup l1 /\ NoDup l2 /\ forall a, In a l1 -> ~ In a l2.
Proof.
  induction l1 as [|x l1 IH]; simpl; intros H.
  - repeat split; [constructor | exact H | now intros a []].
  - inversion H as [|? ? Hx Hrest]; subst.
    destruct (IH Hrest) as (H1 & H2 & H3).
    repeat split; try assumption.
    + constructor; [|exact H1]. intros Hin. apply Hx, in_or_app. now left.
    + intros a [<-|Ha] Hin; [apply Hx, in_or_app; now right|].
      now apply (H3 a).
Qed.

Lemma nodup_natb_NoDup (l : list nat) : nodup_natb l = true -> NoDup l.
Proof.
  induction l as [|x l IH]; simpl; intros H; [constructor|].
  apply andb_prop in H as [Hx Hl]. constructor; [|now apply IH].
  intros Hin. apply negb_true_iff in Hx.
  assert (E : existsb (Nat.eqb x) l = true).
  { apply existsb_exists. exists x. split; [exact Hin | apply Nat.eqb_refl]. }
  congruence.
Qed.

Lemma existsb_nat_In (i : nat) (l : list nat) :
  existsb (Nat.eqb i) l = true <-> In i l.
Proof.
  rewrite existsb_exists. split.
  - intros (j & Hin & Heq). apply Nat.eqb_eq in Heq. now subst j.
  - intros Hin. exists i. split; [exact Hin | apply Nat.eqb_refl].
Qed.

Lemma unsharedb_sound (m : Module) : unsharedb m = true -> unshared m.
Proof. apply nodup_natb_NoDup. Qed.

Lemma mids_unfold (m : Module) :
  mids m = mid m :: flat_map (fun nc => mids (snd nc)) (_modules m).
Proof. now destruct m. Qed.

Lemma update_object_unfold (i : nat) (upd : Module -> Module) (m : Module) :
  update_object i upd m =
  if Nat.eqb (mid m) i
  then upd (mkModule (mid m) (isinstance_Embedding m) (qconfig m)
                     (_parameters m) (_buffers m)
                     (map (fun nc => (fst nc, update_object i upd (snd nc)))
                          (_modules m)))
  else mkModule (mid m) (isinstance_Embedding m) (qconfig m)
                (_parameters m) (_buffers m)
                (map (fun nc => (fst nc, update_object i upd (snd nc)))
                     (_modules m)).
Proof. now destruct m. Qed.

Lemma mids_child (m c : Module) (n : string) (i : nat) :
  In (n, c) (_modules m) -> In i (mids c) -> In i (mids m).
Proof.
  intros Hin Hi. rewrite mids_unfold. right.
  apply in_flat_map. now exists (n, c).
Qed.

(** An object that is nowhere in the tree is mutated nowhere. *)
Lemma update_object_absent (i : nat) (upd : Module -> Module) (m : Module) :
  ~ In i (mids m) -> update_object i upd m = m.
Proof.
  induction m as [j e q ps bs ms IH] using Module_tree_ind.
  intros Hnot. rewrite update_object_unfold.
  cbn [mid isinstance_Embedding qconfig _parameters _buffers _modules].
  assert (Hj : Nat.eqb j i = false).
  { apply Nat.eqb_neq. intros ->. apply Hnot. now left. }
  rewrite Hj. f_equal.
  rewrite <- (map_id ms) at 2. apply map_ext_in. intros [n c] Hin.
  cbn [fst snd]. f_equal.
  rewrite Forall_forall in IH. apply (IH (n, c) Hin).
  intros Hi. apply Hnot.
  apply (mids_child (mkModule j e q ps bs ms) c n i); [exact Hin | exact Hi].
Qed.

(** The module a path leads to is one of the objects of the tree. *)
Lemma get_submodule_atoms_mids (atoms : list string) :
  forall m x, get_submodule_atoms m atoms = Ok x ->
              forall i, In i (mids x) -> In i (mids m).
Proof.
  induction atoms as [|a atoms IH]; intros m x H i Hi.
  - now injection H as <-.
  - apply get_submodule_atoms_step_inv in H as (c & Hg & Hc).
    apply getattr_module_inv in Hg as (_ & _ & Hg).
    apply dict_get_In in Hg.
    apply (mids_child m c a); [exact Hg|]. now apply (IH c x).
Qed.

Lemma mids_head (m : Module) : In (mid m) (mids m).
Proof. rewrite mids_unfold. now left. Qed.

(** The entry a dictionary holds for a name, and the effect of [dict_set]
    on it. *)
Lemma dict_get_split {V : Type} (n : string) (v : V) (d : list (string * V)) :
  dict_get n d = Some v ->
  exists l1 l2, d = l1 ++ (n, v) :: l2 /\
                forall w, dict_set n w d = l1 ++ (n, w) :: l2.
Proof.
  induction d as [|[k u] d IH]; simpl; [discriminate|].
  destruct (String.eqb_spec n k) as [->|Hnk].
  - intros [= ->]. exists [], d. now split.
  - intros H. destruct (IH H) as (l1 & l2 & -> & Hset).
    exists ((k, u) :: l1), l2. split; [reflexivity|].
    intros w. simpl. now rewrite Hset.
Qed.

Lemma mids_children_split (l1 l2 : list (string * Module)) (n : string)
      (c : Module) :
  flat_map (fun nc => mids (snd nc)) (l1 ++ (n, c) :: l2) =
  flat_map (fun nc => mids (snd nc)) l1 ++ mids c ++
  flat_map (fun nc => mids (snd nc)) l2.
Proof. now rewrite flat_map_app. Qed.

(** In a tree without shared objects, the mutation of the object that a
    path leads to is the replacement along that path. *)
Lemma update_object_replace_atoms (init : list string) (a : string)
      (new_module : Module) :
  forall m parent m1,
    unshared m ->
    get_submodule_atoms m init = Ok parent ->
    replace_atoms m (init ++ [a]) new_module = Ok m1 ->
    update_object (mid parent) (register_module a new_module) m = m1.
Proof.
  induction init as [|b init IH]; intros m parent m1 Hnd Hget Hrep.
  - injection Hget as <-. cbn [app] in Hrep. rewrite replace_atoms_last in Hrep.
    apply setattr_inv in Hrep as [_ ->].
    rewrite update_object_unfold, Nat.eqb_refl.
    unfold register_module.
    cbn [mid isinstance_Embedding qconfig _parameters _buffers _modules].
    assert (Hmap : map (fun nc => (fst nc,
                                   update_object (mid m)
                                     (register_module a new_module) (snd nc)))
                       (_modules m) = _modules m).
    { rewrite <- (map_id (_modules m)) at 2. apply map_ext_in.
      intros [n c] Hin. cbn [fst snd]. f_equal.
      apply update_object_absent. intros Hi.
      unfold unshared in Hnd. rewrite mids_unfold in Hnd.
      inversion Hnd as [|? ? Hnot _]; subst. apply Hnot.
      apply in_flat_map. now exists (n, c). }
    unfold register_module in Hmap. rewrite Hmap. reflexivity.
  - apply get_submodule_atoms_step_inv in Hget as (c & Hg & Hc).
    change ((b :: init) ++ [a]) with (b :: (init ++ [a])) in Hrep.
    destruct (init ++ [a]) as [|y ys] eqn:E; [now destruct init|].
    apply replace_atoms_step_inv in Hrep as (c0 & c1 & Hg0 & Hr & ->).
    rewrite Hg in Hg0. injection Hg0 as <-.
    apply getattr_module_inv in Hg as (_ & _ & Hg).
    destruct (dict_get_split b c (_modules m) Hg) as (l1 & l2 & Hms & Hset).
    unfold unshared in Hnd. rewrite mids_unfold, Hms, mids_children_split in Hnd.
    inversion Hnd as [|? ? Hroot Hkids]; subst.
    apply NoDup_app_inv in Hkids as (_ & Hkids & H1).
    apply NoDup_app_inv in Hkids as (Hc_nd & _ & H2).
    assert (Hin : In (mid parent) (mids c)).
    { apply (get_submodule_atoms_mids init c parent Hc), mids_head. }
    rewrite update_object_unfold.
    assert (Hne : Nat.eqb (mid m) (mid parent) = false).
    { apply Nat.eqb_neq. intros Heq. apply Hroot. rewrite Heq.
      apply in_or_app. right. apply in_or_app. now left. }
    rewrite Hne. unfold with_child. f_equal.
    rewrite Hset, Hms, map_app. cbn [map fst snd]. f_equal; [|f_equal].
    + rewrite <- (map_id l1) at 2. apply map_ext_in. intros [n z] Hz.
      cbn [fst snd]. f_equal. apply update_object_absent. intros Hi.
      apply (H1 (mid parent)); [|apply in_or_app; now left].
      apply in_flat_map. now exists (n, z).
    + f_equal. now apply (IH c parent c1).
    + rewrite <- (map_id l2) at 2. apply map_ext_in. intros [n z] Hz.
      cbn [fst snd]. f_equal. apply update_object_absent. intros Hi.
      apply (H2 (mid parent) Hin). apply in_flat_map. now exists (n, z).
Qed.

(** A replacement that goes through has walked to a parent on which the
    last atom is not the name of a parameter. *)
Lemma replace_atoms_parent (init : list string) (a : string)
      (new_module : Module) :
  forall model model1,
    replace_atoms model (init ++ [a]) new_module = Ok model1 ->
    exists parent,
      get_submodule_atoms model init = Ok parent /\
      dict_get a (_parameters parent) = None.
Proof.
  induction init as [|b init IH]; intros model model1 Hrep.
  - cbn [app] in Hrep. rewrite replace_atoms_last in Hrep.
    apply setattr_inv in Hrep as [Hp _]. now exists model.
  - change ((b :: init) ++ [a]) with (b :: (init ++ [a])) in Hrep.
    destruct (init ++ [a]) as [|y ys] eqn:E; [now destruct init|].
    apply replace_atoms_step_inv in Hrep as (c & c1 & Hg & Hr & _).
    destruct (IH c c1 Hr) as (parent & Hp & Hnone).
    exists parent. split; [|exact Hnone].
    now rewrite get_submodule_atoms_step, Hg.
Qed.

(* ------------------------------------------------------------------ *)
(** ** Module objects: class attributes *)
(* ------------------------------------------------------------------ *)

Section ObjectFacts.
Variable cls : nat -> string -> bool.

Lemma unshadowed_unfold (m : Module) :
  unshadowed cls m =
  forallb (fun nc => negb (cls (mid m) (fst nc)) &&
                     unshadowed cls (snd nc))
          (_modules m).
Proof. now destruct m. Qed.

Lemma unshadowed_child (m c : Module) (n : string) :
  unshadowed cls m = true -> In (n, c) (_modules m) ->
  cls (mid m) n = false /\ unshadowed cls c = true.
Proof.
  intros H Hin. rewrite unshadowed_unfold, forallb_forall in H.
  specialize (H (n, c) Hin). cbn [fst snd] in H.
  apply andb_prop in H as [H1 H2]. now apply negb_true_iff in H1.
Qed.

Lemma py_get_submodule_atoms_step (m : Module) (a : string)
      (rest : list string) :
  py_get_submodule_atoms cls m (a :: rest) =
  match py_getattr cls m a with
  | Ok (AttrRegistered (ObjModule c)) => py_get_submodule_atoms cls c rest
  | Ok _ => Raise (AttributeError a)
  | Raise e => Raise e
  end.
Proof. reflexivity. Qed.

Lemma getattr_raise_inv (m : Module) (n : string) (e : Exn) :
  getattr m n = Raise e -> e = AttributeError n.
Proof.
  unfold getattr.
  destruct (dict_get n (_parameters m)); [discriminate|].
  destruct (dict_get n (_buffers m)); [discriminate|].
  destruct (dict_get n (_modules m)); [discriminate|].
  now intros [= <-].
Qed.

(** Where no registered name is an attribute of a class, the walk along a
    path finds what [__getattr__] alone finds. *)
Lemma py_get_submodule_atoms_unshadowed (atoms : list string) :
  forall m, unshadowed cls m = true ->
            py_get_submodule_atoms cls m atoms = get_submodule_atoms m atoms.
Proof.
  induction atoms as [|a atoms IH]; intros m Hm; [reflexivity|].
  rewrite py_get_submodule_atoms_step, get_submodule_atoms_step.
  unfold py_getattr.
  destruct (getattr m a) as [[p|bf|c]|e] eqn:Hg.
  - now destruct (cls (mid m) a).
  - now destruct (cls (mid m) a).
  - pose proof Hg as Hg'. apply getattr_module_inv in Hg' as (_ & _ & Hd).
    apply dict_get_In in Hd.
    destruct (unshadowed_child m c a Hm Hd) as [Hcls Hc].
    rewrite Hcls. now apply IH.
  - apply getattr_raise_inv in Hg. subst e.
    now destruct (cls (mid m) a).
Qed.

Lemma py_get_submodule_unshadowed (m : Module) (p : string) :
  unshadowed cls m = true -> py_get_submodule cls m p = get_submodule m p.
Proof.
  intros Hm. unfold py_get_submodule, get_submodule, Module_get_submodule.
  destruct (String.eqb p ""); [reflexivity|].
  now apply py_get_submodule_atoms_unshadowed.
Qed.

(** In a tree without shared objects and without hidden names, a
    replacement that goes through is the replacement along the path. *)
Lemma py_replace_submodule_tree (model model1 new_module : Module)
      (module_path : string) :
  unshared model -> unshadowed cls model = true ->
  replace_submodule model module_path new_module = Ok model1 ->
  py_replace_submodule cls model module_path new_module = Ok model1.
Proof.
  intros Hnd Hsh Hrep.
  unfold replace_submodule in Hrep. unfold py_replace_submodule.
  destruct (exists_last (split_dot_not_nil module_path)) as (init & a & Hs).
  rewrite Hs in *. rewrite removelast_last, last_last.
  rewrite (py_get_submodule_atoms_unshadowed init model Hsh).
  pose proof (replace_atoms_parent init a new_module model model1 Hrep)
    as Hparent.
  destruct Hparent as (parent & Hp & Hnone). rewrite Hp, Hnone. f_equal.
  exact (update_object_replace_atoms init a new_module model parent model1
           Hnd Hp Hrep).
Qed.

End ObjectFacts.

(* ------------------------------------------------------------------ *)
(** ** The enumeration of module objects *)
(* ------------------------------------------------------------------ *)

Lemma py_named_modules_memo_unfold (memo : list nat) (prefix : string)
      (m : Module) :
  py_named_modules_memo memo prefix m =
  if existsb (Nat.eqb (mid m)) memo then ([], memo)
  else
    fold_left
      (fun (listed : list (string * Module) * list nat) nc =>
         let '(below, memo') :=
           py_named_modules_memo (snd listed) (join_dot prefix (fst nc))
                                 (snd nc) in
         (fst listed ++ below, memo'))
      (_modules m) ([(prefix, m)], mid m :: memo).
Proof. now destruct m. Qed.

(** Where no object is met twice the memo changes nothing. *)
Lemma py_named_modules_memo_unshared (m : Module) :
  forall prefix memo,
    NoDup (mids m) -> (forall i, In i (mids m) -> ~ In i memo) ->
    py_named_modules_memo memo prefix m =
    (named_modules prefix m, rev (mids m) ++ memo).
Proof.
  induction m as [j e q ps bs ms IH] using Module_tree_ind.
  intros prefix memo Hnd Hdis.
  rewrite py_named_modules_memo_unfold, named_modules_unfold, mids_unfold.
  rewrite mids_unfold in Hnd, Hdis.
  cbn [mid _modules] in *.
  assert (Hj : existsb (Nat.eqb j) memo = false).
  { destruct (existsb (Nat.eqb j) memo) eqn:E; [|reflexivity].
    apply existsb_nat_In in E. elim (Hdis j); [now left | exact E]. }
  rewrite Hj. inversion Hnd as [|? ? Hroot Hkids]; subst.
  assert (Hfold :
            forall cs acc memo0,
              Forall (fun nc =>
                        forall prefix memo,
                          NoDup (mids (snd nc)) ->
                          (forall i, In i (mids (snd nc)) -> ~ In i memo) ->
                          py_named_modules_memo memo prefix (snd nc) =
                          (named_modules prefix (snd nc),
                           rev (mids (snd nc)) ++ memo)) cs ->
              NoDup (flat_map (fun nc => mids (snd nc)) cs) ->
              (forall i, In i (flat_map (fun nc => mids (snd nc)) cs) ->
                         ~ In i memo0) ->
              fold_left
                (fun (listed : list (string * Module) * list nat) nc =>
                   let '(below, memo') :=
                     py_named_modules_memo (snd listed)
                       (join_dot prefix (fst nc)) (snd nc) in
                   (fst listed ++ below, memo'))
                cs (acc, memo0) =
              (acc ++ flat_map (fun nc => named_modules (join_dot prefix (fst nc))
                                                        (snd nc)) cs,
               rev (flat_map (fun nc => mids (snd nc)) cs) ++ memo0)).
  { clear. induction cs as [|[n c] cs IHcs]; intros acc memo0 HP Hn Hd.
    - cbn. now rewrite app_nil_r.
    - inversion HP as [|? ? Hc HP']; subst. cbn [flat_map fst snd] in *.
      apply NoDup_app_inv in Hn as (Hnc & Hncs & Hdisj).
      cbn [fold_left fst snd].
      rewrite (Hc (join_dot prefix n) memo0 Hnc).
      2:{ intros i Hi. apply Hd, in_or_app. now left. }
      rewrite (IHcs _ _ HP' Hncs).
      2:{ intros i Hi Hin. apply in_app_or in Hin as [Hin|Hin].
          - apply in_rev in Hin. now apply (Hdisj i Hin).
          - apply (Hd i); [apply in_or_app; now right | exact Hin]. }
      f_equal.
      + now rewrite <- app_assoc.
      + now rewrite rev_app_distr, <- app_assoc. }
  rewrite (Hfold ms [(prefix, mkModule j e q ps bs ms)] (j :: memo) IH Hkids).
  - cbn [app rev]. f_equal. now rewrite <- app_assoc.
  - intros i Hi [<-|Hin]; [contradiction|].
    apply (Hdis i); [now right | exact Hin].
Qed.

Lemma py_named_modules_unshared (m : Module) (prefix : string) :
  unshared m -> py_named_modules prefix m = named_modules prefix m.
Proof.
  intros Hnd. unfold py_named_modules.
  rewrite (py_named_modules_memo_unshared m prefix [] Hnd); [reflexivity|].
  now intros i _ [].
Qed.

Lemma py_match_submodules_unshared (m : Module) (key : string) :
  unshared m -> py_match_submodules m key = match_submodules m key.
Proof.
  intros Hnd. unfold py_match_submodules, match_submodules.
  now rewrite py_named_modules_unshared.
Qed.

(** A child of a listed module is listed under the name of the module
    extended by its own. *)
Lemma named_modules_child (m : Module) :
  forall prefix r x n c,
    In (r, x) (named_modules prefix m) -> In (n, c) (_modules x) ->
    In (join_dot r n, c) (named_modules prefix m).
Proof.
  induction m as [j e q ps bs ms IH] using Module_tree_ind.
  intros prefix r x n c Hin Hc.
  rewrite named_modules_unfold in Hin |- *. cbn [_modules] in *.
  destruct Hin as [[= <- <-]|Hin].
  - right. apply in_flat_map. exists (n, c). split; [exact Hc|].
    cbn [fst snd]. apply In_named_modules_head.
  - right. apply in_flat_map in Hin as ([k z] & Hz & Hin).
    apply in_flat_map. exists (k, z). split; [exact Hz|].
    rewrite Forall_forall in IH. cbn [fst snd] in *.
    exact (IH (k, z) Hz _ r x n c Hin Hc).
Qed.

(* ------------------------------------------------------------------ *)
(** ** Replacements keep a tree free of shared objects and hidden names *)
(* ------------------------------------------------------------------ *)

Lemma NoDup_replace_segment {A : Type} (pre xs ys post : list A) :
  NoDup (pre ++ xs ++ post) -> NoDup ys ->
  (forall i, In i ys -> In i xs \/ ~ In i (pre ++ xs ++ post)) ->
  NoDup (pre ++ ys ++ post).
Proof.
  intros H Hys Hnew.
  apply NoDup_app_inv in H as (Hpre & Hrest & Hd1).
  apply NoDup_app_inv in Hrest as (Hxs & Hpost & Hd2).
  apply NoDup_app; [exact Hpre | apply NoDup_app; [exact Hys | exact Hpost |] |].
  - intros a Ha Hp. destruct (Hnew a Ha) as [Hx|Hn].
    + now apply (Hd2 a).
    + apply Hn, in_or_app. right. apply in_or_app. now right.
  - intros a Ha Hin. apply in_app_or in Hin as [Hin|Hin].
    + destruct (Hnew a Hin) as [Hx|Hn].
      * apply (Hd1 a Ha), in_or_app. now left.
      * apply Hn, in_or_app. now left.
    + apply (Hd1 a Ha), in_or_app. now right.
Qed.

(** One entry of [_modules] is exchanged: what the identities of the tree
    become. *)
Lemma unshared_exchange (m : Module) (a : string) (c c1 : Module)
      (bs : list (string * nat)) :
  unshared m -> dict_get a (_modules m) = Some c ->
  unshared c1 ->
  (forall i, In i (mids c1) -> In i (mids c) \/ ~ In i (mids m)) ->
  unshared (mkModule (mid m) (isinstance_Embedding m) (qconfig m)
                     (_parameters m) bs (dict_set a c1 (_modules m))) /\
  forall i, In i (mids (mkModule (mid m) (isinstance_Embedding m) (qconfig m)
                                 (_parameters m) bs
                                 (dict_set a c1 (_modules m)))) ->
            In i (mids m) \/ In i (mids c1).
Proof.
  intros Hnd Hg Hc1 Hnew.
  destruct (dict_get_split a c (_modules m) Hg) as (l1 & l2 & Hms & Hset).
  assert (Hm : mids m =
               mid m :: flat_map (fun nc => mids (snd nc)) l1 ++ mids c ++
                        flat_map (fun nc => mids (snd nc)) l2)
    by now rewrite mids_unfold, Hms, mids_children_split.
  unfold unshared in *. rewrite Hm in *.
  rewrite (mids_unfold (mkModule _ _ _ _ _ _)). cbn [mid _modules].
  rewrite Hset, mids_children_split.
  inversion Hnd as [|? ? Hroot Hkids]; subst. split.
  - constructor.
    + intros Hin. apply in_app_or in Hin as [Hin|Hin];
        [apply Hroot, in_or_app; now left|].
      apply in_app_or in Hin as [Hin|Hin];
        [|apply Hroot, in_or_app; right; apply in_or_app; now right].
      destruct (Hnew _ Hin) as [Hc|Hn].
      * apply Hroot, in_or_app. right. apply in_or_app. now left.
      * apply Hn. now left.
    + apply (NoDup_replace_segment _ (mids c)); try assumption.
      intros i Hi. destruct (Hnew i Hi) as [Hc|Hn]; [now left|].
      right. intros Hin. apply Hn. now right.
  - intros i [<-|Hin]; [left; now left|].
    apply in_app_or in Hin as [Hin|Hin];
      [left; right; apply in_or_app; now left|].
    apply in_app_or in Hin as [Hin|Hin]; [now right|].
    left. right. apply in_or_app. right. apply in_or_app. now right.
Qed.

Lemma unshared_child (m c : Module) (a : string) :
  unshared m -> dict_get a (_modules m) = Some c -> unshared c.
Proof.
  intros Hnd Hg.
  destruct (dict_get_split a c (_modules m) Hg) as (l1 & l2 & Hms & _).
  unfold unshared in *. rewrite mids_unfold, Hms, mids_children_split in Hnd.
  inversion Hnd as [|? ? _ Hkids]; subst.
  apply NoDup_app_inv in Hkids as (_ & Hkids & _).
  now apply NoDup_app_inv in Hkids as (Hc & _ & _).
Qed.

(** A replacement by a module whose objects, apart from those of the
    module it replaces, are new to the tree leaves the tree without shared
    objects. *)
Lemma unshared_replace_atoms (atoms : list string) :
  forall m x y m1,
    atoms <> [] -> unshared m ->
    get_submodule_atoms m atoms = Ok x ->
    replace_atoms m atoms y = Ok m1 ->
    unshared y ->
    (forall i, In i (mids y) -> In i (mids x) \/ ~ In i (mids m)) ->
    unshared m1 /\
    forall i, In i (mids m1) -> In i (mids m) \/ In i (mids y).
Proof.
  induction atoms as [|a atoms IH]; intros m x y m1 Hne Hnd Hget Hrep Hy Hnew;
    [congruence|].
  apply get_submodule_atoms_step_inv in Hget as (c & Hg & Hc).
  apply getattr_module_inv in Hg as (Hpar & Hbuf & Hg).
  destruct atoms as [|b rest].
  - injection Hc as ->. rewrite replace_atoms_last in Hrep.
    apply setattr_inv in Hrep as [_ ->].
    now apply (unshared_exchange m a x y).
  - assert (Hga : getattr m a = Ok (ObjModule c))
      by (unfold getattr; now rewrite Hpar, Hbuf, Hg).
    apply replace_atoms_step_inv in Hrep as (c0 & c1 & Hg0 & Hr & ->).
    rewrite Hga in Hg0. injection Hg0 as <-.
    pose proof (dict_get_In _ _ _ Hg) as Hin.
    destruct (IH c x y c1 ltac:(discriminate) (unshared_child m c a Hnd Hg)
                 Hc Hr Hy) as [Hc1 Hsub].
    { intros i Hi. destruct (Hnew i Hi) as [Hx|Hn]; [now left|].
      right. intros Hic. apply Hn. now apply (mids_child m c a). }
    unfold with_child.
    destruct (unshared_exchange m a c c1 (_buffers m) Hnd Hg Hc1) as [H1 H2].
    { intros i Hi. destruct (Hsub i Hi) as [Hic|Hiy]; [now left|].
      destruct (Hnew i Hiy) as [Hx|Hn]; [|now right].
      left. now apply (get_submodule_atoms_mids (b :: rest) c x Hc). }
    split; [exact H1|].
    intros i Hi. destruct (H2 i Hi) as [Him|Hic]; [now left|].
    destruct (Hsub i Hic) as [Hc'|Hy']; [|now right].
    left. now apply (mids_child m c a).
Qed.

Section ObjectInvariants.
Variable cls : nat -> string -> bool.

Lemma unshadowed_exchange (m : Module) (a : string) (c c1 : Module)
      (bs : list (string * nat)) :
  unshadowed cls m = true -> dict_get a (_modules m) = Some c ->
  unshadowed cls c1 = true ->
  unshadowed cls (mkModule (mid m) (isinstance_Embedding m) (qconfig m)
                           (_parameters m) bs (dict_set a c1 (_modules m)))
  = true.
Proof.
  intros Hm Hg Hc1.
  destruct (dict_get_split a c (_modules m) Hg) as (l1 & l2 & Hms & Hset).
  rewrite unshadowed_unfold in Hm |- *. cbn [mid _modules].
  rewrite Hset. rewrite Hms in Hm.
  rewrite forallb_app in Hm |- *. cbn [forallb fst snd] in *.
  apply andb_prop in Hm as [H1 H2]. apply andb_prop in H2 as [H2 H3].
  apply andb_prop in H2 as [H2 _].
  now rewrite H1, H2, Hc1, H3.
Qed.

Lemma unshadowed_replace_atoms (atoms : list string) :
  forall m x y m1,
    atoms <> [] -> unshadowed cls m = true ->
    get_submodule_atoms m atoms = Ok x ->
    replace_atoms m atoms y = Ok m1 ->
    unshadowed cls y = true ->
    unshadowed cls m1 = true.
Proof.
  induction atoms as [|a atoms IH]; intros m x y m1 Hne Hm Hget Hrep Hy;
    [congruence|].
  apply get_submodule_atoms_step_inv in Hget as (c & Hg & Hc).
  pose proof Hg as Hga.
  apply getattr_module_inv in Hg as (Hpar & Hbuf & Hg).
  destruct atoms as [|b rest].
  - rewrite replace_atoms_last in Hrep.
    apply setattr_inv in Hrep as [_ ->].
    now apply (unshadowed_exchange m a c y).
  - apply replace_atoms_step_inv in Hrep as (c0 & c1 & Hg0 & Hr & ->).
    rewrite Hga in Hg0. injection Hg0 as <-.
    destruct (unshadowed_child cls m c a Hm (dict_get_In _ _ _ Hg)) as [_ Hcu].
    unfold with_child. apply (unshadowed_exchange m a c c1); try assumption.
    exact (IH c x y c1 ltac:(discriminate) Hcu Hc Hr Hy).
Qed.

(* ------------------------------------------------------------------ *)
(** ** [replace_submodule] then [get_submodule], on module objects *)
(* ------------------------------------------------------------------ *)








End ObjectInvariants.

(* ------------------------------------------------------------------ *)
(** ** Injection on module objects *)
(* ------------------------------------------------------------------ *)

Lemma new_objectsb_sound (cls : nat -> string -> bool) (model : Module)
      (match_on : list string) (adapter_fn : Module -> result Module) :
  new_objectsb cls model match_on adapter_fn = true ->
  new_objects cls model match_on adapter_fn.
Proof.
  unfold new_objectsb, new_objects. intros H p x key Hin Hkey Hc.
  rewrite forallb_forall in H. specialize (H (p, x) Hin).
  rewrite forallb_forall in H. specialize (H key Hkey). cbn [fst snd] in H.
  rewrite Hc in H. destruct (adapter_fn x) as [y|e]; [|discriminate].
  apply andb_prop in H as [H H4]. apply andb_prop in H as [H H3].
  apply andb_prop in H as [H1 H2].
  exists y. split; [reflexivity|]. split; [now apply unsharedb_sound|].
  split; [exact H2|]. split.
  - intros i Hi. rewrite forallb_forall in H3. specialize (H3 i Hi).
    apply orb_prop in H3 as [H3|H3].
    + left. now apply existsb_nat_In.
    + right. intros Hm. apply existsb_nat_In in Hm.
      rewrite Hm in H3. discriminate.
  - intros p' x' key' y' Hin' Hkey' Hc' Hy' Hne i Hi Hi'.
    rewrite forallb_forall in H4. specialize (H4 (p', x') Hin').
    rewrite forallb_forall in H4. specialize (H4 key' Hkey').
    cbn [fst snd] in H4. rewrite Hc', Hy' in H4.
    apply orb_prop in H4 as [H4|H4].
    + apply String.eqb_eq in H4. contradiction.
    + rewrite forallb_forall in H4. specialize (H4 i Hi).
      apply existsb_nat_In in Hi'. rewrite Hi' in H4. discriminate.
Qed.

Lemma objects_from_incl (orig : Module) (match_on : list string)
      (adapter_fn : Module -> result Module) (l l' : list string)
      (cur : Module) :
  (forall r, In r l -> In r l') ->
  objects_from orig match_on adapter_fn l cur ->
  objects_from orig match_on adapter_fn l' cur.
Proof.
  intros Hsub H i Hi. destruct (H i Hi) as [Ho|(r & x & key & y & Hr & Hrest)].
  - now left.
  - right. exists r, x, key, y. split; [now apply Hsub | exact Hrest].
Qed.

Lemma objects_from_start (orig : Module) (match_on : list string)
      (adapter_fn : Module -> result Module) :
  objects_from orig match_on adapter_fn [] orig.
Proof. intros i Hi. now left. Qed.

Section InjectObjects.
Variable cls : nat -> string -> bool.
Variable orig : Module.
Variable match_on : list string.
Variable adapter_fn : Module -> result Module.
Hypothesis fresh : new_objects cls orig match_on adapter_fn.

(** One turn of either loop at a site that holds a selected module of the
    model the call started from: on module objects it does what it does on
    the tree, and it leaves a tree without shared objects and without
    hidden names. *)
Lemma py_site_step (cur : Module) (replaced : list string) (r key : string)
      (x : Module) :
  wf_module cur = true -> unshared cur -> unshadowed cls cur = true ->
  objects_from orig match_on adapter_fn replaced cur ->
  site adapter_fn cur r -> ~ In r replaced ->
  In (r, x) (named_modules "" orig) -> In key match_on ->
  contains key r = true -> get_submodule cur r = Ok x ->
  exists y cur1,
    adapter_fn x = Ok y /\
    replace_submodule cur r y = Ok cur1 /\
    replace_atoms cur (split_dot r) y = Ok cur1 /\
    py_get_submodule cls cur r = Ok x /\
    py_replace_submodule cls cur r y = Ok cur1 /\
    wf_module cur1 = true /\ unshared cur1 /\ unshadowed cls cur1 = true /\
    objects_from orig match_on adapter_fn (r :: replaced) cur1.
Proof.
  intros Hwf Hnd Hsh Hobj Hsite Hnew Hin Hkey Hc Hget.
  destruct (replace_site_step adapter_fn cur r Hwf Hsite)
    as (x' & y & cur1 & Hx & Hy & Hrep & Hrepa & Hxa & Hwf1 & _).
  rewrite Hget in Hx. injection Hx as <-.
  destruct (fresh r x key Hin Hkey Hc) as (y' & Hy' & Hynd & Hysh & Hyold & Hydis).
  rewrite Hy in Hy'. injection Hy' as <-.
  assert (Hids : forall i, In i (mids y) -> In i (mids x) \/ ~ In i (mids cur)).
  { intros i Hi. destruct (Hyold i Hi) as [Hix|Hio]; [now left|].
    right. intros Hic.
    destruct (Hobj i Hic) as [Ho|(r' & x' & key' & y' & Hr' & Hin' & Hk' & Hc' & Hy' & Hi')];
      [contradiction|].
    apply (Hydis r' x' key' y' Hin' Hk' Hc' Hy') with i;
      [|exact Hi | exact Hi'].
    intros ->. contradiction. }
  destruct (unshared_replace_atoms (split_dot r) cur x y cur1
              (split_dot_not_nil r) Hnd Hxa Hrepa Hynd Hids) as [Hnd1 Hsub].
  exists y, cur1. repeat split; try assumption.
  - now rewrite py_get_submodule_unshadowed.
  - now apply py_replace_submodule_tree.
  - exact (unshadowed_replace_atoms cls (split_dot r) cur x y cur1
             (split_dot_not_nil r) Hsh Hxa Hrepa Hysh).
  - intros i Hi. destruct (Hsub i Hi) as [Hic|Hiy].
    + destruct (Hobj i Hic) as [Ho|(r' & x' & key' & y' & Hr' & Hrest)];
        [now left|].
      right. exists r', x', key', y'. split; [now right | exact Hrest].
    + right. exists r, x, key, y. repeat split; try assumption. now left.
Qed.

(** The sites that are left are sites of the model one replacement
    later. *)
Lemma sites_after_step (cur cur1 y : Module) (r : string)
      (layers replaced processed : list string) :
  replace_atoms cur (split_dot r) y = Ok cur1 ->
  site adapter_fn cur r -> ~ In r layers ->
  (forall r', In r' layers ->
              site adapter_fn cur r' /\ ~ In r' replaced /\
              ~ In r' processed /\
              exists x key,
                In (r', x) (named_modules "" orig) /\ In key match_on /\
                contains key r' = true /\ get_submodule cur r' = Ok x) ->
  forall r', In r' layers ->
             site adapter_fn cur1 r' /\ ~ In r' (r :: replaced) /\
             ~ In r' (r :: processed) /\
             exists x key,
               In (r', x) (named_modules "" orig) /\ In key match_on /\
               contains key r' = true /\ get_submodule cur1 r' = Ok x.
Proof.
  intros Hrepa Hsite Hnot Hsites r' Hin.
  destruct (Hsites r' Hin) as (Hs' & Hr' & Hp' & x' & key' & Hin' & Hk' & Hc' & Hg').
  assert (Hne : r <> r') by (intros ->; contradiction).
  assert (Hsame : get_submodule cur1 r' = get_submodule cur r').
  { destruct Hs' as (Hne' & _).
    rewrite !get_submodule_nonempty by assumption.
    destruct (sites_incomparable adapter_fn cur r r' Hsite
                (proj1 (Hsites r' Hin)) Hne) as [H1 H2].
    exact (replace_atoms_other (split_dot r) cur cur1 y (split_dot r')
             Hrepa H1 H2). }
  repeat split.
  - apply Hs'.
  - destruct Hs' as (_ & x0 & y0 & Hx0 & Hrest). exists x0, y0.
    now rewrite Hsame.
  - intros [E|E]; [now apply Hne | contradiction].
  - intros [E|E]; [now apply Hne | contradiction].
  - exists x', key'. now rewrite Hsame.
Qed.

(** The inner loop of the IA3 notebook over sites. *)
Lemma py_inject_layers_tree (layers : list string) :
  forall cur processed replaced,
    wf_module cur = true -> unshared cur -> unshadowed cls cur = true ->
    objects_from orig match_on adapter_fn replaced cur ->
    NoDup layers ->
    (forall r, In r layers ->
               site adapter_fn cur r /\ ~ In r replaced /\ ~ In r processed /\
               exists x key,
                 In (r, x) (named_modules "" orig) /\ In key match_on /\
                 contains key r = true /\ get_submodule cur r = Ok x) ->
    py_inject_layers cls adapter_fn layers (mkInjectState cur processed) =
    inject_layers adapter_fn layers (mkInjectState cur processed) /\
    unshared (st_model (fst (inject_layers adapter_fn layers
                               (mkInjectState cur processed)))) /\
    unshadowed cls (st_model (fst (inject_layers adapter_fn layers
                                     (mkInjectState cur processed)))) = true /\
    objects_from orig match_on adapter_fn (layers ++ replaced)
      (st_model (fst (inject_layers adapter_fn layers
                        (mkInjectState cur processed)))).
Proof.
  induction layers as [|r layers IH];
    intros cur processed replaced Hwf Hnd Hsh Hobj Hl Hsites.
  - cbn. now repeat split.
  - inversion Hl as [|? ? Hnot Hl']; subst.
    destruct (Hsites r (or_introl eq_refl))
      as (Hsite & Hr & Hp & x & key & Hin & Hkey & Hc & Hget).
    destruct (py_site_step cur replaced r key x Hwf Hnd Hsh Hobj Hsite Hr Hin
                Hkey Hc Hget)
      as (y & cur1 & Hy & Hrep & Hrepa & Hpg & Hpr & Hwf1 & Hnd1 & Hsh1 & Hobj1).
    cbn [py_inject_layers inject_layers st_model st_processed].
    assert (Hex : existsb (String.eqb r) processed = false).
    { destruct (existsb (String.eqb r) processed) eqn:E; [|reflexivity].
      apply existsb_exists in E as (r' & Hin' & Heq).
      apply String.eqb_eq in Heq. now subst r'. }
    rewrite Hex, Hpg, Hget, Hy. unfold Module_to. rewrite Hpr, Hrep.
    destruct (IH cur1 (r :: processed) (r :: replaced) Hwf1 Hnd1 Hsh1 Hobj1 Hl')
      as (Heq & Hnd' & Hsh' & Hobj').
    { apply (sites_after_step cur cur1 y r layers replaced processed Hrepa
               Hsite Hnot).
      intros r' Hr'. apply Hsites. now right. }
    repeat split; try assumption.
    apply (objects_from_incl _ _ _ (layers ++ r :: replaced)); [|exact Hobj'].
    intros r' Hr'. apply in_app_or in Hr' as [H|[<-|H]].
    + right. apply in_or_app. now left.
    + now left.
    + right. apply in_or_app. now right.
Qed.

End InjectObjects.

Section InjectObjectsLoRA.
Variable cls : nat -> string -> bool.
Variable orig : Module.
Variable match_on : list string.
Variable g : Module -> result Module.
Hypothesis fresh : new_objects cls orig match_on (with_weight_device g).
Hypothesis weights : weight_unshadowed cls orig match_on.

Lemma with_weight_device_inv (x y : Module) :
  with_weight_device g x = Ok y -> g x = Ok y /\ weight_device x = Ok tt.
Proof.
  unfold with_weight_device. destruct (g x) as [y'|e]; [|discriminate].
  cbn [bind]. destruct (weight_device x) as [[]|e]; [|discriminate].
  cbn [bind]. now intros [= ->].
Qed.

Lemma py_weight_device_unshadowed (x : Module) :
  cls (mid x) "weight" = false -> py_weight_device cls x = weight_device x.
Proof.
  intros H. unfold py_weight_device, py_getattr, weight_device. rewrite H.
  now destruct (getattr x "weight") as [[p|b|c]|e].
Qed.

(** The inner loop of the LoRA notebook over sites. *)
Lemma py_lora_inject_layers_tree (layers : list string) :
  forall cur replaced,
    wf_module cur = true -> unshared cur -> unshadowed cls cur = true ->
    objects_from orig match_on (with_weight_device g) replaced cur ->
    NoDup layers ->
    (forall r, In r layers ->
               site (with_weight_device g) cur r /\ ~ In r replaced /\
               exists x key,
                 In (r, x) (named_modules "" orig) /\ In key match_on /\
                 contains key r = true /\ get_submodule cur r = Ok x) ->
    py_lora_inject_layers cls g layers cur = lora_inject_layers g layers cur /\
    unshared (fst (lora_inject_layers g layers cur)) /\
    unshadowed cls (fst (lora_inject_layers g layers cur)) = true /\
    objects_from orig match_on (with_weight_device g) (layers ++ replaced)
      (fst (lora_inject_layers g layers cur)).
Proof.
  induction layers as [|r layers IH];
    intros cur replaced Hwf Hnd Hsh Hobj Hl Hsites.
  - cbn. now repeat split.
  - inversion Hl as [|? ? Hnot Hl']; subst.
    destruct (Hsites r (or_introl eq_refl))
      as (Hsite & Hr & x & key & Hin & Hkey & Hc & Hget).
    destruct (py_site_step cls orig match_on (with_weight_device g) fresh
                cur replaced r key x Hwf Hnd Hsh Hobj Hsite Hr Hin Hkey Hc Hget)
      as (y & cur1 & Hy & Hrep & Hrepa & Hpg & Hpr & Hwf1 & Hnd1 & Hsh1 & Hobj1).
    apply with_weight_device_inv in Hy as [Hgy Hwd].
    cbn [py_lora_inject_layers lora_inject_layers].
    rewrite Hpg, Hget, Hgy.
    rewrite (py_weight_device_unshadowed x (weights r x key Hin Hkey Hc)), Hwd.
    unfold Module_to. rewrite Hpr, Hrep.
    destruct (IH cur1 (r :: replaced) Hwf1 Hnd1 Hsh1 Hobj1 Hl')
      as (Heq & Hnd' & Hsh' & Hobj').
    { intros r' Hr'.
      destruct (sites_after_step orig match_on (with_weight_device g)
                  cur cur1 y r layers replaced [] Hrepa Hsite Hnot) with r'
        as (H1 & H2 & _ & H4); try assumption.
      - intros r0 Hr0.
        destruct (Hsites r0 (or_intror Hr0)) as (K1 & K2 & K3).
        split; [exact K1 | split; [exact K2 | split; [now intros [] | exact K3]]].
      - split; [exact H1 | split; [exact H2 | exact H4]]. }
    repeat split; try assumption.
    apply (objects_from_incl _ _ _ (layers ++ r :: replaced)); [|exact Hobj'].
    intros r' Hr'. apply in_app_or in Hr' as [H|[<-|H]].
    + right. apply in_or_app. now left.
    + now left.
    + right. apply in_or_app. now right.
Qed.

End InjectObjectsLoRA.

Section InjectObjectsKeys.
Variable cls : nat -> string -> bool.
Variable orig : Module.
Variable match_on : list string.
Variable adapter_fn : Module -> result Module.
Hypothesis orig_wf : wf_module orig = true.
Hypothesis keys_nonempty : forall key, In key match_on -> key <> "".
Hypothesis selected : selects_leaves orig match_on adapter_fn.
Hypothesis fresh : new_objects cls orig match_on adapter_fn.

(** What [match_submodules] finds for a key that is not done yet are sites
    that hold selected modules of the model the call started from. *)
Lemma matching_layers_selected (cur : Module) (done replaced : list string)
      (key : string) :
  injected orig adapter_fn cur done replaced ->
  (forall k, In k done -> In k match_on) ->
  In key match_on -> ~ In key done ->
  forall r, In r (match_submodules cur key) ->
            site adapter_fn cur r /\ ~ In r replaced /\
            exists x key0,
              In (r, x) (named_modules "" orig) /\ In key0 match_on /\
              contains key0 r = true /\ get_submodule cur r = Ok x.
Proof.
  intros Hinv Hdone Hin Hnew r Hr.
  destruct (matching_layers_are_sites orig match_on adapter_fn orig_wf
              keys_nonempty selected cur done replaced key Hinv Hdone Hin Hnew)
    as (_ & Hsites & _).
  destruct (Hsites r Hr) as (Hs & Hnot & x & Hx & Hg).
  apply In_match_submodules in Hr as (Hc & _).
  split; [exact Hs | split; [exact Hnot|]]. now exists x, key.
Qed.

(** The outer loop of the IA3 notebook: on module objects it does what it
    does on the tree. *)
Lemma py_inject_keys_tree (keys : list string) :
  forall cur done replaced processed,
    injected orig adapter_fn cur done replaced ->
    (forall k, In k done -> In k match_on) ->
    (forall k, In k keys -> In k match_on) ->
    NoDup keys -> (forall k, In k keys -> ~ In k done) ->
    (forall r, In r processed -> In r replaced) ->
    unshared cur -> unshadowed cls cur = true ->
    objects_from orig match_on adapter_fn replaced cur ->
    py_inject_keys cls adapter_fn keys (mkInjectState cur processed) =
    inject_keys adapter_fn keys (mkInjectState cur processed) /\
    unshadowed cls (st_model (fst (inject_keys adapter_fn keys
                                     (mkInjectState cur processed)))) = true.
Proof.
  induction keys as [|key keys IH];
    intros cur done replaced processed Hinv Hdone Hkeys Hnd Hfresh Hproc
           Hu Hsh Hobj.
  - cbn. now split.
  - inversion Hnd as [|? ? Hkey Hnd']; subst.
    pose proof (Hkeys key (or_introl eq_refl)) as Hin.
    pose proof (Hfresh key (or_introl eq_refl)) as Hnew.
    destruct (matching_layers_are_sites orig match_on adapter_fn orig_wf
                keys_nonempty selected cur done replaced key Hinv Hdone Hin Hnew)
      as (HndL & Hsites & _).
    destruct (inject_step orig match_on adapter_fn orig_wf keys_nonempty
                selected cur done replaced key Hinv Hdone Hin Hnew)
      as (cur' & Hrun & Hinv').
    destruct (inject_layers_replace_sites adapter_fn
                (match_submodules cur key) (mkInjectState cur processed) HndL)
      as (processed' & Hloop & Hsub).
    { intros r Hr Hp. destruct (Hsites r Hr) as (_ & Hnot & _).
      apply Hnot, Hproc, Hp. }
    cbn [st_model st_processed] in Hloop, Hsub. rewrite Hrun in Hloop.
    cbn [fst snd] in Hloop.
    destruct (py_inject_layers_tree cls orig match_on adapter_fn fresh
                (match_submodules cur key) cur processed replaced
                (inj_wf Hinv) Hu Hsh Hobj HndL)
      as (Heq & Hu' & Hsh' & Hobj').
    { intros r Hr.
      destruct (matching_layers_selected cur done replaced key Hinv Hdone Hin
                  Hnew r Hr) as (H1 & H2 & H3).
      split; [exact H1 | split; [exact H2 | split; [|exact H3]]].
      intros Hp. apply H2, Hproc, Hp. }
    rewrite Hloop in Heq, Hu', Hsh', Hobj'. cbn [fst st_model] in Hu', Hsh', Hobj'.
    cbn [py_inject_keys inject_keys st_model].
    rewrite (py_match_submodules_unshared cur key Hu), Heq, Hloop.
    apply (IH cur' (key :: done) (match_submodules cur key ++ replaced)
              processed' Hinv'); try assumption.
    + intros k [<-|Hk]; [exact Hin | now apply Hdone].
    + intros k Hk. apply Hkeys. now right.
    + intros k Hk [<-|Hd]; [contradiction|].
      now apply (Hfresh k (or_intror Hk)).
    + intros r Hr. apply in_or_app.
      destruct (Hsub r Hr) as [H|H]; [now left | right; now apply Hproc].
Qed.

End InjectObjectsKeys.

Section InjectObjectsKeysLoRA.
Variable cls : nat -> string -> bool.
Variable orig : Module.
Variable match_on : list string.
Variable g : Module -> result Module.
Hypothesis orig_wf : wf_module orig = true.
Hypothesis keys_nonempty : forall key, In key match_on -> key <> "".
Hypothesis selected : selects_leaves orig match_on (with_weight_device g).
Hypothesis fresh : new_objects cls orig match_on (with_weight_device g).
Hypothesis weights : weight_unshadowed cls orig match_on.

(** The outer loop of the LoRA notebook. *)
Lemma py_lora_inject_adapter_tree (keys : list string) :
  forall cur done replaced,
    injected orig (with_weight_device g) cur done replaced ->
    (forall k, In k done -> In k match_on) ->
    (forall k, In k keys -> In k match_on) ->
    NoDup keys -> (forall k, In k keys -> ~ In k done) ->
    unshared cur -> unshadowed cls cur = true ->
    objects_from orig match_on (with_weight_device g) replaced cur ->
    py_lora_inject_adapter cls cur keys g = lora_inject_adapter cur keys g /\
    unshadowed cls (fst (lora_inject_adapter cur keys g)) = true.
Proof.
  induction keys as [|key keys IH];
    intros cur done replaced Hinv Hdone Hkeys Hnd Hfresh Hu Hsh Hobj.
  - cbn. now split.
  - inversion Hnd as [|? ? Hkey Hnd']; subst.
    pose proof (Hkeys key (or_introl eq_refl)) as Hin.
    pose proof (Hfresh key (or_introl eq_refl)) as Hnew.
    destruct (matching_layers_are_sites orig match_on (with_weight_device g)
                orig_wf keys_nonempty selected cur done replaced key Hinv Hdone
                Hin Hnew) as (HndL & Hsites & _).
    destruct (inject_step orig match_on (with_weight_device g) orig_wf
                keys_nonempty selected cur done replaced key Hinv Hdone Hin Hnew)
      as (cur' & Hrun & Hinv').
    pose proof (lora_inject_layers_replace_sites g (match_submodules cur key) cur)
      as Hloop.
    rewrite Hrun in Hloop.
    destruct (py_lora_inject_layers_tree cls orig match_on g fresh weights
                (match_submodules cur key) cur replaced
                (inj_wf Hinv) Hu Hsh Hobj HndL)
      as (Heq & Hu' & Hsh' & Hobj').
    { intros r Hr.
      destruct (matching_layers_selected orig match_on (with_weight_device g)
                  orig_wf keys_nonempty selected cur done replaced key Hinv
                  Hdone Hin Hnew r Hr) as (H1 & H2 & H3).
      split; [exact H1 | split; [exact H2 | exact H3]]. }
    rewrite Hloop in Heq, Hu', Hsh', Hobj'. cbn [fst] in Hu', Hsh', Hobj'.
    cbn [py_lora_inject_adapter lora_inject_adapter].
    rewrite (py_match_submodules_unshared cur key Hu), Heq, Hloop.
    apply (IH cur' (key :: done) (match_submodules cur key ++ replaced) Hinv');
      try assumption.
    + intros k [<-|Hk]; [exact Hin | now apply Hdone].
    + intros k Hk. apply Hkeys. now right.
    + intros k Hk [<-|Hd]; [contradiction|].
      now apply (Hfresh k (or_intror Hk)).
Qed.

End InjectObjectsKeysLoRA.

(** The adapter function followed by the device lookup makes the objects
    the adapter function makes. *)
Lemma new_objects_with_weight_device (cls : nat -> string -> bool)
      (model : Module) (match_on : list string)
      (adapter_fn : Module -> result Module) :
  new_objects cls model match_on adapter_fn ->
  selects_leaves model match_on (with_weight_device adapter_fn) ->
  new_objects cls model match_on (with_weight_device adapter_fn).
Proof.
  intros Hnew Hsel p x key Hin Hkey Hc.
  destruct (Hnew p x key Hin Hkey Hc) as (y & Hy & Hu & Hsh & Hold & Hdis).
  destruct (Hsel p x key Hin Hkey Hc) as (_ & y' & Hy' & _).
  pose proof Hy' as Hy''.
  apply with_weight_device_inv in Hy'' as [Hgy _].
  rewrite Hy in Hgy. injection Hgy as <-.
  exists y. repeat split; try assumption.
  intros p' x' key' y0 Hin' Hkey' Hc' Hy0 Hne.
  apply with_weight_device_inv in Hy0 as [Hy0 _].
  exact (Hdis p' x' key' y0 Hin' Hkey' Hc' Hy0 Hne).
Qed.

(** On a well-formed model without shared objects and hidden names, with
    keys that select leaves and an adapter function that makes new objects,
    both injections do on module objects what they do on the tree. *)
Lemma py_inject_adapter_tree (cls : nat -> string -> bool) (model : Module)
      (match_on : list string) (adapter_fn : Module -> result Module) :
  wf_module model = true -> unshared model -> unshadowed cls model = true ->
  NoDup match_on -> (forall key, In key match_on -> key <> "") ->
  selects_leaves model match_on adapter_fn ->
  new_objects cls model match_on adapter_fn ->
  py_inject_adapter cls model match_on adapter_fn =
  inject_adapter model match_on adapter_fn /\
  unshadowed cls (fst (inject_adapter model match_on adapter_fn)) = true.
Proof.
  intros Hwf Hu Hsh Hnd Hne Hsel Hnew.
  destruct (py_inject_keys_tree cls model match_on adapter_fn Hwf Hne Hsel Hnew
              match_on model [] [] [] (injected_start model adapter_fn Hwf))
    as [Heq Hsh']; try easy.
  - apply objects_from_start.
  - unfold py_inject_adapter, inject_adapter. rewrite Heq.
    destruct (inject_keys adapter_fn match_on (mkInjectState model []))
      as [st r]. now split.
Qed.

Lemma py_lora_inject_tree (cls : nat -> string -> bool) (model : Module)
      (match_on : list string) (adapter_fn : Module -> result Module) :
  wf_module model = true -> unshared model -> unshadowed cls model = true ->
  NoDup match_on -> (forall key, In key match_on -> key <> "") ->
  selects_leaves model match_on (with_weight_device adapter_fn) ->
  new_objects cls model match_on adapter_fn ->
  weight_unshadowed cls model match_on ->
  py_lora_inject_adapter cls model match_on adapter_fn =
  lora_inject_adapter model match_on adapter_fn /\
  unshadowed cls (fst (lora_inject_adapter model match_on adapter_fn)) = true.
Proof.
  intros Hwf Hu Hsh Hnd Hne Hsel Hnew Hw.
  apply (py_lora_inject_adapter_tree cls model match_on adapter_fn Hwf Hne Hsel
           (new_objects_with_weight_device cls model match_on adapter_fn
              Hnew Hsel) Hw match_on model [] []
           (injected_start model _ Hwf)); try easy.
  apply objects_from_start.
Qed.

(* ------------------------------------------------------------------ *)
(** ** [replace_submodule] and [get_submodule] on module objects *)
(* ------------------------------------------------------------------ *)

Section ObjectPaths.
Variable cls : nat -> string -> bool.





End ObjectPaths.


(** The round trip also fails on a path that ends in the name of a
    parameter: [nn.Module.__setattr__] refuses to put a module there, so
    [replace_submodule] raises [TypeError]. *)
Lemma round_trip_fails_on_parameter_name :
  py_prefixes_resolve toy_class_attribute (toy_linear 0) "weight" /\
  py_replace_submodule toy_class_attribute (toy_linear 0) "weight" (toy_linear 1)
    = Raise (TypeError "weight") /\
  ~ py_round_trip toy_class_attribute (toy_linear 0) "weight" (toy_linear 1).
Proof.
  split; [|split].
  - unfold py_prefixes_resolve. simpl. constructor; [|constructor].
    eexists; reflexivity.
  - reflexivity.
  - intros (model' & Hrep & _). vm_compute in Hrep. discriminate Hrep.
Qed.

(** And it fails on a path that ends in the name of an attribute of the
    class, such as [forward]: [replace_submodule] registers the module,
    but [getattr] keeps finding the method of the class, which is not a
    module. *)
Lemma round_trip_fails_on_class_attribute :
  py_prefixes_resolve toy_class_attribute toy_model "forward" /\
  ~ py_names_parameter toy_class_attribute toy_model "forward" /\
  (exists model',
      py_replace_submodule toy_class_attribute toy_model "forward"
                           (toy_linear 7) = Ok model' /\
      dict_get "forward" (_modules model') = Some (toy_linear 7) /\
      py_get_submodule toy_class_attribute model' "forward"
      = Raise (AttributeError "forward")) /\
  ~ py_round_trip toy_class_attribute toy_model "forward" (toy_linear 7).
Proof.
  split; [|split; [|split]].
  - unfold py_prefixes_resolve. simpl. constructor; [|constructor].
    eexists; reflexivity.
  - intros (parent & p & Hg & Hp).
    vm_compute in Hg. injection Hg as <-. vm_compute in Hp. discriminate Hp.
  - eexists. split; [reflexivity|]. split; reflexivity.
  - intros (model' & Hrep & Hget).
    vm_compute in Hrep. injection Hrep as <-.
    vm_compute in Hget. discriminate Hget.
Qed.





(** X12.  In a model in which no module object is registered at two
    places, what [match_submodules] lists is closed under descent: when it
    lists the path of a module, it also lists the path of every child of
    that module (and so of everything below it). *)
Theorem match_submodules_descendants
        (model : Module) (key r : string) (x c : Module) (n : string) :
  unshared model ->
  In r (py_match_submodules model key) ->
  In (r, x) (py_named_modules "" model) ->
  In (n, c) (_modules x) ->
  In (join_dot r n) (py_match_submodules model key).
Proof.
  intros Hnd Hin Hx Hchild.
  rewrite py_match_submodules_unshared in Hin |- * by exact Hnd.
  rewrite py_named_modules_unshared in Hx by exact Hnd.
  apply In_match_submodules in Hin as [Hc _].
  apply In_match_submodules. split; [now apply contains_join_dot|].
  exists c. now apply (named_modules_child model "" r x n c).
Qed.

Lemma match_submodules_descendants_witness :
  In (join_dot "layers" "q_proj") (py_match_submodules toy_model "layers").
Proof.
  apply (match_submodules_descendants toy_model "layers" "layers" toy_block
           (toy_linear 2) "q_proj").
  - apply unsharedb_sound. reflexivity.
  - vm_compute. now left.
  - vm_compute. right. now left.
  - now left.
Defined.

(* ------------------------------------------------------------------ *)
(** ** Adapter injection on module objects *)
(* ------------------------------------------------------------------ *)

(** C2, as stated, fails where a selected module has submodules: the key
    ["layers"] selects the block and, with it, the two projections under
    it; once the block is replaced by its adapter the path
    ["layers.q_proj"] leads nowhere, and [inject_adapter] raises the
    [AttributeError] of [get_submodule]. *)
Lemma inject_adapter_nested_match_raises :
  py_match_submodules toy_model "layers" =
    ["layers"; "layers.q_proj"; "layers.k_proj"] /\
  snd (py_inject_adapter toy_class_attribute toy_model ["layers"] toy_adapter) =
    Raise (AttributeError "q_proj") /\
  py_get_submodule toy_class_attribute
    (fst (py_inject_adapter toy_class_attribute toy_model ["layers"] toy_adapter))
    "layers.q_proj" = Raise (AttributeError "q_proj") /\
  ~ py_replaces_matches toy_class_attribute toy_model ["layers"] toy_adapter
      (py_inject_adapter toy_class_attribute toy_model ["layers"] toy_adapter).
Proof.
  repeat split; try reflexivity.
  intros (Hret & _). vm_compute in Hret. discriminate Hret.
Qed.

(** C2, amended.  Let the model be well formed, with no module object
    registered at two places and no registered name that is an attribute
    of a class; let the keys be pairwise different, non-empty, and select
    leaves (every module whose dotted name contains a key has no submodule,
    the adapter function returns on it, and no other key occurs in its
    name or in the names the adapter puts under it); and let the adapter
    function make new objects of them.  Then [inject_adapter] (IA3
    notebook) returns; each module of the model whose name contains a key
    is replaced, at its path, by the adapter function applied to it; and
    every other module of the model is the object it was.  The same holds
    for [inject_adapter] of the LoRA notebook when, in addition, the
    selected modules carry a [weight] tensor that no attribute of their
    class hides (the adapter function followed by the device lookup
    returns on them). *)
Theorem inject_adapter_selected_leaves
        (class_attribute : nat -> string -> bool)
        (model : Module) (match_on : list string)
        (adapter_fn : Module -> result Module) :
  wf_module model = true ->
  unshared model ->
  unshadowed class_attribute model = true ->
  NoDup match_on ->
  (forall key, In key match_on -> key <> "") ->
  selects_leaves model match_on adapter_fn ->
  new_objects class_attribute model match_on adapter_fn ->
  py_replaces_matches class_attribute model match_on adapter_fn
    (py_inject_adapter class_attribute model match_on adapter_fn) /\
  (selects_leaves model match_on (with_weight_device adapter_fn) ->
   weight_unshadowed class_attribute model match_on ->
   py_replaces_matches class_attribute model match_on adapter_fn
     (py_lora_inject_adapter class_attribute model match_on adapter_fn)).
Proof.
  intros Hwf Hu Hsh Hnd Hne Hsel Hnew.
  destruct (inject_leaves_tree model match_on adapter_fn Hwf Hnd Hne Hsel)
    as [(R1 & R2 & R3) HL].
  split.
  - destruct (py_inject_adapter_tree class_attribute model match_on adapter_fn
                Hwf Hu Hsh Hnd Hne Hsel Hnew) as [Heq Hsh'].
    unfold py_replaces_matches. rewrite Heq.
    rewrite (py_named_modules_unshared model "" Hu).
    split; [exact R1|]. split.
    + intros p x Hin Hex. destruct (R2 p x Hin Hex) as (y & Hy & Hg).
      exists y. split; [exact Hy|].
      now rewrite py_get_submodule_unshadowed.
    + intros p x Hin Hno. destruct (R3 p x Hin Hno) as (x' & Hg & Hs).
      exists x'. split; [|exact Hs].
      now rewrite py_get_submodule_unshadowed.
  - intros Hsel' Hw. destruct (HL Hsel') as (L1 & L2 & L3).
    destruct (py_lora_inject_tree class_attribute model match_on adapter_fn
                Hwf Hu Hsh Hnd Hne Hsel' Hnew Hw) as [Heq Hsh'].
    unfold py_replaces_matches. rewrite Heq.
    rewrite (py_named_modules_unshared model "" Hu).
    split; [exact L1|]. split.
    + intros p x Hin Hex. destruct (L2 p x Hin Hex) as (y & Hy & Hg).
      exists y. split; [exact Hy|].
      now rewrite py_get_submodule_unshadowed.
    + intros p x Hin Hno. destruct (L3 p x Hin Hno) as (x' & Hg & Hs).
      exists x'. split; [|exact Hs].
      now rewrite py_get_submodule_unshadowed.
Qed.

Lemma inject_adapter_selected_leaves_witness :
  py_replaces_matches toy_class_attribute toy_model ["q_proj"; "k_proj"]
    toy_adapter
    (py_inject_adapter toy_class_attribute toy_model ["q_proj"; "k_proj"]
                       toy_adapter) /\
  py_replaces_matches toy_class_attribute toy_model ["q_proj"; "k_proj"]
    toy_adapter
    (py_lora_inject_adapter toy_class_attribute toy_model ["q_proj"; "k_proj"]
                            toy_adapter).
Proof.
  destruct (inject_adapter_selected_leaves toy_class_attribute toy_model
              ["q_proj"; "k_proj"] toy_adapter) as [H1 H2].
  - reflexivity.
  - apply unsharedb_sound. reflexivity.
  - reflexivity.
  - repeat constructor; simpl; intuition discriminate.
  - intros key [<-|[<-|[]]]; discriminate.
  - apply selects_leavesb_sound. vm_compute. reflexivity.
  - apply new_objectsb_sound. vm_compute. reflexivity.
  - split; [exact H1|]. apply H2.
    + apply selects_leavesb_sound. vm_compute. reflexivity.
    + intros p x key _ _ _. reflexivity.
Defined.



